(** * Arc look-up indices of LEMON (lemon/core.h)

    A shallow embedding of the three arc look-up classes of [lemon/core.h]
    ([ArcLookUp], [AllArcLookUp], [DynArcLookUp]) and the properties of
    their search trees.

    Handles.  LEMON's [Node] and [Arc] are integer identifiers; the
    conversion of [INVALID] yields the identifier [-1].  Item maps
    ([NodeMap], [ArcMap]) are arrays subscripted by the identifier, and the
    graph accessors [source]/[target] subscript the graph's own arrays in
    the same way.  Subscripting by [INVALID] is outside every array: the
    embedding makes it the error [InvalidHandle].  Any other identifier
    reads what the array holds, also for an arc that was erased (neither
    the maps nor the graph clear the cell). *)

From Stdlib Require Import ZArith List Bool Lia Permutation Sorted.
Import ListNotations.
Open Scope Z_scope.

(** ** Handles, errors, maps *)

Abbreviation Node := Z (only parsing).
Abbreviation Arc := Z (only parsing).
Definition INVALID : Z := -1.

Inductive error : Type :=
| InvalidHandle   (* a map or an accessor subscripted by INVALID *)
| OutOfRange      (* std::vector subscripted outside its size   *)
| OutOfFuel.      (* a loop that did not finish within its bound *)

Inductive result (A : Type) : Type :=
| Ok (a : A)
| Err (e : error).
Arguments Ok {A} a.
Arguments Err {A} e.

Definition bind {A B : Type} (r : result A) (f : A -> result B) : result B :=
  match r with
  | Ok a => f a
  | Err e => Err e
  end.

Notation "x <- c ;; k" := (bind c (fun x => k))
  (at level 61, c at next level, right associativity).
Notation "' p <- c ;; k" := (bind c (fun x => let 'p := x in k))
  (at level 61, p pattern, c at next level, right associativity).

Definition is_ok {A : Type} (r : result A) : bool :=
  match r with Ok _ => true | Err _ => false end.

(** [holds_after r P]: the run [r] returns, and [P] holds of what it
    returns. *)
Definition holds_after {A : Type} (r : result A) (P : A -> Prop) : Prop :=
  match r with Ok a => P a | Err _ => False end.

(** [int] arithmetic, as compiled: 32 bits, two's complement. *)
Definition int_wrap (z : Z) : Z := (z + 2 ^ 31) mod 2 ^ 32 - 2 ^ 31.

(** An item map: [m[k]] and [m.set(k,v)]. *)
Definition ItemMap := Z -> Z.

Definition upd (m : ItemMap) (k v : Z) : ItemMap :=
  fun x => if x =? k then v else m x.

Definition get (m : ItemMap) (k : Z) : result Z :=
  if k =? INVALID then Err InvalidHandle else Ok (m k).

Definition set (m : ItemMap) (k v : Z) : result ItemMap :=
  if k =? INVALID then Err InvalidHandle else Ok (upd m k v).

(** [std::vector<Arc>] and [v[i]]. *)
Definition vec_at (v : list Arc) (i : Z) : result Arc :=
  if i <? 0 then Err OutOfRange
  else match nth_error v (Z.to_nat i) with
       | Some a => Ok a
       | None => Err OutOfRange
       end.

(** ** The digraph, as the look-up classes see it

    [nodes] is the order of [NodeIt], [arcs] the order in which the arc
    iterators meet the arcs; [source] and [target] are the accessors;
    [node_lt] is [operator<] of the graph's [Node] type. *)

Record Digraph : Type := {
  nodes : list Node;
  arcs : list Arc;
  source : Arc -> Node;
  target : Arc -> Node;
  node_lt : Node -> Node -> bool
}.

(** [_g.source(a)], [_g.target(a)]. *)
Definition g_source (g : Digraph) (a : Arc) : result Node := get (source g) a.
Definition g_target (g : Digraph) (a : Arc) : result Node := get (target g) a.

(** [for(OutArcIt e(_g,n);e!=INVALID;++e) v.push_back(e);] *)
Definition outArcs (g : Digraph) (n : Node) : list Arc :=
  filter (fun a => source g a =? n) (arcs g).

Definition out_arcs (g : Digraph) (n : Node) : result (list Arc) :=
  if n =? INVALID then Err InvalidHandle else Ok (outArcs g n).

(** The comparison object [ArcLess] (the same in both classes). *)
Definition ArcLess (g : Digraph) (a b : Arc) : bool :=
  node_lt g (target g a) (target g b).

(** [std::sort(v.begin(),v.end(),ArcLess(_g))].  [std::sort] asks for
    a strict weak ordering and leaves the vector rearranged and sorted
    by it; in which order it leaves elements that the comparison does
    not tell apart is the library's choice.  Here the vector is sorted
    by insertion, which keeps such elements in the order they had. *)
Fixpoint sort_insert (lt : Arc -> Arc -> bool) (x : Arc) (l : list Arc)
  : list Arc :=
  match l with
  | [] => [x]
  | y :: l' => if lt y x then y :: sort_insert lt x l' else x :: y :: l'
  end.

Definition std_sort (lt : Arc -> Arc -> bool) (l : list Arc) : list Arc :=
  fold_right (sort_insert lt) [] l.

(** Every loop of the classes walks down or up one search tree, so the
    number of arcs bounds its iterations on a tree; the bound is only
    reached on a structure with a cycle. *)
Definition fuel_of (g : Digraph) : nat := S (S (length (arcs g))).

(** The graph's own mutations (the graph classes are outside this file):
    [addArc] stores the arc and then notifies the observers; [erase]
    notifies the observers and then unlinks the arc, whose cells keep
    their contents. *)
Definition graph_add (g : Digraph) (a : Arc) (s t : Node) : Digraph :=
  {| nodes := nodes g;
     arcs := a :: arcs g;
     source := upd (source g) a s;
     target := upd (target g) a t;
     node_lt := node_lt g |}.

Definition graph_erase (g : Digraph) (a : Arc) : Digraph :=
  {| nodes := nodes g;
     arcs := filter (fun x => negb (x =? a)) (arcs g);
     source := source g;
     target := target g;
     node_lt := node_lt g |}.

(** A digraph given by its list of arcs [(id, source, target)], with the
    integers' order on node identifiers. *)
Definition mkDigraph (ns : list Node) (l : list (Arc * Node * Node)) : Digraph :=
  {| nodes := ns;
     arcs := map (fun x => fst (fst x)) l;
     source := fold_right (fun x m => upd m (fst (fst x)) (snd (fst x)))
                          (fun _ => INVALID) l;
     target := fold_right (fun x m => upd m (fst (fst x)) (snd x))
                          (fun _ => INVALID) l;
     node_lt := Z.ltb |}.

(** ** ArcLookUp *)

Module ArcLookUp.

Record state : Type := {
  _head : ItemMap;
  _left : ItemMap;
  _right : ItemMap
}.

Definition set_head (st : state) (n : Node) (a : Arc) : result state :=
  h <- set (_head st) n a ;;
  Ok {| _head := h; _left := _left st; _right := _right st |}.

Definition set_left (st : state) (k v : Arc) : result state :=
  m <- set (_left st) k v ;;
  Ok {| _head := _head st; _left := m; _right := _right st |}.

Definition set_right (st : state) (k v : Arc) : result state :=
  m <- set (_right st) k v ;;
  Ok {| _head := _head st; _left := _left st; _right := m |}.

(** [refreshRec(v,a,b)]; the recursion halves the range, [fuel] bounds
    its depth.  The middle [int m=(a+b)/2] is taken from the sum as an
    [int] holds it. *)
Fixpoint refreshRec (fuel : nat) (st : state) (v : list Arc) (a b : Z)
  : result (Arc * state) :=
  match fuel with
  | O => Err OutOfFuel
  | S f =>
    let m := Z.quot (int_wrap (a + b)) 2 in
    me <- vec_at v m ;;
    '(l, st) <- (if a <? m then refreshRec f st v a (m - 1)
                 else Ok (INVALID, st)) ;;
    st <- set_left st me l ;;
    '(r, st) <- (if m <? b then refreshRec f st v (m + 1) b
                 else Ok (INVALID, st)) ;;
    st <- set_right st me r ;;
    Ok (me, st)
  end.

(** [refresh(Node n)] *)
Definition refresh_node (g : Digraph) (st : state) (n : Node) : result state :=
  v <- out_arcs g n ;;
  if (0 <? Z.of_nat (length v)) then
    let v := std_sort (ArcLess g) v in
    '(h, st) <- refreshRec (length v) st v 0 (Z.of_nat (length v) - 1) ;;
    set_head st n h
  else set_head st n INVALID.

Fixpoint for_nodes (f : state -> Node -> result state) (st : state) (ns : list Node)
  : result state :=
  match ns with
  | [] => Ok st
  | n :: ns' => st <- f st n ;; for_nodes f st ns'
  end.

(** [refresh()] *)
Definition refresh (g : Digraph) (st : state) : result state :=
  for_nodes (refresh_node g) st (nodes g).

(** The constructor; [mem] is what the freshly allocated maps hold. *)
Definition make (g : Digraph) (mem : state) : result state := refresh g mem.

(** [operator()(s,t)] *)
Fixpoint lookup_loop (fuel : nat) (g : Digraph) (st : state) (t : Node) (e : Arc)
  : result Arc :=
  if e =? INVALID then Ok e
  else
    te <- g_target g e ;;
    if te =? t then Ok e
    else match fuel with
         | O => Err OutOfFuel
         | S f =>
           e' <- (if node_lt g t te then get (_left st) e
                  else get (_right st) e) ;;
           lookup_loop f g st t e'
         end.

Definition lookup (g : Digraph) (st : state) (s t : Node) : result Arc :=
  e <- get (_head st) s ;;
  lookup_loop (fuel_of g) g st t e.

End ArcLookUp.

(** ** AllArcLookUp *)

Module AllArcLookUp.

(** The class derives from [ArcLookUp<G>] and adds the map [_next]. *)
Record state : Type := {
  base : ArcLookUp.state;
  _next : ItemMap
}.

Definition set_next (st : state) (k v : Arc) : result state :=
  m <- set (_next st) k v ;;
  Ok {| base := base st; _next := m |}.

(** [refreshNext(head,next)]; the recursion follows the tree, [fuel]
    bounds its depth. *)
Fixpoint refreshNext (fuel : nat) (g : Digraph) (st : state) (head next : Arc)
  : result (Arc * state) :=
  if head =? INVALID then Ok (next, st)
  else match fuel with
       | O => Err OutOfFuel
       | S f =>
         r <- get (ArcLookUp._right (base st)) head ;;
         '(next, st) <- refreshNext f g st r next ;;
         v <- (if negb (next =? INVALID) then
                 tn <- g_target g next ;;
                 th <- g_target g head ;;
                 Ok (if tn =? th then next else INVALID)
               else Ok INVALID) ;;
         st <- set_next st head v ;;
         l <- get (ArcLookUp._left (base st)) head ;;
         refreshNext f g st l head
       end.

(** [refreshNext()] *)
Fixpoint refreshNext_all (g : Digraph) (st : state) (ns : list Node) : result state :=
  match ns with
  | [] => Ok st
  | n :: ns' =>
    h <- get (ArcLookUp._head (base st)) n ;;
    '(_, st) <- refreshNext (fuel_of g) g st h INVALID ;;
    refreshNext_all g st ns'
  end.

(** The constructor: [ArcLookUp<G>(g)], then [refreshNext()]. *)
Definition make (g : Digraph) (mem : state) : result state :=
  b <- ArcLookUp.make g (base mem) ;;
  refreshNext_all g {| base := b; _next := _next mem |} (nodes g).

(** [refresh(Node n)] *)
Definition refresh_node (g : Digraph) (st : state) (n : Node) : result state :=
  b <- ArcLookUp.refresh_node g (base st) n ;;
  let st := {| base := b; _next := _next st |} in
  h <- get (ArcLookUp._head b) n ;;
  '(_, st) <- refreshNext (fuel_of g) g st h INVALID ;;
  Ok st.

(** [refresh()]: the body is [refresh(_head[n])], so the handle handed to
    [refresh(Node)] is the identifier of the arc at the root of [n]. *)
Fixpoint refresh_loop (g : Digraph) (st : state) (ns : list Node) : result state :=
  match ns with
  | [] => Ok st
  | n :: ns' =>
    h <- get (ArcLookUp._head (base st)) n ;;
    st <- refresh_node g st h ;;
    refresh_loop g st ns'
  end.

Definition refresh (g : Digraph) (st : state) : result state :=
  refresh_loop g st (nodes g).

(** [operator()(s,t)], inherited by [using ArcLookUp<G>::operator()]. *)
Definition lookup (g : Digraph) (st : state) (s t : Node) : result Arc :=
  ArcLookUp.lookup g (base st) s t.

(** [operator()(s,t,prev)] *)
Definition lookup_next (g : Digraph) (st : state) (s t : Node) (prev : Arc)
  : result Arc :=
  if prev =? INVALID then lookup g st s t else get (_next st) prev.

(** The loop of the class documentation,
    [for(Arc e=ae(u,v);e!=INVALID;e=ae(u,v,e))], collecting the arcs it
    meets. *)
Fixpoint enumerate_from (fuel : nat) (g : Digraph) (st : state) (s t : Node)
  (e : Arc) : result (list Arc) :=
  if e =? INVALID then Ok []
  else match fuel with
       | O => Err OutOfFuel
       | S f =>
         e' <- lookup_next g st s t e ;;
         l <- enumerate_from f g st s t e' ;;
         Ok (e :: l)
       end.

Definition enumerate (g : Digraph) (st : state) (s t : Node) : result (list Arc) :=
  e <- lookup g st s t ;;
  enumerate_from (fuel_of g) g st s t e.

End AllArcLookUp.

(** ** DynArcLookUp *)

Module DynArcLookUp.

Record state : Type := {
  _head : ItemMap;
  _parent : ItemMap;
  _left : ItemMap;
  _right : ItemMap
}.

Definition set_head (st : state) (n : Node) (a : Arc) : result state :=
  m <- set (_head st) n a ;;
  Ok {| _head := m; _parent := _parent st;
        _left := _left st; _right := _right st |}.

Definition set_parent (st : state) (k v : Arc) : result state :=
  m <- set (_parent st) k v ;;
  Ok {| _head := _head st; _parent := m;
        _left := _left st; _right := _right st |}.

Definition set_left (st : state) (k v : Arc) : result state :=
  m <- set (_left st) k v ;;
  Ok {| _head := _head st; _parent := _parent st;
        _left := m; _right := _right st |}.

Definition set_right (st : state) (k v : Arc) : result state :=
  m <- set (_right st) k v ;;
  Ok {| _head := _head st; _parent := _parent st;
        _left := _left st; _right := m |}.

Definition parent_of (st : state) (a : Arc) : result Arc := get (_parent st) a.
Definition left_of (st : state) (a : Arc) : result Arc := get (_left st) a.
Definition right_of (st : state) (a : Arc) : result Arc := get (_right st) a.
Definition head_of (st : state) (n : Node) : result Arc := get (_head st) n.

(** [zig(v)] *)
Definition zig (st : state) (v : Arc) : result state :=
  w <- parent_of st v ;;
  pw <- parent_of st w ;;
  st <- set_parent st v pw ;;
  st <- set_parent st w v ;;
  rv <- right_of st v ;;
  st <- set_left st w rv ;;
  st <- set_right st v w ;;
  pv <- parent_of st v ;;
  st <- (if negb (pv =? INVALID) then
           rp <- right_of st pv ;;
           if rp =? w then set_right st pv v else set_left st pv v
         else Ok st) ;;
  lw <- left_of st w ;;
  if negb (lw =? INVALID) then set_parent st lw w else Ok st.

(** [zag(v)] *)
Definition zag (st : state) (v : Arc) : result state :=
  w <- parent_of st v ;;
  pw <- parent_of st w ;;
  st <- set_parent st v pw ;;
  st <- set_parent st w v ;;
  lv <- left_of st v ;;
  st <- set_right st w lv ;;
  st <- set_left st v w ;;
  pv <- parent_of st v ;;
  st <- (if negb (pv =? INVALID) then
           lp <- left_of st pv ;;
           if lp =? w then set_left st pv v else set_right st pv v
         else Ok st) ;;
  rw <- right_of st w ;;
  if negb (rw =? INVALID) then set_parent st rw w else Ok st.

(** One round of the loop of [splay(v)], entered with
    [_parent[v] != INVALID]. *)
Definition splay_step (st : state) (v : Arc) : result state :=
  p <- parent_of st v ;;
  lp <- left_of st p ;;
  if v =? lp then
    pp <- parent_of st p ;;
    if pp =? INVALID then zig st v
    else
      lpp <- left_of st pp ;;
      if p =? lpp then
        st <- zig st p ;; zig st v
      else
        st <- zig st v ;; zag st v
  else
    pp <- parent_of st p ;;
    if pp =? INVALID then zag st v
    else
      lpp <- left_of st pp ;;
      if p =? lpp then
        st <- zag st v ;; zig st v
      else
        st <- zag st p ;; zag st v.

Fixpoint splay_loop (fuel : nat) (st : state) (v : Arc) : result state :=
  p <- parent_of st v ;;
  if p =? INVALID then Ok st
  else match fuel with
       | O => Err OutOfFuel
       | S f => st <- splay_step st v ;; splay_loop f st v
       end.

(** [splay(v)] *)
Definition splay (g : Digraph) (st : state) (v : Arc) : result state :=
  st <- splay_loop (fuel_of g) st v ;;
  s <- g_source g v ;;
  set_head st s v.

(** The loop of [insert(arc)] from the arc [e] on. *)
Fixpoint insert_loop (fuel : nat) (g : Digraph) (st : state) (arc : Arc)
  (t : Node) (e : Arc) : result state :=
  match fuel with
  | O => Err OutOfFuel
  | S f =>
    te <- g_target g e ;;
    if node_lt g t te then
      le <- left_of st e ;;
      if le =? INVALID then
        st <- set_left st e arc ;;
        st <- set_parent st arc e ;;
        splay g st arc
      else insert_loop f g st arc t le
    else
      re <- right_of st e ;;
      if re =? INVALID then
        st <- set_right st e arc ;;
        st <- set_parent st arc e ;;
        splay g st arc
      else insert_loop f g st arc t re
  end.

(** [insert(arc)] *)
Definition insert (g : Digraph) (st : state) (arc : Arc) : result state :=
  s <- g_source g arc ;;
  t <- g_target g arc ;;
  st <- set_left st arc INVALID ;;
  st <- set_right st arc INVALID ;;
  e <- head_of st s ;;
  if e =? INVALID then
    st <- set_head st s arc ;;
    set_parent st arc INVALID
  else insert_loop (fuel_of g) g st arc t e.

(** The loop [while (_right[e] != INVALID) e = _right[e];] *)
Fixpoint rightmost (fuel : nat) (st : state) (e : Arc) : result Arc :=
  r <- right_of st e ;;
  if negb (r =? INVALID) then
    match fuel with
    | O => Err OutOfFuel
    | S f => rightmost f st r
    end
  else Ok e.

(** In [remove]: redirect the child slot of [_parent[arc]] that holds
    [arc], or the head when [arc] has no parent and [or_head] is set. *)
Definition replace_in_parent (g : Digraph) (st : state) (arc c : Arc)
  (or_head : bool) : result state :=
  p <- parent_of st arc ;;
  if negb (p =? INVALID) then
    lp <- left_of st p ;;
    if lp =? arc then set_left st p c else set_right st p c
  else if or_head then
    s <- g_source g arc ;;
    set_head st s c
  else Ok st.

(** [remove(arc)] *)
Definition remove (g : Digraph) (st : state) (arc : Arc) : result state :=
  la <- left_of st arc ;;
  if la =? INVALID then
    ra <- right_of st arc ;;
    st <- (if negb (ra =? INVALID) then
             p <- parent_of st arc ;; set_parent st ra p
           else Ok st) ;;
    replace_in_parent g st arc ra true
  else
    ra <- right_of st arc ;;
    if ra =? INVALID then
      p <- parent_of st arc ;;
      st <- set_parent st la p ;;
      replace_in_parent g st arc la true
    else
      let e := la in
      re <- right_of st e ;;
      if negb (re =? INVALID) then
        e <- rightmost (fuel_of g) st re ;;
        s <- parent_of st e ;;
        le <- left_of st e ;;
        st <- set_right st s le ;;
        st <- (if negb (le =? INVALID) then set_parent st le s else Ok st) ;;
        la <- left_of st arc ;;
        st <- set_left st e la ;;
        la <- left_of st arc ;;
        st <- set_parent st la e ;;
        ra <- right_of st arc ;;
        st <- set_right st e ra ;;
        ra <- right_of st arc ;;
        st <- set_parent st ra e ;;
        p <- parent_of st arc ;;
        st <- set_parent st e p ;;
        st <- replace_in_parent g st arc e false ;;
        splay g st s
      else
        ra <- right_of st arc ;;
        st <- set_right st e ra ;;
        ra <- right_of st arc ;;
        st <- set_parent st ra e ;;
        replace_in_parent g st arc e true.

(** [refreshRec(v,a,b)], with [int m=(a+b)/2] as above. *)
Fixpoint refreshRec (fuel : nat) (st : state) (v : list Arc) (a b : Z)
  : result (Arc * state) :=
  match fuel with
  | O => Err OutOfFuel
  | S f =>
    let m := Z.quot (int_wrap (a + b)) 2 in
    me <- vec_at v m ;;
    st <- (if a <? m then
             '(l, st) <- refreshRec f st v a (m - 1) ;;
             st <- set_left st me l ;;
             set_parent st l me
           else set_left st me INVALID) ;;
    st <- (if m <? b then
             '(r, st) <- refreshRec f st v (m + 1) b ;;
             st <- set_right st me r ;;
             set_parent st r me
           else set_right st me INVALID) ;;
    Ok (me, st)
  end.

(** The body of the loop of [refresh()] for the node [n]. *)
Definition refresh_node (g : Digraph) (st : state) (n : Node) : result state :=
  v <- out_arcs g n ;;
  if (0 <? Z.of_nat (length v)) then
    let v := std_sort (ArcLess g) v in
    '(h, st) <- refreshRec (length v) st v 0 (Z.of_nat (length v) - 1) ;;
    st <- set_head st n h ;;
    set_parent st h INVALID
  else set_head st n INVALID.

Fixpoint for_nodes (f : state -> Node -> result state) (st : state) (ns : list Node)
  : result state :=
  match ns with
  | [] => Ok st
  | n :: ns' => st <- f st n ;; for_nodes f st ns'
  end.

(** [refresh()] *)
Definition refresh (g : Digraph) (st : state) : result state :=
  for_nodes (refresh_node g) st (nodes g).

(** The constructor: [_head] is an [AutoNodeMap], filled with INVALID;
    [mem] is what the three freshly allocated arc maps hold. *)
Definition make (g : Digraph) (mem : state) : result state :=
  refresh g {| _head := fun _ => INVALID; _parent := _parent mem;
               _left := _left mem; _right := _right mem |}.

(** The notifications [add(arc)], [add(arcs)], [erase(arc)],
    [erase(arcs)], [build()], [clear()]. *)
Definition add (g : Digraph) (st : state) (arc : Arc) : result state :=
  insert g st arc.

Fixpoint add_all (g : Digraph) (st : state) (l : list Arc) : result state :=
  match l with
  | [] => Ok st
  | a :: l' => st <- insert g st a ;; add_all g st l'
  end.

Definition erase (g : Digraph) (st : state) (arc : Arc) : result state :=
  remove g st arc.

Fixpoint erase_all (g : Digraph) (st : state) (l : list Arc) : result state :=
  match l with
  | [] => Ok st
  | a :: l' => st <- remove g st a ;; erase_all g st l'
  end.

Definition build (g : Digraph) (st : state) : result state := refresh g st.

Definition clear (g : Digraph) (st : state) : result state :=
  for_nodes (fun st n => set_head st n INVALID) st (nodes g).

(** [operator()(s,t)]: the loop from the arc [a] on. *)
Fixpoint lookup_loop (fuel : nat) (g : Digraph) (st : state) (t : Node) (a : Arc)
  : result (Arc * state) :=
  match fuel with
  | O => Err OutOfFuel
  | S f =>
    ta <- g_target g a ;;
    if ta =? t then
      st <- splay g st a ;; Ok (a, st)
    else if node_lt g t ta then
      la <- left_of st a ;;
      if la =? INVALID then
        st <- splay g st a ;; Ok (INVALID, st)
      else lookup_loop f g st t la
    else
      ra <- right_of st a ;;
      if ra =? INVALID then
        st <- splay g st a ;; Ok (INVALID, st)
      else lookup_loop f g st t ra
  end.

Definition lookup (g : Digraph) (st : state) (s t : Node) : result (Arc * state) :=
  a <- head_of st s ;;
  lookup_loop (fuel_of g) g st t a.

(** [findFirst(s,t)]: the loop from the arc [a] on, with [r] the best
    arc so far. *)
Fixpoint findFirst_loop (fuel : nat) (g : Digraph) (st : state) (t : Node)
  (a r : Arc) : result (Arc * state) :=
  match fuel with
  | O => Err OutOfFuel
  | S f =>
    ta <- g_target g a ;;
    if node_lt g ta t then
      ra <- right_of st a ;;
      if ra =? INVALID then
        st <- splay g st a ;; Ok (r, st)
      else findFirst_loop f g st t ra r
    else
      let r := if ta =? t then a else r in
      la <- left_of st a ;;
      if la =? INVALID then
        st <- splay g st a ;; Ok (r, st)
      else findFirst_loop f g st t la r
  end.

Definition findFirst (g : Digraph) (st : state) (s t : Node) : result (Arc * state) :=
  a <- head_of st s ;;
  findFirst_loop (fuel_of g) g st t a INVALID.

(** The two loops of [findNext]. *)
Fixpoint leftmost (fuel : nat) (st : state) (a : Arc) : result Arc :=
  l <- left_of st a ;;
  if negb (l =? INVALID) then
    match fuel with
    | O => Err OutOfFuel
    | S f => leftmost f st l
    end
  else Ok a.

Fixpoint climb_right (fuel : nat) (st : state) (a : Arc) : result Arc :=
  p <- parent_of st a ;;
  if negb (p =? INVALID) then
    rp <- right_of st p ;;
    if rp =? a then
      match fuel with
      | O => Err OutOfFuel
      | S f => climb_right f st p
      end
    else Ok a
  else Ok a.

(** [findNext(s,t,a)] *)
Definition findNext (g : Digraph) (st : state) (s t : Node) (a : Arc)
  : result (Arc * state) :=
  ra <- right_of st a ;;
  if negb (ra =? INVALID) then
    a <- leftmost (fuel_of g) st ra ;;
    st <- splay g st a ;;
    ta <- g_target g a ;;
    Ok (if ta =? t then a else INVALID, st)
  else
    a <- climb_right (fuel_of g) st a ;;
    p <- parent_of st a ;;
    if p =? INVALID then Ok (INVALID, st)
    else
      let a := p in
      st <- splay g st a ;;
      ta <- g_target g a ;;
      Ok (if ta =? t then a else INVALID, st).

End DynArcLookUp.

(** ** Specification vocabulary *)

(** What the graph classes guarantee of their own data. *)
Record wf_graph (g : Digraph) : Prop := {
  wf_arcs_nodup : NoDup (arcs g);
  wf_arcs_valid : ~ In INVALID (arcs g);
  wf_nodes_valid : ~ In INVALID (nodes g);
  wf_source : forall a, In a (arcs g) -> In (source g a) (nodes g)
}.

(** [operator<] on node identities is a strict total order. *)
Record strict_total (lt : Node -> Node -> bool) : Prop := {
  lt_irrefl : forall a, lt a a = false;
  lt_trans : forall a b c, lt a b = true -> lt b c = true -> lt a c = true;
  lt_total : forall a b, a <> b -> lt a b = true \/ lt b a = true
}.

(** [tle g a b]: the target of [a] is not above the target of [b]. *)
Definition tle (g : Digraph) (a b : Arc) : Prop :=
  node_lt g (target g b) (target g a) = false.

(** [in_tree lft rgt x c]: the arc [c] is met in the tree whose root
    pointer is [x], following the child maps. *)
Inductive in_tree (lft rgt : ItemMap) : Arc -> Arc -> Prop :=
| in_tree_root : forall x, x <> INVALID -> in_tree lft rgt x x
| in_tree_left : forall x c,
    x <> INVALID -> in_tree lft rgt (lft x) c -> in_tree lft rgt x c
| in_tree_right : forall x c,
    x <> INVALID -> in_tree lft rgt (rgt x) c -> in_tree lft rgt x c.

(** The order of a search tree as the specification words it: below the
    left slot strictly smaller targets, below the right slot targets that
    are not smaller. *)
Definition strict_bst (g : Digraph) (lft rgt : ItemMap) (x : Arc) : Prop :=
  forall X, in_tree lft rgt x X ->
    (forall C, in_tree lft rgt (lft X) C ->
               node_lt g (target g C) (target g X) = true) /\
    (forall C, in_tree lft rgt (rgt X) C ->
               node_lt g (target g C) (target g X) = false).

(** The order the trees do have: targets that are not larger below the
    left slot, targets that are not smaller below the right slot. *)
Definition weak_bst (g : Digraph) (lft rgt : ItemMap) (x : Arc) : Prop :=
  forall X, in_tree lft rgt x X ->
    (forall C, in_tree lft rgt (lft X) C -> tle g C X) /\
    (forall C, in_tree lft rgt (rgt X) C -> tle g X C).

(** The tree of [n] holds exactly the arcs leaving [n]. *)
Definition tree_is_out_arcs (g : Digraph) (st : DynArcLookUp.state) (n : Node)
  : Prop :=
  forall a, in_tree (DynArcLookUp._left st) (DynArcLookUp._right st)
                    (DynArcLookUp._head st n) a
            <-> In a (outArcs g n).

(** [C] sits in exactly one of the two child slots of [X]. *)
Definition in_one_slot (st : DynArcLookUp.state) (X C : Arc) : Prop :=
  (DynArcLookUp._left st X = C /\ DynArcLookUp._right st X <> C) \/
  (DynArcLookUp._left st X <> C /\ DynArcLookUp._right st X = C).

(** Parent and child maps agree on the arcs of the graph. *)
Definition parent_child_consistent (g : Digraph) (st : DynArcLookUp.state)
  : Prop :=
  forall X C, In X (arcs g) -> In C (arcs g) ->
    (DynArcLookUp._parent st C = X <-> in_one_slot st X C).

(** The arcs from [s] to [t]. *)
Definition arcs_between (g : Digraph) (s t : Node) : list Arc :=
  filter (fun a => (source g a =? s) && (target g a =? t)) (arcs g).

(** ** Search trees as values *)

Inductive tree : Type :=
| Leaf
| Tr (l : tree) (a : Arc) (r : tree).

Fixpoint inorder (t : tree) : list Arc :=
  match t with
  | Leaf => []
  | Tr l a r => inorder l ++ a :: inorder r
  end.

Definition root (t : tree) : Arc :=
  match t with
  | Leaf => INVALID
  | Tr _ a _ => a
  end.

(** The child maps hold the tree [t] at the pointer [x]. *)
Fixpoint shape (lft rgt : ItemMap) (x : Arc) (t : tree) : Prop :=
  match t with
  | Leaf => x = INVALID
  | Tr l a r =>
    x = a /\ a <> INVALID /\
    shape lft rgt (lft a) l /\ shape lft rgt (rgt a) r
  end.

(** The three maps of the dynamic index hold [t] at [x] below the
    parent [p]. *)
Fixpoint repr (st : DynArcLookUp.state) (p x : Arc) (t : tree) : Prop :=
  match t with
  | Leaf => x = INVALID
  | Tr l a r =>
    x = a /\ a <> INVALID /\ DynArcLookUp._parent st a = p /\
    repr st a (DynArcLookUp._left st a) l /\
    repr st a (DynArcLookUp._right st a) r
  end.

(** A path from a position of a tree up to its root: the arc passed and
    the sibling subtree left aside at each step. *)
Inductive frame : Type :=
| FL (a : Arc) (r : tree)    (* the position is the left child of [a]  *)
| FR (l : tree) (a : Arc).   (* the position is the right child of [a] *)

Definition ctx := list frame.

Fixpoint plug (c : ctx) (t : tree) : tree :=
  match c with
  | [] => t
  | FL a r :: c' => plug c' (Tr t a r)
  | FR l a :: c' => plug c' (Tr l a t)
  end.

Definition cparent (c : ctx) : Arc :=
  match c with
  | [] => INVALID
  | FL a _ :: _ => a
  | FR _ a :: _ => a
  end.

Fixpoint cbefore (c : ctx) : list Arc :=
  match c with
  | [] => []
  | FL _ _ :: c' => cbefore c'
  | FR l a :: c' => cbefore c' ++ inorder l ++ [a]
  end.

Fixpoint cafter (c : ctx) : list Arc :=
  match c with
  | [] => []
  | FL a r :: c' => a :: inorder r ++ cafter c'
  | FR _ _ :: c' => cafter c'
  end.

(** The maps hold the path [c] above the pointer [x]. *)
Fixpoint cshape (st : DynArcLookUp.state) (c : ctx) (x : Arc) : Prop :=
  match c with
  | [] => True
  | FL a r :: c' =>
    a <> INVALID /\ DynArcLookUp._left st a = x /\
    DynArcLookUp._parent st a = cparent c' /\
    repr st a (DynArcLookUp._right st a) r /\ cshape st c' a
  | FR l a :: c' =>
    a <> INVALID /\ DynArcLookUp._right st a = x /\
    DynArcLookUp._parent st a = cparent c' /\
    repr st a (DynArcLookUp._left st a) l /\ cshape st c' a
  end.

(** The well-formed states of the dynamic index over [g]: every node's
    head points to a tree with parent links, holding the node's
    outgoing arcs in the order of their targets. *)
Definition dyn_wf (g : Digraph) (st : DynArcLookUp.state) : Prop :=
  forall n, In n (nodes g) ->
    exists T, repr st INVALID (DynArcLookUp._head st n) T /\
              Permutation (inorder T) (outArcs g n) /\
              StronglySorted (tle g) (inorder T).

(** ** Sample graphs and map contents *)

Definition static_mem : ArcLookUp.state :=
  {| ArcLookUp._head := fun _ => INVALID;
     ArcLookUp._left := fun _ => INVALID;
     ArcLookUp._right := fun _ => INVALID |}.

Definition all_mem : AllArcLookUp.state :=
  {| AllArcLookUp.base := static_mem; AllArcLookUp._next := fun _ => INVALID |}.

Definition dyn_mem : DynArcLookUp.state :=
  {| DynArcLookUp._head := fun _ => INVALID;
     DynArcLookUp._parent := fun _ => INVALID;
     DynArcLookUp._left := fun _ => INVALID;
     DynArcLookUp._right := fun _ => INVALID |}.

(** One node, no arc. *)
Definition g_lonely : Digraph := mkDigraph [0] [].

(** Two nodes, one arc 0 -> 1. *)
Definition g_one_arc : Digraph := mkDigraph [0; 1] [(10, 0, 1)].

(** Three parallel arcs 0 -> 1. *)
Definition g_parallel : Digraph :=
  mkDigraph [0; 1] [(10, 0, 1); (11, 0, 1); (12, 0, 1)].

(** Two arcs 0 -> 1 and one arc 0 -> 3. *)
Definition g_twin : Digraph :=
  mkDigraph [0; 1; 2; 3] [(10, 0, 1); (11, 0, 3); (12, 0, 1)].

(** Three arcs from node 0, to 1, 2 and 3. *)
Definition g_three : Digraph :=
  mkDigraph [0; 1; 2; 3; 4; 5] [(10, 0, 1); (11, 0, 2); (12, 0, 3)].

(** Six arcs from node 0. *)
Definition g_six : Digraph :=
  mkDigraph [0; 1; 2; 3; 4; 5; 6]
    [(10, 0, 1); (11, 0, 2); (12, 0, 3); (13, 0, 4); (14, 0, 5); (15, 0, 6)].

(** A graph before and after its arcs 1 and 2 were erased and two arcs
    added that took over the identifiers, plus one arc 2 -> 1 more. *)
Definition g_before : Digraph :=
  mkDigraph [0; 1; 2] [(1, 0, 0); (2, 1, 0); (0, 2, 0)].

Definition g_after : Digraph :=
  mkDigraph [0; 1; 2] [(2, 0, 0); (1, 1, 0); (0, 2, 0); (3, 2, 1)].

(** A comparison of node identities that cannot tell 0 from 1. *)
Definition coarse_lt (a b : Node) : bool := a / 2 <? b / 2.

Definition g_coarse : Digraph :=
  {| nodes := [0; 1];
     arcs := [10; 11; 12];
     source := fun _ => 0;
     target := fun a => if a =? 10 then 0 else 1;
     node_lt := coarse_lt |}.

(** After a build the tree of [n] lists the arcs leaving [n] as the
    sort left them. *)
Definition static_good (g : Digraph) (st : ArcLookUp.state) (n : Node) : Prop :=
  exists T,
    shape (ArcLookUp._left st) (ArcLookUp._right st) (ArcLookUp._head st n) T /\
    inorder T = std_sort (ArcLess g) (outArcs g n).

Fixpoint depth (t : tree) : nat :=
  match t with
  | Leaf => O
  | Tr l _ r => S (Nat.max (depth l) (depth r))
  end.

(** The same for the dynamic index, with the parent links. *)
Definition dyn_built (g : Digraph) (st : DynArcLookUp.state) (n : Node) : Prop :=
  exists T,
    repr st INVALID (DynArcLookUp._head st n) T /\
    inorder T = std_sort (ArcLess g) (outArcs g n).

(** The two states hold the same in the three arc maps at the arcs of [l]. *)
Definition agree_on (l : list Arc) (st st' : DynArcLookUp.state) : Prop :=
  forall a, In a l ->
    DynArcLookUp._parent st' a = DynArcLookUp._parent st a /\
    DynArcLookUp._left st' a = DynArcLookUp._left st a /\
    DynArcLookUp._right st' a = DynArcLookUp._right st a.

(** The two states hold the same in the three arc maps outside [l]. *)
Definition agree_off (l : list Arc) (st st' : DynArcLookUp.state) : Prop :=
  forall a, ~ In a l ->
    DynArcLookUp._parent st' a = DynArcLookUp._parent st a /\
    DynArcLookUp._left st' a = DynArcLookUp._left st a /\
    DynArcLookUp._right st' a = DynArcLookUp._right st a.

(** Well-formed for the arcs of [A] only (while a batch of arcs is
    being inserted the graph holds more arcs than the trees). *)
Definition dyn_wf_on (g : Digraph) (A : list Arc) (st : DynArcLookUp.state)
  : Prop :=
  forall n, In n (nodes g) ->
    exists T, repr st INVALID (DynArcLookUp._head st n) T /\
              Permutation (inorder T)
                          (filter (fun a => source g a =? n) A) /\
              StronglySorted (tle g) (inorder T).

(** The graph after a batch of arcs [(id, source, target)] was added. *)
Definition graph_add_all (g : Digraph) (l : list (Arc * Node * Node)) : Digraph :=
  fold_left (fun g x => graph_add g (fst (fst x)) (snd (fst x)) (snd x)) l g.

(** The arcs of a batch are new, valid and leave nodes of the graph. *)
Definition fresh_batch (g : Digraph) (l : list (Arc * Node * Node)) : Prop :=
  NoDup (map (fun x => fst (fst x)) l ++ arcs g) /\
  forall x, In x l -> fst (fst x) <> INVALID /\ In (snd (fst x)) (nodes g).

(** The states of the dynamic index met in a run of constructions,
    rebuilds, add notifications and queries; the graph is the one the
    index observes at that point. *)
Inductive dyn_reach : Digraph -> DynArcLookUp.state -> Prop :=
| reach_make : forall g mem st,
    wf_graph g -> strict_total (node_lt g) ->
    DynArcLookUp.make g mem = Ok st ->
    dyn_reach g st
| reach_build : forall g st st',
    dyn_reach g st ->
    DynArcLookUp.build g st = Ok st' ->
    dyn_reach g st'
| reach_add : forall g st arc s t st',
    dyn_reach g st ->
    arc <> INVALID -> ~ In arc (arcs g) -> In s (nodes g) ->
    DynArcLookUp.add (graph_add g arc s t) st arc = Ok st' ->
    dyn_reach (graph_add g arc s t) st'
| reach_add_all : forall g st l st',
    dyn_reach g st ->
    fresh_batch g l ->
    DynArcLookUp.add_all (graph_add_all g l) st
                         (map (fun x => fst (fst x)) l) = Ok st' ->
    dyn_reach (graph_add_all g l) st'
| reach_lookup : forall g st s t a st',
    dyn_reach g st -> In s (nodes g) ->
    DynArcLookUp.lookup g st s t = Ok (a, st') ->
    dyn_reach g st'
| reach_findFirst : forall g st s t a st',
    dyn_reach g st -> In s (nodes g) ->
    DynArcLookUp.findFirst g st s t = Ok (a, st') ->
    dyn_reach g st'
| reach_findNext : forall g st s t a r st',
    dyn_reach g st -> In a (arcs g) ->
    DynArcLookUp.findNext g st s t a = Ok (r, st') ->
    dyn_reach g st'.

(** What a query of the dynamic index that ends in a splay within the
    tree of [s] leaves: the tree of [s] lists the same in-order
    sequence, the other heads and the cells of the other trees are
    untouched. *)
Definition rearranged (g : Digraph) (st st' : DynArcLookUp.state) (s : Node)
  : Prop :=
  exists T T',
    repr st INVALID (DynArcLookUp._head st s) T /\
    Permutation (inorder T) (outArcs g s) /\
    StronglySorted (tle g) (inorder T) /\
    repr st' INVALID (DynArcLookUp._head st' s) T' /\
    inorder T' = inorder T /\
    (forall n, n <> s -> DynArcLookUp._head st' n = DynArcLookUp._head st n) /\
    agree_off (inorder T) st st'.

(** The arc [findNext] answers when [post] is what follows the arc
    handed to it in the in-order sequence of its tree. *)
Definition next_of (g : Digraph) (t : Node) (post : list Arc) : Arc :=
  match post with
  | [] => INVALID
  | b :: _ => if target g b =? t then b else INVALID
  end.

Module DynEnumerate.

(** The enumeration of the arcs from [s] to [t]:
    [for(e=findFirst(s,t); e!=INVALID; e=findNext(s,t,e))], collecting
    the arcs it meets. *)
Fixpoint enumerate_from (fuel : nat) (g : Digraph) (st : DynArcLookUp.state)
  (s t : Node) (e : Arc) : result (list Arc * DynArcLookUp.state) :=
  if e =? INVALID then Ok ([], st)
  else match fuel with
       | O => Err OutOfFuel
       | S f =>
         '(e', st) <- DynArcLookUp.findNext g st s t e ;;
         '(l, st) <- enumerate_from f g st s t e' ;;
         Ok (e :: l, st)
       end.

Definition enumerate (g : Digraph) (st : DynArcLookUp.state) (s t : Node)
  : result (list Arc * DynArcLookUp.state) :=
  '(e, st) <- DynArcLookUp.findFirst g st s t ;;
  enumerate_from (fuel_of g) g st s t e.

End DynEnumerate.
(** ** Counting and linear search (the free functions of [core.h]) *)

(** [countItems<Graph,Item>(g)]: the loop over [ItemIt], [items] being
    what the iterator meets. *)
Definition countItems (items : list Z) : Z :=
  fold_left (fun num _ => int_wrap (num + 1)) items 0.

(** [countNodes(g)], [countArcs(g)] (the selectors without a
    [nodeNum()]/[arcNum()] shortcut). *)
Definition countNodes (g : Digraph) : Z := countItems (nodes g).
Definition countArcs (g : Digraph) : Z := countItems (arcs g).

(** [for(InArcIt e(_g,n);e!=INVALID;++e)] *)
Definition inArcs (g : Digraph) (n : Node) : list Arc :=
  filter (fun a => target g a =? n) (arcs g).

(** [countNodeDegree<Graph,DegIt>(g,n)], [its] being what the iterator
    [DegIt(g,n)] meets; [countOutArcs(g,n)], [countInArcs(g,n)]. *)
Definition countNodeDegree (its : list Arc) : Z :=
  fold_left (fun num _ => int_wrap (num + 1)) its 0.

Definition countOutArcs (g : Digraph) (n : Node) : result Z :=
  if n =? INVALID then Err InvalidHandle
  else Ok (countNodeDegree (outArcs g n)).

Definition countInArcs (g : Digraph) (n : Node) : result Z :=
  if n =? INVALID then Err InvalidHandle
  else Ok (countNodeDegree (inArcs g n)).

(** [g.firstOut(e,u)] and [g.nextOut(e)]: the first arc leaving [u], and
    the arc that follows [e] among the arcs leaving the source of [e]
    (INVALID after the last one). *)
Definition firstOut (g : Digraph) (u : Node) : result Arc :=
  v <- out_arcs g u ;; Ok (hd INVALID v).

Fixpoint arc_after (e : Arc) (l : list Arc) : Arc :=
  match l with
  | [] => INVALID
  | x :: l' => if x =? e then hd INVALID l' else arc_after e l'
  end.

Definition nextOut (g : Digraph) (e : Arc) : result Arc :=
  s <- g_source g e ;;
  Ok (arc_after e (outArcs g s)).

(** [FindArcSelector::find(g,u,v,e)]: the loop
    [while (e != INVALID && g.target(e) != v) g.nextOut(e);] *)
Fixpoint findArc_loop (fuel : nat) (g : Digraph) (v : Node) (e : Arc)
  : result Arc :=
  if e =? INVALID then Ok e
  else
    te <- g_target g e ;;
    if negb (te =? v) then
      match fuel with
      | O => Err OutOfFuel
      | S f => e' <- nextOut g e ;; findArc_loop f g v e'
      end
    else Ok e.

(** [findArc(g,u,v,prev)] *)
Definition findArc (g : Digraph) (u v : Node) (prev : Arc) : result Arc :=
  e <- (if prev =? INVALID then firstOut g u else nextOut g prev) ;;
  findArc_loop (fuel_of g) g v e.

Module ConArcIt.

(** [ConArcIt(g,u,v)] and [operator++]: the iterator is the arc it
    stands on. *)
Definition make (g : Digraph) (u v : Node) : result Arc :=
  findArc g u v INVALID.

Definition incr (g : Digraph) (it : Arc) : result Arc :=
  s <- g_source g it ;;
  t <- g_target g it ;;
  findArc g s t it.

(** [for (ConArcIt<Graph> it(g,u,v); it != INVALID; ++it)], collecting
    the arcs the iterator stands on. *)
Fixpoint run_from (fuel : nat) (g : Digraph) (it : Arc) : result (list Arc) :=
  if it =? INVALID then Ok []
  else match fuel with
       | O => Err OutOfFuel
       | S f =>
         it' <- incr g it ;;
         l <- run_from f g it' ;;
         Ok (it :: l)
       end.

Definition run (g : Digraph) (u v : Node) : result (list Arc) :=
  it <- make g u v ;;
  run_from (fuel_of g) g it.

End ConArcIt.

(** The sum of the counts [f n] over the nodes [ns]. *)
Fixpoint sum_over (f : Node -> result Z) (ns : list Node) : result Z :=
  match ns with
  | [] => Ok 0
  | n :: ns' => k <- f n ;; r <- sum_over f ns' ;; Ok (k + r)
  end.
(** ** DigraphCopy

    The target graph is a digraph of its own; [new_node] and [new_arc]
    are the identifiers its [addNode()] and [addArc()] hand out next. *)

Module DigraphCopy.

(** The maps and items the caller registered by reference, by their
    place in the caller's memory. *)
Record user : Type := {
  maps : nat -> ItemMap;
  items : nat -> Z
}.

Definition set_map (u : user) (i : nat) (m : ItemMap) : user :=
  {| maps := fun j => if Nat.eqb j i then m else maps u j;
     items := items u |}.

Definition set_item (u : user) (i : nat) (x : Z) : user :=
  {| maps := maps u;
     items := fun j => if Nat.eqb j i then x else items u j |}.

(** The objects behind [MapCopyBase]: [RefCopy(map)],
    [CrossRefCopy(cmap)], [MapCopy(tmap,map)], [ItemCopy(it,item)]. *)
Inductive copier : Type :=
| RefCopy (map : nat)
| CrossRefCopy (cmap : nat)
| MapCopy (tmap map : nat)
| ItemCopy (it : nat) (item : Z).

(** [for (ItemIt it(digraph); it != INVALID; ++it) body] *)
Fixpoint for_items (body : user -> Z -> result user) (u : user) (its : list Z)
  : result user :=
  match its with
  | [] => Ok u
  | it :: its' => u <- body u it ;; for_items body u its'
  end.

(** The four [copy(digraph,refMap)] members; [its] is what the item
    iterator of the source graph meets. *)
Definition copy_member (its : list Z) (refMap : ItemMap) (u : user) (c : copier)
  : result user :=
  match c with
  | RefCopy d =>
    for_items (fun u it =>
                 r <- get refMap it ;;
                 m <- set (maps u d) it r ;;
                 Ok (set_map u d m)) u its
  | CrossRefCopy d =>
    for_items (fun u it =>
                 r <- get refMap it ;;
                 m <- set (maps u d) r it ;;
                 Ok (set_map u d m)) u its
  | MapCopy d s =>
    for_items (fun u it =>
                 r <- get refMap it ;;
                 v <- get (maps u s) it ;;
                 m <- set (maps u d) r v ;;
                 Ok (set_map u d m)) u its
  | ItemCopy d item =>
    r <- get refMap item ;;
    Ok (set_item u d r)
  end.

Fixpoint copy_members (its : list Z) (refMap : ItemMap) (u : user)
  (cs : list copier) : result user :=
  match cs with
  | [] => Ok u
  | c :: cs' => u <- copy_member its refMap u c ;; copy_members its refMap u cs'
  end.

Section Target.

Variable new_node : Digraph -> Node.
Variable new_arc : Digraph -> Arc.

(** [to.addNode()] and [to.addArc(s,t)] *)
Definition addNode (to : Digraph) : Node * Digraph :=
  let n := new_node to in
  (n, {| nodes := n :: nodes to;
         arcs := arcs to;
         source := source to;
         target := target to;
         node_lt := node_lt to |}).

Definition addArc (to : Digraph) (s t : Node) : Arc * Digraph :=
  let a := new_arc to in
  (a, graph_add to a s t).

(** The two loops of [DigraphCopySelector::copy]. *)
Fixpoint copy_nodes (ns : list Node) (to : Digraph) (nodeRefMap : ItemMap)
  : result (Digraph * ItemMap) :=
  match ns with
  | [] => Ok (to, nodeRefMap)
  | it :: ns' =>
    let '(n, to) := addNode to in
    m <- set nodeRefMap it n ;;
    copy_nodes ns' to m
  end.

Fixpoint copy_arcs (from : Digraph) (l : list Arc) (to : Digraph)
  (nodeRefMap arcRefMap : ItemMap) : result (Digraph * ItemMap) :=
  match l with
  | [] => Ok (to, arcRefMap)
  | it :: l' =>
    s <- g_source from it ;;
    rs <- get nodeRefMap s ;;
    t <- g_target from it ;;
    rt <- get nodeRefMap t ;;
    let '(a, to) := addArc to rs rt in
    m <- set arcRefMap it a ;;
    copy_arcs from l' to nodeRefMap m
  end.

Definition copy (from to : Digraph) (nodeRefMap arcRefMap : ItemMap)
  : result (Digraph * ItemMap * ItemMap) :=
  '(to, nrm) <- copy_nodes (nodes from) to nodeRefMap ;;
  '(to, arm) <- copy_arcs from (arcs from) to nrm arcRefMap ;;
  Ok (to, nrm, arm).

(** [run()]; [mem_n] and [mem_a] are what the freshly allocated
    [nodeRefMap] and [arcRefMap] hold. *)
Definition run (from to : Digraph) (node_maps arc_maps : list copier)
  (u : user) (mem_n mem_a : ItemMap) : result (Digraph * user) :=
  '(to, nrm, arm) <- copy from to mem_n mem_a ;;
  u <- copy_members (nodes from) nrm u node_maps ;;
  u <- copy_members (arcs from) arm u arc_maps ;;
  Ok (to, u).

End Target.

End DigraphCopy.

(** A digraph whose node list has no repetition and whose arcs end at
    nodes of the graph. *)
Definition closed_graph (g : Digraph) : Prop :=
  wf_graph g /\ NoDup (nodes g) /\
  forall a, In a (arcs g) -> In (target g a) (nodes g).

(** Identifiers for a target graph: one above the largest in use. *)
Definition next_id (l : list Z) : Z := fold_right Z.max (-1) l + 1.
(** The arc that follows [e] in the list [l], [nx] after the last one. *)
Fixpoint succ_of (e : Arc) (l : list Arc) (nx : Arc) : Arc :=
  match l with
  | [] => nx
  | x :: l' => if x =? e then hd nx l' else succ_of e l' nx
  end.

(** What [refreshNext] stores in [_next[a]] when [b] is the arc met
    before [a]. *)
Definition link (g : Digraph) (a b : Arc) : Arc :=
  if negb (b =? INVALID) && (target g b =? target g a) then b else INVALID.

(** The chain of the parallel-arc extension over the sorted vector of
    the node [n]. *)
Definition chained (g : Digraph) (st : AllArcLookUp.state) (n : Node) : Prop :=
  forall e, In e (outArcs g n) ->
    AllArcLookUp._next st e
    = link g e (succ_of e (std_sort (ArcLess g) (outArcs g n)) INVALID).
(** A tree as the median split builds it: at every arc the left
    subtree holds half of the other arcs below it, rounded down. *)
Fixpoint median_shaped (t : tree) : Prop :=
  match t with
  | Leaf => True
  | Tr l _ r =>
    length (inorder l) = Nat.div (length (inorder l) + length (inorder r)) 2 /\
    median_shaped l /\ median_shaped r
  end.

(** After a build the tree of [n] is the median-split tree of the
    sorted vector of [n]. *)
Definition static_balanced (g : Digraph) (st : ArcLookUp.state) (n : Node)
  : Prop :=
  exists T,
    shape (ArcLookUp._left st) (ArcLookUp._right st) (ArcLookUp._head st n) T /\
    inorder T = std_sort (ArcLess g) (outArcs g n) /\
    median_shaped T.
(** The arc at the upper end of the path [c] above the pointer [x]. *)
Fixpoint ctx_top (c : ctx) (x : Arc) : Arc :=
  match c with
  | [] => x
  | FL a _ :: c' => ctx_top c' a
  | FR _ a :: c' => ctx_top c' a
  end.

(** The rightmost arc of a tree ([d] for the empty tree), its parent
    ([p] when it is the root), its left subtree, and the tree without
    it: the left subtree takes its place. *)
Fixpoint maxof (t : tree) (d : Arc) : Arc :=
  match t with
  | Leaf => d
  | Tr _ a r => maxof r a
  end.

Fixpoint max_parent (t : tree) (p : Arc) : Arc :=
  match t with
  | Leaf => p
  | Tr _ a r => match r with Leaf => p | Tr _ _ _ => max_parent r a end
  end.

Fixpoint max_left (t : tree) : tree :=
  match t with
  | Leaf => Leaf
  | Tr l _ r => match r with Leaf => l | Tr _ _ _ => max_left r end
  end.

Fixpoint delmax (t : tree) : tree :=
  match t with
  | Leaf => Leaf
  | Tr l a r => match r with Leaf => l | Tr _ _ _ => Tr l a (delmax r) end
  end.

(** ** Undirected graphs: [countEdges], [countIncEdges], [findEdge],
    [ConEdgeIt]

    An edge [e] joins the nodes [u(e)] and [v(e)].  The incidence
    iterator of a node [n] meets pairs [(e,b)], one for each end of an
    edge that is [n]: [b] tells that [n] is [u(e)], so a loop is met
    twice.  The order in which a node meets its edges is the graph's
    own, one order for each node. *)
Abbreviation Edge := Z (only parsing).

Record Graph : Type := {
  gnodes : list Node;
  edges : list Edge;
  edge_u : ItemMap;
  edge_v : ItemMap;
  inc : Node -> list (Edge * bool)
}.

(** [g.u(e)] and [g.v(e)] *)
Definition g_u (g : Graph) (e : Edge) : result Node := get (edge_u g) e.
Definition g_v (g : Graph) (e : Edge) : result Node := get (edge_v g) e.

(** [g.firstInc(e,b,u)] and [g.nextInc(e,b)]: the first pair the node
    [u] meets, and the pair that follows [(e,b)] at the node it was met
    at ([u(e)] when [b], else [v(e)]); the edge is INVALID after the
    last one. *)
Definition firstInc (g : Graph) (u : Node) : result (Edge * bool) :=
  if u =? INVALID then Err InvalidHandle
  else Ok (hd (INVALID, true) (inc g u)).

Fixpoint inc_after (e : Edge) (b : bool) (l : list (Edge * bool))
  : Edge * bool :=
  match l with
  | [] => (INVALID, true)
  | (x, d) :: l' =>
    if (x =? e) && Bool.eqb d b then hd (INVALID, true) l'
    else inc_after e b l'
  end.

Definition nextInc (g : Graph) (e : Edge) (b : bool) : result (Edge * bool) :=
  n <- (if b then g_u g e else g_v g e) ;;
  Ok (inc_after e b (inc g n)).

(** [countEdges(g)] (the selector without an [edgeNum()] shortcut) and
    [countIncEdges(g,n)]. *)
Definition countEdges (g : Graph) : Z := countItems (edges g).

Definition countIncEdges (g : Graph) (n : Node) : result Z :=
  if n =? INVALID then Err InvalidHandle
  else Ok (countNodeDegree (map fst (inc g n))).

(** [FindEdgeSelector::find(g,u,v,e)]: the two loops,
    [while (e != INVALID && (b ? g.v(e) : g.u(e)) != v) g.nextInc(e,b);]
    for [u != v] and
    [while (e != INVALID && (!b || g.v(e) != v)) g.nextInc(e,b);]
    for [u == v]. *)
Fixpoint findEdge_loop (fuel : nat) (g : Graph) (v : Node) (e : Edge) (b : bool)
  : result Edge :=
  if e =? INVALID then Ok e
  else
    w <- (if b then g_v g e else g_u g e) ;;
    if negb (w =? v) then
      match fuel with
      | O => Err OutOfFuel
      | S f => '(e', b') <- nextInc g e b ;; findEdge_loop f g v e' b'
      end
    else Ok e.

Fixpoint findLoop_loop (fuel : nat) (g : Graph) (v : Node) (e : Edge) (b : bool)
  : result Edge :=
  if e =? INVALID then Ok e
  else
    go <- (if negb b then Ok true
           else w <- g_v g e ;; Ok (negb (w =? v))) ;;
    if (go : bool) then
      match fuel with
      | O => Err OutOfFuel
      | S f => '(e', b') <- nextInc g e b ;; findLoop_loop f g v e' b'
      end
    else Ok e.

Definition fuel_of_edges (g : Graph) : nat := S (S (2 * length (edges g))).

(** [findEdge(g,u,v,prev)] *)
Definition findEdge (g : Graph) (u v : Node) (prev : Edge) : result Edge :=
  if negb (u =? v) then
    '(e, b) <- (if prev =? INVALID then firstInc g u
                else
                  ue <- g_u g prev ;;
                  nextInc g prev (ue =? u)) ;;
    findEdge_loop (fuel_of_edges g) g v e b
  else
    '(e, b) <- (if prev =? INVALID then firstInc g u
                else nextInc g prev true) ;;
    findLoop_loop (fuel_of_edges g) g v e b.

Module ConEdgeIt.

(** [ConEdgeIt(g,u,v)] and [operator++]: the iterator is the edge it
    stands on. *)
Definition make (g : Graph) (u v : Node) : result Edge :=
  findEdge g u v INVALID.

Definition incr (g : Graph) (it : Edge) : result Edge :=
  u <- g_u g it ;;
  v <- g_v g it ;;
  findEdge g u v it.

(** [for (ConEdgeIt<Graph> it(g,u,v); it != INVALID; ++it)], collecting
    the edges the iterator stands on. *)
Fixpoint run_from (fuel : nat) (g : Graph) (it : Edge) : result (list Edge) :=
  if it =? INVALID then Ok []
  else match fuel with
       | O => Err OutOfFuel
       | S f =>
         it' <- incr g it ;;
         l <- run_from f g it' ;;
         Ok (it :: l)
       end.

Definition run (g : Graph) (u v : Node) : result (list Edge) :=
  it <- make g u v ;;
  run_from (fuel_of_edges g) g it.

End ConEdgeIt.

(** The edges are distinct valid identifiers joining nodes of the
    graph, and every node meets exactly the ends that are its own,
    each once. *)
Record wf_ugraph (g : Graph) : Prop := {
  wfu_edges_nodup : NoDup (edges g);
  wfu_edges_valid : ~ In INVALID (edges g);
  wfu_nodes_valid : ~ In INVALID (gnodes g);
  wfu_ends : forall e, In e (edges g) ->
    In (edge_u g e) (gnodes g) /\ In (edge_v g e) (gnodes g);
  wfu_inc_nodup : forall n, NoDup (inc g n);
  wfu_inc : forall n e b,
    In (e, b) (inc g n) <->
    In e (edges g) /\ (if b then edge_u g e else edge_v g e) = n
}.

(** The ends of edges at [u] that lead to [v]; a loop at [u = v] is
    taken at its [u] end only. *)
Definition leads_to (g : Graph) (u v : Node) (x : Edge * bool) : bool :=
  if negb (u =? v) then
    (if snd x then edge_v g (fst x) else edge_u g (fst x)) =? v
  else snd x && (edge_v g (fst x) =? v).

Definition edges_between (g : Graph) (u v : Node) : list Edge :=
  map fst (filter (leads_to g u v) (inc g u)).

(** A graph given by its edges [(e,u,v)]; every node meets its edges in
    the order of the list. *)
Definition mkGraph (ns : list Node) (l : list (Edge * Node * Node)) : Graph :=
  {| gnodes := ns;
     edges := map (fun x => fst (fst x)) l;
     edge_u := fold_right (fun x m => upd m (fst (fst x)) (snd (fst x)))
                          (fun _ => INVALID) l;
     edge_v := fold_right (fun x m => upd m (fst (fst x)) (snd x))
                          (fun _ => INVALID) l;
     inc := fun n =>
       flat_map (fun x =>
                   (if snd (fst x) =? n then [(fst (fst x), true)] else []) ++
                   (if snd x =? n then [(fst (fst x), false)] else [])) l |}.

(** Two parallel edges, one of them stored the other way round, and a
    loop. *)
Definition ug_sample : Graph :=
  mkGraph [0; 1; 2] [(20, 0, 1); (21, 1, 0); (22, 0, 0); (23, 1, 2)].

(** ** What the builds are stated for

    No node has more than 2^30 outgoing arcs: the sums [a+b] of
    [refreshRec] fit an [int]. *)
Definition small_degrees (g : Digraph) : Prop :=
  forall n, In n (nodes g) -> Z.of_nat (length (outArcs g n)) <= 2 ^ 30.

(** [operator<] on node identities is a strict weak ordering: nodes
    that it orders neither way are equivalent. *)
Record strict_weak (lt : Node -> Node -> bool) : Prop := {
  sw_irrefl : forall a, lt a a = false;
  sw_trans : forall a b c, lt a b = true -> lt b c = true -> lt a c = true;
  sw_equiv : forall a b c,
    lt a b = false -> lt b a = false ->
    lt b c = false -> lt c b = false ->
    lt a c = false /\ lt c a = false
}.

(** [v] is a vector the sort may leave for the node [n]: the arcs
    leaving [n], rearranged and sorted by target. *)
Definition sorted_out (g : Digraph) (n : Node) (v : list Arc) : Prop :=
  Permutation v (outArcs g n) /\ StronglySorted (tle g) v.

(** The tree of [n] in the static index lists such a vector. *)
Definition static_ok (g : Digraph) (st : ArcLookUp.state) (n : Node) : Prop :=
  exists T,
    shape (ArcLookUp._left st) (ArcLookUp._right st) (ArcLookUp._head st n) T /\
    sorted_out g n (inorder T).

(** The chain of the parallel-arc extension runs along the vector [v]:
    [_next] holds for an arc of [v] the arc that follows it in [v] when
    the two have the same target, and INVALID otherwise. *)
Definition chained_along (g : Digraph) (st : AllArcLookUp.state)
  (v : list Arc) : Prop :=
  forall e, In e v ->
    AllArcLookUp._next st e = link g e (succ_of e v INVALID).

(** * Properties *)

(** ** Integers and maps *)

Lemma int_wrap_small (z : Z) : - 2 ^ 31 <= z < 2 ^ 31 -> int_wrap z = z.
Proof.
  intros H. unfold int_wrap. rewrite Z.mod_small by lia. lia.
Qed.

Lemma int_wrap_range (z : Z) : - 2 ^ 31 <= int_wrap z < 2 ^ 31.
Proof.
  unfold int_wrap. pose proof (Z.mod_pos_bound (z + 2 ^ 31) (2 ^ 32)). lia.
Qed.

Lemma eqb_invalid_false (k : Z) : k <> INVALID -> (k =? INVALID) = false.
Proof. intros H. apply Z.eqb_neq. exact H. Qed.

Lemma get_ok (m : ItemMap) (k : Z) : k <> INVALID -> get m k = Ok (m k).
Proof. intros H. unfold get. rewrite eqb_invalid_false by exact H. reflexivity. Qed.

Lemma set_ok (m : ItemMap) (k v : Z) : k <> INVALID -> set m k v = Ok (upd m k v).
Proof. intros H. unfold set. rewrite eqb_invalid_false by exact H. reflexivity. Qed.

Lemma upd_same (m : ItemMap) (k v : Z) : upd m k v k = v.
Proof. unfold upd. rewrite Z.eqb_refl. reflexivity. Qed.

Lemma upd_other (m : ItemMap) (k v x : Z) : x <> k -> upd m k v x = m x.
Proof. intros H. unfold upd. apply Z.eqb_neq in H. rewrite H. reflexivity. Qed.

(** ** The chained query of AllArcLookUp *)

(** C10: with a valid [prev], [operator()(s,t,prev)] is the stored
    next pointer of [prev], whatever the two nodes are. *)
Theorem lookup_next_ignores_nodes :
  forall (g : Digraph) (st : AllArcLookUp.state) (s t s' t' : Node) (prev : Arc),
    prev <> INVALID ->
    AllArcLookUp.lookup_next g st s t prev = Ok (AllArcLookUp._next st prev) /\
    AllArcLookUp.lookup_next g st s t prev =
    AllArcLookUp.lookup_next g st s' t' prev.
Proof.
  intros g st s t s' t' prev Hprev.
  unfold AllArcLookUp.lookup_next.
  rewrite (eqb_invalid_false prev Hprev).
  split; [apply get_ok; exact Hprev | reflexivity].
Qed.

Lemma lookup_next_ignores_nodes_witness :
  AllArcLookUp.lookup_next g_parallel all_mem 0 1 11 =
    Ok (AllArcLookUp._next all_mem 11) /\
  AllArcLookUp.lookup_next g_parallel all_mem 0 1 11 =
    AllArcLookUp.lookup_next g_parallel all_mem 1 0 11.
Proof.
  apply (lookup_next_ignores_nodes g_parallel all_mem 0 1 1 0 11).
  unfold INVALID. lia.
Defined.

(** ** Runs that leave the specification *)

(** C6: on a node without outgoing arcs both [operator()] and
    [findFirst] start by reading the target of the invalid arc. *)
Theorem dyn_empty_tree_reads_invalid :
  forall (mem : DynArcLookUp.state) (t : Node),
    (st <- DynArcLookUp.make g_lonely mem ;;
     Ok (DynArcLookUp._head st 0)) = Ok INVALID /\
    (st <- DynArcLookUp.make g_lonely mem ;;
     DynArcLookUp.lookup g_lonely st 0 t) = Err InvalidHandle /\
    (st <- DynArcLookUp.make g_lonely mem ;;
     DynArcLookUp.findFirst g_lonely st 0 t) = Err InvalidHandle.
Proof.
  intros mem t. repeat split; reflexivity.
Qed.

(** C1: after the notifications erase(12), erase(10) the graph
    [g_twin] has no arc from 0 to 1 left, and the dynamic look-up of the
    pair (0,1) answers the erased arc 10; and on node 1 of the one-arc
    graph, which has no outgoing arc, the look-up ends in an error, not
    in the answer INVALID. *)
Theorem dyn_lookup_wrong_answer :
  let g1 := graph_erase g_twin 12 in
  let g2 := graph_erase g1 10 in
  arcs g2 = [11] /\
  arcs_between g2 0 1 = [] /\
  (forall mem : DynArcLookUp.state,
     (st <- DynArcLookUp.make g_twin mem ;;
      st <- DynArcLookUp.erase g_twin st 12 ;;
      st <- DynArcLookUp.erase g1 st 10 ;;
      r <- DynArcLookUp.lookup g2 st 0 1 ;;
      Ok (fst r)) = Ok 10) /\
  (forall (mem : DynArcLookUp.state) (t : Node),
     arcs_between g_one_arc 1 t = [] /\
     (st <- DynArcLookUp.make g_one_arc mem ;;
      DynArcLookUp.lookup g_one_arc st 1 t) = Err InvalidHandle).
Proof.
  intros g1 g2. split; [reflexivity|]. split; [reflexivity|]. split.
  - intros mem. vm_compute. reflexivity.
  - intros mem t. split; reflexivity.
Qed.

Lemma holds_after_intro {A B : Type} (r : result A) (obs : A -> B) (b : B) (P : A -> Prop) :
  (a <- r ;; Ok (obs a)) = Ok b ->
  (forall a, obs a = b -> P a) ->
  holds_after r P.
Proof.
  intros E H. destruct r as [a|e]; simpl in *; [|discriminate].
  apply H. congruence.
Qed.

Lemma in_tree_invalid (lft rgt : ItemMap) (c : Arc) : ~ in_tree lft rgt INVALID c.
Proof. intros H. inversion H; congruence. Qed.

Lemma in_tree_inv (lft rgt : ItemMap) (x c : Arc) :
  in_tree lft rgt x c ->
  x <> INVALID /\ (c = x \/ in_tree lft rgt (lft x) c \/ in_tree lft rgt (rgt x) c).
Proof. intros H. inversion H; subst; auto. Qed.

(** C2: after the notifications erase(11), add(13) the tree of node 0
    still holds the erased arc 11, which is no outgoing arc of node 0. *)
Theorem dyn_tree_keeps_erased_arc :
  let g1 := graph_erase g_three 11 in
  let g2 := graph_add g1 13 0 4 in
  holds_after
    (st <- DynArcLookUp.make g_three dyn_mem ;;
     st <- DynArcLookUp.erase g_three st 11 ;;
     DynArcLookUp.add g2 st 13)
    (fun st =>
       outArcs g2 0 = [13; 10; 12] /\
       in_tree (DynArcLookUp._left st) (DynArcLookUp._right st)
               (DynArcLookUp._head st 0) 11 /\
       ~ tree_is_out_arcs g2 st 0).
Proof.
  intros g1 g2.
  apply (holds_after_intro _
           (fun st => (DynArcLookUp._head st 0, DynArcLookUp._right st 13))
           (13, 11)).
  - vm_compute. reflexivity.
  - intros st E. injection E as Eh Er.
    assert (Hin : in_tree (DynArcLookUp._left st) (DynArcLookUp._right st)
                          (DynArcLookUp._head st 0) 11).
    { rewrite Eh. apply in_tree_right; [discriminate|].
      rewrite Er. apply in_tree_root. discriminate. }
    split; [reflexivity|]. split; [exact Hin|].
    intros H. apply H in Hin. vm_compute in Hin.
    intuition discriminate.
Qed.

(** C7: after erase(11) the tree of node 0 holds exactly the arcs leaving
    node 0; the look-up of the absent pair (0,5) answers INVALID and
    leaves a tree that holds another set of arcs. *)
Theorem dyn_failed_lookup_changes_arc_set :
  let g1 := graph_erase g_three 11 in
  holds_after
    (st <- DynArcLookUp.make g_three dyn_mem ;; DynArcLookUp.erase g_three st 11)
    (fun st =>
       arcs_between g1 0 5 = [] /\
       tree_is_out_arcs g1 st 0 /\
       holds_after (DynArcLookUp.lookup g1 st 0 5)
         (fun r =>
            fst r = INVALID /\
            ~ tree_is_out_arcs g1 (snd r) 0)).
Proof.
  intros g1.
  apply (holds_after_intro _
    (fun st =>
       (DynArcLookUp._head st 0,
        map (DynArcLookUp._left st) [10; 12], map (DynArcLookUp._right st) [10; 12],
        a <- DynArcLookUp.lookup g1 st 0 5 ;;
        Ok (fst a, DynArcLookUp._head (snd a) 0, DynArcLookUp._right (snd a) 12)))
    (10, [-1; -1], [12; -1], Ok (INVALID, 12, 11))).
  - vm_compute. reflexivity.
  - intros st E. simpl in E. injection E as Eh El10 El12 Er10 Er12 Elk.
    split; [reflexivity|]. split.
    + intros a. rewrite Eh. split.
      * intros H. apply in_tree_inv in H. destruct H as [_ [H|[H|H]]].
        -- subst a. vm_compute. tauto.
        -- rewrite El10 in H. apply in_tree_invalid in H. contradiction.
        -- rewrite Er10 in H. apply in_tree_inv in H. destruct H as [_ [H|[H|H]]].
           ++ subst a. vm_compute. tauto.
           ++ rewrite El12 in H. apply in_tree_invalid in H. contradiction.
           ++ rewrite Er12 in H. apply in_tree_invalid in H. contradiction.
      * intros H. vm_compute in H. destruct H as [H|[H|[]]]; subst a.
        -- apply in_tree_root. discriminate.
        -- apply in_tree_right; [discriminate|]. rewrite Er10.
           apply in_tree_root. discriminate.
    + apply (holds_after_intro _
        (fun a => (fst a, DynArcLookUp._head (snd a) 0, DynArcLookUp._right (snd a) 12))
        (INVALID, 12, 11)).
      * exact Elk.
      * intros [r st2] E2. simpl in E2. injection E2 as E2r E2h E2x.
        simpl. split; [exact E2r|].
        intros H.
        assert (Hin : in_tree (DynArcLookUp._left st2) (DynArcLookUp._right st2)
                          (DynArcLookUp._head st2 0) 11).
        { rewrite E2h. apply in_tree_right; [discriminate|].
          rewrite E2x. apply in_tree_root. discriminate. }
        apply H in Hin. vm_compute in Hin. intuition discriminate.
Qed.

(** C3: with three parallel arcs 0 -> 1 the enumeration by
    [operator()(s,t)] and [operator()(s,t,prev)] after the construction
    yields two of them and then INVALID. *)
Theorem all_enumeration_misses_an_arc :
  arcs_between g_parallel 0 1 = [10; 11; 12] /\
  (st <- AllArcLookUp.make g_parallel all_mem ;;
   AllArcLookUp.enumerate g_parallel st 0 1) = Ok [11; 12].
Proof. split; vm_compute; reflexivity. Qed.

(** C8: on the graph [g_after], a look-up after one [refresh()] of
    AllArcLookUp answers INVALID for the pair (2,1), after two it answers
    the arc 3. *)
Theorem all_refresh_twice_differs :
  arcs_between g_after 2 1 = [3] /\
  (st <- AllArcLookUp.make g_before all_mem ;;
   st <- AllArcLookUp.refresh g_after st ;;
   AllArcLookUp.lookup g_after st 2 1) = Ok INVALID /\
  (st <- AllArcLookUp.make g_before all_mem ;;
   st <- AllArcLookUp.refresh g_after st ;;
   st <- AllArcLookUp.refresh g_after st ;;
   AllArcLookUp.lookup g_after st 2 1) = Ok 3.
Proof. repeat split; vm_compute; reflexivity. Qed.

(** C9, counterexample: [coarse_lt] is no total order, and the three
    constructors return normally; the tree built misses the arc 0 -> 0. *)
Lemma coarse_order_builds :
  ~ strict_total (node_lt g_coarse) /\
  is_ok (ArcLookUp.make g_coarse static_mem) = true /\
  is_ok (AllArcLookUp.make g_coarse all_mem) = true /\
  is_ok (DynArcLookUp.make g_coarse dyn_mem) = true /\
  arcs_between g_coarse 0 0 = [10] /\
  (st <- ArcLookUp.make g_coarse static_mem ;;
   ArcLookUp.lookup g_coarse st 0 0) = Ok INVALID.
Proof.
  split.
  - intros [_ _ Htot]. destruct (Htot 0 1) as [H|H]; [discriminate | |];
      vm_compute in H; discriminate.
  - repeat split; vm_compute; reflexivity.
Qed.

(** C4, counterexample: the tree built for three parallel arcs has an
    arc in the left subtree whose target is not smaller than the root's. *)
Lemma static_build_not_strict :
  holds_after (ArcLookUp.make g_parallel static_mem)
    (fun st => ~ forall n, In n (nodes g_parallel) ->
        strict_bst g_parallel (ArcLookUp._left st) (ArcLookUp._right st) (ArcLookUp._head st n)).
Proof.
  apply (holds_after_intro _
           (fun st => (ArcLookUp._head st 0, ArcLookUp._left st 11)) (11, 10)).
  - vm_compute. reflexivity.
  - intros st E. injection E as Eh El. intros H.
    specialize (H 0 (or_introl eq_refl)). rewrite Eh in H.
    destruct (H 11 (in_tree_root _ _ 11 ltac:(discriminate))) as [Hl _].
    specialize (Hl 10). rewrite El in Hl.
    specialize (Hl (in_tree_root _ _ 10 ltac:(discriminate))).
    vm_compute in Hl. discriminate.
Qed.

(** C5: after erase(14) the arc 13 sits in the right slot of the arc 12,
    and its parent link still names the erased arc 14. *)
Theorem dyn_erase_breaks_parent_links :
  holds_after
    (st <- DynArcLookUp.make g_six dyn_mem ;; DynArcLookUp.erase g_six st 14)
    (fun st =>
       DynArcLookUp._right st 12 = 13 /\
       DynArcLookUp._parent st 13 = 14 /\
       ~ parent_child_consistent (graph_erase g_six 14) st).
Proof.
  apply (holds_after_intro _
           (fun st => (DynArcLookUp._left st 12, DynArcLookUp._right st 12,
                       DynArcLookUp._parent st 13))
           (10, 13, 14)).
  - vm_compute. reflexivity.
  - intros st E. injection E as El Er Ep.
    split; [exact Er|]. split; [exact Ep|].
    intros H.
    assert (H12 : In 12 (arcs (graph_erase g_six 14))) by (vm_compute; tauto).
    assert (H13 : In 13 (arcs (graph_erase g_six 14))) by (vm_compute; tauto).
    destruct (H 12 13 H12 H13) as [_ Hback].
    assert (Hslot : DynArcLookUp._parent st 13 = 12).
    { apply Hback. right. split; [rewrite El; discriminate | exact Er]. }
    rewrite Ep in Hslot. discriminate Hslot.
Qed.
(** ** Sorting *)

Lemma sort_insert_perm (lt : Arc -> Arc -> bool) (x : Arc) (l : list Arc) :
  Permutation (sort_insert lt x l) (x :: l).
Proof.
  induction l as [|y l IH]; simpl.
  - apply Permutation_refl.
  - destruct (lt y x).
    + eapply perm_trans; [apply perm_skip; exact IH | apply perm_swap].
    + apply Permutation_refl.
Qed.

Lemma std_sort_perm (lt : Arc -> Arc -> bool) (l : list Arc) :
  Permutation (std_sort lt l) l.
Proof.
  induction l as [|x l IH]; simpl.
  - apply Permutation_refl.
  - eapply perm_trans; [apply sort_insert_perm | apply perm_skip; exact IH].
Qed.

Section Order.

Variable g : Digraph.
Hypothesis Hord : strict_total (node_lt g).

Lemma tle_refl (a : Arc) : tle g a a.
Proof. unfold tle. apply (lt_irrefl _ Hord). Qed.

Lemma lt_asym (x y : Node) :
  node_lt g x y = true -> node_lt g y x = false.
Proof.
  intros H. destruct (node_lt g y x) eqn:E; [|reflexivity].
  pose proof (lt_trans _ Hord _ _ _ H E) as F.
  rewrite (lt_irrefl _ Hord) in F. discriminate.
Qed.

Lemma lt_cases (x y : Node) :
  x = y \/ node_lt g x y = true \/ node_lt g y x = true.
Proof.
  destruct (Z.eq_dec x y) as [E|E]; [left; exact E|right].
  apply (lt_total _ Hord). exact E.
Qed.

Lemma tle_trans (a b c : Arc) : tle g a b -> tle g b c -> tle g a c.
Proof.
  unfold tle. intros Hab Hbc.
  destruct (node_lt g (target g c) (target g a)) eqn:E; [|reflexivity].
  destruct (lt_cases (target g b) (target g a)) as [F|[F|F]].
  - rewrite F in Hbc. congruence.
  - congruence.
  - pose proof (lt_trans _ Hord _ _ _ E F). congruence.
Qed.

Lemma tle_of_lt (a b : Arc) :
  node_lt g (target g a) (target g b) = true -> tle g a b.
Proof. intros H. unfold tle. apply lt_asym. exact H. Qed.

Lemma sort_insert_sorted (x : Arc) (l : list Arc) :
  StronglySorted (tle g) l ->
  StronglySorted (tle g) (sort_insert (ArcLess g) x l).
Proof.
  induction l as [|y l IH]; intros Hs; simpl.
  - constructor; [constructor | constructor].
  - inversion Hs as [|? ? Hs' Hall]; subst.
    unfold ArcLess at 1. destruct (node_lt g (target g y) (target g x)) eqn:E.
    + constructor; [apply IH; exact Hs'|].
      apply Forall_forall. intros z Hz.
      apply (Permutation_in _ (sort_insert_perm (ArcLess g) x l)) in Hz.
      destruct Hz as [Hz|Hz].
      * subst z. apply tle_of_lt. exact E.
      * rewrite Forall_forall in Hall. apply Hall. exact Hz.
    + constructor; [exact Hs|].
      constructor; [exact E|].
      apply Forall_forall. intros z Hz.
      rewrite Forall_forall in Hall.
      apply tle_trans with y; [exact E | apply Hall; exact Hz].
Qed.

Lemma std_sort_sorted (l : list Arc) :
  StronglySorted (tle g) (std_sort (ArcLess g) l).
Proof.
  induction l as [|x l IH]; simpl.
  - constructor.
  - apply sort_insert_sorted. exact IH.
Qed.

End Order.

Lemma sorted_app (R : Arc -> Arc -> Prop) (l1 l2 : list Arc) :
  StronglySorted R (l1 ++ l2) <->
  StronglySorted R l1 /\ StronglySorted R l2 /\
  (forall x y, In x l1 -> In y l2 -> R x y).
Proof.
  induction l1 as [|a l1 IH]; simpl.
  - split.
    + intros H. split; [constructor|]. split; [exact H|]. intros x y [].
    + intros [_ [H _]]. exact H.
  - split.
    + intros H. inversion H as [|? ? Hs Hall]; subst.
      apply IH in Hs. destruct Hs as [H1 [H2 H12]].
      rewrite Forall_forall in Hall.
      split.
      * constructor; [exact H1|]. apply Forall_forall. intros z Hz.
        apply Hall. apply in_or_app. left. exact Hz.
      * split; [exact H2|]. intros x y [Hx|Hx] Hy.
        -- subst x. apply Hall. apply in_or_app. right. exact Hy.
        -- apply H12; assumption.
    + intros [H1 [H2 H12]]. inversion H1 as [|? ? Hs Hall]; subst.
      constructor.
      * apply IH. split; [exact Hs|]. split; [exact H2|].
        intros x y Hx Hy. apply H12; [right; exact Hx | exact Hy].
      * apply Forall_forall. intros z Hz. apply in_app_or in Hz.
        rewrite Forall_forall in Hall.
        destruct Hz as [Hz|Hz]; [apply Hall; exact Hz|].
        apply H12; [left; reflexivity | exact Hz].
Qed.

Lemma sorted_cons_inv (R : Arc -> Arc -> Prop) (a : Arc) (l : list Arc) :
  StronglySorted R (a :: l) ->
  StronglySorted R l /\ (forall y, In y l -> R a y).
Proof.
  intros H. inversion H as [|? ? Hs Hall]; subst.
  rewrite Forall_forall in Hall. split; assumption.
Qed.

(** ** Trees held by the child maps *)

Lemma shape_root (lft rgt : ItemMap) (x : Arc) (t : tree) :
  shape lft rgt x t -> x = root t.
Proof. destruct t; simpl; intros H; [exact H | apply H]. Qed.

Lemma shape_frame (lft rgt lft' rgt' : ItemMap) (t : tree) :
  forall x,
  (forall a, In a (inorder t) -> lft' a = lft a /\ rgt' a = rgt a) ->
  shape lft rgt x t -> shape lft' rgt' x t.
Proof.
  induction t as [|l IHl a r IHr]; intros x Hfr H; simpl in *.
  - exact H.
  - destruct H as [Hx [Ha [Hl Hr]]].
    destruct (Hfr a) as [El Er]; [apply in_or_app; right; left; reflexivity|].
    split; [exact Hx|]. split; [exact Ha|]. split.
    + rewrite El. apply IHl; [|exact Hl].
      intros b Hb. apply Hfr. apply in_or_app. left. exact Hb.
    + rewrite Er. apply IHr; [|exact Hr].
      intros b Hb. apply Hfr. apply in_or_app. right. right. exact Hb.
Qed.

Lemma shape_valid (lft rgt : ItemMap) (t : tree) :
  forall x, shape lft rgt x t -> forall a, In a (inorder t) -> a <> INVALID.
Proof.
  induction t as [|l IHl b r IHr]; intros x H a Ha; simpl in *.
  - contradiction.
  - destruct H as [_ [Hb [Hl Hr]]].
    apply in_app_or in Ha. destruct Ha as [Ha|[Ha|Ha]].
    + eapply IHl; eassumption.
    + subst. exact Hb.
    + eapply IHr; eassumption.
Qed.

Lemma shape_in_tree (lft rgt : ItemMap) (t : tree) :
  forall x c, shape lft rgt x t -> In c (inorder t) -> in_tree lft rgt x c.
Proof.
  induction t as [|l IHl a r IHr]; intros x c H Hc; simpl in *.
  - contradiction.
  - destruct H as [Hx [Ha [Hl Hr]]]. subst x.
    apply in_app_or in Hc. destruct Hc as [Hc|[Hc|Hc]].
    + apply in_tree_left; [exact Ha|]. apply IHl; assumption.
    + subst c. apply in_tree_root. exact Ha.
    + apply in_tree_right; [exact Ha|]. apply IHr; assumption.
Qed.

(** An arc met in the tree heads a subtree whose arcs lie, in order,
    around it in the in-order list. *)
Lemma in_tree_subtree (lft rgt : ItemMap) (x X : Arc) :
  in_tree lft rgt x X ->
  forall t, shape lft rgt x t ->
  exists tl tr pre post,
    inorder t = pre ++ (inorder tl ++ X :: inorder tr) ++ post /\
    shape lft rgt (lft X) tl /\ shape lft rgt (rgt X) tr.
Proof.
  induction 1 as [x Hx | x c Hx Hin IH | x c Hx Hin IH]; intros t Ht.
  - destruct t as [|l a r]; simpl in Ht; [congruence|].
    destruct Ht as [E [_ [Hl Hr]]]. subst a.
    exists l, r, [], []. simpl. rewrite app_nil_r. auto.
  - destruct t as [|l a r]; simpl in Ht; [congruence|].
    destruct Ht as [E [_ [Hl Hr]]]. subst a.
    destruct (IH l Hl) as [tl [tr [pre [post [E [H1 H2]]]]]].
    exists tl, tr, pre, (post ++ x :: inorder r). simpl. rewrite E.
    repeat rewrite <- app_assoc. simpl. auto.
  - destruct t as [|l a r]; simpl in Ht; [congruence|].
    destruct Ht as [E [_ [Hl Hr]]]. subst a.
    destruct (IH r Hr) as [tl [tr [pre [post [E [H1 H2]]]]]].
    exists tl, tr, (inorder l ++ x :: pre), post. simpl. rewrite E.
    repeat rewrite <- app_assoc. simpl. auto.
Qed.

Lemma in_tree_inorder (lft rgt : ItemMap) (x c : Arc) :
  in_tree lft rgt x c ->
  forall t, shape lft rgt x t -> In c (inorder t).
Proof.
  intros H t Ht.
  destruct (in_tree_subtree _ _ _ _ H t Ht) as [tl [tr [pre [post [E _]]]]].
  rewrite E. apply in_or_app. right. apply in_or_app. left.
  apply in_or_app. right. left. reflexivity.
Qed.

Lemma weak_bst_of_sorted (g : Digraph) (lft rgt : ItemMap) (x : Arc) (t : tree) :
  shape lft rgt x t ->
  StronglySorted (tle g) (inorder t) ->
  weak_bst g lft rgt x.
Proof.
  intros Ht Hs X HX.
  destruct (in_tree_subtree _ _ _ _ HX t Ht) as [tl [tr [pre [post [E [Hl Hr]]]]]].
  rewrite E in Hs.
  apply sorted_app in Hs. destruct Hs as [_ [Hs _]].
  apply sorted_app in Hs. destruct Hs as [Hs _].
  apply sorted_app in Hs. destruct Hs as [_ [Hs Hlt]].
  apply sorted_cons_inv in Hs. destruct Hs as [_ Hgt].
  split; intros C HC.
  - apply Hlt; [|left; reflexivity]. eapply in_tree_inorder; eassumption.
  - apply Hgt. eapply in_tree_inorder; eassumption.
Qed.

(** ** The median split of [refreshRec] *)

Lemma median_split (mid : list Arc) :
  mid <> [] ->
  exists l1 me l2,
    mid = l1 ++ me :: l2 /\
    Z.of_nat (length l1) = Z.quot (Z.of_nat (length mid) - 1) 2.
Proof.
  intros Hne.
  set (k := Nat.div (length mid - 1) 2).
  assert (Hk : (k < length mid)%nat).
  { destruct mid as [|x mid]; [congruence|]. simpl length. unfold k.
    simpl length. rewrite Nat.sub_succ, Nat.sub_0_r.
    apply Nat.le_lt_trans with (length mid); [|lia].
    apply Nat.Div0.div_le_upper_bound. lia. }
  destruct (skipn k mid) as [|me l2] eqn:E.
  - pose proof (length_skipn k mid) as L. rewrite E in L. simpl in L. lia.
  - exists (firstn k mid), me, l2. split.
    + rewrite <- E. symmetry. apply firstn_skipn.
    + rewrite length_firstn. rewrite Nat.min_l by lia.
      unfold k. rewrite Z.quot_div_nonneg by lia.
      rewrite Nat2Z.inj_div. f_equal. lia.
Qed.

Lemma vec_at_middle (pre post : list Arc) (me : Arc) (i : Z) :
  i = Z.of_nat (length pre) ->
  vec_at (pre ++ me :: post) i = Ok me.
Proof.
  intros ->. unfold vec_at.
  destruct (Z.ltb_spec (Z.of_nat (length pre)) 0) as [H|H]; [lia|].
  rewrite Nat2Z.id. rewrite nth_error_app2 by lia.
  rewrite Nat.sub_diag. reflexivity.
Qed.

Lemma median_index (a n k : Z) :
  0 <= a -> 1 <= n -> k = Z.quot (n - 1) 2 ->
  Z.quot (a + (a + n - 1)) 2 = a + k.
Proof.
  intros Ha Hn ->.
  rewrite !Z.quot_div_nonneg by lia.
  replace (a + (a + n - 1)) with ((n - 1) + a * 2) by lia.
  rewrite Z.div_add by lia. lia.
Qed.

Section StaticBuild.

Import ArcLookUp.

Lemma static_refreshRec_spec :
  forall (fuel : nat) (mid pre post : list Arc) (st : state),
    mid <> [] -> (length mid <= fuel)%nat ->
    ~ In INVALID mid -> NoDup mid ->
    Z.of_nat (length pre + length mid) <= 2 ^ 30 ->
    exists T st',
      refreshRec fuel st (pre ++ mid ++ post)
                 (Z.of_nat (length pre))
                 (Z.of_nat (length pre + length mid) - 1) = Ok (root T, st') /\
      inorder T = mid /\
      shape (_left st') (_right st') (root T) T /\
      _head st' = _head st /\
      (forall k, ~ In k mid ->
                 _left st' k = _left st k /\ _right st' k = _right st k).
Proof.
  induction fuel as [|f IH]; intros mid pre post st Hne Hlen Hval Hnd Hb.
  - destruct mid; [congruence | simpl in Hlen; lia].
  - assert (Hsub : forall l pre' post' st0,
      (length l <= f)%nat -> ~ In INVALID l -> NoDup l ->
      Z.of_nat (length pre' + length l) <= 2 ^ 30 ->
      exists T st',
        (if 0 <? Z.of_nat (length l)
         then refreshRec f st0 (pre' ++ l ++ post') (Z.of_nat (length pre'))
                         (Z.of_nat (length pre' + length l) - 1)
         else Ok (INVALID, st0)) = Ok (root T, st') /\
        inorder T = l /\
        shape (_left st') (_right st') (root T) T /\
        _head st' = _head st0 /\
        (forall k, ~ In k l ->
                   _left st' k = _left st0 k /\ _right st' k = _right st0 k)).
    { intros l pre' post' st0 Hl Hv Hn Hb'. destruct l as [|x l].
      - exists Leaf, st0. simpl. repeat split; reflexivity.
      - replace (0 <? Z.of_nat (length (x :: l))) with true
          by (symmetry; apply Z.ltb_lt; simpl length; lia).
        apply IH; [discriminate | exact Hl | exact Hv | exact Hn | exact Hb']. }
    destruct (median_split mid Hne) as [l1 [me [l2 [E Hk]]]]. subst mid.
    rewrite length_app in Hlen, Hk, Hb. simpl length in Hlen, Hk, Hb.
    assert (Hme : me <> INVALID).
    { intros F. apply Hval. apply in_or_app. right. left. exact F. }
    apply NoDup_remove in Hnd. destruct Hnd as [Hnd Hnme].
    assert (Hnd1 : NoDup l1) by (apply NoDup_app_remove_r in Hnd; exact Hnd).
    assert (Hnd2 : NoDup l2) by (apply NoDup_app_remove_l in Hnd; exact Hnd).
    assert (Hdis : forall k, In k l1 -> In k l2 -> False).
    { intros k H1 H2. apply in_split in H1. destruct H1 as [u [w ->]].
      rewrite <- app_assoc in Hnd. simpl in Hnd.
      apply NoDup_remove_2 in Hnd. apply Hnd.
      apply in_or_app. right. apply in_or_app. right. exact H2. }
    remember (pre ++ (l1 ++ me :: l2) ++ post) as v eqn:Ev.
    assert (Ev0 : v = (pre ++ l1) ++ me :: (l2 ++ post))
      by (rewrite Ev; repeat rewrite <- app_assoc; reflexivity).
    assert (Ev1 : v = pre ++ l1 ++ (me :: l2 ++ post))
      by (rewrite Ev; repeat rewrite <- app_assoc; reflexivity).
    assert (Ev2 : v = (pre ++ l1 ++ [me]) ++ l2 ++ post)
      by (rewrite Ev; repeat rewrite <- app_assoc; reflexivity).
    cbn [refreshRec].
    set (a := Z.of_nat (length pre)).
    rewrite int_wrap_small
      by (rewrite length_app; simpl length; unfold a; lia).
    assert (Em : Z.quot (a + (Z.of_nat (length pre + length (l1 ++ me :: l2)) - 1)) 2
                 = a + Z.of_nat (length l1)).
    { rewrite length_app. simpl length.
      rewrite <- (median_index a (Z.of_nat (length l1 + S (length l2)))
                    (Z.of_nat (length l1)));
        [f_equal; lia | unfold a; lia | lia | exact Hk]. }
    rewrite Em.
    assert (Hv : vec_at v (a + Z.of_nat (length l1)) = Ok me).
    { rewrite Ev0. apply vec_at_middle. rewrite length_app. unfold a. lia. }
    rewrite Hv. cbn [bind].
    (* the left half *)
    destruct (Hsub l1 pre (me :: l2 ++ post) st) as [T1 [st1 [R1 [I1 [S1 [H1 F1]]]]]];
      [lia | intros F; apply Hval; apply in_or_app; left; exact F | exact Hnd1
      | lia |].
    rewrite <- Ev1 in R1.
    replace (a <? a + Z.of_nat (length l1)) with (0 <? Z.of_nat (length l1))
      by (destruct (Z.ltb_spec 0 (Z.of_nat (length l1)));
          destruct (Z.ltb_spec a (a + Z.of_nat (length l1))); lia || reflexivity).
    replace (a + Z.of_nat (length l1) - 1)
      with (Z.of_nat (length pre + length l1) - 1) by (unfold a; lia).
    fold a in R1. rewrite R1. cbn [bind].
    unfold set_left at 1. rewrite (set_ok _ me _ Hme). cbn [bind].
    (* the right half *)
    match goal with |- context [refreshRec f ?s _ _ _] => set (st2 := s) end.
    destruct (Hsub l2 (pre ++ l1 ++ [me]) post st2) as [T2 [st3 [R2 [I2 [S2 [H2 F2]]]]]];
      [lia | intros F; apply Hval; apply in_or_app; right; right; exact F | exact Hnd2
      | repeat rewrite length_app; simpl length; lia |].
    rewrite <- Ev2 in R2.
    replace (a + Z.of_nat (length l1) <?
             Z.of_nat (length pre + length (l1 ++ me :: l2)) - 1)
      with (0 <? Z.of_nat (length l2)).
    2:{ rewrite length_app. simpl length.
        destruct (Z.ltb_spec 0 (Z.of_nat (length l2)));
        destruct (Z.ltb_spec (a + Z.of_nat (length l1))
                    (Z.of_nat (length pre + (length l1 + S (length l2))) - 1));
        unfold a in *; lia || reflexivity. }
    replace (a + Z.of_nat (length l1) + 1)
      with (Z.of_nat (length (pre ++ l1 ++ [me])))
      by (repeat rewrite length_app; simpl length; unfold a; lia).
    replace (Z.of_nat (length pre + length (l1 ++ me :: l2)) - 1)
      with (Z.of_nat (length (pre ++ l1 ++ [me]) + length l2) - 1)
      by (repeat rewrite length_app; simpl length; lia).
    rewrite R2. cbn [bind].
    unfold set_right at 1. rewrite (set_ok _ me _ Hme). cbn [bind].
    exists (Tr T1 me T2). eexists. split; [reflexivity|].
    split; [simpl; rewrite I1, I2; reflexivity|].
    assert (Hme1 : ~ In me l1)
      by (intros F; apply Hnme; apply in_or_app; left; exact F).
    assert (Hme2 : ~ In me l2)
      by (intros F; apply Hnme; apply in_or_app; right; exact F).
    destruct (F2 me Hme2) as [F2l F2r].
    split; [|split].
    + cbn [shape root _left _right]. split; [reflexivity|]. split; [exact Hme|].
      rewrite upd_same. split.
      * rewrite F2l. unfold st2. cbn [_left]. rewrite upd_same.
        apply shape_frame with (lft := _left st1) (rgt := _right st1); [|exact S1].
        intros k Hk1. rewrite I1 in Hk1.
        assert (k <> me) by (intros ->; contradiction).
        rewrite upd_other by assumption.
        destruct (F2 k) as [A B]; [intros F; exact (Hdis k Hk1 F)|].
        rewrite A, B. unfold st2. cbn [_left _right].
        rewrite upd_other by assumption. split; reflexivity.
      * apply shape_frame with (lft := _left st3) (rgt := _right st3); [|exact S2].
        intros k Hk2. rewrite I2 in Hk2.
        assert (k <> me) by (intros ->; contradiction).
        rewrite upd_other by assumption. split; reflexivity.
    + cbn [_head]. rewrite H2. unfold st2. cbn [_head]. exact H1.
    + intros k Hk0. cbn [_left _right].
      assert (Hk1 : ~ In k l1) by (intros F; apply Hk0; apply in_or_app; left; exact F).
      assert (Hk2 : ~ In k l2)
        by (intros F; apply Hk0; apply in_or_app; right; right; exact F).
      assert (Hkm : k <> me)
        by (intros F; apply Hk0; apply in_or_app; right; left; symmetry; exact F).
      rewrite upd_other by exact Hkm.
      destruct (F2 k Hk2) as [A B]. rewrite A, B. unfold st2. cbn [_left _right].
      rewrite upd_other by exact Hkm.
      apply F1. exact Hk1.
Qed.

End StaticBuild.

(** ** Building the static index *)

Lemma outArcs_in (g : Digraph) (n : Node) (a : Arc) :
  In a (outArcs g n) <-> In a (arcs g) /\ source g a = n.
Proof.
  unfold outArcs. rewrite filter_In. rewrite Z.eqb_eq. reflexivity.
Qed.

Lemma outArcs_nodup (g : Digraph) (n : Node) :
  NoDup (arcs g) -> NoDup (outArcs g n).
Proof. intros H. apply NoDup_filter. exact H. Qed.

Lemma outArcs_length (g : Digraph) (n : Node) :
  (length (outArcs g n) <= length (arcs g))%nat.
Proof. apply filter_length_le. Qed.

Lemma sorted_out_in (g : Digraph) (n : Node) (a : Arc) :
  In a (std_sort (ArcLess g) (outArcs g n)) <-> In a (arcs g) /\ source g a = n.
Proof.
  rewrite <- outArcs_in. split; intros H.
  - eapply Permutation_in; [apply std_sort_perm | exact H].
  - eapply Permutation_in; [apply Permutation_sym; apply std_sort_perm | exact H].
Qed.

Lemma depth_le_length (t : tree) : (depth t <= length (inorder t))%nat.
Proof.
  induction t as [|l IHl a r IHr]; simpl; [lia|].
  rewrite length_app. simpl. lia.
Qed.

Section StaticRefresh.

Import ArcLookUp.

Variable g : Digraph.
Hypothesis Hwf : wf_graph g.

Lemma static_refresh_node_good (st : state) (n : Node) :
  n <> INVALID ->
  Z.of_nat (length (outArcs g n)) <= 2 ^ 30 ->
  exists st',
    refresh_node g st n = Ok st' /\
    static_good g st' n /\
    (forall n', static_good g st n' -> static_good g st' n').
Proof.
  intros Hn Hsmall. unfold refresh_node, out_arcs.
  rewrite (eqb_invalid_false n Hn). cbn [bind].
  set (v := std_sort (ArcLess g) (outArcs g n)).
  assert (Hlen : length v = length (outArcs g n))
    by (apply Permutation_length; apply std_sort_perm).
  assert (Hgood : forall st',
    static_good g st' n ->
    _head st' = upd (_head st) n (_head st' n) ->
    (forall k, ~ In k v -> _left st' k = _left st k /\ _right st' k = _right st k) ->
    forall n', static_good g st n' -> static_good g st' n').
  { intros st' Hg Hh Hfr n' [T [HT HI]].
    destruct (Z.eq_dec n' n) as [->|Hne]; [exact Hg|].
    exists T. split; [|exact HI].
    rewrite Hh. rewrite upd_other by exact Hne.
    apply shape_frame with (lft := _left st) (rgt := _right st); [|exact HT].
    intros a Ha. apply Hfr. intros F.
    rewrite HI in Ha. apply sorted_out_in in Ha. apply sorted_out_in in F.
    destruct Ha as [_ Ha]. destruct F as [_ F]. congruence. }
  destruct (Z.ltb_spec 0 (Z.of_nat (length (outArcs g n)))) as [Hpos|Hzero].
  - destruct (static_refreshRec_spec (length v) v [] [] st)
      as [T [st1 [R [I [S [H F]]]]]].
    + intros E. rewrite E in Hlen. simpl in Hlen. lia.
    + lia.
    + intros F. apply sorted_out_in in F. destruct F as [F _].
      exact (wf_arcs_valid g Hwf F).
    + eapply Permutation_NoDup;
        [apply Permutation_sym; apply std_sort_perm |].
      apply outArcs_nodup. exact (wf_arcs_nodup g Hwf).
    + cbn [length Nat.add]. rewrite Hlen. exact Hsmall.
    + simpl in R. rewrite app_nil_r in R. fold v. rewrite R. cbn [bind].
      unfold set_head. rewrite (set_ok _ n _ Hn). cbn [bind].
      eexists. split; [reflexivity|].
      assert (Hg : static_good g
        {| _head := upd (_head st1) n (root T);
           _left := _left st1; _right := _right st1 |} n).
      { exists T. cbn [_head _left _right]. rewrite upd_same.
        split; [exact S | exact I]. }
      split; [exact Hg|].
      apply Hgood; [exact Hg | | exact F].
      cbn [_head]. rewrite upd_same. rewrite H. reflexivity.
  - unfold set_head. rewrite (set_ok _ n _ Hn). cbn [bind].
    eexists. split; [reflexivity|].
    assert (Hv : v = []).
    { destruct v; [reflexivity | simpl in Hlen; lia]. }
    assert (Hg : static_good g
      {| _head := upd (_head st) n INVALID;
         _left := _left st; _right := _right st |} n).
    { exists Leaf. cbn [_head _left _right]. rewrite upd_same.
      split; [reflexivity|]. fold v. rewrite Hv. reflexivity. }
    split; [exact Hg|].
    apply Hgood; [exact Hg | | ].
    + cbn [_head]. rewrite upd_same. reflexivity.
    + intros k _. split; reflexivity.
Qed.

Lemma static_for_nodes_good (ns : list Node) :
  forall st,
  ~ In INVALID ns ->
  (forall n, In n ns -> Z.of_nat (length (outArcs g n)) <= 2 ^ 30) ->
  exists st',
    for_nodes (refresh_node g) st ns = Ok st' /\
    (forall n, In n ns -> static_good g st' n) /\
    (forall n, static_good g st n -> static_good g st' n).
Proof.
  induction ns as [|n ns IH]; intros st Hv Hsm.
  - exists st. simpl. split; [reflexivity|]. split; [intros n []|auto].
  - destruct (static_refresh_node_good st n) as [st1 [R [G P]]].
    + intros F. apply Hv. left. exact F.
    + apply Hsm. left. reflexivity.
    + destruct (IH st1) as [st2 [R2 [G2 P2]]].
      * intros F. apply Hv. right. exact F.
      * intros m Hm. apply Hsm. right. exact Hm.
      * exists st2. simpl. rewrite R. cbn [bind]. split; [exact R2|]. split.
        -- intros n' [E|Hn']; [subst n'; apply P2; exact G | apply G2; exact Hn'].
        -- intros n' Hn'. apply P2. apply P. exact Hn'.
Qed.

Lemma static_refresh_good (st : state) :
  small_degrees g ->
  exists st',
    refresh g st = Ok st' /\
    forall n, In n (nodes g) -> static_good g st' n.
Proof.
  intros Hsm.
  destruct (static_for_nodes_good (nodes g) st (wf_nodes_valid g Hwf) Hsm)
    as [st' [R [G _]]].
  exists st'. split; [exact R | exact G].
Qed.

Lemma static_good_weak_bst (st : state) (n : Node) :
  strict_total (node_lt g) ->
  static_good g st n ->
  weak_bst g (_left st) (_right st) (_head st n).
Proof.
  intros Hord [T [HT HI]].
  apply weak_bst_of_sorted with T; [exact HT|].
  rewrite HI. apply std_sort_sorted. exact Hord.
Qed.

End StaticRefresh.

(** ** The next pointers of AllArcLookUp *)

Section AllBuild.

Import AllArcLookUp.

Variable g : Digraph.
Hypothesis Hwf : wf_graph g.

Lemma refreshNext_ok (T : tree) :
  forall (fuel : nat) (st : state) (x next : Arc),
    shape (ArcLookUp._left (base st)) (ArcLookUp._right (base st)) x T ->
    (depth T <= fuel)%nat ->
    exists nx st',
      refreshNext fuel g st x next = Ok (nx, st') /\ base st' = base st.
Proof.
  induction T as [|l IHl a r IHr]; intros fuel st x next HT Hd.
  - simpl in HT. subst x. exists next, st. destruct fuel; split; reflexivity.
  - simpl in HT. destruct HT as [-> [Ha [Hl Hr]]].
    destruct fuel as [|f]; [simpl in Hd; lia|].
    simpl in Hd. cbn [refreshNext].
    rewrite (eqb_invalid_false a Ha).
    rewrite (get_ok _ a Ha). cbn [bind].
    destruct (IHr f st (ArcLookUp._right (base st) a) next Hr)
      as [nx1 [st1 [R1 B1]]]; [lia|].
    rewrite R1. cbn [bind].
    assert (Hv : exists v,
      (if negb (nx1 =? INVALID)
       then tn <- g_target g nx1 ;; th <- g_target g a ;;
            Ok (if tn =? th then nx1 else INVALID)
       else Ok INVALID) = Ok v).
    { destruct (Z.eqb_spec nx1 INVALID) as [E|E]; cbn [negb].
      - eexists. reflexivity.
      - unfold g_target. rewrite (get_ok _ nx1 E), (get_ok _ a Ha).
        cbn [bind]. eexists. reflexivity. }
    destruct Hv as [v Hv]. rewrite Hv. cbn [bind].
    unfold set_next. rewrite (set_ok _ a _ Ha). cbn [bind base].
    rewrite (get_ok _ a Ha). cbn [bind].
    match goal with |- context [refreshNext f g ?s _ _] => set (st2 := s) end.
    destruct (IHl f st2 (ArcLookUp._left (base st1) a) a) as [nx2 [st3 [R2 B2]]].
    + unfold st2. cbn [base]. rewrite B1. exact Hl.
    + lia.
    + exists nx2, st3. split; [exact R2|]. rewrite B2. unfold st2. cbn [base].
      exact B1.
Qed.

Lemma refreshNext_all_ok (ns : list Node) :
  forall st,
    ~ In INVALID ns ->
    (forall n, In n ns -> static_good g (base st) n) ->
    exists st', refreshNext_all g st ns = Ok st' /\ base st' = base st.
Proof.
  induction ns as [|n ns IH]; intros st Hv Hg.
  - exists st. split; reflexivity.
  - assert (Hn : n <> INVALID) by (intros F; apply Hv; left; exact F).
    destruct (Hg n (or_introl eq_refl)) as [T [HT HI]].
    cbn [refreshNext_all]. rewrite (get_ok _ n Hn). cbn [bind].
    destruct (refreshNext_ok T (fuel_of g) st _ INVALID HT) as [nx [st1 [R B]]].
    + eapply Nat.le_trans; [apply depth_le_length|]. rewrite HI.
      rewrite (Permutation_length (std_sort_perm _ _)).
      unfold fuel_of. pose proof (outArcs_length g n). lia.
    + rewrite R. cbn [bind].
      destruct (IH st1) as [st2 [R2 B2]].
      * intros F. apply Hv. right. exact F.
      * intros n' Hn'. rewrite B. apply Hg. right. exact Hn'.
      * exists st2. split; [exact R2|]. congruence.
Qed.

Lemma all_make_good (mem : state) :
  small_degrees g ->
  exists st,
    make g mem = Ok st /\
    forall n, In n (nodes g) -> static_good g (base st) n.
Proof.
  intros Hsm. unfold make, ArcLookUp.make.
  destruct (static_refresh_good g Hwf (base mem) Hsm) as [b [R G]].
  rewrite R. cbn [bind].
  destruct (refreshNext_all_ok (nodes g) {| base := b; _next := _next mem |})
    as [st [R2 B2]].
  - exact (wf_nodes_valid g Hwf).
  - exact G.
  - exists st. split; [exact R2|]. rewrite B2. exact G.
Qed.

Lemma all_refresh_node_good (st : state) (n : Node) :
  n <> INVALID ->
  Z.of_nat (length (outArcs g n)) <= 2 ^ 30 ->
  exists st',
    refresh_node g st n = Ok st' /\ static_good g (base st') n.
Proof.
  intros Hn Hsm. unfold refresh_node.
  destruct (static_refresh_node_good g Hwf (base st) n Hn Hsm) as [b [R [G _]]].
  rewrite R. cbn [bind]. rewrite (get_ok _ n Hn). cbn [bind].
  destruct G as [T [HT HI]].
  destruct (refreshNext_ok T (fuel_of g) {| base := b; _next := _next st |}
              (ArcLookUp._head b n) INVALID HT) as [nx [st1 [R1 B1]]].
  - eapply Nat.le_trans; [apply depth_le_length|]. rewrite HI.
    rewrite (Permutation_length (std_sort_perm _ _)).
    unfold fuel_of. pose proof (outArcs_length g n). lia.
  - rewrite R1. cbn [bind]. exists st1. split; [reflexivity|].
    rewrite B1. exists T. split; [exact HT | exact HI].
Qed.

End AllBuild.

(** ** Trees held by the maps of the dynamic index *)

Section DynRepr.

Import DynArcLookUp.

Lemma repr_root (st : state) (p x : Arc) (t : tree) :
  repr st p x t -> x = root t.
Proof. destruct t; simpl; intros H; [exact H | apply H]. Qed.

Lemma repr_shape (st : state) (t : tree) :
  forall p x, repr st p x t -> shape (_left st) (_right st) x t.
Proof.
  induction t as [|l IHl a r IHr]; intros p x H; simpl in *.
  - exact H.
  - destruct H as [Hx [Ha [_ [Hl Hr]]]].
    split; [exact Hx|]. split; [exact Ha|]. split; [eapply IHl | eapply IHr]; eassumption.
Qed.

Lemma repr_frame (st st' : state) (t : tree) :
  forall p x, agree_on (inorder t) st st' -> repr st p x t -> repr st' p x t.
Proof.
  induction t as [|l IHl a r IHr]; intros p x Hfr H; simpl in *.
  - exact H.
  - destruct H as [Hx [Ha [Hp [Hl Hr]]]].
    destruct (Hfr a) as [Ep [El Er]]; [apply in_or_app; right; left; reflexivity|].
    split; [exact Hx|]. split; [exact Ha|]. split; [congruence|]. split.
    + rewrite El. apply IHl; [|exact Hl].
      intros b Hb. apply Hfr. apply in_or_app. left. exact Hb.
    + rewrite Er. apply IHr; [|exact Hr].
      intros b Hb. apply Hfr. apply in_or_app. right. right. exact Hb.
Qed.

Lemma repr_valid (st : state) (t : tree) (p x : Arc) :
  repr st p x t -> forall a, In a (inorder t) -> a <> INVALID.
Proof.
  intros H. eapply shape_valid. eapply repr_shape. exact H.
Qed.

(** The root of a tree may be given another parent. *)
Lemma repr_reparent (st st' : state) (t : tree) (p p' x : Arc) :
  repr st p x t ->
  (forall a, In a (inorder t) ->
     _left st' a = _left st a /\ _right st' a = _right st a /\
     (a <> x -> _parent st' a = _parent st a)) ->
  NoDup (inorder t) ->
  (x <> INVALID -> _parent st' x = p') ->
  repr st' p' x t.
Proof.
  destruct t as [|l a r]; simpl; intros H Hfr Hnd Hp; [exact H|].
  destruct H as [Hx [Ha [_ [Hl Hr]]]]. subst x.
  apply NoDup_remove_2 in Hnd.
  destruct (Hfr a) as [El [Er _]]; [apply in_or_app; right; left; reflexivity|].
  split; [reflexivity|]. split; [exact Ha|]. split; [apply Hp; exact Ha|]. split.
  - rewrite El. apply repr_frame with st; [|exact Hl].
    intros b Hb.
    destruct (Hfr b) as [A [B C]]; [apply in_or_app; left; exact Hb|].
    split; [|split]; [apply C | exact A | exact B].
    intros ->. apply Hnd. apply in_or_app. left. exact Hb.
  - rewrite Er. apply repr_frame with st; [|exact Hr].
    intros b Hb.
    destruct (Hfr b) as [A [B C]]; [apply in_or_app; right; right; exact Hb|].
    split; [|split]; [apply C | exact A | exact B].
    intros ->. apply Hnd. apply in_or_app. right. exact Hb.
Qed.

End DynRepr.

(** ** Building the dynamic index *)

Section DynBuild.

Import DynArcLookUp.

Lemma root_in_inorder (t : tree) : t <> Leaf -> In (root t) (inorder t).
Proof.
  destruct t as [|l a r]; [congruence|]. intros _. simpl.
  apply in_or_app. right. left. reflexivity.
Qed.

Lemma inorder_nonempty (t : tree) (x : Arc) (l : list Arc) :
  inorder t = x :: l -> t <> Leaf.
Proof. destruct t; simpl; congruence. Qed.

Lemma dyn_refreshRec_spec :
  forall (fuel : nat) (mid pre post : list Arc) (st : state),
    mid <> [] -> (length mid <= fuel)%nat ->
    ~ In INVALID mid -> NoDup mid ->
    Z.of_nat (length pre + length mid) <= 2 ^ 30 ->
    exists T st',
      refreshRec fuel st (pre ++ mid ++ post)
                 (Z.of_nat (length pre))
                 (Z.of_nat (length pre + length mid) - 1) = Ok (root T, st') /\
      inorder T = mid /\
      repr st' (_parent st' (root T)) (root T) T /\
      _head st' = _head st /\
      agree_off mid st st'.
Proof.
  induction fuel as [|f IH]; intros mid pre post st Hne Hlen Hval Hnd Hb.
  - destruct mid; [congruence | simpl in Hlen; lia].
  - destruct (median_split mid Hne) as [l1 [me [l2 [E Hk]]]]. subst mid.
    rewrite length_app in Hlen, Hk, Hb. simpl length in Hlen, Hk, Hb.
    assert (Hme : me <> INVALID).
    { intros F. apply Hval. apply in_or_app. right. left. exact F. }
    apply NoDup_remove in Hnd. destruct Hnd as [Hnd Hnme].
    assert (Hnd1 : NoDup l1) by (apply NoDup_app_remove_r in Hnd; exact Hnd).
    assert (Hnd2 : NoDup l2) by (apply NoDup_app_remove_l in Hnd; exact Hnd).
    assert (Hdis : forall k, In k l1 -> In k l2 -> False).
    { intros k H1 H2. apply in_split in H1. destruct H1 as [u [w ->]].
      rewrite <- app_assoc in Hnd. simpl in Hnd.
      apply NoDup_remove_2 in Hnd. apply Hnd.
      apply in_or_app. right. apply in_or_app. right. exact H2. }
    assert (Hme1 : ~ In me l1)
      by (intros F; apply Hnme; apply in_or_app; left; exact F).
    assert (Hme2 : ~ In me l2)
      by (intros F; apply Hnme; apply in_or_app; right; exact F).
    assert (Hv1 : ~ In INVALID l1)
      by (intros F; apply Hval; apply in_or_app; left; exact F).
    assert (Hv2 : ~ In INVALID l2)
      by (intros F; apply Hval; apply in_or_app; right; right; exact F).
    (* the left half, with its attachment below [me] *)
    assert (Hleft : forall pre' post' st0,
      Z.of_nat (length pre' + length l1) <= 2 ^ 30 ->
      exists T1 st1,
        (if 0 <? Z.of_nat (length l1)
         then '(l, st) <- refreshRec f st0 (pre' ++ l1 ++ post')
                            (Z.of_nat (length pre'))
                            (Z.of_nat (length pre' + length l1) - 1) ;;
              st <- set_left st me l ;; set_parent st l me
         else set_left st0 me INVALID) = Ok st1 /\
        inorder T1 = l1 /\
        repr st1 me (_left st1 me) T1 /\
        _head st1 = _head st0 /\
        (forall k, ~ In k l1 ->
           _parent st1 k = _parent st0 k /\ _right st1 k = _right st0 k /\
           (k <> me -> _left st1 k = _left st0 k))).
    { intros pre' post' st0 Hb'. destruct l1 as [|x l1'] eqn:El1.
      - exists Leaf. cbn [length Z.of_nat Z.ltb Z.compare].
        unfold set_left. rewrite (set_ok _ me _ Hme). cbn [bind].
        eexists. split; [reflexivity|]. cbn [_head _parent _left _right inorder repr].
        rewrite upd_same. repeat split; try reflexivity.
        intros Hkm. rewrite upd_other by exact Hkm. reflexivity.
      - rewrite <- El1 in *.
        replace (0 <? Z.of_nat (length l1)) with true
          by (symmetry; apply Z.ltb_lt; rewrite El1; simpl length; lia).
        destruct (IH l1 pre' post' st0) as [T1 [st' [R [I [HR [HH HF]]]]]];
          [rewrite El1; discriminate | lia | exact Hv1 | exact Hnd1 | exact Hb' |].
        rewrite R. cbn [bind].
        assert (HT1 : T1 <> Leaf)
          by (apply (inorder_nonempty T1 x l1'); congruence).
        assert (Hrin : In (root T1) l1)
          by (rewrite <- I; apply root_in_inorder; exact HT1).
        assert (Hrv : root T1 <> INVALID) by (intros F; rewrite F in Hrin; contradiction).
        assert (Hrme : root T1 <> me) by (intros F; rewrite F in Hrin; contradiction).
        unfold set_left. rewrite (set_ok _ me _ Hme). cbn [bind].
        unfold set_parent. cbn [_parent]. rewrite (set_ok _ (root T1) _ Hrv).
        cbn [bind].
        exists T1. eexists. split; [reflexivity|].
        cbn [_head _parent _left _right]. rewrite upd_same.
        split; [exact I|]. split; [|split; [exact HH|]].
        + apply repr_reparent with (st := st') (p := _parent st' (root T1));
            [exact HR | | rewrite I; exact Hnd1 |].
          * intros a Ha. cbn [_parent _left _right]. rewrite I in Ha.
            assert (a <> me) by (intros ->; contradiction).
            rewrite upd_other by assumption.
            split; [reflexivity|]. split; [reflexivity|].
            intros Har. rewrite upd_other by exact Har. reflexivity.
          * intros _. cbn [_parent]. apply upd_same.
        + intros k Hk0. destruct (HF k Hk0) as [A [B C]].
          assert (k <> root T1) by (intros ->; contradiction).
          rewrite upd_other by assumption.
          split; [exact A|]. split; [exact C|].
          intros Hkm. rewrite upd_other by exact Hkm. exact B. }
    assert (Hright : forall pre' post' st0,
      Z.of_nat (length pre' + length l2) <= 2 ^ 30 ->
      exists T2 st1,
        (if 0 <? Z.of_nat (length l2)
         then '(r, st) <- refreshRec f st0 (pre' ++ l2 ++ post')
                            (Z.of_nat (length pre'))
                            (Z.of_nat (length pre' + length l2) - 1) ;;
              st <- set_right st me r ;; set_parent st r me
         else set_right st0 me INVALID) = Ok st1 /\
        inorder T2 = l2 /\
        repr st1 me (_right st1 me) T2 /\
        _head st1 = _head st0 /\
        (forall k, ~ In k l2 ->
           _parent st1 k = _parent st0 k /\ _left st1 k = _left st0 k /\
           (k <> me -> _right st1 k = _right st0 k))).
    { intros pre' post' st0 Hb'. destruct l2 as [|x l2'] eqn:El2.
      - exists Leaf. cbn [length Z.of_nat Z.ltb Z.compare].
        unfold set_right. rewrite (set_ok _ me _ Hme). cbn [bind].
        eexists. split; [reflexivity|]. cbn [_head _parent _left _right inorder repr].
        rewrite upd_same. repeat split; try reflexivity.
        intros Hkm. rewrite upd_other by exact Hkm. reflexivity.
      - rewrite <- El2 in *.
        replace (0 <? Z.of_nat (length l2)) with true
          by (symmetry; apply Z.ltb_lt; rewrite El2; simpl length; lia).
        destruct (IH l2 pre' post' st0) as [T2 [st' [R [I [HR [HH HF]]]]]];
          [rewrite El2; discriminate | lia | exact Hv2 | exact Hnd2 | exact Hb' |].
        rewrite R. cbn [bind].
        assert (HT2 : T2 <> Leaf)
          by (apply (inorder_nonempty T2 x l2'); congruence).
        assert (Hrin : In (root T2) l2)
          by (rewrite <- I; apply root_in_inorder; exact HT2).
        assert (Hrv : root T2 <> INVALID) by (intros F; rewrite F in Hrin; contradiction).
        assert (Hrme : root T2 <> me) by (intros F; rewrite F in Hrin; contradiction).
        unfold set_right. rewrite (set_ok _ me _ Hme). cbn [bind].
        unfold set_parent. cbn [_parent]. rewrite (set_ok _ (root T2) _ Hrv).
        cbn [bind].
        exists T2. eexists. split; [reflexivity|].
        cbn [_head _parent _left _right]. rewrite upd_same.
        split; [exact I|]. split; [|split; [exact HH|]].
        + apply repr_reparent with (st := st') (p := _parent st' (root T2));
            [exact HR | | rewrite I; exact Hnd2 |].
          * intros a Ha. cbn [_parent _left _right]. rewrite I in Ha.
            assert (a <> me) by (intros ->; contradiction).
            rewrite upd_other by assumption.
            split; [reflexivity|]. split; [reflexivity|].
            intros Har. rewrite upd_other by exact Har. reflexivity.
          * intros _. cbn [_parent]. apply upd_same.
        + intros k Hk0. destruct (HF k Hk0) as [A [B C]].
          assert (k <> root T2) by (intros ->; contradiction).
          rewrite upd_other by assumption.
          split; [exact A|]. split; [exact B|].
          intros Hkm. rewrite upd_other by exact Hkm. exact C. }
    remember (pre ++ (l1 ++ me :: l2) ++ post) as v eqn:Ev.
    assert (Ev0 : v = (pre ++ l1) ++ me :: (l2 ++ post))
      by (rewrite Ev; repeat rewrite <- app_assoc; reflexivity).
    assert (Ev1 : v = pre ++ l1 ++ (me :: l2 ++ post))
      by (rewrite Ev; repeat rewrite <- app_assoc; reflexivity).
    assert (Ev2 : v = (pre ++ l1 ++ [me]) ++ l2 ++ post)
      by (rewrite Ev; repeat rewrite <- app_assoc; reflexivity).
    cbn [refreshRec].
    set (a := Z.of_nat (length pre)).
    rewrite int_wrap_small
      by (rewrite length_app; simpl length; unfold a; lia).
    assert (Em : Z.quot (a + (Z.of_nat (length pre + length (l1 ++ me :: l2)) - 1)) 2
                 = a + Z.of_nat (length l1)).
    { rewrite length_app. simpl length.
      rewrite <- (median_index a (Z.of_nat (length l1 + S (length l2)))
                    (Z.of_nat (length l1)));
        [f_equal; lia | unfold a; lia | lia | exact Hk]. }
    rewrite Em.
    assert (Hv : vec_at v (a + Z.of_nat (length l1)) = Ok me).
    { rewrite Ev0. apply vec_at_middle. rewrite length_app. unfold a. lia. }
    rewrite Hv. cbn [bind].
    destruct (Hleft pre (me :: l2 ++ post) st) as [T1 [st1 [R1 [I1 [S1 [H1 F1]]]]]];
      [lia|].
    rewrite <- Ev1 in R1.
    replace (a <? a + Z.of_nat (length l1)) with (0 <? Z.of_nat (length l1))
      by (destruct (Z.ltb_spec 0 (Z.of_nat (length l1)));
          destruct (Z.ltb_spec a (a + Z.of_nat (length l1))); lia || reflexivity).
    replace (a + Z.of_nat (length l1) - 1)
      with (Z.of_nat (length pre + length l1) - 1) by (unfold a; lia).
    fold a in R1. rewrite R1. cbn [bind].
    destruct (Hright (pre ++ l1 ++ [me]) post st1) as [T2 [st2 [R2 [I2 [S2 [H2 F2]]]]]];
      [repeat rewrite length_app; simpl length; lia|].
    rewrite <- Ev2 in R2.
    replace (a + Z.of_nat (length l1) <?
             Z.of_nat (length pre + length (l1 ++ me :: l2)) - 1)
      with (0 <? Z.of_nat (length l2)).
    2:{ rewrite length_app. simpl length.
        destruct (Z.ltb_spec 0 (Z.of_nat (length l2)));
        destruct (Z.ltb_spec (a + Z.of_nat (length l1))
                    (Z.of_nat (length pre + (length l1 + S (length l2))) - 1));
        unfold a in *; lia || reflexivity. }
    replace (a + Z.of_nat (length l1) + 1)
      with (Z.of_nat (length (pre ++ l1 ++ [me])))
      by (repeat rewrite length_app; simpl length; unfold a; lia).
    replace (Z.of_nat (length pre + length (l1 ++ me :: l2)) - 1)
      with (Z.of_nat (length (pre ++ l1 ++ [me]) + length l2) - 1)
      by (repeat rewrite length_app; simpl length; lia).
    rewrite R2. cbn [bind].
    exists (Tr T1 me T2), st2. split; [reflexivity|].
    split; [simpl; rewrite I1, I2; reflexivity|].
    destruct (F2 me Hme2) as [F2p [F2l _]].
    split; [|split].
    + cbn [repr root]. split; [reflexivity|]. split; [exact Hme|].
      split; [reflexivity|]. split; [|exact S2].
      rewrite F2l.
      apply repr_frame with st1; [|exact S1].
      intros k Hk1. rewrite I1 in Hk1.
      assert (k <> me) by (intros ->; contradiction).
      destruct (F2 k) as [A [B C]]; [intros F; exact (Hdis k Hk1 F)|].
      split; [exact A|]. split; [exact B|]. apply C. assumption.
    + rewrite H2. exact H1.
    + intros k Hk0.
      assert (Hk1 : ~ In k l1) by (intros F; apply Hk0; apply in_or_app; left; exact F).
      assert (Hk2 : ~ In k l2)
        by (intros F; apply Hk0; apply in_or_app; right; right; exact F).
      assert (Hkm : k <> me)
        by (intros F; apply Hk0; apply in_or_app; right; left; symmetry; exact F).
      destruct (F1 k Hk1) as [A1 [B1 C1]]. destruct (F2 k Hk2) as [A2 [B2 C2]].
      split; [congruence|]. split; [rewrite B2; apply C1; exact Hkm|].
      rewrite C2 by exact Hkm. exact B1.
Qed.

End DynBuild.

Section DynRefresh.

Import DynArcLookUp.

(** A call of [refreshRec] that returns has met no sum beyond [int]:
    the last call on the way down the right side is on [(b,b)]. *)
Lemma dyn_refreshRec_bounded :
  forall (fuel : nat) (st : state) (v : list Arc) (a b : Z)
         (r : Arc * state),
    refreshRec fuel st v a b = Ok r -> 2 * b < 2 ^ 31.
Proof.
  induction fuel as [|f IH]; intros st v a b r H; [discriminate H|].
  cbn [refreshRec] in H.
  set (m := Z.quot (int_wrap (a + b)) 2) in H.
  destruct (vec_at v m) as [me|e]; cbn [bind] in H; [|discriminate H].
  match type of H with
  | bind ?c _ = _ => destruct c as [st1|e]; cbn [bind] in H; [|discriminate H]
  end.
  destruct (m <? b) eqn:Emb.
  - destruct (refreshRec f st1 v (m + 1) b) as [[x st2]|e] eqn:R2.
    + exact (IH st1 v (m + 1) b (x, st2) R2).
    + cbn [bind] in H. discriminate H.
  - apply Z.ltb_ge in Emb. pose proof (int_wrap_range (a + b)) as Hr.
    unfold m in Emb. Z.quot_rem_to_equations. lia.
Qed.

Variable g : Digraph.
Hypothesis Hwf : wf_graph g.

Lemma dyn_refresh_node_small (st st' : state) (n : Node) :
  refresh_node g st n = Ok st' ->
  Z.of_nat (length (outArcs g n)) <= 2 ^ 30.
Proof.
  unfold refresh_node, out_arcs.
  destruct (n =? INVALID); [intros H; discriminate H|]. cbn [bind].
  destruct (Z.ltb_spec 0 (Z.of_nat (length (outArcs g n)))) as [Hpos|Hzero];
    [|intros _; lia].
  destruct (refreshRec _ st _ 0 _) as [[h st1]|e] eqn:R;
    [|intros H; discriminate H].
  intros _. apply dyn_refreshRec_bounded in R.
  rewrite (Permutation_length (std_sort_perm (ArcLess g) (outArcs g n))) in R.
  lia.
Qed.

Lemma dyn_for_nodes_small (ns : list Node) :
  forall st st',
    for_nodes (refresh_node g) st ns = Ok st' ->
    forall n, In n ns -> Z.of_nat (length (outArcs g n)) <= 2 ^ 30.
Proof.
  induction ns as [|m ns IH]; intros st st' H n Hn; [contradiction|].
  cbn [for_nodes] in H.
  destruct (refresh_node g st m) as [st1|e] eqn:R; [|discriminate H].
  cbn [bind] in H. destruct Hn as [<-|Hn].
  - exact (dyn_refresh_node_small st st1 m R).
  - exact (IH st1 st' H n Hn).
Qed.

(** A build that returns was a build of a graph with small degrees. *)
Lemma dyn_refresh_small (st st' : state) :
  refresh g st = Ok st' -> small_degrees g.
Proof. intros H. exact (dyn_for_nodes_small (nodes g) st st' H). Qed.

Lemma dyn_refresh_node_built (st : state) (n : Node) :
  n <> INVALID ->
  Z.of_nat (length (outArcs g n)) <= 2 ^ 30 ->
  exists st',
    refresh_node g st n = Ok st' /\
    dyn_built g st' n /\
    (forall n', dyn_built g st n' -> dyn_built g st' n').
Proof.
  intros Hn Hsmall. unfold refresh_node, out_arcs.
  rewrite (eqb_invalid_false n Hn). cbn [bind].
  set (v := std_sort (ArcLess g) (outArcs g n)).
  assert (Hlen : length v = length (outArcs g n))
    by (apply Permutation_length; apply std_sort_perm).
  assert (Hkeep : forall st',
    dyn_built g st' n ->
    _head st' = upd (_head st) n (_head st' n) ->
    agree_off v st st' ->
    forall n', dyn_built g st n' -> dyn_built g st' n').
  { intros st' Hg Hh Hfr n' [T [HT HI]].
    destruct (Z.eq_dec n' n) as [->|Hne]; [exact Hg|].
    exists T. split; [|exact HI].
    rewrite Hh. rewrite upd_other by exact Hne.
    apply repr_frame with st; [|exact HT].
    intros a Ha. apply Hfr. intros F.
    rewrite HI in Ha. apply sorted_out_in in Ha. apply sorted_out_in in F.
    destruct Ha as [_ Ha]. destruct F as [_ F]. congruence. }
  destruct (Z.ltb_spec 0 (Z.of_nat (length (outArcs g n)))) as [Hpos|Hzero].
  - assert (Hvne : v <> []).
    { intros E. rewrite E in Hlen. simpl in Hlen. lia. }
    assert (Hvnd : NoDup v).
    { eapply Permutation_NoDup;
        [apply Permutation_sym; apply std_sort_perm |].
      apply outArcs_nodup. exact (wf_arcs_nodup g Hwf). }
    destruct (dyn_refreshRec_spec (length v) v [] [] st)
      as [T [st1 [R [I [S [H F]]]]]].
    + exact Hvne.
    + lia.
    + intros F. apply sorted_out_in in F. destruct F as [F _].
      exact (wf_arcs_valid g Hwf F).
    + exact Hvnd.
    + cbn [length Nat.add]. rewrite Hlen. exact Hsmall.
    + simpl in R. rewrite app_nil_r in R. fold v. rewrite R. cbn [bind].
      assert (HT : T <> Leaf).
      { destruct T; [simpl in I; congruence | discriminate]. }
      assert (Hrin : In (root T) v) by (rewrite <- I; apply root_in_inorder; exact HT).
      assert (Hrv : root T <> INVALID) by (eapply repr_valid; [exact S | rewrite I; exact Hrin]).
      unfold set_head. rewrite (set_ok _ n _ Hn). cbn [bind].
      unfold set_parent. cbn [_parent]. rewrite (set_ok _ (root T) _ Hrv).
      cbn [bind _head _left _right].
      eexists. split; [reflexivity|].
      match goal with |- dyn_built g ?s n /\ _ => set (st2 := s) end.
      assert (Hg : dyn_built g st2 n).
      { exists T. unfold st2 at 2. cbn [_head]. rewrite upd_same.
        split; [|exact I].
        apply repr_reparent with (st := st1) (p := _parent st1 (root T));
          [exact S | | rewrite I; exact Hvnd |].
        - intros a Ha. unfold st2. cbn [_parent _left _right].
          split; [reflexivity|]. split; [reflexivity|].
          intros Har. rewrite upd_other by exact Har. reflexivity.
        - intros _. unfold st2. cbn [_parent]. apply upd_same. }
      split; [exact Hg|].
      apply Hkeep; [exact Hg | | ].
      * unfold st2. cbn [_head]. rewrite upd_same. rewrite H. reflexivity.
      * intros k Hk. destruct (F k Hk) as [A [B C]]. unfold st2.
        cbn [_parent _left _right].
        assert (k <> root T) by (intros ->; contradiction).
        rewrite upd_other by assumption. auto.
  - unfold set_head. rewrite (set_ok _ n _ Hn). cbn [bind].
    eexists. split; [reflexivity|].
    assert (Hv : v = []).
    { destruct v; [reflexivity | simpl in Hlen; lia]. }
    match goal with |- dyn_built g ?s n /\ _ => set (st2 := s) end.
    assert (Hg : dyn_built g st2 n).
    { exists Leaf. unfold st2. cbn [_head]. rewrite upd_same.
      split; [reflexivity|]. fold v. rewrite Hv. reflexivity. }
    split; [exact Hg|].
    apply Hkeep; [exact Hg | | ].
    + unfold st2. cbn [_head]. rewrite upd_same. reflexivity.
    + intros k _. unfold st2. cbn [_parent _left _right]. auto.
Qed.

Lemma dyn_for_nodes_built (ns : list Node) :
  forall st,
  ~ In INVALID ns ->
  (forall n, In n ns -> Z.of_nat (length (outArcs g n)) <= 2 ^ 30) ->
  exists st',
    for_nodes (refresh_node g) st ns = Ok st' /\
    (forall n, In n ns -> dyn_built g st' n) /\
    (forall n, dyn_built g st n -> dyn_built g st' n).
Proof.
  induction ns as [|n ns IH]; intros st Hv Hsm.
  - exists st. simpl. split; [reflexivity|]. split; [intros n []|auto].
  - destruct (dyn_refresh_node_built st n) as [st1 [R [G P]]].
    + intros F. apply Hv. left. exact F.
    + apply Hsm. left. reflexivity.
    + destruct (IH st1) as [st2 [R2 [G2 P2]]].
      * intros F. apply Hv. right. exact F.
      * intros m Hm. apply Hsm. right. exact Hm.
      * exists st2. simpl. rewrite R. cbn [bind]. split; [exact R2|]. split.
        -- intros n' [E|Hn']; [subst n'; apply P2; exact G | apply G2; exact Hn'].
        -- intros n' Hn'. apply P2. apply P. exact Hn'.
Qed.

Lemma dyn_refresh_built (st : state) :
  small_degrees g ->
  exists st',
    refresh g st = Ok st' /\
    forall n, In n (nodes g) -> dyn_built g st' n.
Proof.
  intros Hsm.
  destruct (dyn_for_nodes_built (nodes g) st (wf_nodes_valid g Hwf) Hsm)
    as [st' [R [G _]]].
  exists st'. split; [exact R | exact G].
Qed.

(** What a build that returns has built. *)
Lemma dyn_refresh_returned (st st' : state) :
  refresh g st = Ok st' ->
  forall n, In n (nodes g) -> dyn_built g st' n.
Proof.
  intros H.
  destruct (dyn_refresh_built st (dyn_refresh_small st st' H)) as [st1 [R G]].
  rewrite R in H. injection H as <-. exact G.
Qed.

Lemma dyn_built_wf (st : state) :
  strict_total (node_lt g) ->
  (forall n, In n (nodes g) -> dyn_built g st n) ->
  dyn_wf g st.
Proof.
  intros Hord H n Hn. destruct (H n Hn) as [T [HT HI]].
  exists T. split; [exact HT|]. rewrite HI. split.
  - apply std_sort_perm.
  - apply std_sort_sorted. exact Hord.
Qed.

Lemma dyn_wf_weak_bst (st : state) (n : Node) :
  dyn_wf g st -> In n (nodes g) ->
  weak_bst g (_left st) (_right st) (_head st n).
Proof.
  intros H Hn. destruct (H n Hn) as [T [HT [_ HS]]].
  apply weak_bst_of_sorted with T; [|exact HS].
  eapply repr_shape. exact HT.
Qed.

End DynRefresh.
(** Parts of a list without repetition share no element. *)
Lemma NoDup_app_parts (l1 l2 : list Z) :
  NoDup (l1 ++ l2) ->
  NoDup l1 /\ NoDup l2 /\ (forall a, In a l1 -> ~ In a l2).
Proof.
  intros H. split; [eapply NoDup_app_remove_r; exact H|].
  split; [eapply NoDup_app_remove_l; exact H|].
  intros a H1 H2. apply in_split in H1. destruct H1 as [u [w ->]].
  rewrite <- app_assoc in H. simpl in H.
  apply NoDup_remove_2 in H. apply H.
  apply in_or_app. right. apply in_or_app. right. exact H2.
Qed.

Ltac nd_split :=
  repeat match goal with
  | H : NoDup (_ ++ _) |- _ =>
    let H1 := fresh "Hnd" in
    let H2 := fresh "Hnd" in
    let H3 := fresh "Hdj" in
    apply NoDup_app_parts in H; destruct H as [H1 [H2 H3]]
  | H : NoDup (_ :: _) |- _ =>
    let H1 := fresh "Hni" in
    let H2 := fresh "Hnd" in
    apply NoDup_cons_iff in H; destruct H as [H1 H2]
  | H : NoDup [] |- _ => clear H
  end.

Ltac in_solve :=
  repeat first [rewrite in_app_iff
               | progress (cbn [In inorder cbefore cafter])]; tauto.

Ltac nd_false e :=
  match goal with
  | H : ~ In e ?l |- _ => solve [apply H; in_solve]
  | H : forall a, In a ?l1 -> ~ In a ?l2 |- _ =>
    solve [apply (H e); in_solve]
  end.

(** [a <> b] for two arcs at different places of such a list. *)
Ltac nd_neq :=
  match goal with
  | |- ?a <> ?b =>
    let E := fresh "E" in
    intros E;
    first [ nd_false a
          | nd_false b
          | rewrite E in *; first [nd_false a | nd_false b]
          | rewrite <- E in *; first [nd_false a | nd_false b] ]
  end.


(** ** Paths and rotations *)

Section DynZipper.

Import DynArcLookUp.

Lemma inorder_plug (c : ctx) :
  forall t, inorder (plug c t) = cbefore c ++ inorder t ++ cafter c.
Proof.
  induction c as [|[a r|l a] c IH]; intros t; simpl.
  - rewrite app_nil_r. reflexivity.
  - rewrite IH. simpl. repeat rewrite <- app_assoc. reflexivity.
  - rewrite IH. simpl. repeat rewrite <- app_assoc. reflexivity.
Qed.

Lemma cshape_frame (st st' : state) (c : ctx) :
  forall x,
    agree_on (cbefore c ++ cafter c) st st' ->
    cshape st c x -> cshape st' c x.
Proof.
  induction c as [|[a r|l a] c IH]; intros x Hfr H; simpl in *.
  - exact I.
  - destruct H as [Ha [Hl [Hp [Hr Hc]]]].
    destruct (Hfr a) as [Ep [El Er]]; [in_solve|].
    split; [exact Ha|]. split; [congruence|]. split; [congruence|]. split.
    + rewrite Er. apply repr_frame with st; [|exact Hr].
      intros b Hb. apply Hfr. in_solve.
    + apply IH; [|exact Hc]. intros b Hb. apply Hfr.
      rewrite in_app_iff in Hb. in_solve.
  - destruct H as [Ha [Hl [Hp [Hr Hc]]]].
    destruct (Hfr a) as [Ep [El Er]]; [in_solve|].
    split; [exact Ha|]. split; [congruence|]. split; [congruence|]. split.
    + rewrite El. apply repr_frame with st; [|exact Hr].
      intros b Hb. apply Hfr. in_solve.
    + apply IH; [|exact Hc]. intros b Hb. apply Hfr.
      rewrite in_app_iff in Hb. in_solve.
Qed.

Lemma cshape_valid (st : state) (c : ctx) :
  forall x, cshape st c x ->
  forall a, In a (cbefore c ++ cafter c) -> a <> INVALID.
Proof.
  induction c as [|[b r|l b] c IH]; intros x H a Ha; simpl in *.
  - contradiction.
  - destruct H as [Hb [_ [_ [Hr Hc]]]].
    rewrite !in_app_iff in Ha. simpl in Ha. rewrite in_app_iff in Ha.
    destruct Ha as [Ha|[Ha|[Ha|Ha]]].
    + eapply IH; [exact Hc | in_solve].
    + subst. exact Hb.
    + eapply repr_valid; eassumption.
    + eapply IH; [exact Hc | in_solve].
  - destruct H as [Hb [_ [_ [Hr Hc]]]].
    rewrite !in_app_iff in Ha. simpl in Ha.
    destruct Ha as [[Ha|[Ha|[Ha|[]]]]|Ha].
    + eapply IH; [exact Hc | in_solve].
    + eapply repr_valid; eassumption.
    + subst. exact Hb.
    + eapply IH; [exact Hc | in_solve].
Qed.

Lemma cparent_valid (st : state) (c : ctx) (x : Arc) :
  cshape st c x -> c <> [] -> cparent c <> INVALID.
Proof.
  destruct c as [|[a r|l a] c]; simpl; intros H Hc; [congruence| |]; apply H.
Qed.

Lemma cparent_in (c : ctx) :
  c <> [] -> In (cparent c) (cbefore c ++ cafter c).
Proof.
  destruct c as [|[a r|l a] c]; simpl; intros Hc; [congruence| |]; in_solve.
Qed.

(** The child slot of the first arc of the path is redirected. *)
Lemma cshape_rehole (st st' : state) (c : ctx) (x x' : Arc) :
  cshape st c x ->
  NoDup (cbefore c ++ cafter c) ->
  (forall a, In a (cbefore c ++ cafter c) ->
     _parent st' a = _parent st a /\
     (a <> cparent c ->
      _left st' a = _left st a /\ _right st' a = _right st a)) ->
  (forall a r c', c = FL a r :: c' ->
     _left st' a = x' /\ _right st' a = _right st a) ->
  (forall l a c', c = FR l a :: c' ->
     _right st' a = x' /\ _left st' a = _left st a) ->
  cshape st' c x'.
Proof.
  intros H Hnd Hfr HL HR.
  destruct c as [|[a r|l a] c]; simpl in *.
  - exact I.
  - destruct H as [Ha [Hl [Hp [Hr Hc]]]].
    destruct (HL a r c eq_refl) as [El Er].
    destruct (Hfr a) as [Ep _]; [in_solve|].
    nd_split.
    split; [exact Ha|]. split; [exact El|]. split; [congruence|]. split.
    + rewrite Er. apply repr_frame with st; [|exact Hr].
      intros b Hb. destruct (Hfr b) as [A B]; [in_solve|].
      destruct B as [B1 B2]; [nd_neq|]. auto.
    + apply cshape_frame with st; [|exact Hc].
      intros b Hb. destruct (Hfr b) as [A B].
      { rewrite in_app_iff in Hb. in_solve. }
      destruct B as [B1 B2]; [|auto].
      rewrite in_app_iff in Hb. destruct Hb; nd_neq.
  - destruct H as [Ha [Hl [Hp [Hr Hc]]]].
    destruct (HR l a c eq_refl) as [Er El].
    destruct (Hfr a) as [Ep _]; [in_solve|].
    rewrite <- !app_assoc in Hnd. simpl in Hnd.
    nd_split.
    split; [exact Ha|]. split; [exact Er|]. split; [congruence|]. split.
    + rewrite El. apply repr_frame with st; [|exact Hr].
      intros b Hb. destruct (Hfr b) as [A B]; [in_solve|].
      destruct B as [B1 B2]; [nd_neq|]. auto.
    + apply cshape_frame with st; [|exact Hc].
      intros b Hb. destruct (Hfr b) as [A B].
      { rewrite in_app_iff in Hb. in_solve. }
      destruct B as [B1 B2]; [|auto].
      rewrite in_app_iff in Hb. destruct Hb; nd_neq.
Qed.

End DynZipper.

(** Reading through a chain of updates. *)
Ltac upd_read :=
  repeat first [ rewrite upd_same | rewrite upd_other by (assumption || nd_neq) ].

(** Using what is known of the cells and of the tests. *)
Ltac ptr_rw :=
  match goal with
  | H : DynArcLookUp._parent ?s ?x = _ |- context [DynArcLookUp._parent ?s ?x] => rewrite H
  | H : DynArcLookUp._left ?s ?x = _ |- context [DynArcLookUp._left ?s ?x] => rewrite H
  | H : DynArcLookUp._right ?s ?x = _ |- context [DynArcLookUp._right ?s ?x] => rewrite H
  | H : (?x =? ?y) = _ |- context [?x =? ?y] => rewrite H
  end.

Ltac ev :=
  repeat first
    [ rewrite get_ok by assumption
    | rewrite set_ok by assumption
    | progress cbn [bind DynArcLookUp._head DynArcLookUp._parent DynArcLookUp._left DynArcLookUp._right negb]
    | rewrite upd_same
    | rewrite upd_other by (assumption || nd_neq)
    | rewrite Z.eqb_refl
    | ptr_rw ].

Ltac frame_tac :=
  let a := fresh "a" in
  let Ha := fresh "Ha" in
  unfold agree_on; intros a Ha;
  repeat rewrite in_app_iff in Ha;
  repeat match goal with H : _ \/ _ |- _ => destruct H end;
  cbn [DynArcLookUp._parent DynArcLookUp._left DynArcLookUp._right];
  upd_read; auto.

Ltac off_tac :=
  let a := fresh "a" in
  let Ha := fresh "Ha" in
  let E := fresh "E" in
  unfold agree_off; intros a Ha;
  cbn [DynArcLookUp._parent DynArcLookUp._left DynArcLookUp._right];
  repeat rewrite upd_other by (intros E; apply Ha; rewrite E; in_solve);
  auto.

Ltac repr_tac st :=
  cbn [repr cshape cparent DynArcLookUp._head DynArcLookUp._parent DynArcLookUp._left DynArcLookUp._right];
  upd_read; repeat ptr_rw;
  repeat match goal with
  | |- _ /\ _ => split
  | |- ?x = ?x => reflexivity
  | |- _ <> _ => assumption
  | |- True => exact I
  | |- repr _ _ _ _ => apply repr_frame with st; [frame_tac | assumption]
  | |- cshape _ _ _ => apply cshape_frame with st; [frame_tac | assumption]
  end.


Section DynSplay.

Import DynArcLookUp.

Lemma repr_root_neq (st : state) (q x w : Arc) (T : tree) :
  repr st q x T -> w <> INVALID ->
  (forall a, In a (inorder T) -> a <> w) -> x <> w.
Proof.
  intros H Hw Hn. destruct T as [|l a r]; cbn [repr] in H.
  - congruence.
  - destruct H as [-> _]. apply Hn. in_solve.
Qed.

Lemma zig_spec (st : state) (c : ctx) (A : tree) (v : Arc) (B : tree)
  (w : Arc) (C : tree) :
  cshape st c w ->
  repr st (cparent c) w (Tr (Tr A v B) w C) ->
  NoDup (cbefore c ++ inorder (Tr (Tr A v B) w C) ++ cafter c) ->
  exists st',
    zig st v = Ok st' /\
    cshape st' c v /\
    repr st' (cparent c) v (Tr A v (Tr B w C)) /\
    _head st' = _head st /\
    agree_off (cbefore c ++ inorder (Tr (Tr A v B) w C) ++ cafter c) st st'.
Proof.
  intros Hc Hr Hnd.
  cbn [repr] in Hr.
  destruct Hr as [_ [Hw [Hpw [[Hlw [Hv [Hpv [HA HB]]]] HC]]]].
  destruct c as [|[p r|l p] c']; cbn [cshape] in Hc; cbn [cparent] in *;
    destruct B as [|B1 b B2]; cbn [repr] in HB;
    cbn [cbefore cafter inorder] in Hnd; nd_split.
  - (* [w] is the root, [v] has no right child *)
    unfold zig, parent_of, right_of, left_of, set_parent, set_left, set_right.
    ev. cbn. eexists. split; [reflexivity|].
    split; [exact I|]. split; [repr_tac st|]. split; [reflexivity|]. off_tac.
  - destruct HB as [Hrv [Hb [Hpb [HB1 HB2]]]].
    unfold zig, parent_of, right_of, left_of, set_parent, set_left, set_right.
    ev. cbn. rewrite (eqb_invalid_false b Hb). ev.
    eexists. split; [reflexivity|].
    split; [exact I|]. split; [repr_tac st|]. split; [reflexivity|]. off_tac.
  - destruct Hc as [Hp [Hlp [Hpp [Hr Hc']]]].
    assert (Hrp : (_right st p =? w) = false).
    { apply Z.eqb_neq. apply (repr_root_neq st p _ w r Hr Hw).
      intros a Ha. nd_neq. }
    unfold zig, parent_of, right_of, left_of, set_parent, set_left, set_right.
    ev. rewrite (eqb_invalid_false p Hp). ev. cbn.
    eexists. split; [reflexivity|].
    split; [repr_tac st|]. split; [repr_tac st|]. split; [reflexivity|]. off_tac.
  - destruct Hc as [Hp [Hlp [Hpp [Hr Hc']]]].
    destruct HB as [Hrv [Hb [Hpb [HB1 HB2]]]].
    assert (Hrp : (_right st p =? w) = false).
    { apply Z.eqb_neq. apply (repr_root_neq st p _ w r Hr Hw).
      intros a Ha. nd_neq. }
    unfold zig, parent_of, right_of, left_of, set_parent, set_left, set_right.
    ev. rewrite (eqb_invalid_false p Hp). ev.
    rewrite (eqb_invalid_false b Hb). ev.
    eexists. split; [reflexivity|].
    split; [repr_tac st|]. split; [repr_tac st|]. split; [reflexivity|]. off_tac.
  - destruct Hc as [Hp [Hrp [Hpp [Hl Hc']]]].
    unfold zig, parent_of, right_of, left_of, set_parent, set_left, set_right.
    ev. rewrite (eqb_invalid_false p Hp). ev. cbn.
    eexists. split; [reflexivity|].
    split; [repr_tac st|]. split; [repr_tac st|]. split; [reflexivity|]. off_tac.
  - destruct Hc as [Hp [Hrp [Hpp [Hl Hc']]]].
    destruct HB as [Hrv [Hb [Hpb [HB1 HB2]]]].
    unfold zig, parent_of, right_of, left_of, set_parent, set_left, set_right.
    ev. rewrite (eqb_invalid_false p Hp). ev.
    rewrite (eqb_invalid_false b Hb). ev.
    eexists. split; [reflexivity|].
    split; [repr_tac st|]. split; [repr_tac st|]. split; [reflexivity|]. off_tac.
Qed.

Lemma zag_spec (st : state) (c : ctx) (A : tree) (w : Arc) (B : tree)
  (v : Arc) (C : tree) :
  cshape st c w ->
  repr st (cparent c) w (Tr A w (Tr B v C)) ->
  NoDup (cbefore c ++ inorder (Tr A w (Tr B v C)) ++ cafter c) ->
  exists st',
    zag st v = Ok st' /\
    cshape st' c v /\
    repr st' (cparent c) v (Tr (Tr A w B) v C) /\
    _head st' = _head st /\
    agree_off (cbefore c ++ inorder (Tr A w (Tr B v C)) ++ cafter c) st st'.
Proof.
  intros Hc Hr Hnd.
  cbn [repr] in Hr.
  destruct Hr as [_ [Hw [Hpw [HA [Hrw [Hv [Hpv [HB HC]]]]]]]].
  destruct c as [|[p r|l p] c']; cbn [cshape] in Hc; cbn [cparent] in *;
    destruct B as [|B1 b B2]; cbn [repr] in HB;
    cbn [cbefore cafter inorder] in Hnd; nd_split.
  - unfold zag, parent_of, right_of, left_of, set_parent, set_left, set_right.
    ev. cbn. eexists. split; [reflexivity|].
    split; [exact I|]. split; [repr_tac st|]. split; [reflexivity|]. off_tac.
  - destruct HB as [Hlv [Hb [Hpb [HB1 HB2]]]].
    unfold zag, parent_of, right_of, left_of, set_parent, set_left, set_right.
    ev. cbn. rewrite (eqb_invalid_false b Hb). ev.
    eexists. split; [reflexivity|].
    split; [exact I|]. split; [repr_tac st|]. split; [reflexivity|]. off_tac.
  - destruct Hc as [Hp [Hlp [Hpp [Hr Hc']]]].
    unfold zag, parent_of, right_of, left_of, set_parent, set_left, set_right.
    ev. rewrite (eqb_invalid_false p Hp). ev. cbn.
    eexists. split; [reflexivity|].
    split; [repr_tac st|]. split; [repr_tac st|]. split; [reflexivity|]. off_tac.
  - destruct Hc as [Hp [Hlp [Hpp [Hr Hc']]]].
    destruct HB as [Hlv [Hb [Hpb [HB1 HB2]]]].
    unfold zag, parent_of, right_of, left_of, set_parent, set_left, set_right.
    ev. rewrite (eqb_invalid_false p Hp). ev.
    rewrite (eqb_invalid_false b Hb). ev.
    eexists. split; [reflexivity|].
    split; [repr_tac st|]. split; [repr_tac st|]. split; [reflexivity|]. off_tac.
  - destruct Hc as [Hp [Hrp [Hpp [Hl Hc']]]].
    assert (Hlp : (_left st p =? w) = false).
    { apply Z.eqb_neq. apply (repr_root_neq st p _ w l Hl Hw).
      intros a Ha. nd_neq. }
    unfold zag, parent_of, right_of, left_of, set_parent, set_left, set_right.
    ev. rewrite (eqb_invalid_false p Hp). ev. cbn.
    eexists. split; [reflexivity|].
    split; [repr_tac st|]. split; [repr_tac st|]. split; [reflexivity|]. off_tac.
  - destruct Hc as [Hp [Hrp [Hpp [Hl Hc']]]].
    destruct HB as [Hlv [Hb [Hpb [HB1 HB2]]]].
    assert (Hlp : (_left st p =? w) = false).
    { apply Z.eqb_neq. apply (repr_root_neq st p _ w l Hl Hw).
      intros a Ha. nd_neq. }
    unfold zag, parent_of, right_of, left_of, set_parent, set_left, set_right.
    ev. rewrite (eqb_invalid_false p Hp). ev.
    rewrite (eqb_invalid_false b Hb). ev.
    eexists. split; [reflexivity|].
    split; [repr_tac st|]. split; [repr_tac st|]. split; [reflexivity|]. off_tac.
Qed.


End DynSplay.

Ltac list_eq :=
  cbn [cbefore cafter inorder];
  repeat first [rewrite <- app_assoc | progress (cbn [app])];
  reflexivity.


Section DynSplayLoop.
Import DynArcLookUp.

(** ** Splaying *)

Lemma agree_off_trans (l : list Arc) (st1 st2 st3 : state) :
  agree_off l st1 st2 -> agree_off l st2 st3 -> agree_off l st1 st3.
Proof.
  intros H1 H2 a Ha. destruct (H1 a Ha) as [A [B C]].
  destruct (H2 a Ha) as [A' [B' C']]. repeat split; congruence.
Qed.

Lemma NoDup_eq (l l' : list Arc) : l = l' -> NoDup l -> NoDup l'.
Proof. intros ->. exact (fun H => H). Qed.

Lemma agree_off_eq (l l' : list Arc) (st st' : state) :
  l = l' -> agree_off l st st' -> agree_off l' st st'.
Proof. intros ->. exact (fun H => H). Qed.

Lemma splay_step_spec (st : state) (c : ctx) (t : tree) (v : Arc) :
  c <> [] -> t <> Leaf ->
  cshape st c v ->
  repr st (cparent c) v t ->
  NoDup (cbefore c ++ inorder t ++ cafter c) ->
  exists st' c' t',
    splay_step st v = Ok st' /\
    t' <> Leaf /\
    cshape st' c' v /\
    repr st' (cparent c') v t' /\
    cbefore c' ++ inorder t' ++ cafter c' = cbefore c ++ inorder t ++ cafter c /\
    (length c' < length c)%nat /\
    _head st' = _head st /\
    agree_off (cbefore c ++ inorder t ++ cafter c) st st'.
Proof.
  intros Hcne Htne Hc Hr Hnd.
  destruct t as [|A v' B]; [congruence|].
  pose proof Hr as Hr0. cbn [repr] in Hr0.
  destruct Hr0 as [Ev [Hv [Hpv [HA HB]]]]. subst v'.
  destruct c as [|[p C|A' p] [|[g D|D g] c']]; [congruence| | | | | |];
    cbn [cshape cparent] in Hc, Hr, Hpv.
  - (* zig *)
    destruct Hc as [Hp [Hlp [Hpp [HC _]]]].
    destruct (zig_spec st [] A v B p C) as [st' [R [Hc' [Hr' [Hh Hoff]]]]].
    + exact I.
    + cbn [repr cparent]. repeat split; assumption.
    + eapply NoDup_eq; [|exact Hnd]. list_eq.
    + exists st', [], (Tr A v (Tr B p C)).
      unfold splay_step, parent_of, left_of. ev.
      cbn [Z.eqb INVALID Z.opp Pos.eqb]. rewrite R.
      split; [reflexivity|]. split; [discriminate|]. split; [exact I|].
      split; [exact Hr'|]. split; [list_eq|]. split; [cbn; lia|].
      split; [exact Hh|].
      eapply agree_off_eq; [|exact Hoff]. list_eq.
  - (* zig-zig *)
    destruct Hc as [Hp [Hlp [Hpp [HC [Hg [Hlg [Hpg [HD Hc']]]]]]]].
    assert (Hgi : (g =? INVALID) = false) by (apply eqb_invalid_false; exact Hg).
    destruct (zig_spec st c' (Tr A v B) p C g D) as [st1 [R1 [Hc1 [Hr1 [Hh1 Hoff1]]]]].
    + exact Hc'.
    + cbn [repr]. repeat split; assumption.
    + eapply NoDup_eq; [|exact Hnd]. list_eq.
    + destruct (zig_spec st1 c' A v B p (Tr C g D)) as [st2 [R2 [Hc2 [Hr2 [Hh2 Hoff2]]]]].
      * exact Hc1.
      * exact Hr1.
      * eapply NoDup_eq; [|exact Hnd]. list_eq.
      * exists st2, c', (Tr A v (Tr B p (Tr C g D))).
        unfold splay_step, parent_of, left_of. ev.
        rewrite R1. cbn [bind]. rewrite R2.
        split; [reflexivity|]. split; [discriminate|]. split; [exact Hc2|].
        split; [exact Hr2|]. split; [list_eq|]. split; [cbn; lia|].
        split; [congruence|].
        eapply agree_off_trans.
        -- eapply agree_off_eq; [|exact Hoff1]. list_eq.
        -- eapply agree_off_eq; [|exact Hoff2]. list_eq.
  - (* zig, then zag *)
    destruct Hc as [Hp [Hlp [Hpp [HC [Hg [Hrg [Hpg [HD Hc']]]]]]]].
    assert (Hgi : (g =? INVALID) = false) by (apply eqb_invalid_false; exact Hg).
    assert (Hne : (p =? _left st g) = false).
    { apply Z.eqb_neq. intros E. symmetry in E. revert E.
      apply (repr_root_neq st g _ p D HD Hp).
      cbn [cbefore cafter inorder] in Hnd. nd_split. intros a Ha. nd_neq. }
    destruct (zig_spec st (FR D g :: c') A v B p C) as [st1 [R1 [Hc1 [Hr1 [Hh1 Hoff1]]]]].
    + cbn [cshape]. repeat split; assumption.
    + cbn [repr cparent]. repeat split; assumption.
    + eapply NoDup_eq; [|exact Hnd]. list_eq.
    + cbn [cshape cparent] in Hc1, Hr1.
      destruct Hc1 as [_ [Hrg1 [Hpg1 [HD1 Hc1']]]].
      destruct (zag_spec st1 c' D g A v (Tr B p C)) as [st2 [R2 [Hc2 [Hr2 [Hh2 Hoff2]]]]].
      * exact Hc1'.
      * cbn [repr]. cbn [repr] in Hr1. rewrite Hrg1. repeat split; try assumption; apply Hr1.
      * eapply NoDup_eq; [|exact Hnd]. list_eq.
      * exists st2, c', (Tr (Tr D g A) v (Tr B p C)).
        unfold splay_step, parent_of, left_of. ev.
        rewrite R1. cbn [bind]. rewrite R2.
        split; [reflexivity|]. split; [discriminate|]. split; [exact Hc2|].
        split; [exact Hr2|]. split; [list_eq|]. split; [cbn; lia|].
        split; [congruence|].
        eapply agree_off_trans.
        -- eapply agree_off_eq; [|exact Hoff1]. list_eq.
        -- eapply agree_off_eq; [|exact Hoff2]. list_eq.
  - (* zag *)
    destruct Hc as [Hp [Hrp [Hpp [HA' _]]]].
    assert (Hne : (v =? _left st p) = false).
    { apply Z.eqb_neq. intros E. symmetry in E. revert E.
      apply (repr_root_neq st p _ v A' HA' Hv).
      cbn [cbefore cafter inorder] in Hnd. nd_split. intros a Ha. nd_neq. }
    destruct (zag_spec st [] A' p A v B) as [st' [R [Hc' [Hr' [Hh Hoff]]]]].
    + exact I.
    + cbn [repr cparent]. rewrite Hrp. repeat split; assumption.
    + eapply NoDup_eq; [|exact Hnd]. list_eq.
    + exists st', [], (Tr (Tr A' p A) v B).
      unfold splay_step, parent_of, left_of. ev.
      cbn [Z.eqb INVALID Z.opp Pos.eqb]. rewrite R.
      split; [reflexivity|]. split; [discriminate|]. split; [exact I|].
      split; [exact Hr'|]. split; [list_eq|]. split; [cbn; lia|].
      split; [exact Hh|].
      eapply agree_off_eq; [|exact Hoff]. list_eq.
  - (* zag, then zig *)
    destruct Hc as [Hp [Hrp [Hpp [HA' [Hg [Hlg [Hpg [HD Hc']]]]]]]].
    assert (Hgi : (g =? INVALID) = false) by (apply eqb_invalid_false; exact Hg).
    assert (Hne : (v =? _left st p) = false).
    { apply Z.eqb_neq. intros E. symmetry in E. revert E.
      apply (repr_root_neq st p _ v A' HA' Hv).
      cbn [cbefore cafter inorder] in Hnd. nd_split. intros a Ha. nd_neq. }
    destruct (zag_spec st (FL g D :: c') A' p A v B) as [st1 [R1 [Hc1 [Hr1 [Hh1 Hoff1]]]]].
    + cbn [cshape]. repeat split; assumption.
    + cbn [repr cparent]. rewrite Hrp. repeat split; assumption.
    + eapply NoDup_eq; [|exact Hnd]. list_eq.
    + cbn [cshape cparent] in Hc1, Hr1.
      destruct Hc1 as [_ [Hlg1 [Hpg1 [HD1 Hc1']]]].
      destruct (zig_spec st1 c' (Tr A' p A) v B g D) as [st2 [R2 [Hc2 [Hr2 [Hh2 Hoff2]]]]].
      * exact Hc1'.
      * cbn [repr]. cbn [repr] in Hr1. rewrite Hlg1. repeat split; try assumption; apply Hr1.
      * eapply NoDup_eq; [|exact Hnd]. list_eq.
      * exists st2, c', (Tr (Tr A' p A) v (Tr B g D)).
        unfold splay_step, parent_of, left_of. ev.
        rewrite R1. cbn [bind]. rewrite R2.
        split; [reflexivity|]. split; [discriminate|]. split; [exact Hc2|].
        split; [exact Hr2|]. split; [list_eq|]. split; [cbn; lia|].
        split; [congruence|].
        eapply agree_off_trans.
        -- eapply agree_off_eq; [|exact Hoff1]. list_eq.
        -- eapply agree_off_eq; [|exact Hoff2]. list_eq.
  - (* zag-zag *)
    destruct Hc as [Hp [Hrp [Hpp [HA' [Hg [Hrg [Hpg [HD Hc']]]]]]]].
    assert (Hgi : (g =? INVALID) = false) by (apply eqb_invalid_false; exact Hg).
    assert (Hne : (v =? _left st p) = false).
    { apply Z.eqb_neq. intros E. symmetry in E. revert E.
      apply (repr_root_neq st p _ v A' HA' Hv).
      cbn [cbefore cafter inorder] in Hnd. nd_split. intros a Ha. nd_neq. }
    assert (Hne2 : (p =? _left st g) = false).
    { apply Z.eqb_neq. intros E. symmetry in E. revert E.
      apply (repr_root_neq st g _ p D HD Hp).
      cbn [cbefore cafter inorder] in Hnd. nd_split. intros a Ha. nd_neq. }
    destruct (zag_spec st c' D g A' p (Tr A v B)) as [st1 [R1 [Hc1 [Hr1 [Hh1 Hoff1]]]]].
    + exact Hc'.
    + cbn [repr]. rewrite Hrg, Hrp. repeat split; assumption.
    + eapply NoDup_eq; [|exact Hnd]. list_eq.
    + destruct (zag_spec st1 c' (Tr D g A') p A v B) as [st2 [R2 [Hc2 [Hr2 [Hh2 Hoff2]]]]].
      * exact Hc1.
      * exact Hr1.
      * eapply NoDup_eq; [|exact Hnd]. list_eq.
      * exists st2, c', (Tr (Tr (Tr D g A') p A) v B).
        unfold splay_step, parent_of, left_of. ev.
        rewrite R1. cbn [bind]. rewrite R2.
        split; [reflexivity|]. split; [discriminate|]. split; [exact Hc2|].
        split; [exact Hr2|]. split; [list_eq|]. split; [cbn; lia|].
        split; [congruence|].
        eapply agree_off_trans.
        -- eapply agree_off_eq; [|exact Hoff1]. list_eq.
        -- eapply agree_off_eq; [|exact Hoff2]. list_eq.
Qed.


Lemma splay_loop_spec :
  forall (fuel : nat) (st : state) (c : ctx) (t : tree) (v : Arc),
    (length c <= fuel)%nat -> t <> Leaf ->
    cshape st c v ->
    repr st (cparent c) v t ->
    NoDup (cbefore c ++ inorder t ++ cafter c) ->
    exists st' t',
      splay_loop fuel st v = Ok st' /\
      t' <> Leaf /\
      repr st' INVALID v t' /\
      inorder t' = cbefore c ++ inorder t ++ cafter c /\
      _head st' = _head st /\
      agree_off (cbefore c ++ inorder t ++ cafter c) st st'.
Proof.
  induction fuel as [|f IH]; intros st c t v Hlen Ht Hc Hr Hnd.
  - destruct c as [|fr c]; [|simpl in Hlen; lia].
    destruct t as [|A v' B]; [congruence|].
    pose proof Hr as Hr0.
    cbn [repr cparent] in Hr0. destruct Hr0 as [<- [Hv [Hpv _]]].
    exists st, (Tr A v B). cbn [splay_loop]. unfold parent_of.
    rewrite (get_ok _ v Hv). cbn [bind]. rewrite Hpv.
    cbn [Z.eqb INVALID Z.opp Pos.eqb].
    split; [reflexivity|]. split; [discriminate|].
    split; [exact Hr|].
    split; [cbn [cbefore cafter app]; rewrite app_nil_r; reflexivity|].
    split; [reflexivity|]. intros a _. auto.
  - destruct t as [|A v' B]; [congruence|].
    pose proof Hr as Hr0.
    cbn [repr] in Hr0. destruct Hr0 as [<- [Hv [Hpv _]]].
    cbn [splay_loop]. unfold parent_of.
    rewrite (get_ok _ v Hv). cbn [bind]. rewrite Hpv.
    destruct c as [|fr c'].
    + exists st, (Tr A v B). cbn [cparent Z.eqb INVALID Z.opp Pos.eqb].
      split; [reflexivity|]. split; [discriminate|].
      split; [exact Hr|].
      split; [cbn [cbefore cafter app]; rewrite app_nil_r; reflexivity|].
      split; [reflexivity|]. intros a _. auto.
    + assert (Hcp : cparent (fr :: c') <> INVALID)
        by (eapply cparent_valid; [exact Hc | discriminate]).
      rewrite (eqb_invalid_false _ Hcp).
      destruct (splay_step_spec st (fr :: c') (Tr A v B) v)
        as [st1 [c1 [t1 [R1 [Ht1 [Hc1 [Hr1 [E1 [Hl1 [Hh1 Hoff1]]]]]]]]]];
        [discriminate | exact Ht | exact Hc | exact Hr | exact Hnd |].
      rewrite R1. cbn [bind].
      destruct (IH st1 c1 t1 v) as [st2 [t2 [R2 [Ht2 [Hr2 [E2 [Hh2 Hoff2]]]]]]].
      * simpl in Hl1, Hlen. lia.
      * exact Ht1.
      * exact Hc1.
      * exact Hr1.
      * rewrite E1. exact Hnd.
      * exists st2, t2. split; [exact R2|]. split; [exact Ht2|].
        split; [exact Hr2|]. split; [congruence|]. split; [congruence|].
        eapply agree_off_trans; [exact Hoff1|].
        rewrite <- E1. exact Hoff2.
Qed.

Lemma repr_set_head (st : state) (h : ItemMap) (t : tree) (p x : Arc) :
  repr st p x t ->
  repr {| _head := h; _parent := _parent st;
          _left := _left st; _right := _right st |} p x t.
Proof.
  apply repr_frame. intros a _. cbn [_parent _left _right]. auto.
Qed.

Lemma ctx_length_le (c : ctx) : (length c <= length (cbefore c ++ cafter c))%nat.
Proof.
  induction c as [|[a r|l a] c IH]; simpl; [lia| |];
    repeat (rewrite length_app in *; simpl in * ); lia.
Qed.

Lemma splay_spec (g : Digraph) (st : state) (c : ctx) (t : tree) (v : Arc) :
  (length (cbefore c ++ inorder t ++ cafter c) <= length (arcs g))%nat ->
  source g v <> INVALID ->
  t <> Leaf ->
  cshape st c v ->
  repr st (cparent c) v t ->
  NoDup (cbefore c ++ inorder t ++ cafter c) ->
  exists st' t',
    splay g st v = Ok st' /\
    repr st' INVALID v t' /\
    inorder t' = cbefore c ++ inorder t ++ cafter c /\
    _head st' = upd (_head st) (source g v) v /\
    agree_off (cbefore c ++ inorder t ++ cafter c) st st'.
Proof.
  intros Hlen Hs Ht Hc Hr Hnd.
  destruct (splay_loop_spec (fuel_of g) st c t v)
    as [st1 [t1 [R1 [Ht1 [Hr1 [E1 [Hh1 Hoff1]]]]]]]; try assumption.
  { pose proof (ctx_length_le c) as Hl. rewrite !length_app in *.
    unfold fuel_of. lia. }
  assert (Hv : v <> INVALID).
  { destruct t as [|A v' B]; [congruence|]. cbn [repr] in Hr.
    destruct Hr as [<- [Hv _]]. exact Hv. }
  unfold splay. rewrite R1. cbn [bind]. unfold g_source.
  rewrite (get_ok _ v Hv). cbn [bind]. unfold set_head.
  rewrite (set_ok _ _ _ Hs). cbn [bind].
  eexists. exists t1. split; [reflexivity|].
  split; [apply repr_set_head; exact Hr1|]. split; [exact E1|].
  cbn [_head]. split; [rewrite Hh1; reflexivity|].
  intros a Ha. destruct (Hoff1 a Ha) as [X [Y Z]]. cbn [_parent _left _right]. auto.
Qed.

End DynSplayLoop.

(** ** Insertion *)

Lemma sorted_insert_middle (R : Arc -> Arc -> Prop) (l1 l2 : list Arc) (x : Arc) :
  StronglySorted R (l1 ++ l2) ->
  (forall a, In a l1 -> R a x) ->
  (forall a, In a l2 -> R x a) ->
  StronglySorted R (l1 ++ x :: l2).
Proof.
  intros H H1 H2. apply sorted_app in H. destruct H as [S1 [S2 S12]].
  apply sorted_app. split; [exact S1|]. split.
  - constructor; [exact S2|]. apply Forall_forall. exact H2.
  - intros a b Ha [Hb|Hb]; [subst b; apply H1; exact Ha | apply S12; assumption].
Qed.

Section DynInsert.

Import DynArcLookUp.

Variable g : Digraph.
Hypothesis Hord : strict_total (node_lt g).

Lemma insert_loop_spec (arc : Arc) :
  arc <> INVALID -> source g arc <> INVALID ->
  forall (fuel : nat) (st : state) (c : ctx) (tr : tree) (e : Arc),
    (length (inorder tr) <= fuel)%nat ->
    (length (arc :: cbefore c ++ inorder tr ++ cafter c) <= length (arcs g))%nat ->
    tr <> Leaf ->
    cshape st c e ->
    repr st (cparent c) e tr ->
    NoDup (arc :: cbefore c ++ inorder tr ++ cafter c) ->
    _left st arc = INVALID -> _right st arc = INVALID ->
    StronglySorted (tle g) (cbefore c ++ inorder tr ++ cafter c) ->
    (forall a, In a (cbefore c) -> tle g a arc) ->
    (forall a, In a (cafter c) -> tle g arc a) ->
    exists st' T',
      insert_loop fuel g st arc (target g arc) e = Ok st' /\
      repr st' INVALID arc T' /\
      Permutation (inorder T') (arc :: cbefore c ++ inorder tr ++ cafter c) /\
      StronglySorted (tle g) (inorder T') /\
      _head st' = upd (_head st) (source g arc) arc /\
      agree_off (arc :: cbefore c ++ inorder tr ++ cafter c) st st'.
Proof.
  intros Harc Hsrc.
  induction fuel as [|f IH];
    intros st c tr e Hfuel Hlen Htr Hc Hr Hnd Hla Hra Hs Hbef Haft.
  - destruct tr; [congruence | simpl in Hfuel; rewrite length_app in Hfuel;
                                simpl in Hfuel; lia].
  - destruct tr as [|l e' r]; [congruence|].
    pose proof Hr as Hr0. cbn [repr] in Hr0.
    destruct Hr0 as [<- [He [Hpe [Hl Hrr]]]].
    cbn [insert_loop]. unfold g_target. rewrite (get_ok _ e He). cbn [bind].
    assert (HndK : id (NoDup (arc :: cbefore c ++ inorder (Tr l e r) ++ cafter c)))
      by exact Hnd.
    cbn [inorder] in Hnd. nd_split. unfold id in HndK.
    assert (Hearc : e <> arc) by nd_neq.
    assert (Harce : arc <> e) by congruence.
    destruct (node_lt g (target g arc) (target g e)) eqn:Hlt.
    + (* towards the left *)
      assert (Hae : tle g arc e) by (apply tle_of_lt; assumption).
      assert (Haft' : forall a, In a (cafter (FL e r :: c)) -> tle g arc a).
      { intros a Ha. cbn [cafter In] in Ha. rewrite in_app_iff in Ha.
        destruct Ha as [<-|[Ha|Ha]]; [exact Hae | | apply Haft; exact Ha].
        apply tle_trans with e; [exact Hord | exact Hae |].
        cbn [inorder] in Hs.
        apply sorted_app in Hs. destruct Hs as [_ [Hs _]].
        apply sorted_app in Hs. destruct Hs as [Hs _].
        apply sorted_app in Hs. destruct Hs as [_ [Hs _]].
        apply sorted_cons_inv in Hs. apply Hs. exact Ha. }
      assert (EL : cbefore (FL e r :: c) ++ inorder l ++ cafter (FL e r :: c)
                   = cbefore c ++ inorder (Tr l e r) ++ cafter c) by list_eq.
      unfold left_of. rewrite (get_ok _ e He). cbn [bind].
      destruct l as [|l1 le l2].
      * cbn [repr] in Hl. rewrite Hl. cbn [Z.eqb INVALID Z.opp Pos.eqb].
        unfold set_left, set_parent.
        rewrite (set_ok _ e _ He). cbn [bind _head _parent _left _right].
        rewrite (set_ok _ arc _ Harc). cbn [bind].
        match goal with |- context [splay g ?s arc] => set (st2 := s) end.
        assert (EM : cbefore (FL e r :: c) ++ inorder (Tr Leaf arc Leaf) ++
                     cafter (FL e r :: c)
                     = cbefore c ++ arc :: (inorder (Tr Leaf e r) ++ cafter c))
          by list_eq.
        destruct (splay_spec g st2 (FL e r :: c) (Tr Leaf arc Leaf) arc)
          as [st3 [T' [R3 [Hr3 [E3 [Hh3 Hoff3]]]]]].
        -- rewrite EM. eapply Nat.le_trans; [|exact Hlen].
           rewrite !length_app. cbn [length]. rewrite !length_app. lia.
        -- exact Hsrc.
        -- discriminate.
        -- unfold st2. repr_tac st.
        -- unfold st2. repr_tac st.
        -- rewrite EM. eapply Permutation_NoDup; [|exact HndK].
           apply Permutation_middle.
        -- rewrite R3. rewrite EM in E3, Hoff3.
           exists st3, T'. split; [reflexivity|]. split; [exact Hr3|].
           split; [rewrite E3; apply Permutation_sym; apply Permutation_middle|].
           split; [|split].
           ++ rewrite E3. apply sorted_insert_middle; [exact Hs | exact Hbef |].
              intros a Ha. apply Haft'. rewrite in_app_iff in Ha.
              cbn [inorder app In] in Ha. cbn [cafter In].
              rewrite in_app_iff. tauto.
           ++ rewrite Hh3. reflexivity.
           ++ intros a Ha.
              destruct (Hoff3 a) as [X [Y Z]].
              { intros F. apply Ha. rewrite in_app_iff in F. cbn [In] in *.
                rewrite in_app_iff. tauto. }
              rewrite X, Y, Z. unfold st2. cbn [_parent _left _right].
              assert (a <> arc) by (intros ->; apply Ha; left; reflexivity).
              assert (a <> e) by (intros ->; apply Ha; right; in_solve).
              rewrite !upd_other by assumption. auto.
      * pose proof Hl as Hl0. cbn [repr] in Hl0.
        destruct Hl0 as [Hle [Hlev _]]. rewrite Hle.
        rewrite (eqb_invalid_false le Hlev).
        destruct (IH st (FL e r :: c) (Tr l1 le l2) le)
          as [st' [T' [R [Hr' [P [S [Hh Hoff]]]]]]].
        -- cbn [inorder] in Hfuel |- *.
           repeat (rewrite length_app in Hfuel || cbn [length] in Hfuel).
           repeat (rewrite length_app || cbn [length]). lia.
        -- rewrite EL. exact Hlen.
        -- discriminate.
        -- cbn [cshape]. repeat split; assumption.
        -- cbn [cparent]. rewrite Hle in Hl. exact Hl.
        -- rewrite EL. exact HndK.
        -- exact Hla.
        -- exact Hra.
        -- rewrite EL. exact Hs.
        -- exact Hbef.
        -- exact Haft'.
        -- rewrite EL in P, Hoff. exists st', T'.
           split; [exact R|]. split; [exact Hr'|]. split; [exact P|].
           split; [exact S|]. split; [exact Hh | exact Hoff].
    + (* towards the right *)
      assert (Hae : tle g e arc) by exact Hlt.
      assert (Hbef' : forall a, In a (cbefore (FR l e :: c)) -> tle g a arc).
      { intros a Ha. cbn [cbefore] in Ha. rewrite !in_app_iff in Ha. cbn [In] in Ha.
        destruct Ha as [Ha|[Ha|[<-|[]]]]; [apply Hbef; exact Ha | | exact Hae].
        apply tle_trans with e; [exact Hord | | exact Hae].
        cbn [inorder] in Hs.
        apply sorted_app in Hs. destruct Hs as [_ [Hs _]].
        apply sorted_app in Hs. destruct Hs as [Hs _].
        apply sorted_app in Hs. destruct Hs as [_ [_ Hs]].
        apply Hs; [exact Ha | left; reflexivity]. }
      assert (EL : cbefore (FR l e :: c) ++ inorder r ++ cafter (FR l e :: c)
                   = cbefore c ++ inorder (Tr l e r) ++ cafter c) by list_eq.
      unfold right_of. rewrite (get_ok _ e He). cbn [bind].
      destruct r as [|r1 re r2].
      * cbn [repr] in Hrr. rewrite Hrr. cbn [Z.eqb INVALID Z.opp Pos.eqb].
        unfold set_right, set_parent.
        rewrite (set_ok _ e _ He). cbn [bind _head _parent _left _right].
        rewrite (set_ok _ arc _ Harc). cbn [bind].
        match goal with |- context [splay g ?s arc] => set (st2 := s) end.
        assert (EM : cbefore (FR l e :: c) ++ inorder (Tr Leaf arc Leaf) ++
                     cafter (FR l e :: c)
                     = (cbefore c ++ inorder (Tr l e Leaf)) ++ arc :: cafter c)
          by list_eq.
        assert (EM' : cbefore c ++ inorder (Tr l e Leaf) ++ cafter c
                      = (cbefore c ++ inorder (Tr l e Leaf)) ++ cafter c)
          by list_eq.
        destruct (splay_spec g st2 (FR l e :: c) (Tr Leaf arc Leaf) arc)
          as [st3 [T' [R3 [Hr3 [E3 [Hh3 Hoff3]]]]]].
        -- rewrite EM. eapply Nat.le_trans; [|exact Hlen].
           rewrite EM'. rewrite !length_app. cbn [length]. rewrite !length_app. lia.
        -- exact Hsrc.
        -- discriminate.
        -- unfold st2. repr_tac st.
        -- unfold st2. repr_tac st.
        -- rewrite EM. eapply Permutation_NoDup; [|exact HndK].
           rewrite EM'. apply Permutation_middle.
        -- rewrite R3. rewrite EM in E3, Hoff3.
           exists st3, T'. split; [reflexivity|]. split; [exact Hr3|].
           split; [rewrite E3, EM'; apply Permutation_sym; apply Permutation_middle|].
           split; [|split].
           ++ rewrite E3. apply sorted_insert_middle;
                [rewrite <- EM'; exact Hs | | exact Haft].
              intros a Ha. apply Hbef'. rewrite in_app_iff in Ha.
              cbn [inorder] in Ha. rewrite in_app_iff in Ha. cbn [In] in Ha.
              cbn [cbefore]. rewrite !in_app_iff. cbn [In]. tauto.
           ++ rewrite Hh3. reflexivity.
           ++ intros a Ha.
              destruct (Hoff3 a) as [X [Y Z]].
              { intros F. apply Ha. rewrite EM'. rewrite in_app_iff in F.
                cbn [In] in *. rewrite in_app_iff. tauto. }
              rewrite X, Y, Z. unfold st2. cbn [_parent _left _right].
              assert (a <> arc) by (intros ->; apply Ha; left; reflexivity).
              assert (a <> e) by (intros ->; apply Ha; right; in_solve).
              rewrite !upd_other by assumption. auto.
      * pose proof Hrr as Hr0'. cbn [repr] in Hr0'.
        destruct Hr0' as [Hre [Hrev _]]. rewrite Hre.
        rewrite (eqb_invalid_false re Hrev).
        destruct (IH st (FR l e :: c) (Tr r1 re r2) re)
          as [st' [T' [R [Hr' [P [S [Hh Hoff]]]]]]].
        -- cbn [inorder] in Hfuel |- *.
           repeat (rewrite length_app in Hfuel || cbn [length] in Hfuel).
           repeat (rewrite length_app || cbn [length]). lia.
        -- rewrite EL. exact Hlen.
        -- discriminate.
        -- cbn [cshape]. repeat split; assumption.
        -- cbn [cparent]. rewrite Hre in Hrr. exact Hrr.
        -- rewrite EL. exact HndK.
        -- exact Hla.
        -- exact Hra.
        -- rewrite EL. exact Hs.
        -- exact Hbef'.
        -- exact Haft.
        -- rewrite EL in P, Hoff. exists st', T'.
           split; [exact R|]. split; [exact Hr'|]. split; [exact P|].
           split; [exact S|]. split; [exact Hh | exact Hoff].
Qed.

Lemma insert_spec (arc : Arc) (st : state) (T : tree) :
  arc <> INVALID -> source g arc <> INVALID ->
  repr st INVALID (_head st (source g arc)) T ->
  NoDup (arc :: inorder T) ->
  StronglySorted (tle g) (inorder T) ->
  (length (arc :: inorder T) <= length (arcs g))%nat ->
  exists st' T',
    insert g st arc = Ok st' /\
    repr st' INVALID (_head st' (source g arc)) T' /\
    Permutation (inorder T') (arc :: inorder T) /\
    StronglySorted (tle g) (inorder T') /\
    _head st' = upd (_head st) (source g arc) arc /\
    agree_off (arc :: inorder T) st st'.
Proof.
  intros Harc Hsrc Hr Hnd Hs Hlen.
  assert (HndK : id (NoDup (arc :: inorder T))) by exact Hnd.
  nd_split. unfold id in HndK.
  unfold insert, g_source, g_target, set_left, set_right, head_of.
  rewrite !(get_ok _ arc Harc). cbn [bind].
  rewrite (set_ok _ arc _ Harc). cbn [bind _head _parent _left _right].
  rewrite (set_ok _ arc _ Harc). cbn [bind _head _parent _left _right].
  rewrite (get_ok _ _ Hsrc). cbn [bind].
  match goal with |- context [insert_loop _ _ ?s _ _ _] => set (st1 := s) end.
  assert (Hr1 : repr st1 INVALID (_head st (source g arc)) T).
  { apply repr_frame with st; [|exact Hr].
    intros a Ha. unfold st1. cbn [_parent _left _right].
    assert (a <> arc) by (intros ->; contradiction).
    rewrite !upd_other by assumption. auto. }
  destruct T as [|l e r].
  - cbn [repr] in Hr. rewrite Hr. cbn [Z.eqb INVALID Z.opp Pos.eqb].
    unfold set_head, set_parent. rewrite (set_ok _ _ _ Hsrc).
    cbn [bind _head _parent _left _right].
    rewrite (set_ok _ arc _ Harc). cbn [bind].
    eexists. exists (Tr Leaf arc Leaf). split; [reflexivity|].
    cbn [_head _parent _left _right repr inorder app].
    rewrite !upd_same.
    split.
    { split; [reflexivity|]. split; [exact Harc|]. split; [reflexivity|].
      unfold st1. cbn [_left _right]. rewrite !upd_same. split; reflexivity. }
    split; [apply Permutation_refl|].
    split; [constructor; [constructor | constructor]|].
    split; [reflexivity|].
    intros a Ha. unfold st1. cbn [_parent _left _right].
    assert (a <> arc) by (intros ->; apply Ha; left; reflexivity).
    rewrite !upd_other by assumption. auto.
  - pose proof Hr as Hr0. cbn [repr] in Hr0. destruct Hr0 as [He [Hev _]].
    rewrite He. rewrite (eqb_invalid_false e Hev).
    assert (EL : cbefore [] ++ inorder (Tr l e r) ++ cafter [] = inorder (Tr l e r)).
    { cbn [cbefore cafter app]. apply app_nil_r. }
    destruct (insert_loop_spec arc Harc Hsrc (fuel_of g) st1 [] (Tr l e r) e)
      as [st' [T' [R [Hr' [P [S [Hh Hoff]]]]]]].
    + unfold fuel_of. change (length (arc :: inorder (Tr l e r)))
        with (S (length (inorder (Tr l e r)))) in Hlen. lia.
    + rewrite EL. exact Hlen.
    + discriminate.
    + exact I.
    + cbn [cparent]. rewrite He in Hr1. exact Hr1.
    + rewrite EL. exact HndK.
    + unfold st1. cbn [_left]. apply upd_same.
    + unfold st1. cbn [_right]. apply upd_same.
    + rewrite EL. exact Hs.
    + intros a [].
    + intros a [].
    + rewrite EL in P, Hoff. exists st', T'. split; [exact R|].
      split; [rewrite Hh; unfold st1; cbn [_head]; rewrite upd_same; exact Hr'|].
      split; [exact P|]. split; [exact S|].
      split; [rewrite Hh; reflexivity|].
      intros a Ha. destruct (Hoff a Ha) as [X [Y Z]].
      rewrite X, Y, Z. unfold st1. cbn [_parent _left _right].
      assert (a <> arc) by (intros ->; apply Ha; left; reflexivity).
      rewrite !upd_other by assumption. auto.
Qed.

End DynInsert.

Lemma sorted_ext (R R' : Arc -> Arc -> Prop) (l : list Arc) :
  (forall a b, In a l -> In b l -> R a b -> R' a b) ->
  StronglySorted R l -> StronglySorted R' l.
Proof.
  induction l as [|x l IH]; intros Hext H.
  - constructor.
  - apply sorted_cons_inv in H. destruct H as [Hs Hx]. constructor.
    + apply IH; [|exact Hs]. intros a b Ha Hb. apply Hext; right; assumption.
    + apply Forall_forall. intros y Hy.
      apply Hext; [left; reflexivity | right; exact Hy | apply Hx; exact Hy].
Qed.

Lemma outArcs_graph_add (g0 : Digraph) (arc : Arc) (s t n : Node) :
  ~ In arc (arcs g0) ->
  outArcs (graph_add g0 arc s t) n =
  (if s =? n then [arc] else []) ++ outArcs g0 n.
Proof.
  intros Hfresh. unfold outArcs, graph_add. cbn [arcs source filter].
  rewrite upd_same.
  assert (E : filter (fun a => upd (source g0) arc s a =? n) (arcs g0)
              = filter (fun a => source g0 a =? n) (arcs g0)).
  { apply filter_ext_in. intros a Ha.
    rewrite upd_other; [reflexivity|]. intros ->. contradiction. }
  rewrite E. destruct (s =? n); reflexivity.
Qed.

Section DynAdd.

Import DynArcLookUp.

Lemma add_preserves_wf (g0 : Digraph) (st : state) (arc : Arc) (s t : Node) :
  wf_graph g0 -> strict_total (node_lt g0) ->
  dyn_wf g0 st ->
  arc <> INVALID -> ~ In arc (arcs g0) -> In s (nodes g0) ->
  exists st',
    add (graph_add g0 arc s t) st arc = Ok st' /\
    dyn_wf (graph_add g0 arc s t) st'.
Proof.
  intros Hwf Hord Hst Harc Hfresh Hs.
  set (g := graph_add g0 arc s t).
  assert (Hsv : s <> INVALID).
  { intros ->. exact (wf_nodes_valid g0 Hwf Hs). }
  assert (Hsrc : source g arc = s) by (unfold g; cbn [graph_add source]; apply upd_same).
  assert (Htle : forall a b, a <> arc -> b <> arc -> tle g0 a b -> tle g a b).
  { intros a b Ha Hb H. unfold tle, g in *. cbn [graph_add target node_lt].
    rewrite !upd_other by assumption. exact H. }
  assert (Hin0 : forall n T, Permutation (inorder T) (outArcs g0 n) ->
                 forall a, In a (inorder T) ->
                 In a (arcs g0) /\ source g0 a = n /\ a <> arc).
  { intros n T P a Ha. apply (Permutation_in _ P) in Ha.
    apply outArcs_in in Ha. destruct Ha as [Ha1 Ha2].
    split; [exact Ha1|]. split; [exact Ha2|]. intros ->. contradiction. }
  assert (Hsort : forall n T, Permutation (inorder T) (outArcs g0 n) ->
                  StronglySorted (tle g0) (inorder T) ->
                  StronglySorted (tle g) (inorder T)).
  { intros n T P S. apply sorted_ext with (R := tle g0); [|exact S].
    intros a b Ha Hb. apply Htle.
    - apply (Hin0 n T P a Ha).
    - apply (Hin0 n T P b Hb). }
  destruct (Hst s Hs) as [T [HT [HP HS]]].
  destruct (insert_spec g Hord arc st T) as [st' [T' [R [Hr' [P' [S' [Hh Hoff]]]]]]].
  - exact Harc.
  - rewrite Hsrc. exact Hsv.
  - rewrite Hsrc. exact HT.
  - constructor.
    + intros F. apply (Hin0 s T HP arc F). reflexivity.
    + eapply Permutation_NoDup; [apply Permutation_sym; exact HP|].
      apply outArcs_nodup. exact (wf_arcs_nodup g0 Hwf).
  - apply (Hsort s T HP HS).
  - unfold g. cbn [graph_add arcs length].
    rewrite (Permutation_length HP). pose proof (outArcs_length g0 s). lia.
  - exists st'. split; [exact R|].
    intros n Hn. unfold g in Hn. cbn [graph_add nodes] in Hn.
    destruct (Z.eq_dec n s) as [->|Hne].
    + exists T'. rewrite Hsrc in Hr'. split; [exact Hr'|]. split; [|exact S'].
      unfold g. rewrite outArcs_graph_add by exact Hfresh.
      rewrite Z.eqb_refl. cbn [app].
      eapply perm_trans; [exact P'|]. apply perm_skip. exact HP.
    + destruct (Hst n Hn) as [Tn [HTn [HPn HSn]]].
      exists Tn. split; [|split].
      * rewrite Hh, Hsrc. rewrite upd_other by exact Hne.
        apply repr_frame with st; [|exact HTn].
        intros a Ha. apply Hoff. intros [F|F].
        -- apply (Hin0 n Tn HPn a Ha). symmetry. exact F.
        -- destruct (Hin0 n Tn HPn a Ha) as [_ [E1 _]].
           destruct (Hin0 s T HP a F) as [_ [E2 _]]. congruence.
      * unfold g. rewrite outArcs_graph_add by exact Hfresh.
        assert (E : (s =? n) = false) by (apply Z.eqb_neq; congruence).
        rewrite E. cbn [app]. exact HPn.
      * apply (Hsort n Tn HPn HSn).
Qed.

End DynAdd.

(** ** Queries of the dynamic index *)

Section DynQueries.

Import DynArcLookUp.

Variable g : Digraph.

Lemma lookup_loop_spec (t : Node) (s : Node) :
  s <> INVALID ->
  forall (fuel : nat) (st : state) (c : ctx) (tr : tree) (a : Arc),
    (length (inorder tr) <= fuel)%nat -> (1 <= fuel)%nat ->
    (length (cbefore c ++ inorder tr ++ cafter c) <= length (arcs g))%nat ->
    (forall x, In x (cbefore c ++ inorder tr ++ cafter c) -> source g x = s) ->
    tr <> Leaf ->
    cshape st c a ->
    repr st (cparent c) a tr ->
    NoDup (cbefore c ++ inorder tr ++ cafter c) ->
    exists res st' T',
      lookup_loop fuel g st t a = Ok (res, st') /\
      repr st' INVALID (_head st' s) T' /\
      inorder T' = cbefore c ++ inorder tr ++ cafter c /\
      (forall n, n <> s -> _head st' n = _head st n) /\
      agree_off (cbefore c ++ inorder tr ++ cafter c) st st'.
Proof.
  intros Hs.
  induction fuel as [|f IH];
    intros st c tr a Hfuel Hf1 Hlen Hsrc Htr Hc Hr Hnd; [lia|].
  destruct tr as [|l a' r]; [congruence|].
  pose proof Hr as Hr0. cbn [repr] in Hr0.
  destruct Hr0 as [<- [Ha [Hpa [Hl Hrr]]]].
  assert (Hsa : source g a = s) by (apply Hsrc; in_solve).
  assert (Hsplay : forall rr : Arc,
    exists res st' T',
      (st0 <- splay g st a ;; Ok (rr, st0)) = Ok (res, st') /\
      repr st' INVALID (_head st' s) T' /\
      inorder T' = cbefore c ++ inorder (Tr l a r) ++ cafter c /\
      (forall n, n <> s -> _head st' n = _head st n) /\
      agree_off (cbefore c ++ inorder (Tr l a r) ++ cafter c) st st').
  { intros rr.
    destruct (splay_spec g st c (Tr l a r) a)
      as [st' [T' [R [Hr' [E [Hh Hoff]]]]]]; try assumption.
    - rewrite Hsa. exact Hs.
    - rewrite R. cbn [bind]. exists rr, st', T'. split; [reflexivity|].
      rewrite Hh, Hsa. rewrite upd_same. split; [exact Hr'|]. split; [exact E|].
      split; [|exact Hoff]. intros n Hn. apply upd_other. exact Hn. }
  cbn [lookup_loop]. unfold g_target. rewrite (get_ok _ a Ha). cbn [bind].
  destruct (target g a =? t); [apply Hsplay|].
  destruct (node_lt g t (target g a)).
  - unfold left_of. rewrite (get_ok _ a Ha). cbn [bind].
    destruct l as [|l1 la l2].
    + cbn [repr] in Hl. rewrite Hl. cbn [Z.eqb INVALID Z.opp Pos.eqb]. apply Hsplay.
    + pose proof Hl as Hl0. cbn [repr] in Hl0. destruct Hl0 as [Hla [Hlav _]].
      rewrite Hla. rewrite (eqb_invalid_false la Hlav).
      assert (EL : cbefore (FL a r :: c) ++ inorder (Tr l1 la l2) ++ cafter (FL a r :: c)
                   = cbefore c ++ inorder (Tr (Tr l1 la l2) a r) ++ cafter c) by list_eq.
      destruct (IH st (FL a r :: c) (Tr l1 la l2) la)
        as [rr [st' [T' [R [Hr' [E [Hh Hoff]]]]]]].
      * cbn [inorder] in Hfuel |- *.
        repeat (rewrite length_app in Hfuel || cbn [length] in Hfuel).
        repeat (rewrite length_app || cbn [length]). lia.
      * cbn [inorder] in Hfuel.
        repeat (rewrite length_app in Hfuel || cbn [length] in Hfuel). lia.
      * rewrite EL. exact Hlen.
      * rewrite EL. exact Hsrc.
      * discriminate.
      * cbn [cshape]. repeat split; assumption.
      * cbn [cparent]. rewrite Hla in Hl. exact Hl.
      * rewrite EL. exact Hnd.
      * rewrite EL in E, Hoff. exists rr, st', T'.
        split; [exact R|]. split; [exact Hr'|]. split; [exact E|].
        split; [exact Hh | exact Hoff].
  - unfold right_of. rewrite (get_ok _ a Ha). cbn [bind].
    destruct r as [|r1 ra r2].
    + cbn [repr] in Hrr. rewrite Hrr. cbn [Z.eqb INVALID Z.opp Pos.eqb]. apply Hsplay.
    + pose proof Hrr as Hr0. cbn [repr] in Hr0. destruct Hr0 as [Hra [Hrav _]].
      rewrite Hra. rewrite (eqb_invalid_false ra Hrav).
      assert (EL : cbefore (FR l a :: c) ++ inorder (Tr r1 ra r2) ++ cafter (FR l a :: c)
                   = cbefore c ++ inorder (Tr l a (Tr r1 ra r2)) ++ cafter c) by list_eq.
      destruct (IH st (FR l a :: c) (Tr r1 ra r2) ra)
        as [rr [st' [T' [R [Hr' [E [Hh Hoff]]]]]]].
      * cbn [inorder] in Hfuel |- *.
        repeat (rewrite length_app in Hfuel || cbn [length] in Hfuel).
        repeat (rewrite length_app || cbn [length]). lia.
      * cbn [inorder] in Hfuel.
        repeat (rewrite length_app in Hfuel || cbn [length] in Hfuel). lia.
      * rewrite EL. exact Hlen.
      * rewrite EL. exact Hsrc.
      * discriminate.
      * cbn [cshape]. repeat split; assumption.
      * cbn [cparent]. rewrite Hra in Hrr. exact Hrr.
      * rewrite EL. exact Hnd.
      * rewrite EL in E, Hoff. exists rr, st', T'.
        split; [exact R|]. split; [exact Hr'|]. split; [exact E|].
        split; [exact Hh | exact Hoff].
Qed.

Lemma findFirst_loop_spec (t : Node) (s : Node) :
  s <> INVALID ->
  forall (fuel : nat) (st : state) (c : ctx) (tr : tree) (a r0 : Arc),
    (length (inorder tr) <= fuel)%nat -> (1 <= fuel)%nat ->
    (length (cbefore c ++ inorder tr ++ cafter c) <= length (arcs g))%nat ->
    (forall x, In x (cbefore c ++ inorder tr ++ cafter c) -> source g x = s) ->
    tr <> Leaf ->
    cshape st c a ->
    repr st (cparent c) a tr ->
    NoDup (cbefore c ++ inorder tr ++ cafter c) ->
    exists res st' T',
      findFirst_loop fuel g st t a r0 = Ok (res, st') /\
      repr st' INVALID (_head st' s) T' /\
      inorder T' = cbefore c ++ inorder tr ++ cafter c /\
      (forall n, n <> s -> _head st' n = _head st n) /\
      agree_off (cbefore c ++ inorder tr ++ cafter c) st st'.
Proof.
  intros Hs.
  induction fuel as [|f IH];
    intros st c tr a r0 Hfuel Hf1 Hlen Hsrc Htr Hc Hr Hnd; [lia|].
  destruct tr as [|l a' r]; [congruence|].
  pose proof Hr as Hr0. cbn [repr] in Hr0.
  destruct Hr0 as [<- [Ha [Hpa [Hl Hrr]]]].
  assert (Hsa : source g a = s) by (apply Hsrc; in_solve).
  assert (Hsplay : forall rr : Arc,
    exists res st' T',
      (st0 <- splay g st a ;; Ok (rr, st0)) = Ok (res, st') /\
      repr st' INVALID (_head st' s) T' /\
      inorder T' = cbefore c ++ inorder (Tr l a r) ++ cafter c /\
      (forall n, n <> s -> _head st' n = _head st n) /\
      agree_off (cbefore c ++ inorder (Tr l a r) ++ cafter c) st st').
  { intros rr.
    destruct (splay_spec g st c (Tr l a r) a)
      as [st' [T' [R [Hr' [E [Hh Hoff]]]]]]; try assumption.
    - rewrite Hsa. exact Hs.
    - rewrite R. cbn [bind]. exists rr, st', T'. split; [reflexivity|].
      rewrite Hh, Hsa. rewrite upd_same. split; [exact Hr'|]. split; [exact E|].
      split; [|exact Hoff]. intros n Hn. apply upd_other. exact Hn. }
  cbn [findFirst_loop]. unfold g_target. rewrite (get_ok _ a Ha). cbn [bind].
  destruct (node_lt g (target g a) t).
  - unfold right_of. rewrite (get_ok _ a Ha). cbn [bind].
    destruct r as [|r1 ra r2].
    + cbn [repr] in Hrr. rewrite Hrr. cbn [Z.eqb INVALID Z.opp Pos.eqb]. apply Hsplay.
    + pose proof Hrr as Hr0. cbn [repr] in Hr0. destruct Hr0 as [Hra [Hrav _]].
      rewrite Hra. rewrite (eqb_invalid_false ra Hrav).
      assert (EL : cbefore (FR l a :: c) ++ inorder (Tr r1 ra r2) ++ cafter (FR l a :: c)
                   = cbefore c ++ inorder (Tr l a (Tr r1 ra r2)) ++ cafter c) by list_eq.
      destruct (IH st (FR l a :: c) (Tr r1 ra r2) ra r0)
        as [rr [st' [T' [R [Hr' [E [Hh Hoff]]]]]]].
      * cbn [inorder] in Hfuel |- *.
        repeat (rewrite length_app in Hfuel || cbn [length] in Hfuel).
        repeat (rewrite length_app || cbn [length]). lia.
      * cbn [inorder] in Hfuel.
        repeat (rewrite length_app in Hfuel || cbn [length] in Hfuel). lia.
      * rewrite EL. exact Hlen.
      * rewrite EL. exact Hsrc.
      * discriminate.
      * cbn [cshape]. repeat split; assumption.
      * cbn [cparent]. rewrite Hra in Hrr. exact Hrr.
      * rewrite EL. exact Hnd.
      * rewrite EL in E, Hoff. exists rr, st', T'.
        split; [exact R|]. split; [exact Hr'|]. split; [exact E|].
        split; [exact Hh | exact Hoff].
  - unfold left_of. rewrite (get_ok _ a Ha). cbn [bind].
    destruct l as [|l1 la l2].
    + cbn [repr] in Hl. rewrite Hl. cbn [Z.eqb INVALID Z.opp Pos.eqb]. apply Hsplay.
    + pose proof Hl as Hl0. cbn [repr] in Hl0. destruct Hl0 as [Hla [Hlav _]].
      rewrite Hla. rewrite (eqb_invalid_false la Hlav).
      assert (EL : cbefore (FL a r :: c) ++ inorder (Tr l1 la l2) ++ cafter (FL a r :: c)
                   = cbefore c ++ inorder (Tr (Tr l1 la l2) a r) ++ cafter c) by list_eq.
      destruct (IH st (FL a r :: c) (Tr l1 la l2) la
                  (if target g a =? t then a else r0))
        as [rr [st' [T' [R [Hr' [E [Hh Hoff]]]]]]].
      * cbn [inorder] in Hfuel |- *.
        repeat (rewrite length_app in Hfuel || cbn [length] in Hfuel).
        repeat (rewrite length_app || cbn [length]). lia.
      * cbn [inorder] in Hfuel.
        repeat (rewrite length_app in Hfuel || cbn [length] in Hfuel). lia.
      * rewrite EL. exact Hlen.
      * rewrite EL. exact Hsrc.
      * discriminate.
      * cbn [cshape]. repeat split; assumption.
      * cbn [cparent]. rewrite Hla in Hl. exact Hl.
      * rewrite EL. exact Hnd.
      * rewrite EL in E, Hoff. exists rr, st', T'.
        split; [exact R|]. split; [exact Hr'|]. split; [exact E|].
        split; [exact Hh | exact Hoff].
Qed.

(** A query or an insertion that rearranges the tree of [s] and keeps
    its in-order list leaves a well-formed state. *)
Lemma wf_after_rearrangement (st st' : state) (s : Node) (T T' : tree) :
  dyn_wf g st ->
  Permutation (inorder T) (outArcs g s) ->
  repr st' INVALID (_head st' s) T' ->
  inorder T' = inorder T ->
  StronglySorted (tle g) (inorder T) ->
  (forall n, n <> s -> _head st' n = _head st n) ->
  agree_off (inorder T) st st' ->
  dyn_wf g st'.
Proof.
  intros Hwf HP Hr' E HS Hh Hoff n Hn.
  destruct (Z.eq_dec n s) as [->|Hne].
  - exists T'. split; [exact Hr'|]. rewrite E. split; assumption.
  - destruct (Hwf n Hn) as [Tn [HTn [HPn HSn]]].
    exists Tn. split; [|split; assumption].
    rewrite Hh by exact Hne.
    apply repr_frame with st; [|exact HTn].
    intros a Ha. apply Hoff. intros F.
    apply (Permutation_in _ HPn) in Ha. apply (Permutation_in _ HP) in F.
    apply outArcs_in in Ha. apply outArcs_in in F.
    destruct Ha as [_ Ha]. destruct F as [_ F]. congruence.
Qed.

Hypothesis Hwf : wf_graph g.

Lemma tree_of_node_facts (st : state) (s : Node) (T : tree) :
  Permutation (inorder T) (outArcs g s) ->
  NoDup (inorder T) /\
  (length (inorder T) <= length (arcs g))%nat /\
  (forall x, In x (inorder T) -> source g x = s).
Proof.
  intros HP. split; [|split].
  - eapply Permutation_NoDup; [apply Permutation_sym; exact HP|].
    apply outArcs_nodup. exact (wf_arcs_nodup g Hwf).
  - rewrite (Permutation_length HP). apply outArcs_length.
  - intros x Hx. apply (Permutation_in _ HP) in Hx.
    apply outArcs_in in Hx. apply Hx.
Qed.

Lemma lookup_spec (st : state) (s t : Node) :
  dyn_wf g st -> In s (nodes g) -> _head st s <> INVALID ->
  exists a st', lookup g st s t = Ok (a, st') /\ dyn_wf g st'.
Proof.
  intros Hst Hs Hhead.
  assert (Hsv : s <> INVALID) by (intros ->; exact (wf_nodes_valid g Hwf Hs)).
  destruct (Hst s Hs) as [T [HT [HP HS]]].
  destruct (tree_of_node_facts st s T HP) as [Hnd [Hlen Hsrc]].
  assert (HTne : T <> Leaf).
  { intros ->. cbn [repr] in HT. contradiction. }
  assert (EL : cbefore [] ++ inorder T ++ cafter [] = inorder T).
  { cbn [cbefore cafter app]. apply app_nil_r. }
  unfold lookup, head_of. rewrite (get_ok _ s Hsv). cbn [bind].
  destruct (lookup_loop_spec t s Hsv (fuel_of g) st [] T (_head st s))
    as [a [st' [T' [R [Hr' [E [Hh Hoff]]]]]]].
  - unfold fuel_of. lia.
  - unfold fuel_of. lia.
  - rewrite EL. exact Hlen.
  - rewrite EL. exact Hsrc.
  - exact HTne.
  - exact I.
  - exact HT.
  - rewrite EL. exact Hnd.
  - rewrite EL in E, Hoff. exists a, st'. split; [exact R|].
    apply (wf_after_rearrangement st st' s T T'); assumption.
Qed.

Lemma findFirst_spec (st : state) (s t : Node) :
  dyn_wf g st -> In s (nodes g) -> _head st s <> INVALID ->
  exists a st', findFirst g st s t = Ok (a, st') /\ dyn_wf g st'.
Proof.
  intros Hst Hs Hhead.
  assert (Hsv : s <> INVALID) by (intros ->; exact (wf_nodes_valid g Hwf Hs)).
  destruct (Hst s Hs) as [T [HT [HP HS]]].
  destruct (tree_of_node_facts st s T HP) as [Hnd [Hlen Hsrc]].
  assert (HTne : T <> Leaf).
  { intros ->. cbn [repr] in HT. contradiction. }
  assert (EL : cbefore [] ++ inorder T ++ cafter [] = inorder T).
  { cbn [cbefore cafter app]. apply app_nil_r. }
  unfold findFirst, head_of. rewrite (get_ok _ s Hsv). cbn [bind].
  destruct (findFirst_loop_spec t s Hsv (fuel_of g) st [] T (_head st s) INVALID)
    as [a [st' [T' [R [Hr' [E [Hh Hoff]]]]]]].
  - unfold fuel_of. lia.
  - unfold fuel_of. lia.
  - rewrite EL. exact Hlen.
  - rewrite EL. exact Hsrc.
  - exact HTne.
  - exact I.
  - exact HT.
  - rewrite EL. exact Hnd.
  - rewrite EL in E, Hoff. exists a, st'. split; [exact R|].
    apply (wf_after_rearrangement st st' s T T'); assumption.
Qed.

End DynQueries.

Section DynFindNext.

Import DynArcLookUp.

Variable g : Digraph.
Hypothesis Hwf : wf_graph g.

Lemma locate (st : state) (a : Arc) (T : tree) :
  forall (c0 : ctx) (x : Arc),
    cshape st c0 x ->
    repr st (cparent c0) x T ->
    In a (inorder T) ->
    exists c l r,
      cshape st c a /\
      repr st (cparent c) a (Tr l a r) /\
      cbefore c ++ inorder (Tr l a r) ++ cafter c
      = cbefore c0 ++ inorder T ++ cafter c0.
Proof.
  induction T as [|l IHl e r IHr]; intros c0 x Hc Hr Ha.
  - contradiction.
  - pose proof Hr as Hr0. cbn [repr] in Hr0.
    destruct Hr0 as [-> [He [Hpe [Hl Hrr]]]].
    cbn [inorder] in Ha. apply in_app_or in Ha. destruct Ha as [Ha|[Ha|Ha]].
    + destruct (IHl (FL e r :: c0) (_left st e)) as [c [l' [r' [H1 [H2 H3]]]]].
      * cbn [cshape]. repeat split; assumption.
      * exact Hl.
      * exact Ha.
      * exists c, l', r'. split; [exact H1|]. split; [exact H2|].
        rewrite H3. list_eq.
    + subst a. exists c0, l, r. split; [exact Hc|]. split; [exact Hr|]. reflexivity.
    + destruct (IHr (FR l e :: c0) (_right st e)) as [c [l' [r' [H1 [H2 H3]]]]].
      * cbn [cshape]. repeat split; assumption.
      * exact Hrr.
      * exact Ha.
      * exists c, l', r'. split; [exact H1|]. split; [exact H2|].
        rewrite H3. list_eq.
Qed.

Lemma leftmost_spec :
  forall (fuel : nat) (st : state) (c : ctx) (tr : tree) (e : Arc),
    (length (inorder tr) <= S fuel)%nat ->
    tr <> Leaf ->
    cshape st c e ->
    repr st (cparent c) e tr ->
    exists y c' tr',
      leftmost fuel st e = Ok y /\
      tr' <> Leaf /\
      cshape st c' y /\
      repr st (cparent c') y tr' /\
      cbefore c' ++ inorder tr' ++ cafter c' = cbefore c ++ inorder tr ++ cafter c.
Proof.
  induction fuel as [|f IH]; intros st c tr e Hfuel Htr Hc Hr.
  - destruct tr as [|l e' r]; [congruence|].
    pose proof Hr as Hr0. cbn [repr] in Hr0.
    destruct Hr0 as [<- [He [Hpe [Hl Hrr]]]].
    destruct l as [|l1 le l2].
    + cbn [repr] in Hl. cbn [leftmost]. unfold left_of.
      rewrite (get_ok _ e He). cbn [bind]. rewrite Hl.
      cbn [Z.eqb INVALID Z.opp Pos.eqb negb].
      exists e, c, (Tr Leaf e r). split; [reflexivity|].
      split; [discriminate|]. split; [exact Hc|]. split; [exact Hr | reflexivity].
    + cbn [inorder] in Hfuel.
      repeat (rewrite length_app in Hfuel || cbn [length] in Hfuel). lia.
  - destruct tr as [|l e' r]; [congruence|].
    pose proof Hr as Hr0. cbn [repr] in Hr0.
    destruct Hr0 as [<- [He [Hpe [Hl Hrr]]]].
    cbn [leftmost]. unfold left_of. rewrite (get_ok _ e He). cbn [bind].
    destruct l as [|l1 le l2].
    + cbn [repr] in Hl. rewrite Hl.
      cbn [Z.eqb INVALID Z.opp Pos.eqb negb].
      exists e, c, (Tr Leaf e r). split; [reflexivity|].
      split; [discriminate|]. split; [exact Hc|]. split; [exact Hr | reflexivity].
    + pose proof Hl as Hl0. cbn [repr] in Hl0. destruct Hl0 as [Hle [Hlev _]].
      rewrite Hle. rewrite (eqb_invalid_false le Hlev). cbn [negb].
      destruct (IH st (FL e r :: c) (Tr l1 le l2) le)
        as [y [c' [tr' [R [Ht' [Hc' [Hr' E]]]]]]].
      * cbn [inorder] in Hfuel |- *.
        repeat (rewrite length_app in Hfuel || cbn [length] in Hfuel).
        repeat (rewrite length_app || cbn [length]). lia.
      * discriminate.
      * cbn [cshape]. repeat split; assumption.
      * cbn [cparent]. rewrite Hle in Hl. exact Hl.
      * exists y, c', tr'. split; [exact R|]. split; [exact Ht'|].
        split; [exact Hc'|]. split; [exact Hr'|]. rewrite E. list_eq.
Qed.

(** Climbing while the arc is a right child ends at the root or at a
    left child. *)
Lemma climb_right_spec :
  forall (fuel : nat) (st : state) (c : ctx) (tr : tree) (a : Arc),
    (length c <= fuel)%nat ->
    tr <> Leaf ->
    cshape st c a ->
    repr st (cparent c) a tr ->
    NoDup (cbefore c ++ inorder tr ++ cafter c) ->
    exists a' c' tr',
      climb_right fuel st a = Ok a' /\
      tr' <> Leaf /\
      cshape st c' a' /\
      repr st (cparent c') a' tr' /\
      cbefore c' ++ inorder tr' ++ cafter c' = cbefore c ++ inorder tr ++ cafter c /\
      (c' = [] \/ exists p r c'', c' = FL p r :: c'').
Proof.
  induction fuel as [|f IH]; intros st c tr a Hfuel Htr Hc Hr Hnd.
  - destruct c as [|fr c]; [|simpl in Hfuel; lia].
    destruct tr as [|l a' r]; [congruence|].
    pose proof Hr as Hr0. cbn [repr cparent] in Hr0.
    destruct Hr0 as [<- [Ha [Hpa _]]].
    cbn [climb_right]. unfold parent_of. rewrite (get_ok _ a Ha). cbn [bind].
    rewrite Hpa. cbn [Z.eqb INVALID Z.opp Pos.eqb negb].
    exists a, [], (Tr l a r). split; [reflexivity|]. split; [discriminate|].
    split; [exact I|]. split; [exact Hr|]. split; [reflexivity | left; reflexivity].
  - destruct tr as [|l a' r]; [congruence|].
    pose proof Hr as Hr0. cbn [repr] in Hr0.
    destruct Hr0 as [<- [Ha [Hpa _]]].
    cbn [climb_right]. unfold parent_of, right_of.
    rewrite (get_ok _ a Ha). cbn [bind]. rewrite Hpa.
    destruct c as [|[p rp|lp p] c'].
    + cbn [cparent Z.eqb INVALID Z.opp Pos.eqb negb].
      exists a, [], (Tr l a r). split; [reflexivity|]. split; [discriminate|].
      split; [exact I|]. split; [exact Hr|]. split; [reflexivity | left; reflexivity].
    + pose proof Hc as Hc0. cbn [cshape] in Hc0.
      destruct Hc0 as [Hp [Hlp [Hpp [Hrp Hc']]]].
      cbn [cparent]. rewrite (eqb_invalid_false p Hp). cbn [negb].
      rewrite (get_ok _ p Hp). cbn [bind].
      assert (Hne : (_right st p =? a) = false).
      { apply Z.eqb_neq. apply (repr_root_neq st p _ a rp Hrp Ha).
        cbn [cbefore cafter inorder] in Hnd. nd_split. intros x Hx. nd_neq. }
      rewrite Hne.
      exists a, (FL p rp :: c'), (Tr l a r). split; [reflexivity|].
      split; [discriminate|]. split; [exact Hc|]. split; [exact Hr|].
      split; [reflexivity|]. right. exists p, rp, c'. reflexivity.
    + pose proof Hc as Hc0. cbn [cshape] in Hc0.
      destruct Hc0 as [Hp [Hrp [Hpp [Hlp Hc']]]].
      cbn [cparent]. rewrite (eqb_invalid_false p Hp). cbn [negb].
      rewrite (get_ok _ p Hp). cbn [bind]. rewrite Hrp, Z.eqb_refl.
      assert (EL : cbefore c' ++ inorder (Tr lp p (Tr l a r)) ++ cafter c'
                   = cbefore (FR lp p :: c') ++ inorder (Tr l a r) ++
                     cafter (FR lp p :: c')) by list_eq.
      destruct (IH st c' (Tr lp p (Tr l a r)) p)
        as [a' [c2 [tr' [R [Ht' [Hc2 [Hr' [E Hform]]]]]]]].
      * simpl in Hfuel. lia.
      * discriminate.
      * exact Hc'.
      * cbn [repr]. cbn [cparent] in Hr. rewrite Hrp.
        split; [reflexivity|]. split; [exact Hp|]. split; [exact Hpp|].
        split; [exact Hlp | exact Hr].
      * rewrite EL. exact Hnd.
      * exists a', c2, tr'. split; [exact R|]. split; [exact Ht'|].
        split; [exact Hc2|]. split; [exact Hr'|]. split; [|exact Hform].
        rewrite E. exact EL.
Qed.

Lemma findNext_spec (st : state) (s t : Node) (a : Arc) :
  dyn_wf g st -> In a (arcs g) ->
  exists r st', findNext g st s t a = Ok (r, st') /\ dyn_wf g st'.
Proof.
  intros Hst Ha.
  set (n := source g a).
  assert (Hn : In n (nodes g)) by (apply (wf_source g Hwf); exact Ha).
  assert (Hnv : n <> INVALID) by (intros F; rewrite F in Hn; exact (wf_nodes_valid g Hwf Hn)).
  assert (Hav : a <> INVALID) by (intros ->; exact (wf_arcs_valid g Hwf Ha)).
  destruct (Hst n Hn) as [T [HT [HP HS]]].
  destruct (tree_of_node_facts g Hwf st n T HP) as [Hnd [Hlen Hsrc]].
  assert (HaT : In a (inorder T)).
  { apply (Permutation_in _ (Permutation_sym HP)). apply outArcs_in.
    split; [exact Ha | reflexivity]. }
  destruct (locate st a T [] (_head st n) I HT HaT) as [c [l [r [Hc [Hr E]]]]].
  cbn [cbefore cafter app] in E. rewrite app_nil_r in E.
  pose proof Hr as Hr0. cbn [repr] in Hr0.
  destruct Hr0 as [_ [_ [Hpa [Hl Hrr]]]].
  assert (Hsplay : forall (c1 : ctx) (t1 : tree) (v : Arc),
    t1 <> Leaf -> cshape st c1 v -> repr st (cparent c1) v t1 ->
    cbefore c1 ++ inorder t1 ++ cafter c1 = inorder T ->
    exists st', splay g st v = Ok st' /\ dyn_wf g st').
  { intros c1 t1 v Ht1 Hc1 Hr1 E1.
    assert (Hv : In v (inorder T)).
    { rewrite <- E1. destruct t1 as [|l1 v' r1]; [congruence|].
      cbn [repr] in Hr1. destruct Hr1 as [<- _]. in_solve. }
    destruct (splay_spec g st c1 t1 v) as [st' [T' [R [Hr' [E' [Hh Hoff]]]]]].
    - rewrite E1. exact Hlen.
    - rewrite (Hsrc v Hv). exact Hnv.
    - exact Ht1.
    - exact Hc1.
    - exact Hr1.
    - rewrite E1. exact Hnd.
    - exists st'. split; [exact R|].
      rewrite E1 in E', Hoff. rewrite (Hsrc v Hv) in Hh.
      apply (wf_after_rearrangement g st st' n T T'); try assumption.
      + rewrite Hh, upd_same. exact Hr'.
      + intros m Hm. rewrite Hh. apply upd_other. exact Hm. }
  unfold findNext, right_of, parent_of. rewrite (get_ok _ a Hav). cbn [bind].
  destruct r as [|r1 ra r2].
  - (* no right child: climb *)
    cbn [repr] in Hrr. rewrite Hrr. cbn [Z.eqb INVALID Z.opp Pos.eqb negb].
    destruct (climb_right_spec (fuel_of g) st c (Tr l a Leaf) a)
      as [a' [c' [tr' [R [Ht' [Hc' [Hr' [E' Hform]]]]]]]].
    + pose proof (ctx_length_le c) as Hcl.
      assert (Hll : (length (cbefore c ++ cafter c) <= length (inorder T))%nat).
      { rewrite <- E. rewrite !length_app. lia. }
      unfold fuel_of. lia.
    + discriminate.
    + exact Hc.
    + exact Hr.
    + rewrite E. exact Hnd.
    + rewrite R. cbn [bind].
      assert (Hav' : a' <> INVALID).
      { destruct tr' as [|l1 v' r1]; [congruence|].
        cbn [repr] in Hr'. destruct Hr' as [<- [Hv _]]. exact Hv. }
      assert (Hpa' : _parent st a' = cparent c').
      { destruct tr' as [|l1 v' r1]; [congruence|].
        cbn [repr] in Hr'. destruct Hr' as [<- [_ [Hp _]]]. exact Hp. }
      rewrite (get_ok _ a' Hav'). cbn [bind]. rewrite Hpa'.
      destruct Hform as [->|[p [rp [c'' ->]]]].
      * cbn [cparent Z.eqb INVALID Z.opp Pos.eqb].
        exists INVALID, st. split; [reflexivity | exact Hst].
      * pose proof Hc' as Hc0. cbn [cshape] in Hc0.
        destruct Hc0 as [Hp [Hlp [Hpp [Hrp Hc'']]]].
        cbn [cparent]. rewrite (eqb_invalid_false p Hp).
        destruct (Hsplay c'' (Tr tr' p rp) p) as [st' [R' Hwf']].
        -- discriminate.
        -- exact Hc''.
        -- cbn [repr]. rewrite Hlp.
           split; [reflexivity|]. split; [exact Hp|]. split; [exact Hpp|].
           split; [exact Hr' | exact Hrp].
        -- rewrite <- E, <- E'. list_eq.
        -- rewrite R'. cbn [bind]. unfold g_target.
           rewrite (get_ok _ p Hp). cbn [bind].
           eexists. exists st'. split; [reflexivity | exact Hwf'].
  - (* a right child: the leftmost arc below it *)
    pose proof Hrr as Hrr0. cbn [repr] in Hrr0. destruct Hrr0 as [Hra [Hrav _]].
    rewrite Hra. rewrite (eqb_invalid_false ra Hrav). cbn [negb].
    destruct (leftmost_spec (fuel_of g) st (FR l a :: c) (Tr r1 ra r2) ra)
      as [y [c' [tr' [R [Ht' [Hc' [Hr' E']]]]]]].
    + assert (Hll : (length (inorder (Tr r1 ra r2)) <= length (inorder T))%nat).
      { rewrite <- E. cbn [inorder]. repeat (rewrite length_app || cbn [length]). lia. }
      unfold fuel_of. lia.
    + discriminate.
    + cbn [cshape]. cbn [cparent] in Hr. repeat split; assumption.
    + cbn [cparent]. rewrite Hra in Hrr. exact Hrr.
    + rewrite R. cbn [bind].
      assert (Hyv : y <> INVALID).
      { destruct tr' as [|l1 v' r1']; [congruence|].
        cbn [repr] in Hr'. destruct Hr' as [<- [Hv _]]. exact Hv. }
      destruct (Hsplay c' tr' y) as [st' [R' Hwf']].
      * exact Ht'.
      * exact Hc'.
      * exact Hr'.
      * rewrite E', <- E. list_eq.
      * rewrite R'. cbn [bind]. unfold g_target.
        rewrite (get_ok _ y Hyv). cbn [bind].
        eexists. exists st'. split; [reflexivity | exact Hwf'].
Qed.

End DynFindNext.

(** ** Batches of insertions *)

Section DynBatch.

Import DynArcLookUp.

Lemma insert_wf_on (g : Digraph) (A : list Arc) (st : state) (arc : Arc) :
  strict_total (node_lt g) ->
  ~ In INVALID (nodes g) ->
  NoDup (arc :: A) -> arc <> INVALID ->
  In (source g arc) (nodes g) ->
  (length (arc :: A) <= length (arcs g))%nat ->
  dyn_wf_on g A st ->
  exists st', insert g st arc = Ok st' /\ dyn_wf_on g (arc :: A) st'.
Proof.
  intros Hord Hnv Hnd Harc Hs Hlen Hst.
  set (s := source g arc) in *.
  assert (Hsv : s <> INVALID) by (intros F; rewrite F in Hs; contradiction).
  apply NoDup_cons_iff in Hnd. destruct Hnd as [Hfresh HndA].
  assert (Hin : forall n T,
    Permutation (inorder T) (filter (fun a => source g a =? n) A) ->
    forall a, In a (inorder T) -> In a A /\ source g a = n).
  { intros n T P a Ha. apply (Permutation_in _ P) in Ha.
    apply filter_In in Ha. rewrite Z.eqb_eq in Ha. exact Ha. }
  destruct (Hst s Hs) as [T [HT [HP HS]]].
  destruct (insert_spec g Hord arc st T) as [st' [T' [R [Hr' [P' [S' [Hh Hoff]]]]]]].
  - exact Harc.
  - exact Hsv.
  - exact HT.
  - constructor.
    + intros F. apply Hfresh. apply (Hin s T HP arc F).
    + eapply Permutation_NoDup; [apply Permutation_sym; exact HP|].
      apply NoDup_filter. exact HndA.
  - exact HS.
  - eapply Nat.le_trans; [|exact Hlen]. cbn [length].
    rewrite (Permutation_length HP).
    pose proof (filter_length_le (fun a => source g a =? s) A). lia.
  - exists st'. split; [exact R|].
    intros n Hn. cbn [filter]. fold s.
    destruct (Z.eq_dec n s) as [->|Hne].
    + rewrite Z.eqb_refl. exists T'. split; [exact Hr'|]. split; [|exact S'].
      eapply perm_trans; [exact P'|]. apply perm_skip. exact HP.
    + assert (E : (s =? n) = false) by (apply Z.eqb_neq; congruence).
      rewrite E.
      destruct (Hst n Hn) as [Tn [HTn [HPn HSn]]].
      exists Tn. split; [|split; assumption].
      rewrite Hh. fold s. rewrite upd_other by exact Hne.
      apply repr_frame with st; [|exact HTn].
      intros a Ha. apply Hoff. intros [F|F].
      * subst a. destruct (Hin n Tn HPn arc Ha) as [F _]. contradiction.
      * destruct (Hin n Tn HPn a Ha) as [_ E1].
        destruct (Hin s T HP a F) as [_ E2]. congruence.
Qed.

Lemma add_all_wf_on (g : Digraph) (l : list Arc) :
  strict_total (node_lt g) ->
  ~ In INVALID (nodes g) ->
  forall (A : list Arc) (st : state),
    NoDup (l ++ A) ->
    (forall a, In a l -> a <> INVALID /\ In (source g a) (nodes g)) ->
    (length (l ++ A) <= length (arcs g))%nat ->
    dyn_wf_on g A st ->
    exists st', add_all g st l = Ok st' /\ dyn_wf_on g (rev l ++ A) st'.
Proof.
  intros Hord Hnv.
  induction l as [|a l IH]; intros A st Hnd Hl Hlen Hst.
  - exists st. split; [reflexivity | exact Hst].
  - cbn [app] in Hnd, Hlen.
    destruct (Hl a (or_introl eq_refl)) as [Ha Hsa].
    destruct (insert_wf_on g A st a) as [st1 [R1 H1]]; try assumption.
    + apply NoDup_cons_iff in Hnd. destruct Hnd as [Hf Hnd].
      constructor; [|eapply NoDup_app_remove_l; exact Hnd].
      intros F. apply Hf. apply in_or_app. right. exact F.
    + cbn [length] in *. rewrite length_app in Hlen. lia.
    + destruct (IH (a :: A) st1) as [st2 [R2 H2]].
      * eapply Permutation_NoDup; [|exact Hnd]. apply Permutation_middle.
      * intros b Hb. apply Hl. right. exact Hb.
      * rewrite length_app. cbn [length] in Hlen |- *.
        rewrite length_app in Hlen. lia.
      * exact H1.
      * exists st2. cbn [add_all]. rewrite R1. cbn [bind].
        split; [exact R2|]. cbn [rev]. rewrite <- app_assoc. exact H2.
Qed.

(** The graph after a batch. *)
Lemma graph_add_all_facts (l : list (Arc * Node * Node)) :
  forall g,
    nodes (graph_add_all g l) = nodes g /\
    node_lt (graph_add_all g l) = node_lt g /\
    arcs (graph_add_all g l) = rev (map (fun x => fst (fst x)) l) ++ arcs g /\
    (forall a, ~ In a (map (fun x => fst (fst x)) l) ->
               source (graph_add_all g l) a = source g a /\
               target (graph_add_all g l) a = target g a) /\
    (NoDup (map (fun x => fst (fst x)) l) ->
     forall x, In x l -> source (graph_add_all g l) (fst (fst x)) = snd (fst x)).
Proof.
  induction l as [|[[a s] t] l IH]; intros g.
  - cbn. repeat split; try reflexivity. intros _ x [].
  - cbn [graph_add_all fold_left map fst snd rev].
    fold (graph_add_all (graph_add g a s t) l).
    destruct (IH (graph_add g a s t)) as [H1 [H2 [H3 [H4 H5]]]].
    split; [rewrite H1; reflexivity|]. split; [rewrite H2; reflexivity|].
    split; [rewrite H3; cbn [graph_add arcs]; rewrite <- app_assoc; reflexivity|].
    split.
    + intros b Hb. cbn [In] in Hb.
      destruct (H4 b) as [E1 E2]; [tauto|]. rewrite E1, E2.
      cbn [graph_add source target].
      rewrite !upd_other by (intros ->; tauto). split; reflexivity.
    + intros Hnd x [Hx|Hx].
      * subst x. cbn [fst snd]. apply NoDup_cons_iff in Hnd.
        destruct (H4 a) as [E1 _]; [apply Hnd|]. rewrite E1.
        cbn [graph_add source]. apply upd_same.
      * apply H5; [|exact Hx]. apply NoDup_cons_iff in Hnd. apply Hnd.
Qed.

Lemma wf_graph_add (g : Digraph) (arc : Arc) (s t : Node) :
  wf_graph g -> arc <> INVALID -> ~ In arc (arcs g) -> In s (nodes g) ->
  wf_graph (graph_add g arc s t).
Proof.
  intros [H1 H2 H3 H4] Ha Hf Hs. constructor; cbn [graph_add arcs nodes source].
  - constructor; assumption.
  - intros [F|F]; [congruence | contradiction].
  - exact H3.
  - intros a [<-|Ha']; [rewrite upd_same; exact Hs|].
    rewrite upd_other by (intros ->; contradiction). apply H4. exact Ha'.
Qed.

Lemma wf_graph_add_all (g : Digraph) (l : list (Arc * Node * Node)) :
  wf_graph g -> fresh_batch g l -> wf_graph (graph_add_all g l).
Proof.
  intros [H1 H2 H3 H4] [Hnd Hl].
  destruct (graph_add_all_facts l g) as [E1 [E2 [E3 [E4 E5]]]].
  assert (Hndl : NoDup (map (fun x => fst (fst x)) l))
    by (eapply NoDup_app_remove_r; exact Hnd).
  constructor.
  - rewrite E3. eapply Permutation_NoDup; [|exact Hnd].
    apply Permutation_app_tail. apply Permutation_rev.
  - rewrite E3. intros F. apply in_app_or in F. destruct F as [F|F]; [|contradiction].
    apply in_rev in F. apply in_map_iff in F. destruct F as [x [Ex Hx]].
    destruct (Hl x Hx) as [Hv _]. congruence.
  - rewrite E1. exact H3.
  - rewrite E1, E3. intros a Ha. apply in_app_or in Ha. destruct Ha as [Ha|Ha].
    + apply in_rev in Ha. apply in_map_iff in Ha. destruct Ha as [x [Ex Hx]].
      subst a. rewrite (E5 Hndl x Hx). apply Hl. exact Hx.
    + destruct (E4 a) as [Es _].
      * intros F. apply NoDup_app_parts in Hnd. destruct Hnd as [_ [_ Hd]].
        exact (Hd a F Ha).
      * rewrite Es. apply H4. exact Ha.
Qed.

Lemma add_all_preserves_wf (g : Digraph) (st : state) (l : list (Arc * Node * Node)) :
  wf_graph g -> strict_total (node_lt g) ->
  dyn_wf g st -> fresh_batch g l ->
  exists st',
    add_all (graph_add_all g l) st (map (fun x => fst (fst x)) l) = Ok st' /\
    dyn_wf (graph_add_all g l) st'.
Proof.
  intros Hwf Hord Hst Hfr.
  pose proof (wf_graph_add_all g l Hwf Hfr) as Hwf'.
  destruct Hfr as [Hnd Hl].
  destruct (graph_add_all_facts l g) as [E1 [E2 [E3 [E4 E5]]]].
  set (g' := graph_add_all g l) in *.
  set (ids := map (fun x => fst (fst x)) l) in *.
  assert (Hndl : NoDup ids) by (eapply NoDup_app_remove_r; exact Hnd).
  assert (Hold : forall a, In a (arcs g) ->
                           source g' a = source g a /\ target g' a = target g a).
  { intros a Ha. apply E4. intros F.
    apply NoDup_app_parts in Hnd. destruct Hnd as [_ [_ Hd]]. exact (Hd a F Ha). }
  destruct (add_all_wf_on g' ids) with (A := arcs g) (st := st) as [st' [R H]].
  - rewrite E2. exact Hord.
  - rewrite E1. exact (wf_nodes_valid g Hwf).
  - exact Hnd.
  - intros a Ha. apply in_map_iff in Ha. destruct Ha as [x [Ex Hx]]. subst a.
    destruct (Hl x Hx) as [Hv Hs]. split; [exact Hv|].
    rewrite (E5 Hndl x Hx). rewrite E1. exact Hs.
  - rewrite E3. rewrite !length_app, length_rev. lia.
  - intros n Hn. rewrite E1 in Hn. destruct (Hst n Hn) as [T [HT [HP HS]]].
    exists T. split; [exact HT|]. split.
    + replace (filter (fun a => source g' a =? n) (arcs g)) with (outArcs g n);
        [exact HP|].
      unfold outArcs. apply filter_ext_in. intros a Ha.
      destruct (Hold a Ha) as [-> _]. reflexivity.
    + apply sorted_ext with (R := tle g); [|exact HS].
      intros a b Ha Hb Hab.
      apply (Permutation_in _ HP) in Ha. apply (Permutation_in _ HP) in Hb.
      apply outArcs_in in Ha. apply outArcs_in in Hb.
      unfold tle in *. rewrite E2.
      destruct (Hold a (proj1 Ha)) as [_ ->].
      destruct (Hold b (proj1 Hb)) as [_ ->]. exact Hab.
  - exists st'. split; [exact R|].
    intros n Hn. destruct (H n Hn) as [T [HT [HP HS]]].
    exists T. split; [exact HT|]. split; [|exact HS].
    unfold outArcs. rewrite E3. exact HP.
Qed.

End DynBatch.

(** ** Builds, for every order the sort leaves equal targets in *)

Lemma small_degrees_of_arcs (g : Digraph) :
  Z.of_nat (length (arcs g)) <= 2 ^ 30 -> small_degrees g.
Proof.
  intros H n _. pose proof (outArcs_length g n). lia.
Qed.

Lemma strict_total_weak (lt : Node -> Node -> bool) :
  strict_total lt -> strict_weak lt.
Proof.
  intros [Hi Ht Htot]. constructor.
  - exact Hi.
  - exact Ht.
  - intros a b c H1 H2 H3 H4.
    assert (Eab : a = b).
    { destruct (Z.eq_dec a b) as [E|E]; [exact E|].
      destruct (Htot a b E); congruence. }
    assert (Ebc : b = c).
    { destruct (Z.eq_dec b c) as [E|E]; [exact E|].
      destruct (Htot b c E); congruence. }
    subst b. subst c. split; apply Hi.
Qed.

Section StaticFrame.

Import ArcLookUp.

Variable g : Digraph.
Hypothesis Hwf : wf_graph g.

(** [refresh(n)] writes the head of [n] and the cells of the arcs that
    leave [n], nothing else. *)
Lemma static_refresh_node_full (st : state) (n : Node) :
  n <> INVALID ->
  Z.of_nat (length (outArcs g n)) <= 2 ^ 30 ->
  exists st',
    refresh_node g st n = Ok st' /\
    static_good g st' n /\
    (forall m, m <> n -> _head st' m = _head st m) /\
    (forall k, ~ In k (outArcs g n) ->
       _left st' k = _left st k /\ _right st' k = _right st k).
Proof.
  intros Hn Hsmall. unfold refresh_node, out_arcs.
  rewrite (eqb_invalid_false n Hn). cbn [bind].
  set (v := std_sort (ArcLess g) (outArcs g n)).
  assert (Hlen : length v = length (outArcs g n))
    by (apply Permutation_length; apply std_sort_perm).
  destruct (Z.ltb_spec 0 (Z.of_nat (length (outArcs g n)))) as [Hpos|Hzero].
  - destruct (static_refreshRec_spec (length v) v [] [] st)
      as [T [st1 [R [I [S [H F]]]]]].
    + intros E. rewrite E in Hlen. simpl in Hlen. lia.
    + lia.
    + intros F. apply sorted_out_in in F. destruct F as [F _].
      exact (wf_arcs_valid g Hwf F).
    + eapply Permutation_NoDup;
        [apply Permutation_sym; apply std_sort_perm |].
      apply outArcs_nodup. exact (wf_arcs_nodup g Hwf).
    + cbn [length Nat.add]. rewrite Hlen. exact Hsmall.
    + simpl in R. rewrite app_nil_r in R. fold v. rewrite R. cbn [bind].
      unfold set_head. rewrite (set_ok _ n _ Hn). cbn [bind].
      eexists. split; [reflexivity|]. cbn [_head _left _right].
      split; [|split].
      * exists T. cbn [_head _left _right]. rewrite upd_same.
        split; [exact S | exact I].
      * intros m Hm. rewrite upd_other by exact Hm. rewrite H. reflexivity.
      * intros k Hk. apply F. intros Hin. apply Hk.
        apply outArcs_in. apply sorted_out_in. exact Hin.
  - unfold set_head. rewrite (set_ok _ n _ Hn). cbn [bind].
    eexists. split; [reflexivity|]. cbn [_head _left _right].
    assert (Hv : v = []).
    { destruct v; [reflexivity | simpl in Hlen; lia]. }
    split; [|split].
    + exists Leaf. cbn [_head _left _right]. rewrite upd_same.
      split; [reflexivity|]. fold v. rewrite Hv. reflexivity.
    + intros m Hm. apply upd_other. exact Hm.
    + intros k _. split; reflexivity.
Qed.

Lemma static_good_ok (st : state) (n : Node) :
  strict_total (node_lt g) -> static_good g st n -> static_ok g st n.
Proof.
  intros Hord [T [HT HI]]. exists T. split; [exact HT|].
  rewrite HI. split; [apply std_sort_perm | apply std_sort_sorted; exact Hord].
Qed.

Lemma static_ok_weak_bst (st : state) (n : Node) :
  static_ok g st n ->
  weak_bst g (_left st) (_right st) (_head st n).
Proof.
  intros [T [HT [_ HS]]]. apply weak_bst_of_sorted with T; assumption.
Qed.

(** The tree of another node stays what it was. *)
Lemma static_ok_frame (st st' : state) (n m : Node) :
  m <> n ->
  _head st' m = _head st m ->
  (forall k, ~ In k (outArcs g n) ->
     _left st' k = _left st k /\ _right st' k = _right st k) ->
  static_ok g st m -> static_ok g st' m.
Proof.
  intros Hne Hh Hfr [T [HT [HP HS]]]. exists T.
  split; [|split; assumption].
  rewrite Hh.
  apply shape_frame with (lft := _left st) (rgt := _right st); [|exact HT].
  intros a Ha. apply Hfr. intros F.
  apply (Permutation_in _ HP) in Ha.
  apply outArcs_in in Ha. apply outArcs_in in F.
  destruct Ha as [_ Ha]. destruct F as [_ F]. congruence.
Qed.

(** After [refresh(n)] every tree is as the sort may leave it, when
    the trees of the other nodes were. *)
Lemma static_refresh_node_ok (st : state) (n : Node) :
  strict_total (node_lt g) ->
  In n (nodes g) ->
  Z.of_nat (length (outArcs g n)) <= 2 ^ 30 ->
  (forall m, In m (nodes g) -> m <> n -> static_ok g st m) ->
  exists st',
    refresh_node g st n = Ok st' /\
    (forall m, In m (nodes g) -> static_ok g st' m) /\
    (forall m, m <> n -> _head st' m = _head st m) /\
    (forall k, ~ In k (outArcs g n) ->
       _left st' k = _left st k /\ _right st' k = _right st k).
Proof.
  intros Hord Hn Hsmall Hothers.
  assert (Hnv : n <> INVALID) by (intros ->; exact (wf_nodes_valid g Hwf Hn)).
  destruct (static_refresh_node_full st n Hnv Hsmall) as [st' [R [G [Hh Hfr]]]].
  exists st'. split; [exact R|]. split; [|split; assumption].
  intros m Hm. destruct (Z.eq_dec m n) as [->|Hne].
  - apply static_good_ok; assumption.
  - apply (static_ok_frame st st' n m Hne (Hh m Hne) Hfr).
    exact (Hothers m Hm Hne).
Qed.

End StaticFrame.

Section AllFrame.

Import AllArcLookUp.

Variable g : Digraph.
Hypothesis Hwf : wf_graph g.

(** [refresh(n)] of the parallel-arc extension rebuilds the tree of
    [n] as [ArcLookUp::refresh(n)] does. *)
Lemma all_refresh_node_base (st : state) (n : Node) :
  n <> INVALID ->
  Z.of_nat (length (outArcs g n)) <= 2 ^ 30 ->
  exists st',
    refresh_node g st n = Ok st' /\
    ArcLookUp.refresh_node g (base st) n = Ok (base st').
Proof.
  intros Hn Hsm. unfold refresh_node.
  destruct (static_refresh_node_good g Hwf (base st) n Hn Hsm) as [b [R [G _]]].
  rewrite R. cbn [bind]. rewrite (get_ok _ n Hn). cbn [bind].
  destruct G as [T [HT HI]].
  destruct (refreshNext_ok g T (fuel_of g) {| base := b; _next := _next st |}
              (ArcLookUp._head b n) INVALID HT) as [nx [st1 [R1 B1]]].
  - eapply Nat.le_trans; [apply depth_le_length|]. rewrite HI.
    rewrite (Permutation_length (std_sort_perm _ _)).
    unfold fuel_of. pose proof (outArcs_length g n). lia.
  - rewrite R1. cbn [bind]. exists st1. split; [reflexivity|].
    rewrite B1. reflexivity.
Qed.

End AllFrame.

(** ** The states of a run *)

Lemma dyn_reach_wf (g : Digraph) (st : DynArcLookUp.state) :
  dyn_reach g st ->
  wf_graph g /\ strict_total (node_lt g) /\ dyn_wf g st.
Proof.
  induction 1 as [g mem st Hwf Hord R
                 | g st st' _ [Hwf [Hord Hst]] R
                 | g st arc s t st' _ [Hwf [Hord Hst]] Ha Hf Hs R
                 | g st l st' _ [Hwf [Hord Hst]] Hfr R
                 | g st s t a st' _ [Hwf [Hord Hst]] Hs R
                 | g st s t a st' _ [Hwf [Hord Hst]] Hs R
                 | g st s t a r st' _ [Hwf [Hord Hst]] Ha R].
  - split; [exact Hwf|]. split; [exact Hord|].
    unfold DynArcLookUp.make in R.
    apply dyn_built_wf; [exact Hord|].
    exact (dyn_refresh_returned g Hwf _ st R).
  - split; [exact Hwf|]. split; [exact Hord|].
    unfold DynArcLookUp.build in R.
    apply dyn_built_wf; [exact Hord|].
    exact (dyn_refresh_returned g Hwf st st' R).
  - split; [apply wf_graph_add; assumption|]. split; [exact Hord|].
    destruct (add_preserves_wf g st arc s t Hwf Hord Hst Ha Hf Hs) as [st1 [R1 H1]].
    rewrite R1 in R. injection R as <-. exact H1.
  - split; [apply wf_graph_add_all; assumption|].
    destruct (graph_add_all_facts l g) as [_ [E2 _]].
    split; [rewrite E2; exact Hord|].
    destruct (add_all_preserves_wf g st l Hwf Hord Hst Hfr) as [st1 [R1 H1]].
    rewrite R1 in R. injection R as <-. exact H1.
  - split; [exact Hwf|]. split; [exact Hord|].
    destruct (Z.eq_dec (DynArcLookUp._head st s) INVALID) as [E|E].
    + exfalso. unfold DynArcLookUp.lookup, DynArcLookUp.head_of in R.
      assert (Hsv : s <> INVALID) by (intros ->; exact (wf_nodes_valid g Hwf Hs)).
      rewrite (get_ok _ s Hsv) in R. cbn [bind] in R. rewrite E in R.
      cbn in R. discriminate R.
    + destruct (lookup_spec g Hwf st s t Hst Hs E) as [a1 [st1 [R1 H1]]].
      rewrite R1 in R. injection R as _ <-. exact H1.
  - split; [exact Hwf|]. split; [exact Hord|].
    destruct (Z.eq_dec (DynArcLookUp._head st s) INVALID) as [E|E].
    + exfalso. unfold DynArcLookUp.findFirst, DynArcLookUp.head_of in R.
      assert (Hsv : s <> INVALID) by (intros ->; exact (wf_nodes_valid g Hwf Hs)).
      rewrite (get_ok _ s Hsv) in R. cbn [bind] in R. rewrite E in R.
      cbn in R. discriminate R.
    + destruct (findFirst_spec g Hwf st s t Hst Hs E) as [a1 [st1 [R1 H1]]].
      rewrite R1 in R. injection R as _ <-. exact H1.
  - split; [exact Hwf|]. split; [exact Hord|].
    destruct (findNext_spec g Hwf st s t a Hst Ha) as [r1 [st1 [R1 H1]]].
    rewrite R1 in R. injection R as _ <-. exact H1.
Qed.

(** ** What holds on the runs without erase *)

Section DynConsistent.

Import DynArcLookUp.

Variable g : Digraph.
Hypothesis Hwf : wf_graph g.

(** In a well-formed state the tree of a node holds exactly the arcs
    leaving the node. *)
Lemma dyn_wf_tree_is_out_arcs (st : state) (n : Node) :
  dyn_wf g st -> In n (nodes g) -> tree_is_out_arcs g st n.
Proof.
  intros Hst Hn a. destruct (Hst n Hn) as [T [HT [HP _]]].
  apply repr_shape in HT. split; intros H.
  - apply (Permutation_in _ HP). eapply in_tree_inorder; eassumption.
  - apply (shape_in_tree _ _ T); [exact HT|].
    apply (Permutation_in _ (Permutation_sym HP)). exact H.
Qed.

(** In a well-formed state the parent map and the child maps agree. *)
Lemma dyn_wf_parent_child_consistent (st : state) :
  dyn_wf g st -> parent_child_consistent g st.
Proof.
  intros Hst X C HX HC.
  assert (Hloc : forall a, In a (arcs g) ->
    exists T c l r,
      NoDup (inorder T) /\
      cshape st c a /\ repr st (cparent c) a (Tr l a r) /\
      cbefore c ++ inorder (Tr l a r) ++ cafter c = inorder T).
  { intros a Ha.
    pose proof (wf_source g Hwf a Ha) as Hn.
    destruct (Hst _ Hn) as [T [HT [HP _]]].
    destruct (tree_of_node_facts g Hwf st _ T HP) as [Hnd _].
    assert (HaT : In a (inorder T)).
    { apply (Permutation_in _ (Permutation_sym HP)). apply outArcs_in.
      split; [exact Ha | reflexivity]. }
    destruct (locate st a T [] _ I HT HaT) as [c [l [r [Hc [Hr E]]]]].
    cbn [cbefore cafter app] in E. rewrite app_nil_r in E.
    exists T, c, l, r. auto. }
  assert (HXv : X <> INVALID) by (intros ->; exact (wf_arcs_valid g Hwf HX)).
  assert (HCv : C <> INVALID) by (intros ->; exact (wf_arcs_valid g Hwf HC)).
  split.
  - (* the parent link of [C] names [X] *)
    intros Hp.
    destruct (Hloc C HC) as [T [c [l [r [Hnd [Hc [Hr E]]]]]]].
    pose proof Hr as Hr0. cbn [repr] in Hr0. destruct Hr0 as [_ [_ [Hpc _]]].
    rewrite Hp in Hpc. rewrite <- E in Hnd.
    destruct c as [|[p rp|lp p] c']; cbn [cparent cshape] in Hpc, Hc.
    + congruence.
    + subst p. destruct Hc as [_ [Hl [_ [Hrp _]]]].
      left. split; [exact Hl|].
      apply (repr_root_neq st X _ C rp Hrp HCv).
      cbn [cbefore cafter inorder] in Hnd. nd_split. intros a Ha. nd_neq.
    + subst p. destruct Hc as [_ [Hrr [_ [Hlp _]]]].
      right. split; [|exact Hrr].
      apply (repr_root_neq st X _ C lp Hlp HCv).
      cbn [cbefore cafter inorder] in Hnd. nd_split. intros a Ha. nd_neq.
  - (* [C] sits in a slot of [X] *)
    intros Hslot.
    destruct (Hloc X HX) as [T [c [l [r [Hnd [Hc [Hr E]]]]]]].
    cbn [repr] in Hr. destruct Hr as [_ [_ [_ [Hl Hrr]]]].
    destruct Hslot as [[Hs _]|[_ Hs]].
    + rewrite Hs in Hl. destruct l as [|l1 x l2]; cbn [repr] in Hl; [congruence|].
      destruct Hl as [<- [_ [Hp _]]]. exact Hp.
    + rewrite Hs in Hrr. destruct r as [|r1 x r2]; cbn [repr] in Hrr; [congruence|].
      destruct Hrr as [<- [_ [Hp _]]]. exact Hp.
Qed.

End DynConsistent.

(** On every state of a run without erase each tree holds exactly the
    outgoing arcs of its node, and parent and child maps agree. *)
Lemma dyn_reach_consistent (g : Digraph) (st : DynArcLookUp.state) :
  dyn_reach g st ->
  (forall n, In n (nodes g) -> tree_is_out_arcs g st n) /\
  parent_child_consistent g st.
Proof.
  intros H. destruct (dyn_reach_wf g st H) as [Hwf [_ Hst]]. split.
  - intros n Hn. apply dyn_wf_tree_is_out_arcs; assumption.
  - apply dyn_wf_parent_child_consistent; assumption.
Qed.

(** ** The look-up of the static index *)

Section StaticLookup.

Import ArcLookUp.

Variable g : Digraph.
Hypothesis Hwf : wf_graph g.
Hypothesis Hord : strict_total (node_lt g).

Lemma static_lookup_loop (st : state) (t : Node) (T : tree) :
  forall (fuel : nat) (x : Arc),
    shape (_left st) (_right st) x T ->
    (depth T <= fuel)%nat ->
    StronglySorted (tle g) (inorder T) ->
    exists a,
      lookup_loop fuel g st t x = Ok a /\
      (a <> INVALID -> In a (inorder T) /\ target g a = t) /\
      (a = INVALID -> forall b, In b (inorder T) -> target g b <> t).
Proof.
  induction T as [|l IHl e r IHr]; intros fuel x HT Hd HS.
  - cbn [shape] in HT. subst x. exists INVALID.
    destruct fuel; cbn; (split; [reflexivity|]); split; try congruence;
      intros _ b [].
  - cbn [shape] in HT. destruct HT as [-> [He [Hl Hr]]].
    cbn [inorder] in HS. apply sorted_app in HS. destruct HS as [HSl [HSr Hlr]].
    apply sorted_cons_inv in HSr. destruct HSr as [HSr Her].
    assert (Hle : forall b, In b (inorder l) -> tle g b e)
      by (intros b Hb; apply Hlr; [exact Hb | left; reflexivity]).
    assert (Hhead : forall fuel',
      lookup_loop fuel' g st t e =
      if target g e =? t then Ok e
      else match fuel' with
           | O => Err OutOfFuel
           | S f => e' <- (if node_lt g t (target g e) then get (_left st) e
                           else get (_right st) e) ;;
                    lookup_loop f g st t e'
           end).
    { intros fuel'. destruct fuel'; cbn [lookup_loop];
        rewrite (eqb_invalid_false e He); unfold g_target;
        rewrite (get_ok _ e He); reflexivity. }
    rewrite Hhead.
    destruct (Z.eqb_spec (target g e) t) as [Et|Et].
    + exists e. split; [reflexivity|]. split; [|congruence].
      intros _. split; [in_solve | exact Et].
    + destruct fuel as [|f]; [simpl in Hd; lia|]. simpl in Hd.
      rewrite (get_ok (_left st) e He), (get_ok (_right st) e He).
      destruct (node_lt g t (target g e)) eqn:Hlt; cbn [bind].
      * destruct (IHl f (_left st e) Hl) as [a [R [P1 P2]]]; [lia | exact HSl |].
        exists a. split; [exact R|]. split.
        -- intros Ha. destruct (P1 Ha) as [Hin Ht]. split; [in_solve | exact Ht].
        -- intros Ha b Hb. cbn [inorder] in Hb. apply in_app_or in Hb.
           destruct Hb as [Hb|[<-|Hb]]; [apply P2; assumption | exact Et |].
           intros F. specialize (Her b Hb). unfold tle in Her.
           rewrite F in Her. congruence.
      * destruct (IHr f (_right st e) Hr) as [a [R [P1 P2]]]; [lia | exact HSr |].
        exists a. split; [exact R|]. split.
        -- intros Ha. destruct (P1 Ha) as [Hin Ht]. split; [in_solve | exact Ht].
        -- intros Ha b Hb. cbn [inorder] in Hb. apply in_app_or in Hb.
           destruct Hb as [Hb|[<-|Hb]]; [| exact Et | apply P2; assumption].
           intros F. specialize (Hle b Hb). unfold tle in Hle.
           rewrite F in Hle.
           destruct (lt_cases g Hord (target g e) t) as [E|[E|E]]; congruence.
Qed.

(** After a build, [operator()(s,t)] of the static index finds an arc
    from [s] to [t] when there is one, and answers INVALID when there is
    none. *)
Lemma static_lookup_correct (st : state) (s t : Node) :
  In s (nodes g) -> static_good g st s ->
  exists a,
    lookup g st s t = Ok a /\
    (a <> INVALID -> In a (arcs g) /\ source g a = s /\ target g a = t) /\
    (a = INVALID -> arcs_between g s t = []).
Proof.
  intros Hs [T [HT HI]].
  assert (Hsv : s <> INVALID) by (intros ->; exact (wf_nodes_valid g Hwf Hs)).
  unfold lookup. rewrite (get_ok _ s Hsv). cbn [bind].
  destruct (static_lookup_loop st t T (fuel_of g) _ HT) as [a [R [P1 P2]]].
  - eapply Nat.le_trans; [apply depth_le_length|]. rewrite HI.
    rewrite (Permutation_length (std_sort_perm _ _)).
    unfold fuel_of. pose proof (outArcs_length g s). lia.
  - rewrite HI. apply std_sort_sorted. exact Hord.
  - exists a. split; [exact R|]. split.
    + intros Ha. destruct (P1 Ha) as [Hin Ht]. rewrite HI in Hin.
      apply sorted_out_in in Hin. tauto.
    + intros Ha. unfold arcs_between.
      destruct (filter _ (arcs g)) as [|b l] eqn:E; [reflexivity|]. exfalso.
      assert (Hb : In b (filter (fun a0 => (source g a0 =? s) && (target g a0 =? t))
                                (arcs g))) by (rewrite E; left; reflexivity).
      apply filter_In in Hb. destruct Hb as [Hb1 Hb2].
      apply andb_true_iff in Hb2. rewrite !Z.eqb_eq in Hb2.
      apply (P2 Ha b); [|apply Hb2].
      rewrite HI. apply sorted_out_in. tauto.
Qed.

(** The same for every order the sort may have left equal targets in. *)
Lemma static_ok_lookup (st : state) (s t : Node) :
  In s (nodes g) -> static_ok g st s ->
  exists a,
    lookup g st s t = Ok a /\
    (a <> INVALID -> In a (arcs g) /\ source g a = s /\ target g a = t) /\
    (a = INVALID <-> arcs_between g s t = []).
Proof.
  intros Hs [T [HT [HP HS]]].
  assert (Hsv : s <> INVALID) by (intros ->; exact (wf_nodes_valid g Hwf Hs)).
  unfold lookup. rewrite (get_ok _ s Hsv). cbn [bind].
  destruct (static_lookup_loop st t T (fuel_of g) _ HT) as [a [R [P1 P2]]].
  - eapply Nat.le_trans; [apply depth_le_length|].
    rewrite (Permutation_length HP).
    unfold fuel_of. pose proof (outArcs_length g s). lia.
  - exact HS.
  - assert (Q1 : a <> INVALID ->
                 In a (arcs g) /\ source g a = s /\ target g a = t).
    { intros Ha. destruct (P1 Ha) as [Hin Ht].
      apply (Permutation_in _ HP) in Hin. apply outArcs_in in Hin. tauto. }
    exists a. split; [exact R|]. split; [exact Q1|]. split.
    + intros Ha. unfold arcs_between.
      destruct (filter _ (arcs g)) as [|b l] eqn:E; [reflexivity|]. exfalso.
      assert (Hb : In b (filter (fun a0 => (source g a0 =? s) && (target g a0 =? t))
                                (arcs g))) by (rewrite E; left; reflexivity).
      apply filter_In in Hb. destruct Hb as [Hb1 Hb2].
      apply andb_true_iff in Hb2. rewrite !Z.eqb_eq in Hb2.
      apply (P2 Ha b); [|apply Hb2].
      apply (Permutation_in _ (Permutation_sym HP)). apply outArcs_in. tauto.
    + intros E. destruct (Z.eq_dec a INVALID) as [Ha|Ha]; [exact Ha|]. exfalso.
      destruct (Q1 Ha) as [Hin [Hsrc Htgt]].
      assert (Hb : In a (arcs_between g s t)).
      { unfold arcs_between. apply filter_In. split; [exact Hin|].
        rewrite Hsrc, Htgt, !Z.eqb_refl. reflexivity. }
      rewrite E in Hb. exact Hb.
Qed.

End StaticLookup.

(** ** The order of the trees after builds, insertions and queries *)

Lemma ltb_strict_total : strict_total Z.ltb.
Proof.
  constructor.
  - intros a. apply Z.ltb_irrefl.
  - intros a b c H1 H2. apply Z.ltb_lt in H1, H2. apply Z.ltb_lt. lia.
  - intros a b H. destruct (Z.lt_total a b) as [L|[L|L]].
    + left. apply Z.ltb_lt. exact L.
    + contradiction.
    + right. apply Z.ltb_lt. exact L.
Qed.

Lemma wf_g_three : wf_graph g_three.
Proof.
  constructor.
  - cbn. repeat constructor; cbn; intuition discriminate.
  - cbn. intuition discriminate.
  - cbn. intuition discriminate.
  - intros a Ha. cbn in Ha.
    destruct Ha as [<-|[<-|[<-|[]]]]; vm_compute; tauto.
Qed.

Lemma wf_g_coarse : wf_graph g_coarse.
Proof.
  constructor.
  - cbn. repeat constructor; cbn; intuition discriminate.
  - cbn. intuition discriminate.
  - cbn. intuition discriminate.
  - intros a Ha. cbn. tauto.
Qed.

Lemma holds_after_ok {A : Type} (r : result A) (P : A -> Prop) :
  (exists a, r = Ok a /\ P a) -> holds_after r P.
Proof. intros [a [-> H]]. exact H. Qed.

Lemma is_ok_ex {A : Type} (r : result A) :
  (exists a, r = Ok a) -> is_ok r = true.
Proof. intros [a ->]. reflexivity. Qed.

(** C4, as amended: on a graph whose nodes have at most 2^30 outgoing
    arcs each, after the construction and after every build or refresh
    of the three classes, and in the dynamic index after every add
    notification (single or batch) and every query that follow them,
    every node's tree is ordered by target identity without strictness:
    no arc below the left slot of an arc has a larger target than it, no
    arc below its right slot a smaller one.  For [refresh(n)] this is
    said of the trees of all nodes, given that the trees of the other
    nodes held their nodes' arcs in such an order before.  The builds
    and the dynamic steps return normally. *)
Theorem search_trees_weakly_ordered :
  forall g : Digraph,
    wf_graph g -> strict_total (node_lt g) -> small_degrees g ->
    (forall st,
        holds_after (ArcLookUp.refresh g st)
          (fun st' => forall n, In n (nodes g) ->
             weak_bst g (ArcLookUp._left st') (ArcLookUp._right st')
                      (ArcLookUp._head st' n))) /\
    (forall st n, In n (nodes g) ->
        (forall m, In m (nodes g) -> m <> n -> static_ok g st m) ->
        holds_after (ArcLookUp.refresh_node g st n)
          (fun st' => forall m, In m (nodes g) ->
             weak_bst g (ArcLookUp._left st') (ArcLookUp._right st')
                      (ArcLookUp._head st' m))) /\
    (forall mem,
        holds_after (AllArcLookUp.make g mem)
          (fun st' => forall n, In n (nodes g) ->
             weak_bst g (ArcLookUp._left (AllArcLookUp.base st'))
                      (ArcLookUp._right (AllArcLookUp.base st'))
                      (ArcLookUp._head (AllArcLookUp.base st') n))) /\
    (forall st n, In n (nodes g) ->
        (forall m, In m (nodes g) -> m <> n ->
           static_ok g (AllArcLookUp.base st) m) ->
        holds_after (AllArcLookUp.refresh_node g st n)
          (fun st' => forall m, In m (nodes g) ->
             weak_bst g (ArcLookUp._left (AllArcLookUp.base st'))
                      (ArcLookUp._right (AllArcLookUp.base st'))
                      (ArcLookUp._head (AllArcLookUp.base st') m))) /\
    (forall mem,
        holds_after (DynArcLookUp.make g mem) (fun st' => dyn_reach g st')) /\
    (forall st, dyn_reach g st ->
        (forall n, In n (nodes g) ->
           weak_bst g (DynArcLookUp._left st) (DynArcLookUp._right st)
                    (DynArcLookUp._head st n)) /\
        is_ok (DynArcLookUp.build g st) = true /\
        (forall arc s t,
           arc <> INVALID -> ~ In arc (arcs g) -> In s (nodes g) ->
           is_ok (DynArcLookUp.add (graph_add g arc s t) st arc) = true) /\
        (forall l, fresh_batch g l ->
           is_ok (DynArcLookUp.add_all (graph_add_all g l) st
                    (map (fun x => fst (fst x)) l)) = true)).
Proof.
  intros g Hwf Hord Hsm.
  split; [|split; [|split; [|split; [|split]]]].
  - intros st. apply holds_after_ok.
    destruct (static_refresh_good g Hwf st Hsm) as [st' [R G]].
    exists st'. split; [exact R|]. intros n Hn.
    apply static_good_weak_bst; [exact Hord | apply G; exact Hn].
  - intros st n Hn Hothers. apply holds_after_ok.
    destruct (static_refresh_node_ok g Hwf st n Hord Hn (Hsm n Hn) Hothers)
      as [st' [R [G _]]].
    exists st'. split; [exact R|]. intros m Hm.
    apply static_ok_weak_bst. exact (G m Hm).
  - intros mem. apply holds_after_ok.
    destruct (all_make_good g Hwf mem Hsm) as [st' [R G]].
    exists st'. split; [exact R|]. intros n Hn.
    apply static_good_weak_bst; [exact Hord | apply G; exact Hn].
  - intros st n Hn Hothers. apply holds_after_ok.
    assert (Hnv : n <> INVALID) by (intros ->; exact (wf_nodes_valid g Hwf Hn)).
    destruct (all_refresh_node_base g Hwf st n Hnv (Hsm n Hn)) as [st' [R Rb]].
    exists st'. split; [exact R|].
    destruct (static_refresh_node_ok g Hwf (AllArcLookUp.base st) n Hord Hn
                (Hsm n Hn) Hothers) as [b [R' [G _]]].
    rewrite Rb in R'. injection R' as <-.
    intros m Hm. apply static_ok_weak_bst. exact (G m Hm).
  - intros mem. apply holds_after_ok.
    destruct (dyn_refresh_built g Hwf
                {| DynArcLookUp._head := fun _ => INVALID;
                   DynArcLookUp._parent := DynArcLookUp._parent mem;
                   DynArcLookUp._left := DynArcLookUp._left mem;
                   DynArcLookUp._right := DynArcLookUp._right mem |} Hsm)
      as [st' [R _]].
    exists st'. split; [exact R|].
    apply (reach_make g mem st' Hwf Hord). exact R.
  - intros st Hreach.
    destruct (dyn_reach_wf g st Hreach) as [_ [_ Hst]].
    split; [|split; [|split]].
    + intros n Hn. apply dyn_wf_weak_bst; assumption.
    + apply is_ok_ex. destruct (dyn_refresh_built g Hwf st Hsm) as [st' [R _]].
      exists st'. exact R.
    + intros arc s t Ha Hf Hs. apply is_ok_ex.
      destruct (add_preserves_wf g st arc s t Hwf Hord Hst Ha Hf Hs) as [st' [R _]].
      exists st'. exact R.
    + intros l Hl. apply is_ok_ex.
      destruct (add_all_preserves_wf g st l Hwf Hord Hst Hl) as [st' [R _]].
      exists st'. exact R.
Qed.

Lemma small_g_three : small_degrees g_three.
Proof. apply small_degrees_of_arcs. cbn. lia. Qed.

Lemma search_trees_weakly_ordered_witness :
  wf_graph g_three /\ strict_total (node_lt g_three) /\
  small_degrees g_three /\
  holds_after (ArcLookUp.refresh g_three static_mem)
    (fun st' => forall n, In n (nodes g_three) ->
       weak_bst g_three (ArcLookUp._left st') (ArcLookUp._right st')
                (ArcLookUp._head st' n)).
Proof.
  split; [exact wf_g_three|]. split; [exact ltb_strict_total|].
  split; [exact small_g_three|].
  exact (proj1 (search_trees_weakly_ordered g_three wf_g_three ltb_strict_total
                  small_g_three)
               static_mem).
Defined.

(** C9, as amended: no build looks at the comparison of node
    identities.  With an [operator<] that is a strict weak ordering,
    total or not, the constructors of the three classes,
    [ArcLookUp::refresh()] and [refresh(n)], [AllArcLookUp::refresh(n)]
    and [DynArcLookUp::build()] return normally on a graph whose nodes
    have at most 2^30 outgoing arcs each; there is no configuration
    error. *)
Theorem builds_return_for_weak_orders :
  forall g : Digraph,
    wf_graph g -> strict_weak (node_lt g) -> small_degrees g ->
    (forall mem, is_ok (ArcLookUp.make g mem) = true) /\
    (forall st, is_ok (ArcLookUp.refresh g st) = true) /\
    (forall st n, In n (nodes g) ->
                  is_ok (ArcLookUp.refresh_node g st n) = true) /\
    (forall mem, is_ok (AllArcLookUp.make g mem) = true) /\
    (forall st n, In n (nodes g) ->
                  is_ok (AllArcLookUp.refresh_node g st n) = true) /\
    (forall mem, is_ok (DynArcLookUp.make g mem) = true) /\
    (forall st, is_ok (DynArcLookUp.build g st) = true).
Proof.
  intros g Hwf _ Hsm.
  assert (Hnv : forall n, In n (nodes g) -> n <> INVALID).
  { intros n Hn ->. exact (wf_nodes_valid g Hwf Hn). }
  split; [|split; [|split; [|split; [|split; [|split]]]]].
  - intros mem. apply is_ok_ex. unfold ArcLookUp.make.
    destruct (static_refresh_good g Hwf mem Hsm) as [st' [R _]].
    exists st'. exact R.
  - intros st. apply is_ok_ex.
    destruct (static_refresh_good g Hwf st Hsm) as [st' [R _]].
    exists st'. exact R.
  - intros st n Hn. apply is_ok_ex.
    destruct (static_refresh_node_good g Hwf st n (Hnv n Hn) (Hsm n Hn))
      as [st' [R _]].
    exists st'. exact R.
  - intros mem. apply is_ok_ex.
    destruct (all_make_good g Hwf mem Hsm) as [st' [R _]]. exists st'. exact R.
  - intros st n Hn. apply is_ok_ex.
    destruct (all_refresh_node_good g Hwf st n (Hnv n Hn) (Hsm n Hn))
      as [st' [R _]].
    exists st'. exact R.
  - intros mem. apply is_ok_ex. unfold DynArcLookUp.make.
    destruct (dyn_refresh_built g Hwf
                {| DynArcLookUp._head := fun _ => INVALID;
                   DynArcLookUp._parent := DynArcLookUp._parent mem;
                   DynArcLookUp._left := DynArcLookUp._left mem;
                   DynArcLookUp._right := DynArcLookUp._right mem |} Hsm)
      as [st' [R _]].
    exists st'. exact R.
  - intros st. apply is_ok_ex. unfold DynArcLookUp.build.
    destruct (dyn_refresh_built g Hwf st Hsm) as [st' [R _]]. exists st'. exact R.
Qed.

Lemma coarse_lt_strict_weak : strict_weak coarse_lt.
Proof.
  constructor; unfold coarse_lt.
  - intros a. apply Z.ltb_irrefl.
  - intros a b c H1 H2. apply Z.ltb_lt in H1, H2. apply Z.ltb_lt. lia.
  - intros a b c H1 H2 H3 H4.
    apply Z.ltb_ge in H1, H2, H3, H4. split; apply Z.ltb_ge; lia.
Qed.

Lemma builds_return_for_weak_orders_witness :
  wf_graph g_coarse /\ strict_weak (node_lt g_coarse) /\
  small_degrees g_coarse /\
  is_ok (DynArcLookUp.make g_coarse dyn_mem) = true.
Proof.
  assert (Hsm : small_degrees g_coarse)
    by (apply small_degrees_of_arcs; cbn; lia).
  split; [exact wf_g_coarse|]. split; [exact coarse_lt_strict_weak|].
  split; [exact Hsm|].
  destruct (builds_return_for_weak_orders g_coarse wf_g_coarse
              coarse_lt_strict_weak Hsm)
    as [_ [_ [_ [_ [_ [H _]]]]]].
  exact (H dyn_mem).
Defined.

(** * Further properties *)

(** ** Lists *)

Lemma find_app {A : Type} (p : A -> bool) (l1 l2 : list A) :
  find p (l1 ++ l2) =
  match find p l1 with Some x => Some x | None => find p l2 end.
Proof.
  induction l1 as [|x l1 IH]; [reflexivity|].
  cbn [app find]. destruct (p x); [reflexivity | exact IH].
Qed.

Lemma find_none {A : Type} (p : A -> bool) (l : list A) :
  (forall x, In x l -> p x = false) -> find p l = None.
Proof.
  induction l as [|x l IH]; intros H; [reflexivity|].
  cbn [find]. rewrite (H x (or_introl eq_refl)).
  apply IH. intros y Hy. apply H. right. exact Hy.
Qed.

Lemma nodup_split_unique (a : Arc) (p1 q1 p2 q2 : list Arc) :
  NoDup (p1 ++ a :: q1) ->
  p1 ++ a :: q1 = p2 ++ a :: q2 ->
  p1 = p2 /\ q1 = q2.
Proof.
  revert p2. induction p1 as [|x p1 IH]; intros p2 Hnd E.
  - destruct p2 as [|y p2].
    + cbn [app] in E. injection E as E. split; [reflexivity | exact E].
    + cbn [app] in E. injection E as E1 E2. subst y.
      cbn [app] in Hnd. apply NoDup_cons_iff in Hnd. destruct Hnd as [Hni _].
      exfalso. apply Hni. rewrite E2. apply in_or_app. right. left. reflexivity.
  - destruct p2 as [|y p2].
    + cbn [app] in E. injection E as E1 E2. subst x.
      cbn [app] in Hnd. apply NoDup_cons_iff in Hnd. destruct Hnd as [Hni _].
      exfalso. apply Hni. apply in_or_app. right. left. reflexivity.
    + cbn [app] in E. injection E as E1 E2. subst y.
      cbn [app] in Hnd. apply NoDup_cons_iff in Hnd. destruct Hnd as [_ Hnd].
      destruct (IH p2 Hnd E2) as [-> ->]. split; reflexivity.
Qed.

Lemma hd_valid (l : list Arc) (p : Arc) :
  p <> INVALID -> hd INVALID l = p -> exists q, l = p :: q.
Proof.
  intros Hp E. destruct l as [|x l]; cbn [hd] in E; [congruence|].
  subst x. exists l. reflexivity.
Qed.

Lemma find_split {A : Type} (f : A -> bool) (l : list A) (x : A) :
  find f l = Some x ->
  exists p q, l = p ++ x :: q /\ filter f p = [] /\ f x = true.
Proof.
  induction l as [|y l IH]; intros H; [discriminate H|].
  cbn [find] in H. destruct (f y) eqn:Ey.
  - injection H as <-. exists [], l.
    split; [reflexivity|]. split; [reflexivity | exact Ey].
  - destruct (IH H) as [p [q [-> [Hp Hx]]]].
    exists (y :: p), q. split; [reflexivity|]. split; [|exact Hx].
    cbn [filter]. rewrite Ey. exact Hp.
Qed.

Lemma find_none_filter {A : Type} (f : A -> bool) (l : list A) :
  find f l = None -> filter f l = [].
Proof.
  induction l as [|y l IH]; intros H; [reflexivity|].
  cbn [find] in H. cbn [filter]. destruct (f y); [discriminate H | exact (IH H)].
Qed.

Lemma perm_filter {A : Type} (f : A -> bool) (l l' : list A) :
  Permutation l l' -> Permutation (filter f l) (filter f l').
Proof.
  induction 1 as [|x l l' _ IH|x y l|l l' l'' _ IH1 _ IH2].
  - apply perm_nil.
  - cbn [filter]. destruct (f x); [apply perm_skip|]; exact IH.
  - cbn [filter]. destruct (f x), (f y);
      try apply perm_swap; apply Permutation_refl.
  - eapply perm_trans; eassumption.
Qed.

Lemma filter_twice {A : Type} (f h : A -> bool) (l : list A) :
  filter f (filter h l) = filter (fun x => h x && f x) l.
Proof.
  induction l as [|x l IH]; [reflexivity|].
  cbn [filter]. destruct (h x); cbn [andb filter].
  - destruct (f x); rewrite IH; reflexivity.
  - exact IH.
Qed.

Lemma wf_g_parallel : wf_graph g_parallel.
Proof.
  constructor.
  - cbn. repeat constructor; cbn; intuition discriminate.
  - cbn. intuition discriminate.
  - cbn. intuition discriminate.
  - intros a Ha. cbn in Ha.
    destruct Ha as [<-|[<-|[<-|[]]]]; vm_compute; tauto.
Qed.

(** X1: a static index constructed over a graph whose nodes have at
    most 2^30 outgoing arcs each answers every query from a node of the
    graph: the arc returned runs from [s] to [t], and INVALID is
    returned exactly when the graph has no arc from [s] to [t]. *)
Theorem static_index_answers :
  forall (g : Digraph) (mem : ArcLookUp.state),
    wf_graph g -> strict_total (node_lt g) -> small_degrees g ->
    exists st,
      ArcLookUp.make g mem = Ok st /\
      forall s t, In s (nodes g) ->
        exists a,
          ArcLookUp.lookup g st s t = Ok a /\
          (a <> INVALID -> In a (arcs g) /\ source g a = s /\ target g a = t) /\
          (a = INVALID <-> arcs_between g s t = []).
Proof.
  intros g mem Hwf Hord Hsm.
  destruct (static_refresh_good g Hwf mem Hsm) as [st [R G]].
  exists st. split; [exact R|]. intros s t Hs.
  destruct (static_lookup_correct g Hwf Hord st s t Hs (G s Hs)) as [a [L [P1 P2]]].
  exists a. split; [exact L|]. split; [exact P1|]. split; [exact P2|].
  intros E. destruct (Z.eq_dec a INVALID) as [Ha|Ha]; [exact Ha|]. exfalso.
  destruct (P1 Ha) as [Hin [Hsrc Htgt]].
  assert (Hb : In a (arcs_between g s t)).
  { unfold arcs_between. apply filter_In. split; [exact Hin|].
    rewrite Hsrc, Htgt, !Z.eqb_refl. reflexivity. }
  rewrite E in Hb. exact Hb.
Qed.

Lemma static_index_answers_witness :
  wf_graph g_three /\ strict_total (node_lt g_three) /\
  small_degrees g_three /\
  exists st,
    ArcLookUp.make g_three static_mem = Ok st /\
    forall s t, In s (nodes g_three) ->
      exists a,
        ArcLookUp.lookup g_three st s t = Ok a /\
        (a <> INVALID ->
         In a (arcs g_three) /\ source g_three a = s /\ target g_three a = t) /\
        (a = INVALID <-> arcs_between g_three s t = []).
Proof.
  split; [exact wf_g_three|]. split; [exact ltb_strict_total|].
  split; [exact small_g_three|].
  exact (static_index_answers g_three static_mem wf_g_three ltb_strict_total
           small_g_three).
Defined.
Lemma wf_tree_is_out_arcs_all (g : Digraph) (st : DynArcLookUp.state) :
  wf_graph g -> dyn_wf g st ->
  (forall n, In n (nodes g) -> tree_is_out_arcs g st n) /\
  parent_child_consistent g st /\
  (forall n, In n (nodes g) ->
     weak_bst g (DynArcLookUp._left st) (DynArcLookUp._right st)
              (DynArcLookUp._head st n)).
Proof.
  intros Hwf Hst. split; [|split].
  - intros n Hn. apply dyn_wf_tree_is_out_arcs; assumption.
  - apply dyn_wf_parent_child_consistent; assumption.
  - intros n Hn. apply dyn_wf_weak_bst; assumption.
Qed.

(** X2: on every run of constructions, rebuilds, add notifications and
    queries of the dynamic index (no erase notification), the tree of
    every node holds exactly the arcs that leave the node in the graph
    as it is then, and the parent map agrees with the two child maps. *)
Theorem dyn_index_tracks_graph :
  forall (g : Digraph) (st : DynArcLookUp.state),
    dyn_reach g st ->
    (forall n, In n (nodes g) -> tree_is_out_arcs g st n) /\
    parent_child_consistent g st.
Proof.
  intros g st H. destruct (dyn_reach_wf g st H) as [Hwf [_ Hst]].
  destruct (wf_tree_is_out_arcs_all g st Hwf Hst) as [H1 [H2 _]].
  split; assumption.
Qed.

Lemma dyn_index_tracks_graph_witness :
  holds_after (DynArcLookUp.make g_three dyn_mem)
    (fun st =>
       dyn_reach g_three st /\
       (forall n, In n (nodes g_three) -> tree_is_out_arcs g_three st n) /\
       parent_child_consistent g_three st).
Proof.
  destruct (DynArcLookUp.make g_three dyn_mem) as [st|e] eqn:E.
  - cbn [holds_after].
    assert (R : dyn_reach g_three st)
      by exact (reach_make g_three dyn_mem st wf_g_three ltb_strict_total E).
    split; [exact R|]. exact (dyn_index_tracks_graph g_three st R).
  - vm_compute in E. discriminate E.
Defined.

(** X3: [build()] reads nothing of what the maps held before: on a
    graph whose nodes have at most 2^30 outgoing arcs each, from any
    contents of the four maps (also those an erase has left behind) it
    returns, and afterwards the tree of every node holds exactly the
    node's outgoing arcs, ordered by target, with parent and child maps
    in agreement. *)
Theorem dyn_build_repairs :
  forall (g : Digraph) (st : DynArcLookUp.state),
    wf_graph g -> strict_total (node_lt g) -> small_degrees g ->
    exists st',
      DynArcLookUp.build g st = Ok st' /\
      (forall n, In n (nodes g) -> tree_is_out_arcs g st' n) /\
      parent_child_consistent g st' /\
      (forall n, In n (nodes g) ->
         weak_bst g (DynArcLookUp._left st') (DynArcLookUp._right st')
                  (DynArcLookUp._head st' n)).
Proof.
  intros g st Hwf Hord Hsm. unfold DynArcLookUp.build.
  destruct (dyn_refresh_built g Hwf st Hsm) as [st' [R G]].
  exists st'. split; [exact R|].
  apply wf_tree_is_out_arcs_all; [exact Hwf|].
  apply dyn_built_wf; assumption.
Qed.

Lemma dyn_build_repairs_witness :
  let junk := {| DynArcLookUp._head := fun _ => 10;
                 DynArcLookUp._parent := fun _ => 11;
                 DynArcLookUp._left := fun _ => 10;
                 DynArcLookUp._right := fun _ => 12 |} in
  wf_graph g_three /\ strict_total (node_lt g_three) /\
  small_degrees g_three /\
  exists st',
    DynArcLookUp.build g_three junk = Ok st' /\
    (forall n, In n (nodes g_three) -> tree_is_out_arcs g_three st' n) /\
    parent_child_consistent g_three st' /\
    (forall n, In n (nodes g_three) ->
       weak_bst g_three (DynArcLookUp._left st') (DynArcLookUp._right st')
                (DynArcLookUp._head st' n)).
Proof.
  intros junk.
  split; [exact wf_g_three|]. split; [exact ltb_strict_total|].
  split; [exact small_g_three|].
  exact (dyn_build_repairs g_three junk wf_g_three ltb_strict_total
           small_g_three).
Defined.
Lemma shape_unique (lft rgt : ItemMap) (T : tree) :
  forall (x : Arc) (T' : tree),
    shape lft rgt x T -> shape lft rgt x T' -> T = T'.
Proof.
  induction T as [|l IHl a r IHr]; intros x T' H H'.
  - destruct T' as [|l' a' r']; [reflexivity|].
    cbn [shape] in H, H'. destruct H' as [E [Hne _]]. congruence.
  - destruct T' as [|l' a' r'].
    + cbn [shape] in H, H'. destruct H as [E [Hne _]]. congruence.
    + cbn [shape] in H, H'.
      destruct H as [E [Hne [Hl Hr]]]. destruct H' as [E' [Hne' [Hl' Hr']]].
      subst x. subst a'.
      rewrite (IHl _ _ Hl Hl'), (IHr _ _ Hr Hr'). reflexivity.
Qed.

Lemma rearrangement_keeps_inorder (g : Digraph) (st st' : DynArcLookUp.state)
  (s : Node) (T T' : tree) :
  dyn_wf g st ->
  repr st INVALID (DynArcLookUp._head st s) T ->
  Permutation (inorder T) (outArcs g s) ->
  repr st' INVALID (DynArcLookUp._head st' s) T' ->
  inorder T' = inorder T ->
  (forall n, n <> s -> DynArcLookUp._head st' n = DynArcLookUp._head st n) ->
  agree_off (inorder T) st st' ->
  forall n Tn, In n (nodes g) ->
    repr st INVALID (DynArcLookUp._head st n) Tn ->
    exists Tn', repr st' INVALID (DynArcLookUp._head st' n) Tn' /\
                inorder Tn' = inorder Tn.
Proof.
  intros Hst HT HP Hr' Ei Hother Hoff m Tm Hm HTm.
  destruct (Z.eq_dec m s) as [->|Hne].
  - exists T'. split; [exact Hr'|]. rewrite Ei. f_equal.
    apply (shape_unique (DynArcLookUp._left st) (DynArcLookUp._right st) T
                        (DynArcLookUp._head st s) Tm);
      apply repr_shape with INVALID; assumption.
  - exists Tm. split; [|reflexivity].
    rewrite (Hother m Hne).
    destruct (Hst m Hm) as [Tm' [HTm' [HPm _]]].
    assert (Tm' = Tm).
    { apply (shape_unique (DynArcLookUp._left st) (DynArcLookUp._right st) Tm'
                          (DynArcLookUp._head st m) Tm);
        apply repr_shape with INVALID; assumption. }
    subst Tm'.
    apply repr_frame with st; [|exact HTm].
    intros a Ha. apply Hoff. intros F.
    apply (Permutation_in _ HPm) in Ha. apply (Permutation_in _ HP) in F.
    apply outArcs_in in Ha. apply outArcs_in in F.
    destruct Ha as [_ Ha]. destruct F as [_ F]. congruence.
Qed.

Section DynSplayRoot.

Import DynArcLookUp.

Variable g : Digraph.
Hypothesis Hwf : wf_graph g.

Lemma splay_in_wf (st : state) (v : Arc) :
  dyn_wf g st -> In v (arcs g) ->
  exists st',
    splay g st v = Ok st' /\
    _head st' (source g v) = v /\
    _parent st' v = INVALID /\
    dyn_wf g st' /\
    (forall n T, In n (nodes g) -> repr st INVALID (_head st n) T ->
       exists T', repr st' INVALID (_head st' n) T' /\ inorder T' = inorder T).
Proof.
  intros Hst Hv.
  set (n := source g v).
  assert (Hn : In n (nodes g)) by (apply (wf_source g Hwf); exact Hv).
  assert (Hnv : n <> INVALID)
    by (intros F; rewrite F in Hn; exact (wf_nodes_valid g Hwf Hn)).
  destruct (Hst n Hn) as [T [HT [HP HS]]].
  destruct (tree_of_node_facts g Hwf st n T HP) as [Hnd [Hlen Hsrc]].
  assert (HvT : In v (inorder T)).
  { apply (Permutation_in _ (Permutation_sym HP)). apply outArcs_in.
    split; [exact Hv | reflexivity]. }
  destruct (locate st v T [] (_head st n) I HT HvT) as [c [l [r [Hc [Hr E]]]]].
  cbn [cbefore cafter app] in E. rewrite app_nil_r in E.
  destruct (splay_spec g st c (Tr l v r) v) as [st' [t' [R [Hr' [Ei [Hh Hoff]]]]]].
  - rewrite E. exact Hlen.
  - exact Hnv.
  - discriminate.
  - exact Hc.
  - exact Hr.
  - rewrite E. exact Hnd.
  - rewrite E in Ei, Hoff.
    assert (Hhead : _head st' n = v) by (rewrite Hh; apply upd_same).
    assert (Hother : forall m, m <> n -> _head st' m = _head st m).
    { intros m Hm. rewrite Hh. apply upd_other. exact Hm. }
    exists st'. split; [exact R|]. split; [exact Hhead|]. split.
    + destruct t' as [|l' a' r'].
      * cbn [inorder] in Ei. rewrite <- Ei in HvT. contradiction.
      * cbn [repr] in Hr'. destruct Hr' as [Ea [_ [Hp _]]]. subst a'. exact Hp.
    + split.
      * apply (wf_after_rearrangement g st st' n T t'); try assumption.
        rewrite Hhead. exact Hr'.
      * apply (rearrangement_keeps_inorder g st st' n T t'); try assumption.
        rewrite Hhead. exact Hr'.
Qed.

End DynSplayRoot.
Section DynAddHead.

Import DynArcLookUp.

Lemma add_puts_arc_at_root (g0 : Digraph) (st : state) (arc : Arc) (s t : Node) :
  wf_graph g0 -> strict_total (node_lt g0) ->
  dyn_wf g0 st ->
  arc <> INVALID -> ~ In arc (arcs g0) -> In s (nodes g0) ->
  exists st',
    add (graph_add g0 arc s t) st arc = Ok st' /\
    dyn_wf (graph_add g0 arc s t) st' /\
    _head st' s = arc /\ _parent st' arc = INVALID.
Proof.
  intros Hwf Hord Hst Harc Hfresh Hs.
  destruct (add_preserves_wf g0 st arc s t Hwf Hord Hst Harc Hfresh Hs)
    as [st' [R Hst']].
  exists st'. split; [exact R|]. split; [exact Hst'|].
  set (g := graph_add g0 arc s t) in *.
  assert (Hsv : s <> INVALID).
  { intros ->. exact (wf_nodes_valid g0 Hwf Hs). }
  assert (Hsrc : source g arc = s) by (unfold g; cbn [graph_add source]; apply upd_same).
  assert (Hin : In arc (outArcs g s)).
  { apply outArcs_in. split; [left; reflexivity | exact Hsrc]. }
  (* the head after the insertion *)
  assert (Hhead : _head st' s = arc).
  { unfold add, insert in R. unfold g_source, g_target in R.
    rewrite !(get_ok _ arc Harc) in R. cbn [bind] in R.
    rewrite Hsrc in R.
    unfold set_left in R at 1. rewrite (set_ok _ arc _ Harc) in R. cbn [bind] in R.
    unfold set_right in R at 1. rewrite (set_ok _ arc _ Harc) in R. cbn [bind] in R.
    unfold head_of in R. cbn [_head] in R. rewrite (get_ok _ s Hsv) in R.
    cbn [bind] in R.
    destruct (Hst s Hs) as [T [HT [HP HS]]].
    destruct (_head st s =? INVALID) eqn:Eh.
    - unfold set_head, set_parent in R. cbn [_head _parent] in R.
      rewrite (set_ok _ s _ Hsv) in R. cbn [bind _parent] in R.
      rewrite (set_ok _ arc _ Harc) in R. cbn [bind] in R.
      injection R as <-. cbn [_head]. apply upd_same.
    - (* through the loop: the specification of [insert] *)
      assert (Hin0 : forall a, In a (inorder T) -> a <> arc).
      { intros a Ha. apply (Permutation_in _ HP) in Ha.
        apply outArcs_in in Ha. intros ->. apply Hfresh. apply Ha. }
      destruct (insert_spec g Hord arc st T) as [st1 [T1 [R1 [_ [_ [_ [Hh _]]]]]]].
      + exact Harc.
      + rewrite Hsrc. exact Hsv.
      + rewrite Hsrc. exact HT.
      + constructor.
        * intros F. exact (Hin0 arc F eq_refl).
        * eapply Permutation_NoDup; [apply Permutation_sym; exact HP|].
          apply outArcs_nodup. exact (wf_arcs_nodup g0 Hwf).
      + apply sorted_ext with (R := tle g0); [|exact HS].
        intros a b Ha Hb H. unfold tle, g in *. cbn [graph_add target node_lt].
        rewrite !upd_other by (apply Hin0; assumption). exact H.
      + unfold g. cbn [graph_add arcs length].
        rewrite (Permutation_length HP). pose proof (outArcs_length g0 s). lia.
      + unfold insert in R1. unfold g_source, g_target in R1.
        rewrite !(get_ok _ arc Harc) in R1. cbn [bind] in R1.
        rewrite Hsrc in R1.
        unfold set_left in R1 at 1. rewrite (set_ok _ arc _ Harc) in R1. cbn [bind] in R1.
        unfold set_right in R1 at 1. rewrite (set_ok _ arc _ Harc) in R1. cbn [bind] in R1.
        unfold head_of in R1. cbn [_head] in R1. rewrite (get_ok _ s Hsv) in R1.
        cbn [bind] in R1. rewrite Eh in R1.
        rewrite R1 in R. injection R as <-.
        rewrite Hh, Hsrc. apply upd_same. }
  split; [exact Hhead|].
  assert (Hs' : In s (nodes g)) by (unfold g; cbn [graph_add nodes]; exact Hs).
  destruct (Hst' s Hs') as [T' [HT' [HP' _]]].
  rewrite Hhead in HT'.
  destruct T' as [|l a r].
  - cbn [repr] in HT'. contradiction.
  - cbn [repr] in HT'. destruct HT' as [E [_ [Hp _]]]. subst a. exact Hp.
Qed.

Lemma lookup_at_root (g : Digraph) (st : state) (s t : Node) (a : Arc) :
  s <> INVALID -> a <> INVALID ->
  _head st s = a -> _parent st a = INVALID ->
  source g a = s -> target g a = t ->
  exists st',
    lookup g st s t = Ok (a, st') /\
    _head st' = upd (_head st) s a /\
    _parent st' = _parent st /\ _left st' = _left st /\ _right st' = _right st.
Proof.
  intros Hs Ha Hh Hp Hsrc Htgt.
  assert (R : lookup g st s t =
              Ok (a, {| _head := upd (_head st) s a; _parent := _parent st;
                        _left := _left st; _right := _right st |})).
  { unfold lookup, head_of. rewrite (get_ok _ s Hs), Hh. cbn [bind].
    unfold fuel_of. remember (S (length (arcs g))) as f eqn:Ef.
    cbn [lookup_loop].
    unfold g_target. rewrite (get_ok _ a Ha), Htgt. cbn [bind].
    rewrite Z.eqb_refl.
    unfold splay, fuel_of. rewrite <- Ef. cbn [splay_loop]. unfold parent_of.
    rewrite (get_ok _ a Ha), Hp. cbn [bind]. rewrite Z.eqb_refl.
    cbn [bind]. unfold g_source. rewrite (get_ok _ a Ha), Hsrc. cbn [bind].
    unfold set_head. rewrite (set_ok _ s _ Hs). cbn [bind]. reflexivity. }
  eexists. split; [exact R|]. cbn. repeat split; reflexivity.
Qed.

End DynAddHead.

(** X4: [splay(v)] on an arc of the graph, in a well-formed state of the
    dynamic index, returns with [v] at the root of the tree of its
    source node and without a parent; the state stays well-formed and
    every tree lists its arcs in the same in-order sequence as before
    (only the shape has changed). *)
Theorem splay_brings_to_root :
  forall (g : Digraph) (st : DynArcLookUp.state) (v : Arc),
    wf_graph g -> dyn_wf g st -> In v (arcs g) ->
    exists st',
      DynArcLookUp.splay g st v = Ok st' /\
      DynArcLookUp._head st' (source g v) = v /\
      DynArcLookUp._parent st' v = INVALID /\
      dyn_wf g st' /\
      (forall n T, In n (nodes g) ->
         repr st INVALID (DynArcLookUp._head st n) T ->
         exists T', repr st' INVALID (DynArcLookUp._head st' n) T' /\
                    inorder T' = inorder T).
Proof.
  intros g st v Hwf Hst Hv. exact (splay_in_wf g Hwf st v Hst Hv).
Qed.

Lemma splay_brings_to_root_witness :
  holds_after (DynArcLookUp.make g_three dyn_mem)
    (fun st =>
       wf_graph g_three /\ dyn_wf g_three st /\ In 10 (arcs g_three) /\
       exists st',
         DynArcLookUp.splay g_three st 10 = Ok st' /\
         DynArcLookUp._head st' (source g_three 10) = 10 /\
         DynArcLookUp._parent st' 10 = INVALID /\
         dyn_wf g_three st' /\
         (forall n T, In n (nodes g_three) ->
            repr st INVALID (DynArcLookUp._head st n) T ->
            exists T', repr st' INVALID (DynArcLookUp._head st' n) T' /\
                       inorder T' = inorder T)).
Proof.
  destruct (DynArcLookUp.make g_three dyn_mem) as [st|e] eqn:E.
  - cbn [holds_after].
    assert (W : dyn_wf g_three st).
    { apply (dyn_reach_wf g_three st).
      exact (reach_make g_three dyn_mem st wf_g_three ltb_strict_total E). }
    assert (H10 : In 10 (arcs g_three)) by (cbn; tauto).
    split; [exact wf_g_three|]. split; [exact W|]. split; [exact H10|].
    exact (splay_brings_to_root g_three st 10 wf_g_three W H10).
  - vm_compute in E. discriminate E.
Defined.

(** X5: in a state of the dynamic index reached without erase, after
    the notification [add(arc)] for a new arc from [s] to [t] the query
    [operator()(s,t)] returns that very arc, with no refresh in between,
    and the index goes on in a state of the same kind. *)
Theorem lookup_after_add_returns_it :
  forall (g : Digraph) (st : DynArcLookUp.state) (arc : Arc) (s t : Node),
    dyn_reach g st ->
    arc <> INVALID -> ~ In arc (arcs g) -> In s (nodes g) ->
    exists st1 st2,
      DynArcLookUp.add (graph_add g arc s t) st arc = Ok st1 /\
      DynArcLookUp.lookup (graph_add g arc s t) st1 s t = Ok (arc, st2) /\
      dyn_reach (graph_add g arc s t) st2.
Proof.
  intros g st arc s t Hreach Harc Hfresh Hs.
  destruct (dyn_reach_wf g st Hreach) as [Hwf [Hord Hst]].
  destruct (add_puts_arc_at_root g st arc s t Hwf Hord Hst Harc Hfresh Hs)
    as [st1 [R1 [_ [Hh Hp]]]].
  assert (Hsv : s <> INVALID).
  { intros ->. exact (wf_nodes_valid g Hwf Hs). }
  destruct (lookup_at_root (graph_add g arc s t) st1 s t arc Hsv Harc Hh Hp)
    as [st2 [R2 _]].
  - cbn [graph_add source]. apply upd_same.
  - cbn [graph_add target]. apply upd_same.
  - exists st1, st2. split; [exact R1|]. split; [exact R2|].
    apply (reach_lookup (graph_add g arc s t) st1 s t arc st2).
    + apply (reach_add g st arc s t st1); assumption.
    + cbn [graph_add nodes]. exact Hs.
    + exact R2.
Qed.

Lemma lookup_after_add_returns_it_witness :
  holds_after (DynArcLookUp.make g_three dyn_mem)
    (fun st =>
       dyn_reach g_three st /\
       exists st1 st2,
         DynArcLookUp.add (graph_add g_three 13 0 4) st 13 = Ok st1 /\
         DynArcLookUp.lookup (graph_add g_three 13 0 4) st1 0 4 = Ok (13, st2) /\
         dyn_reach (graph_add g_three 13 0 4) st2).
Proof.
  destruct (DynArcLookUp.make g_three dyn_mem) as [st|e] eqn:E.
  - cbn [holds_after].
    assert (R : dyn_reach g_three st)
      by exact (reach_make g_three dyn_mem st wf_g_three ltb_strict_total E).
    split; [exact R|].
    apply (lookup_after_add_returns_it g_three st 13 0 4 R).
    + discriminate.
    + cbn. intuition discriminate.
    + cbn. tauto.
  - vm_compute in E. discriminate E.
Defined.
Lemma shape_leaf_iff (lft rgt : ItemMap) (x : Arc) (t : tree) :
  shape lft rgt x t -> (x = INVALID <-> t = Leaf).
Proof.
  intros H. destruct t as [|l a r]; cbn [shape] in H.
  - split; intros; [reflexivity | exact H].
  - destruct H as [E [Hne _]]. split; intros F; [congruence | discriminate].
Qed.

Section DynAnswers.

Import DynArcLookUp.

Variable g : Digraph.
Hypothesis Hord : strict_total (node_lt g).

Lemma splay_head (st st' : state) (v : Arc) :
  splay g st v = Ok st' -> _head st' (source g v) = v.
Proof.
  unfold splay. intros H.
  destruct (splay_loop (fuel_of g) st v) as [st1|e]; [|discriminate H].
  cbn [bind] in H. unfold g_source, get in H.
  destruct (v =? INVALID); [discriminate H|]. cbn [bind] in H.
  unfold set_head, set in H.
  destruct (source g v =? INVALID); [discriminate H|]. cbn [bind] in H.
  injection H as <-. cbn [_head]. apply upd_same.
Qed.

(** No arc of a sorted tree whose root lies on the other side of [t]
    has the target [t]. *)
Lemma left_side_misses (l r : tree) (a : Arc) (t : Node) :
  StronglySorted (tle g) (inorder (Tr l a r)) ->
  target g a <> t -> node_lt g t (target g a) = false ->
  forall b, In b (inorder l) -> target g b <> t.
Proof.
  intros HS Hne Hlt b Hb E.
  cbn [inorder] in HS. apply sorted_app in HS. destruct HS as [_ [_ H]].
  specialize (H b a Hb (or_introl eq_refl)). unfold tle in H.
  rewrite E in H.
  destruct (lt_total _ Hord (target g a) t Hne) as [F|F]; congruence.
Qed.

Lemma right_side_misses (l r : tree) (a : Arc) (t : Node) :
  StronglySorted (tle g) (inorder (Tr l a r)) ->
  node_lt g t (target g a) = true ->
  forall b, In b (inorder r) -> target g b <> t.
Proof.
  intros HS Hlt b Hb E.
  cbn [inorder] in HS. apply sorted_app in HS. destruct HS as [_ [HS _]].
  apply sorted_cons_inv in HS. destruct HS as [_ H].
  specialize (H b Hb). unfold tle in H. rewrite E in H. congruence.
Qed.

Lemma sorted_left (l r : tree) (a : Arc) :
  StronglySorted (tle g) (inorder (Tr l a r)) ->
  StronglySorted (tle g) (inorder l).
Proof.
  cbn [inorder]. intros HS. apply sorted_app in HS. apply HS.
Qed.

Lemma sorted_right (l r : tree) (a : Arc) :
  StronglySorted (tle g) (inorder (Tr l a r)) ->
  StronglySorted (tle g) (inorder r).
Proof.
  cbn [inorder]. intros HS. apply sorted_app in HS.
  destruct HS as [_ [HS _]]. apply sorted_cons_inv in HS. apply HS.
Qed.

Lemma lookup_loop_result (t : Node) :
  forall (fuel : nat) (st : state) (tr : tree) (a res : Arc) (st' : state),
    shape (_left st) (_right st) a tr -> tr <> Leaf ->
    StronglySorted (tle g) (inorder tr) ->
    lookup_loop fuel g st t a = Ok (res, st') ->
    (res <> INVALID ->
       In res (inorder tr) /\ target g res = t /\
       _head st' (source g res) = res) /\
    (res = INVALID -> forall b, In b (inorder tr) -> target g b <> t).
Proof.
  induction fuel as [|f IH]; intros st tr a res st' Hsh Hne HS R;
    [discriminate R|].
  destruct tr as [|l a' r]; [congruence|].
  pose proof Hsh as Hsh0. cbn [shape] in Hsh0.
  destruct Hsh0 as [<- [Ha [Hl Hr]]].
  cbn [lookup_loop] in R. unfold g_target in R.
  rewrite (get_ok _ a Ha) in R. cbn [bind] in R.
  destruct (target g a =? t) eqn:Et.
  - apply Z.eqb_eq in Et.
    destruct (splay g st a) as [st1|e] eqn:Es; [|discriminate R].
    cbn [bind] in R. injection R as <- <-. split.
    + intros _. split; [cbn [inorder]; apply in_or_app; right; left; reflexivity|].
      split; [exact Et | exact (splay_head st st1 a Es)].
    + intros F. contradiction.
  - apply Z.eqb_neq in Et.
    destruct (node_lt g t (target g a)) eqn:Elt.
    + unfold left_of in R. rewrite (get_ok _ a Ha) in R. cbn [bind] in R.
      destruct (_left st a =? INVALID) eqn:El.
      * apply Z.eqb_eq in El.
        destruct (splay g st a) as [st1|e] eqn:Es; [|discriminate R].
        cbn [bind] in R. injection R as <- <-. split; [congruence|].
        intros _ b Hb. cbn [inorder] in Hb.
        assert (l = Leaf) by (apply (shape_leaf_iff _ _ _ _ Hl); exact El).
        subst l. cbn [inorder app] in Hb. destruct Hb as [<-|Hb]; [exact Et|].
        exact (right_side_misses Leaf r a t HS Elt b Hb).
      * apply Z.eqb_neq in El.
        assert (Hlne : l <> Leaf).
        { intros F. apply El. apply (shape_leaf_iff _ _ _ _ Hl). exact F. }
        destruct (IH st l (_left st a) res st' Hl Hlne (sorted_left l r a HS) R)
          as [P1 P2].
        split.
        -- intros Hres. destruct (P1 Hres) as [Hin Q]. split; [|exact Q].
           cbn [inorder]. apply in_or_app. left. exact Hin.
        -- intros Hres b Hb. cbn [inorder] in Hb. apply in_app_or in Hb.
           destruct Hb as [Hb|[<-|Hb]].
           ++ exact (P2 Hres b Hb).
           ++ exact Et.
           ++ exact (right_side_misses l r a t HS Elt b Hb).
    + unfold right_of in R. rewrite (get_ok _ a Ha) in R. cbn [bind] in R.
      destruct (_right st a =? INVALID) eqn:Er.
      * apply Z.eqb_eq in Er.
        destruct (splay g st a) as [st1|e] eqn:Es; [|discriminate R].
        cbn [bind] in R. injection R as <- <-. split; [congruence|].
        intros _ b Hb. cbn [inorder] in Hb.
        assert (r = Leaf) by (apply (shape_leaf_iff _ _ _ _ Hr); exact Er).
        subst r. apply in_app_or in Hb. destruct Hb as [Hb|[<-|[]]]; [|exact Et].
        exact (left_side_misses l Leaf a t HS Et Elt b Hb).
      * apply Z.eqb_neq in Er.
        assert (Hrne : r <> Leaf).
        { intros F. apply Er. apply (shape_leaf_iff _ _ _ _ Hr). exact F. }
        destruct (IH st r (_right st a) res st' Hr Hrne (sorted_right l r a HS) R)
          as [P1 P2].
        split.
        -- intros Hres. destruct (P1 Hres) as [Hin Q]. split; [|exact Q].
           cbn [inorder]. apply in_or_app. right. right. exact Hin.
        -- intros Hres b Hb. cbn [inorder] in Hb. apply in_app_or in Hb.
           destruct Hb as [Hb|[<-|Hb]].
           ++ exact (left_side_misses l r a t HS Et Elt b Hb).
           ++ exact Et.
           ++ exact (P2 Hres b Hb).
Qed.

End DynAnswers.
Section DynQueryFacts.

Import DynArcLookUp.

Variable g : Digraph.
Hypothesis Hwf : wf_graph g.

Lemma rearranged_wf (st st' : state) (s : Node) :
  dyn_wf g st -> rearranged g st st' s -> dyn_wf g st'.
Proof.
  intros Hst [T [T' [HT [HP [HS [HT' [E [Hh Hoff]]]]]]]].
  apply (wf_after_rearrangement g st st' s T T'); assumption.
Qed.

Lemma rearranged_inorder (st st' : state) (s : Node) :
  dyn_wf g st -> rearranged g st st' s ->
  forall n Tn, In n (nodes g) ->
    repr st INVALID (_head st n) Tn ->
    exists Tn', repr st' INVALID (_head st' n) Tn' /\ inorder Tn' = inorder Tn.
Proof.
  intros Hst [T [T' [HT [HP [HS [HT' [E [Hh Hoff]]]]]]]].
  apply (rearrangement_keeps_inorder g st st' s T T'); assumption.
Qed.

Lemma head_valid_iff (st : state) (s : Node) :
  dyn_wf g st -> In s (nodes g) ->
  (_head st s <> INVALID <-> outArcs g s <> []).
Proof.
  intros Hst Hs. destruct (Hst s Hs) as [T [HT [HP _]]].
  apply repr_shape in HT.
  pose proof (shape_leaf_iff _ _ _ _ HT) as HL.
  split; intros H F; apply H.
  - apply HL. destruct T as [|l a r]; [reflexivity|].
    rewrite F in HP. apply Permutation_sym, Permutation_nil in HP.
    cbn [inorder] in HP. destruct (inorder l); discriminate HP.
  - apply HL in F. subst T. cbn [inorder] in HP.
    apply Permutation_nil in HP. exact HP.
Qed.

Lemma lookup_in_wf (st : state) (s t : Node) :
  dyn_wf g st -> In s (nodes g) -> _head st s <> INVALID ->
  exists a st', lookup g st s t = Ok (a, st') /\ rearranged g st st' s.
Proof.
  intros Hst Hs Hhead.
  assert (Hsv : s <> INVALID) by (intros ->; exact (wf_nodes_valid g Hwf Hs)).
  destruct (Hst s Hs) as [T [HT [HP HS]]].
  destruct (tree_of_node_facts g Hwf st s T HP) as [Hnd [Hlen Hsrc]].
  assert (HTne : T <> Leaf).
  { intros ->. cbn [repr] in HT. contradiction. }
  assert (EL : cbefore [] ++ inorder T ++ cafter [] = inorder T).
  { cbn [cbefore cafter app]. apply app_nil_r. }
  unfold lookup, head_of. rewrite (get_ok _ s Hsv). cbn [bind].
  destruct (lookup_loop_spec g t s Hsv (fuel_of g) st [] T (_head st s))
    as [a [st' [T' [R [Hr' [E [Hh Hoff]]]]]]].
  - unfold fuel_of. lia.
  - unfold fuel_of. lia.
  - rewrite EL. exact Hlen.
  - rewrite EL. exact Hsrc.
  - exact HTne.
  - exact I.
  - exact HT.
  - rewrite EL. exact Hnd.
  - rewrite EL in E, Hoff. exists a, st'. split; [exact R|].
    exists T, T'. repeat (split; [assumption|]). assumption.
Qed.

Lemma findFirst_in_wf (st : state) (s t : Node) :
  dyn_wf g st -> In s (nodes g) -> _head st s <> INVALID ->
  exists a st', findFirst g st s t = Ok (a, st') /\ rearranged g st st' s.
Proof.
  intros Hst Hs Hhead.
  assert (Hsv : s <> INVALID) by (intros ->; exact (wf_nodes_valid g Hwf Hs)).
  destruct (Hst s Hs) as [T [HT [HP HS]]].
  destruct (tree_of_node_facts g Hwf st s T HP) as [Hnd [Hlen Hsrc]].
  assert (HTne : T <> Leaf).
  { intros ->. cbn [repr] in HT. contradiction. }
  assert (EL : cbefore [] ++ inorder T ++ cafter [] = inorder T).
  { cbn [cbefore cafter app]. apply app_nil_r. }
  unfold findFirst, head_of. rewrite (get_ok _ s Hsv). cbn [bind].
  destruct (findFirst_loop_spec g t s Hsv (fuel_of g) st [] T (_head st s) INVALID)
    as [a [st' [T' [R [Hr' [E [Hh Hoff]]]]]]].
  - unfold fuel_of. lia.
  - unfold fuel_of. lia.
  - rewrite EL. exact Hlen.
  - rewrite EL. exact Hsrc.
  - exact HTne.
  - exact I.
  - exact HT.
  - rewrite EL. exact Hnd.
  - rewrite EL in E, Hoff. exists a, st'. split; [exact R|].
    exists T, T'. repeat (split; [assumption|]). assumption.
Qed.

End DynQueryFacts.

(** X6: in a state of the dynamic index reached without erase, for a
    node [s] with at least one outgoing arc, [operator()(s,t)] returns;
    an arc it returns runs from [s] to [t], and it returns INVALID
    exactly when the graph has no arc from [s] to [t]. *)
Theorem dyn_lookup_answers :
  forall (g : Digraph) (st : DynArcLookUp.state) (s t : Node),
    dyn_reach g st -> In s (nodes g) -> outArcs g s <> [] ->
    exists a st',
      DynArcLookUp.lookup g st s t = Ok (a, st') /\
      (a <> INVALID -> In a (arcs g) /\ source g a = s /\ target g a = t) /\
      (a = INVALID <-> arcs_between g s t = []) /\
      dyn_reach g st'.
Proof.
  intros g st s t Hreach Hs Hout.
  destruct (dyn_reach_wf g st Hreach) as [Hwf [Hord Hst]].
  assert (Hhead : DynArcLookUp._head st s <> INVALID)
    by (apply (head_valid_iff g st s Hst Hs); exact Hout).
  destruct (lookup_in_wf g Hwf st s t Hst Hs Hhead) as [a [st' [R Hre]]].
  exists a, st'. split; [exact R|].
  destruct (Hst s Hs) as [T [HT [HP HS]]].
  assert (HTne : T <> Leaf).
  { intros ->. cbn [repr] in HT. contradiction. }
  assert (Hsv : s <> INVALID) by (intros ->; exact (wf_nodes_valid g Hwf Hs)).
  pose proof R as R0. unfold DynArcLookUp.lookup, DynArcLookUp.head_of in R0.
  rewrite (get_ok _ s Hsv) in R0. cbn [bind] in R0.
  destruct (lookup_loop_result g Hord t (fuel_of g) st T _ a st'
              (repr_shape _ _ _ _ HT) HTne HS R0) as [P1 P2].
  assert (Hfound : a <> INVALID ->
                   In a (arcs g) /\ source g a = s /\ target g a = t).
  { intros Ha. destruct (P1 Ha) as [Hin [Ht _]].
    apply (Permutation_in _ HP) in Hin. apply outArcs_in in Hin.
    destruct Hin as [H1 H2]. repeat split; assumption. }
  split; [exact Hfound|]. split; [split|].
  - intros Ha. unfold arcs_between.
    destruct (filter _ (arcs g)) as [|b l] eqn:E; [reflexivity|]. exfalso.
    assert (Hb : In b (filter (fun a0 => (source g a0 =? s) && (target g a0 =? t))
                              (arcs g))) by (rewrite E; left; reflexivity).
    apply filter_In in Hb. destruct Hb as [Hb1 Hb2].
    apply andb_true_iff in Hb2. rewrite !Z.eqb_eq in Hb2.
    apply (P2 Ha b); [|apply Hb2].
    apply (Permutation_in _ (Permutation_sym HP)). apply outArcs_in. tauto.
  - intros E. destruct (Z.eq_dec a INVALID) as [Ha|Ha]; [exact Ha|]. exfalso.
    destruct (Hfound Ha) as [Hin [Hsrc Htgt]].
    assert (Hb : In a (arcs_between g s t)).
    { unfold arcs_between. apply filter_In. split; [exact Hin|].
      rewrite Hsrc, Htgt, !Z.eqb_refl. reflexivity. }
    rewrite E in Hb. exact Hb.
  - exact (reach_lookup g st s t a st' Hreach Hs R).
Qed.

Lemma dyn_lookup_answers_witness :
  holds_after (DynArcLookUp.make g_three dyn_mem)
    (fun st =>
       dyn_reach g_three st /\
       exists a st',
         DynArcLookUp.lookup g_three st 0 3 = Ok (a, st') /\
         (a <> INVALID ->
          In a (arcs g_three) /\ source g_three a = 0 /\ target g_three a = 3) /\
         (a = INVALID <-> arcs_between g_three 0 3 = []) /\
         dyn_reach g_three st').
Proof.
  destruct (DynArcLookUp.make g_three dyn_mem) as [st|e] eqn:E.
  - cbn [holds_after].
    assert (R : dyn_reach g_three st)
      by exact (reach_make g_three dyn_mem st wf_g_three ltb_strict_total E).
    split; [exact R|].
    apply (dyn_lookup_answers g_three st 0 3 R).
    + cbn. tauto.
    + vm_compute. discriminate.
  - vm_compute in E. discriminate E.
Defined.

(** X7: such a query changes the shape of the trees only.  Every tree
    lists its arcs in the same in-order sequence after the call as
    before it, and an arc that was found sits at the root of the tree
    of [s] afterwards. *)
Theorem dyn_lookup_keeps_sequences :
  forall (g : Digraph) (st : DynArcLookUp.state) (s t : Node),
    dyn_reach g st -> In s (nodes g) -> outArcs g s <> [] ->
    exists a st',
      DynArcLookUp.lookup g st s t = Ok (a, st') /\
      (forall n T, In n (nodes g) ->
         repr st INVALID (DynArcLookUp._head st n) T ->
         exists T', repr st' INVALID (DynArcLookUp._head st' n) T' /\
                    inorder T' = inorder T) /\
      (a <> INVALID -> DynArcLookUp._head st' s = a).
Proof.
  intros g st s t Hreach Hs Hout.
  destruct (dyn_reach_wf g st Hreach) as [Hwf [Hord Hst]].
  assert (Hhead : DynArcLookUp._head st s <> INVALID)
    by (apply (head_valid_iff g st s Hst Hs); exact Hout).
  destruct (lookup_in_wf g Hwf st s t Hst Hs Hhead) as [a [st' [R Hre]]].
  exists a, st'. split; [exact R|]. split.
  - exact (rearranged_inorder g st st' s Hst Hre).
  - intros Ha.
    destruct (Hst s Hs) as [T [HT [HP HS]]].
    assert (HTne : T <> Leaf).
    { intros ->. cbn [repr] in HT. contradiction. }
    assert (Hsv : s <> INVALID) by (intros ->; exact (wf_nodes_valid g Hwf Hs)).
    pose proof R as R0. unfold DynArcLookUp.lookup, DynArcLookUp.head_of in R0.
    rewrite (get_ok _ s Hsv) in R0. cbn [bind] in R0.
    destruct (lookup_loop_result g Hord t (fuel_of g) st T _ a st'
                (repr_shape _ _ _ _ HT) HTne HS R0) as [P1 _].
    destruct (P1 Ha) as [Hin [_ Hh]].
    apply (Permutation_in _ HP) in Hin. apply outArcs_in in Hin.
    destruct Hin as [_ Hsrc]. rewrite Hsrc in Hh. exact Hh.
Qed.

Lemma dyn_lookup_keeps_sequences_witness :
  holds_after (DynArcLookUp.make g_three dyn_mem)
    (fun st =>
       dyn_reach g_three st /\
       exists a st',
         DynArcLookUp.lookup g_three st 0 3 = Ok (a, st') /\
         (forall n T, In n (nodes g_three) ->
            repr st INVALID (DynArcLookUp._head st n) T ->
            exists T', repr st' INVALID (DynArcLookUp._head st' n) T' /\
                       inorder T' = inorder T) /\
         (a <> INVALID -> DynArcLookUp._head st' 0 = a)).
Proof.
  destruct (DynArcLookUp.make g_three dyn_mem) as [st|e] eqn:E.
  - cbn [holds_after].
    assert (R : dyn_reach g_three st)
      by exact (reach_make g_three dyn_mem st wf_g_three ltb_strict_total E).
    split; [exact R|].
    apply (dyn_lookup_keeps_sequences g_three st 0 3 R).
    + cbn. tauto.
    + vm_compute. discriminate.
  - vm_compute in E. discriminate E.
Defined.
Section DynFirst.

Import DynArcLookUp.

Variable g : Digraph.
Hypothesis Hord : strict_total (node_lt g).

Lemma findFirst_loop_result (t : Node) :
  forall (fuel : nat) (st : state) (tr : tree) (a r0 res : Arc) (st' : state),
    shape (_left st) (_right st) a tr -> tr <> Leaf ->
    StronglySorted (tle g) (inorder tr) ->
    findFirst_loop fuel g st t a r0 = Ok (res, st') ->
    res = match find (fun x => target g x =? t) (inorder tr) with
          | Some x => x
          | None => r0
          end.
Proof.
  induction fuel as [|f IH]; intros st tr a r0 res st' Hsh Hne HS R;
    [discriminate R|].
  destruct tr as [|l a' r]; [congruence|].
  pose proof Hsh as Hsh0. cbn [shape] in Hsh0.
  destruct Hsh0 as [<- [Ha [Hl Hr]]].
  cbn [findFirst_loop] in R. unfold g_target in R.
  rewrite (get_ok _ a Ha) in R. cbn [bind] in R.
  cbn [inorder]. rewrite find_app. cbn [find].
  destruct (node_lt g (target g a) t) eqn:Elt.
  - (* the root and its left side are below [t] *)
    assert (Eat : (target g a =? t) = false).
    { apply Z.eqb_neq. intros F. rewrite F in Elt.
      rewrite (lt_irrefl _ Hord) in Elt. discriminate Elt. }
    assert (Hnl : find (fun x => target g x =? t) (inorder l) = None).
    { apply find_none. intros b Hb. apply Z.eqb_neq. intros F.
      cbn [inorder] in HS. apply sorted_app in HS. destruct HS as [_ [_ H]].
      specialize (H b a Hb (or_introl eq_refl)). unfold tle in H.
      rewrite F in H. congruence. }
    rewrite Hnl, Eat.
    unfold right_of in R. rewrite (get_ok _ a Ha) in R. cbn [bind] in R.
    destruct (_right st a =? INVALID) eqn:Er.
    + apply Z.eqb_eq in Er.
      destruct (splay g st a) as [st1|e]; [|discriminate R].
      cbn [bind] in R. injection R as <- <-.
      assert (r = Leaf) by (apply (shape_leaf_iff _ _ _ _ Hr); exact Er).
      subst r. reflexivity.
    + apply Z.eqb_neq in Er.
      assert (Hrne : r <> Leaf).
      { intros F. apply Er. apply (shape_leaf_iff _ _ _ _ Hr). exact F. }
      exact (IH st r (_right st a) r0 res st' Hr Hrne (sorted_right g l r a HS) R).
  - (* the root is not below [t] *)
    assert (Hnr : (target g a =? t) = false ->
                  find (fun x => target g x =? t) (inorder r) = None).
    { intros Eat. apply Z.eqb_neq in Eat.
      apply find_none. intros b Hb. apply Z.eqb_neq.
      destruct (lt_total _ Hord (target g a) t Eat) as [F|F]; [congruence|].
      exact (right_side_misses g l r a t HS F b Hb). }
    unfold left_of in R. rewrite (get_ok _ a Ha) in R. cbn [bind] in R.
    destruct (_left st a =? INVALID) eqn:El.
    + apply Z.eqb_eq in El.
      destruct (splay g st a) as [st1|e]; [|discriminate R].
      cbn [bind] in R. injection R as <- <-.
      assert (l = Leaf) by (apply (shape_leaf_iff _ _ _ _ Hl); exact El).
      subst l. cbn [inorder find].
      destruct (target g a =? t) eqn:Eat; [reflexivity|].
      rewrite (Hnr eq_refl). reflexivity.
    + apply Z.eqb_neq in El.
      assert (Hlne : l <> Leaf).
      { intros F. apply El. apply (shape_leaf_iff _ _ _ _ Hl). exact F. }
      rewrite (IH st l (_left st a) _ res st' Hl Hlne (sorted_left g l r a HS) R).
      destruct (find (fun x => target g x =? t) (inorder l)); [reflexivity|].
      destruct (target g a =? t) eqn:Eat; [reflexivity|].
      rewrite (Hnr eq_refl). reflexivity.
Qed.

End DynFirst.

Section DynNextResult.

Import DynArcLookUp.

Lemma leftmost_first :
  forall (fuel : nat) (st : state) (tr : tree) (e y : Arc),
    shape (_left st) (_right st) e tr -> tr <> Leaf ->
    leftmost fuel st e = Ok y ->
    exists q, inorder tr = y :: q.
Proof.
  induction fuel as [|f IH]; intros st tr e y Hsh Hne R.
  - destruct tr as [|l a r]; [congruence|].
    cbn [shape] in Hsh. destruct Hsh as [<- [Ha [Hl Hr]]].
    cbn [leftmost] in R. unfold left_of in R.
    rewrite (get_ok _ e Ha) in R. cbn [bind] in R.
    destruct (_left st e =? INVALID) eqn:El; cbn [negb] in R; [|discriminate R].
    apply Z.eqb_eq in El. injection R as <-.
    assert (l = Leaf) by (apply (shape_leaf_iff _ _ _ _ Hl); exact El).
    subst l. eexists. reflexivity.
  - destruct tr as [|l a r]; [congruence|].
    cbn [shape] in Hsh. destruct Hsh as [<- [Ha [Hl Hr]]].
    cbn [leftmost] in R. unfold left_of in R.
    rewrite (get_ok _ e Ha) in R. cbn [bind] in R.
    destruct (_left st e =? INVALID) eqn:El; cbn [negb] in R.
    + apply Z.eqb_eq in El. injection R as <-.
      assert (l = Leaf) by (apply (shape_leaf_iff _ _ _ _ Hl); exact El).
      subst l. eexists. reflexivity.
    + apply Z.eqb_neq in El.
      assert (Hlne : l <> Leaf).
      { intros F. apply El. apply (shape_leaf_iff _ _ _ _ Hl). exact F. }
      destruct (IH st l (_left st e) y Hl Hlne R) as [q E].
      exists (q ++ e :: inorder r). cbn [inorder]. rewrite E. reflexivity.
Qed.

Lemma climb_right_parent :
  forall (fuel : nat) (st : state) (c : ctx) (tr : tree) (a a' : Arc),
    tr <> Leaf ->
    cshape st c a ->
    repr st (cparent c) a tr ->
    NoDup (cbefore c ++ inorder tr ++ cafter c) ->
    climb_right fuel st a = Ok a' ->
    a' <> INVALID /\ _parent st a' = hd INVALID (cafter c).
Proof.
  induction fuel as [|f IH]; intros st c tr a a' Htr Hc Hr Hnd R.
  - destruct tr as [|l a0 r]; [congruence|].
    pose proof Hr as Hr0. cbn [repr] in Hr0. destruct Hr0 as [<- [Ha [Hpa _]]].
    cbn [climb_right] in R. unfold parent_of in R.
    rewrite (get_ok _ a Ha) in R. cbn [bind] in R. rewrite Hpa in R.
    destruct c as [|[p rp|lp p] c'].
    + cbn [cparent] in R. cbn in R. injection R as <-.
      split; [exact Ha|]. rewrite Hpa. reflexivity.
    + cbn [cshape] in Hc. destruct Hc as [Hp [Hlp [Hpp [Hrp Hc']]]].
      cbn [cparent] in R. rewrite (eqb_invalid_false p Hp) in R. cbn [negb] in R.
      unfold right_of in R. rewrite (get_ok _ p Hp) in R. cbn [bind] in R.
      destruct (_right st p =? a) eqn:Era; [discriminate R|].
      injection R as <-. split; [exact Ha|]. rewrite Hpa. reflexivity.
    + cbn [cshape] in Hc. destruct Hc as [Hp [Hrp [Hpp [Hlp' Hc']]]].
      cbn [cparent] in R. rewrite (eqb_invalid_false p Hp) in R. cbn [negb] in R.
      unfold right_of in R. rewrite (get_ok _ p Hp) in R. cbn [bind] in R.
      rewrite Hrp, Z.eqb_refl in R. discriminate R.
  - destruct tr as [|l a0 r]; [congruence|].
    pose proof Hr as Hr0. cbn [repr] in Hr0. destruct Hr0 as [<- [Ha [Hpa _]]].
    cbn [climb_right] in R. unfold parent_of in R.
    rewrite (get_ok _ a Ha) in R. cbn [bind] in R. rewrite Hpa in R.
    destruct c as [|[p rp|lp p] c'].
    + cbn [cparent] in R. cbn in R. injection R as <-.
      split; [exact Ha|]. rewrite Hpa. reflexivity.
    + pose proof Hc as Hc0.
      cbn [cshape] in Hc0. destruct Hc0 as [Hp [Hlp [Hpp [Hrp Hc']]]].
      cbn [cparent] in R. rewrite (eqb_invalid_false p Hp) in R. cbn [negb] in R.
      unfold right_of in R. rewrite (get_ok _ p Hp) in R. cbn [bind] in R.
      destruct (_right st p =? a) eqn:Era.
      * exfalso. apply Z.eqb_eq in Era.
        destruct rp as [|r1 x r2].
        -- cbn [repr] in Hrp. congruence.
        -- cbn [repr] in Hrp. destruct Hrp as [Ex _].
           assert (x = a) by congruence. subst x.
           cbn [cbefore cafter inorder] in Hnd.
           nd_split. nd_false a.
      * injection R as <-. split; [exact Ha|]. rewrite Hpa. reflexivity.
    + pose proof Hc as Hc0.
      cbn [cshape] in Hc0. destruct Hc0 as [Hp [Hrp [Hpp [Hlp' Hc']]]].
      cbn [cparent] in R. rewrite (eqb_invalid_false p Hp) in R. cbn [negb] in R.
      unfold right_of in R. rewrite (get_ok _ p Hp) in R. cbn [bind] in R.
      rewrite Hrp, Z.eqb_refl in R.
      cbn [cafter].
      apply (IH st c' (Tr lp p (Tr l a r)) p a').
      * discriminate.
      * exact Hc'.
      * cbn [repr]. rewrite Hrp.
        split; [reflexivity|]. split; [exact Hp|]. split; [exact Hpp|].
        split; [exact Hlp' | exact Hr].
      * cbn [cbefore cafter inorder] in Hnd |- *.
        eapply NoDup_eq; [|exact Hnd]. list_eq.
      * exact R.
Qed.

End DynNextResult.
Section DynNext.

Import DynArcLookUp.

Variable g : Digraph.
Hypothesis Hwf : wf_graph g.

Lemma findNext_in_wf (st : state) (s t : Node) (a : Arc) (T : tree)
  (pre post : list Arc) :
  dyn_wf g st -> In a (arcs g) ->
  repr st INVALID (_head st (source g a)) T ->
  inorder T = pre ++ a :: post ->
  exists st',
    findNext g st s t a = Ok (next_of g t post, st') /\
    (st' = st \/ rearranged g st st' (source g a)).
Proof.
  intros Hst Ha HT0 Epost.
  set (n := source g a) in *.
  assert (Hn : In n (nodes g)) by (apply (wf_source g Hwf); exact Ha).
  assert (Hnv : n <> INVALID) by (intros F; rewrite F in Hn; exact (wf_nodes_valid g Hwf Hn)).
  assert (Hav : a <> INVALID) by (intros ->; exact (wf_arcs_valid g Hwf Ha)).
  destruct (Hst n Hn) as [T1 [HT [HP HS]]].
  assert (T1 = T).
  { apply (shape_unique (_left st) (_right st) T1 (_head st n) T);
      apply repr_shape with INVALID; assumption. }
  subst T1. clear HT0.
  destruct (tree_of_node_facts g Hwf st n T HP) as [Hnd [Hlen Hsrc]].
  assert (HaT : In a (inorder T)).
  { rewrite Epost. apply in_or_app. right. left. reflexivity. }
  destruct (locate st a T [] (_head st n) I HT HaT) as [c [l [r [Hc [Hr E]]]]].
  cbn [cbefore cafter app] in E. rewrite app_nil_r in E.
  assert (Hpost : post = inorder r ++ cafter c).
  { assert (E2 : (cbefore c ++ inorder l) ++ a :: (inorder r ++ cafter c)
                 = pre ++ a :: post).
    { rewrite <- Epost, <- E. list_eq. }
    apply nodup_split_unique in E2; [symmetry; apply E2|].
    rewrite E2, <- Epost. exact Hnd. }
  pose proof Hr as Hr0. cbn [repr] in Hr0.
  destruct Hr0 as [_ [_ [Hpa [Hl Hrr]]]].
  assert (Hsplay : forall (c1 : ctx) (t1 : tree) (v : Arc),
    t1 <> Leaf -> cshape st c1 v -> repr st (cparent c1) v t1 ->
    cbefore c1 ++ inorder t1 ++ cafter c1 = inorder T ->
    exists st', splay g st v = Ok st' /\ rearranged g st st' n).
  { intros c1 t1 v Ht1 Hc1 Hr1 E1.
    assert (Hv : In v (inorder T)).
    { rewrite <- E1. destruct t1 as [|l1 v' r1]; [congruence|].
      cbn [repr] in Hr1. destruct Hr1 as [<- _]. in_solve. }
    destruct (splay_spec g st c1 t1 v) as [st' [T' [R [Hr' [E' [Hh Hoff]]]]]].
    - rewrite E1. exact Hlen.
    - rewrite (Hsrc v Hv). exact Hnv.
    - exact Ht1.
    - exact Hc1.
    - exact Hr1.
    - rewrite E1. exact Hnd.
    - exists st'. split; [exact R|].
      rewrite E1 in E', Hoff. rewrite (Hsrc v Hv) in Hh.
      exists T, T'. split; [exact HT|]. split; [exact HP|]. split; [exact HS|].
      split; [rewrite Hh, upd_same; exact Hr'|]. split; [exact E'|].
      split; [|exact Hoff].
      intros m Hm. rewrite Hh. apply upd_other. exact Hm. }
  unfold findNext, right_of, parent_of. rewrite (get_ok _ a Hav). cbn [bind].
  destruct r as [|r1 ra r2].
  - (* no right child: climb *)
    cbn [inorder app] in Hpost.
    cbn [repr] in Hrr. rewrite Hrr. cbn [Z.eqb INVALID Z.opp Pos.eqb negb].
    destruct (climb_right_spec (fuel_of g) st c (Tr l a Leaf) a)
      as [a' [c' [tr' [R [Ht' [Hc' [Hr' [E' Hform]]]]]]]].
    + pose proof (ctx_length_le c) as Hcl.
      assert (Hll : (length (cbefore c ++ cafter c) <= length (inorder T))%nat).
      { rewrite <- E. rewrite !length_app. lia. }
      unfold fuel_of. lia.
    + discriminate.
    + exact Hc.
    + exact Hr.
    + rewrite E. exact Hnd.
    + rewrite R. cbn [bind].
      destruct (climb_right_parent (fuel_of g) st c (Tr l a Leaf) a a')
        as [Hav' Hpar]; [discriminate | exact Hc | exact Hr
                        | rewrite E; exact Hnd | exact R |].
      rewrite <- Hpost in Hpar.
      assert (Hpa' : _parent st a' = cparent c').
      { destruct tr' as [|l1 v' r1]; [congruence|].
        cbn [repr] in Hr'. destruct Hr' as [<- [_ [Hp _]]]. exact Hp. }
      rewrite (get_ok _ a' Hav'). cbn [bind]. rewrite Hpa'.
      rewrite Hpa' in Hpar.
      destruct Hform as [->|[p [rp [c'' ->]]]].
      * cbn [cparent Z.eqb INVALID Z.opp Pos.eqb].
        cbn [cparent] in Hpar.
        assert (Hnil : post = []).
        { destruct post as [|b post']; [reflexivity|]. exfalso.
          cbn [hd] in Hpar.
          apply (cshape_valid st c a Hc b); [|symmetry; exact Hpar].
          apply in_or_app. right. rewrite <- Hpost. left. reflexivity. }
        rewrite Hnil. exists st. split; [reflexivity | left; reflexivity].
      * pose proof Hc' as Hc0. cbn [cshape] in Hc0.
        destruct Hc0 as [Hp [Hlp [Hpp [Hrp Hc'']]]].
        cbn [cparent]. rewrite (eqb_invalid_false p Hp).
        cbn [cparent] in Hpar.
        destruct (hd_valid post p Hp (eq_sym Hpar)) as [q Eq].
        destruct (Hsplay c'' (Tr tr' p rp) p) as [st' [R' Hre]].
        -- discriminate.
        -- exact Hc''.
        -- cbn [repr]. rewrite Hlp.
           split; [reflexivity|]. split; [exact Hp|]. split; [exact Hpp|].
           split; [exact Hr' | exact Hrp].
        -- rewrite <- E, <- E'. list_eq.
        -- rewrite R'. cbn [bind]. unfold g_target.
           rewrite (get_ok _ p Hp). cbn [bind].
           exists st'. rewrite Eq. cbn [next_of].
           split; [reflexivity | right; exact Hre].
  - (* a right child: the leftmost arc below it *)
    pose proof Hrr as Hrr0. cbn [repr] in Hrr0. destruct Hrr0 as [Hra [Hrav _]].
    rewrite Hra. rewrite (eqb_invalid_false ra Hrav). cbn [negb].
    destruct (leftmost_spec (fuel_of g) st (FR l a :: c) (Tr r1 ra r2) ra)
      as [y [c' [tr' [R [Ht' [Hc' [Hr' E']]]]]]].
    + assert (Hll : (length (inorder (Tr r1 ra r2)) <= length (inorder T))%nat).
      { rewrite <- E. cbn [inorder]. repeat (rewrite length_app || cbn [length]). lia. }
      unfold fuel_of. lia.
    + discriminate.
    + cbn [cshape]. cbn [cparent] in Hr. repeat split; assumption.
    + cbn [cparent]. rewrite Hra in Hrr. exact Hrr.
    + rewrite R. cbn [bind].
      assert (Hyv : y <> INVALID).
      { destruct tr' as [|l1 v' r1']; [congruence|].
        cbn [repr] in Hr'. destruct Hr' as [<- [Hv _]]. exact Hv. }
      destruct (leftmost_first (fuel_of g) st (Tr r1 ra r2) ra y) as [q Eq].
      * apply repr_shape with a. rewrite Hra in Hrr. exact Hrr.
      * discriminate.
      * exact R.
      * destruct (Hsplay c' tr' y) as [st' [R' Hre]].
        -- exact Ht'.
        -- exact Hc'.
        -- exact Hr'.
        -- rewrite E', <- E. list_eq.
        -- rewrite R'. cbn [bind]. unfold g_target.
           rewrite (get_ok _ y Hyv). cbn [bind].
           exists st'. rewrite Hpost, Eq. cbn [app next_of].
           split; [reflexivity | right; exact Hre].
Qed.

End DynNext.
Section DynEnum.

Import DynArcLookUp.

Variable g : Digraph.

Lemma reach_tree (st : state) (n : Node) (T : tree) :
  dyn_reach g st -> In n (nodes g) ->
  repr st INVALID (_head st n) T ->
  Permutation (inorder T) (outArcs g n) /\ StronglySorted (tle g) (inorder T).
Proof.
  intros Hreach Hn HT.
  destruct (dyn_reach_wf g st Hreach) as [_ [_ Hst]].
  destruct (Hst n Hn) as [T1 [HT1 [HP HS]]].
  assert (T1 = T).
  { apply (shape_unique (_left st) (_right st) T1 (_head st n) T);
      apply repr_shape with INVALID; assumption. }
  subst T1. split; assumption.
Qed.

Lemma rearranged_tree (st st' : state) (n : Node) (T : tree) :
  rearranged g st st' n ->
  repr st INVALID (_head st n) T ->
  exists T', repr st' INVALID (_head st' n) T' /\ inorder T' = inorder T.
Proof.
  intros [T0 [T' [HT0 [_ [_ [HT' [E _]]]]]]] HT.
  assert (T0 = T).
  { apply (shape_unique (_left st) (_right st) T0 (_head st n) T);
      apply repr_shape with INVALID; assumption. }
  subst T0. exists T'. split; assumption.
Qed.

Lemma enumerate_from_spec (s' t n : Node) :
  In n (nodes g) ->
  forall (q : list Arc) (fuel : nat) (st : state) (p : list Arc) (e : Arc)
         (T : tree),
    dyn_reach g st ->
    repr st INVALID (_head st n) T ->
    inorder T = p ++ e :: q ->
    target g e = t ->
    (length q < fuel)%nat ->
    exists st',
      DynEnumerate.enumerate_from fuel g st s' t e
      = Ok (e :: filter (fun x => target g x =? t) q, st') /\
      dyn_reach g st'.
Proof.
  intros Hn.
  induction q as [|b q IH]; intros fuel st p e T Hreach HT E Ht Hfuel.
  - destruct fuel as [|f]; [cbn [length] in Hfuel; lia|].
    destruct (dyn_reach_wf g st Hreach) as [Hwf [Hord Hst]].
    destruct (reach_tree st n T Hreach Hn HT) as [HP HS].
    assert (HeT : In e (inorder T))
      by (rewrite E; apply in_or_app; right; left; reflexivity).
    apply (Permutation_in _ HP) in HeT. apply outArcs_in in HeT.
    destruct HeT as [He Hsrc].
    assert (Hev : e <> INVALID) by (intros ->; exact (wf_arcs_valid g Hwf He)).
    rewrite <- Hsrc in HT.
    destruct (findNext_in_wf g Hwf st s' t e T p [] Hst He HT E) as [st1 [R _]].
    cbn [DynEnumerate.enumerate_from]. rewrite (eqb_invalid_false e Hev).
    rewrite R. cbn [bind next_of DynEnumerate.enumerate_from].
    assert (Ei : (INVALID =? INVALID) = true) by reflexivity.
    destruct f; cbn [DynEnumerate.enumerate_from]; rewrite Ei; cbn [bind filter];
      (exists st1; split; [reflexivity|];
       exact (reach_findNext g st s' t e _ st1 Hreach He R)).
  - destruct fuel as [|f]; [cbn [length] in Hfuel; lia|].
    cbn [length] in Hfuel.
    destruct (dyn_reach_wf g st Hreach) as [Hwf [Hord Hst]].
    destruct (reach_tree st n T Hreach Hn HT) as [HP HS].
    assert (HeT : In e (inorder T))
      by (rewrite E; apply in_or_app; right; left; reflexivity).
    apply (Permutation_in _ HP) in HeT. apply outArcs_in in HeT.
    destruct HeT as [He Hsrc].
    assert (Hev : e <> INVALID) by (intros ->; exact (wf_arcs_valid g Hwf He)).
    pose proof HT as HT0. rewrite <- Hsrc in HT0.
    destruct (findNext_in_wf g Hwf st s' t e T p (b :: q) Hst He HT0 E)
      as [st1 [R Hre]].
    assert (Hreach1 : dyn_reach g st1)
      by exact (reach_findNext g st s' t e _ st1 Hreach He R).
    assert (HT1 : exists T1, repr st1 INVALID (_head st1 n) T1 /\
                             inorder T1 = inorder T).
    { destruct Hre as [->|Hre].
      - exists T. split; [exact HT | reflexivity].
      - rewrite Hsrc in Hre. exact (rearranged_tree st st1 n T Hre HT). }
    destruct HT1 as [T1 [HT1 E1]].
    cbn [DynEnumerate.enumerate_from]. rewrite (eqb_invalid_false e Hev).
    rewrite R. cbn [bind next_of filter].
    destruct (target g b =? t) eqn:Eb.
    + apply Z.eqb_eq in Eb.
      destruct (IH f st1 (p ++ [e]) b T1 Hreach1 HT1) as [st2 [R2 Hreach2]].
      * rewrite E1, E, <- app_assoc. reflexivity.
      * exact Eb.
      * lia.
      * rewrite R2. cbn [bind]. exists st2. split; [reflexivity | exact Hreach2].
    + apply Z.eqb_neq in Eb.
      assert (Hnone : filter (fun x => target g x =? t) q = []).
      { rewrite E in HS. apply sorted_app in HS. destruct HS as [_ [HS _]].
        apply sorted_cons_inv in HS. destruct HS as [HS Heb].
        apply sorted_cons_inv in HS. destruct HS as [_ Hbx].
        specialize (Heb b (or_introl eq_refl)). unfold tle in Heb.
        rewrite Ht in Heb.
        assert (Hall : forall x, In x q -> (target g x =? t) = false).
        { intros x Hx. apply Z.eqb_neq. intros F.
          specialize (Hbx x Hx). unfold tle in Hbx. rewrite F in Hbx.
          destruct (lt_total _ Hord (target g b) t Eb); congruence. }
        clear - Hall. induction q as [|x q IHq]; [reflexivity|].
        cbn [filter]. rewrite (Hall x (or_introl eq_refl)).
        apply IHq. intros y Hy. apply Hall. right. exact Hy. }
      rewrite Hnone.
      assert (Ei : (INVALID =? INVALID) = true) by reflexivity.
      destruct f; cbn [DynEnumerate.enumerate_from]; rewrite Ei; cbn [bind];
        (exists st1; split; [reflexivity | exact Hreach1]).
Qed.

Lemma enumerate_spec (st : state) (s t : Node) :
  dyn_reach g st -> In s (nodes g) -> outArcs g s <> [] ->
  exists l st',
    DynEnumerate.enumerate g st s t = Ok (l, st') /\
    Permutation l (arcs_between g s t) /\
    dyn_reach g st'.
Proof.
  intros Hreach Hs Hout.
  destruct (dyn_reach_wf g st Hreach) as [Hwf [Hord Hst]].
  assert (Hhead : _head st s <> INVALID)
    by (apply (head_valid_iff g st s Hst Hs); exact Hout).
  destruct (findFirst_in_wf g Hwf st s t Hst Hs Hhead) as [a [st1 [R Hre]]].
  assert (Hreach1 : dyn_reach g st1)
    by exact (reach_findFirst g st s t a st1 Hreach Hs R).
  destruct (Hst s Hs) as [T [HT [HP HS]]].
  assert (HTne : T <> Leaf).
  { intros ->. cbn [repr] in HT. contradiction. }
  assert (Hsv : s <> INVALID) by (intros ->; exact (wf_nodes_valid g Hwf Hs)).
  pose proof R as R0. unfold findFirst, head_of in R0.
  rewrite (get_ok _ s Hsv) in R0. cbn [bind] in R0.
  pose proof (findFirst_loop_result g Hord t (fuel_of g) st T _ INVALID a st1
                (repr_shape _ _ _ _ HT) HTne HS R0) as Ha.
  destruct (rearranged_tree st st1 s T Hre HT) as [T1 [HT1 E1]].
  assert (Hperm : Permutation (filter (fun x => target g x =? t) (inorder T))
                              (arcs_between g s t)).
  { unfold arcs_between. rewrite <- filter_twice.
    apply perm_filter. exact HP. }
  unfold DynEnumerate.enumerate. rewrite R. cbn [bind].
  destruct (find (fun x => target g x =? t) (inorder T)) as [x|] eqn:Ef.
  - subst a. destruct (find_split _ _ _ Ef) as [p [q [E [Hp Hx]]]].
    apply Z.eqb_eq in Hx.
    destruct (enumerate_from_spec s t s Hs q (fuel_of g) st1 p x T1 Hreach1 HT1)
      as [st2 [R2 Hreach2]].
    + rewrite E1. exact E.
    + exact Hx.
    + assert (Hlen : (length (inorder T) <= length (arcs g))%nat).
      { rewrite (Permutation_length HP). apply outArcs_length. }
      rewrite E, length_app in Hlen. cbn [length] in Hlen.
      unfold fuel_of. lia.
    + exists (x :: filter (fun y => target g y =? t) q), st2.
      split; [exact R2|]. split; [|exact Hreach2].
      eapply perm_trans; [|exact Hperm].
      rewrite E, filter_app, Hp. cbn [app filter].
      rewrite Hx, Z.eqb_refl. apply Permutation_refl.
  - subst a. exists [], st1. split.
    + unfold fuel_of. cbn [DynEnumerate.enumerate_from]. reflexivity.
    + split; [|exact Hreach1].
      rewrite (find_none_filter _ _ Ef) in Hperm. exact Hperm.
Qed.

End DynEnum.

(** X8: in a state of the dynamic index reached without erase, for a
    node [s] with at least one outgoing arc, the enumeration
    [findFirst(s,t)], [findNext(s,t,e)], ... until INVALID returns, and
    the arcs it meets are exactly the arcs of the graph from [s] to [t],
    each of them once. *)
Theorem dyn_enumeration_complete :
  forall (g : Digraph) (st : DynArcLookUp.state) (s t : Node),
    dyn_reach g st -> In s (nodes g) -> outArcs g s <> [] ->
    exists l st',
      DynEnumerate.enumerate g st s t = Ok (l, st') /\
      Permutation l (arcs_between g s t) /\
      NoDup l /\
      dyn_reach g st'.
Proof.
  intros g st s t Hreach Hs Hout.
  destruct (enumerate_spec g st s t Hreach Hs Hout) as [l [st' [R [HP Hr]]]].
  exists l, st'. split; [exact R|]. split; [exact HP|]. split; [|exact Hr].
  apply (Permutation_NoDup (Permutation_sym HP)).
  unfold arcs_between. apply NoDup_filter.
  destruct (dyn_reach_wf g st Hreach) as [Hwf _].
  exact (wf_arcs_nodup g Hwf).
Qed.

Lemma dyn_enumeration_complete_witness :
  holds_after (DynArcLookUp.make g_parallel dyn_mem)
    (fun st =>
       dyn_reach g_parallel st /\
       exists l st',
         DynEnumerate.enumerate g_parallel st 0 1 = Ok (l, st') /\
         Permutation l (arcs_between g_parallel 0 1) /\
         NoDup l /\
         dyn_reach g_parallel st').
Proof.
  destruct (DynArcLookUp.make g_parallel dyn_mem) as [st|e] eqn:E.
  - cbn [holds_after].
    assert (R : dyn_reach g_parallel st)
      by exact (reach_make g_parallel dyn_mem st wf_g_parallel ltb_strict_total E).
    split; [exact R|].
    apply (dyn_enumeration_complete g_parallel st 0 1 R).
    + cbn. tauto.
    + vm_compute. discriminate.
  - vm_compute in E. discriminate E.
Defined.
(** ** Counting *)

Lemma int_wrap_succ (z : Z) : int_wrap (int_wrap z + 1) = int_wrap (z + 1).
Proof.
  unfold int_wrap.
  replace ((z + 2 ^ 31) mod 2 ^ 32 - 2 ^ 31 + 1 + 2 ^ 31)
    with ((z + 2 ^ 31) mod 2 ^ 32 + 1) by lia.
  rewrite Z.add_mod_idemp_l by lia.
  replace (z + 2 ^ 31 + 1) with (z + 1 + 2 ^ 31) by lia. reflexivity.
Qed.

Lemma count_loop (l : list Z) :
  forall k : Z,
    fold_left (fun num _ => int_wrap (num + 1)) l (int_wrap k)
    = int_wrap (k + Z.of_nat (length l)).
Proof.
  induction l as [|x l IH]; intros k.
  - cbn [fold_left length]. rewrite Z.add_0_r. reflexivity.
  - cbn [fold_left length]. rewrite int_wrap_succ, IH. f_equal. lia.
Qed.

Lemma countItems_wrap (l : list Z) :
  countItems l = int_wrap (Z.of_nat (length l)).
Proof.
  unfold countItems.
  change 0 with (int_wrap 0) at 1. rewrite count_loop. reflexivity.
Qed.

Lemma countNodeDegree_wrap (l : list Arc) :
  countNodeDegree l = int_wrap (Z.of_nat (length l)).
Proof. exact (countItems_wrap l). Qed.

(** The arcs of a graph, sorted out by their source node. *)
Lemma length_by_key (key : Z -> Z) (ks : list Z) (l : list Z) :
  NoDup ks -> (forall a, In a l -> In (key a) ks) ->
  length l
  = fold_right (fun n acc => Nat.add (length (filter (fun a => key a =? n) l)) acc)
               0%nat ks.
Proof.
  revert l. induction ks as [|k ks IH]; intros l Hnd Hin.
  - destruct l as [|a l]; [reflexivity|].
    exfalso. exact (Hin a (or_introl eq_refl)).
  - cbn [fold_right].
    apply NoDup_cons_iff in Hnd. destruct Hnd as [Hk Hnd].
    set (l' := filter (fun a => negb (key a =? k)) l).
    assert (E : forall n, In n ks ->
      filter (fun a => key a =? n) l' = filter (fun a => key a =? n) l).
    { intros n Hn. unfold l'. clear - Hk Hn.
      induction l as [|a l IHl]; [reflexivity|].
      cbn [filter]. destruct (key a =? k) eqn:Ek; cbn [negb filter].
      - apply Z.eqb_eq in Ek.
        assert (En : (key a =? n) = false).
        { apply Z.eqb_neq. intros F. apply Hk. congruence. }
        rewrite En. exact IHl.
      - destruct (key a =? n); rewrite IHl; reflexivity. }
    assert (F : fold_right (fun n acc =>
                  Nat.add (length (filter (fun a => key a =? n) l)) acc) 0%nat ks
                = length l').
    { rewrite (IH l' Hnd).
      - clear - E. induction ks as [|n ks IHks]; [reflexivity|].
        cbn [fold_right]. rewrite (E n (or_introl eq_refl)).
        f_equal. apply IHks. intros m Hm. apply E. right. exact Hm.
      - intros a Ha. apply filter_In in Ha. destruct Ha as [Ha Hk'].
        destruct (Hin a Ha) as [Ea|H]; [|exact H].
        rewrite <- Ea, Z.eqb_refl in Hk'. discriminate Hk'. }
    rewrite F. unfold l'. clear.
    induction l as [|a l IHl]; [reflexivity|].
    cbn [filter length]. destruct (key a =? k); cbn [negb length]; lia.
Qed.

Section Counting.

Variable g : Digraph.

Lemma sum_over_lengths (f : Node -> result Z) (len : Node -> nat) (ns : list Node) :
  (forall n, In n ns -> f n = Ok (Z.of_nat (len n))) ->
  sum_over f ns
  = Ok (Z.of_nat (fold_right (fun n acc => Nat.add (len n) acc) 0%nat ns)).
Proof.
  induction ns as [|n ns IH]; intros H; [reflexivity|].
  cbn [sum_over fold_right]. rewrite (H n (or_introl eq_refl)). cbn [bind].
  rewrite IH by (intros m Hm; apply H; right; exact Hm). cbn [bind].
  f_equal. lia.
Qed.

Lemma filter_length_le {A : Type} (f : A -> bool) (l : list A) :
  (length (filter f l) <= length l)%nat.
Proof.
  induction l as [|x l IH]; [apply Nat.le_refl|].
  cbn [filter]. destruct (f x); cbn [length]; lia.
Qed.

Lemma count_by_key (key : Arc -> Node) (cnt : Node -> result Z) :
  NoDup (nodes g) -> ~ In INVALID (nodes g) ->
  Z.of_nat (length (arcs g)) < 2 ^ 31 ->
  (forall a, In a (arcs g) -> In (key a) (nodes g)) ->
  (forall n, n <> INVALID ->
     cnt n = Ok (countNodeDegree (filter (fun a => key a =? n) (arcs g)))) ->
  sum_over cnt (nodes g) = Ok (countArcs g).
Proof.
  intros Hnd Hv Hlen Hkey Hcnt.
  rewrite (sum_over_lengths cnt
             (fun n => length (filter (fun a => key a =? n) (arcs g)))).
  - rewrite <- (length_by_key key (nodes g) (arcs g) Hnd Hkey).
    unfold countArcs. rewrite countItems_wrap, int_wrap_small; [reflexivity|lia].
  - intros n Hn. rewrite Hcnt by (intros ->; contradiction).
    rewrite countNodeDegree_wrap, int_wrap_small; [reflexivity|].
    pose proof (filter_length_le (fun a => key a =? n) (arcs g)). lia.
Qed.

End Counting.

(** X9: on a graph with fewer than 2^31 arcs, [countArcs] returns the
    number of arcs, and the counts [countOutArcs(g,n)] of all nodes add
    up to it; so do the counts [countInArcs(g,n)] when every arc ends
    at a node of the graph. *)
Theorem degree_counts_add_up :
  forall g : Digraph,
    wf_graph g -> NoDup (nodes g) ->
    Z.of_nat (length (arcs g)) < 2 ^ 31 ->
    countArcs g = Z.of_nat (length (arcs g)) /\
    sum_over (countOutArcs g) (nodes g) = Ok (countArcs g) /\
    ((forall a, In a (arcs g) -> In (target g a) (nodes g)) ->
     sum_over (countInArcs g) (nodes g) = Ok (countArcs g)).
Proof.
  intros g Hwf Hnd Hlen. split; [|split].
  - unfold countArcs. rewrite countItems_wrap. apply int_wrap_small. lia.
  - apply (count_by_key g (source g)); try assumption.
    + exact (wf_nodes_valid g Hwf).
    + exact (wf_source g Hwf).
    + intros n Hn. unfold countOutArcs. rewrite (eqb_invalid_false n Hn).
      reflexivity.
  - intros Ht. apply (count_by_key g (target g)); try assumption.
    + exact (wf_nodes_valid g Hwf).
    + intros n Hn. unfold countInArcs. rewrite (eqb_invalid_false n Hn).
      reflexivity.
Qed.

Lemma degree_counts_add_up_witness :
  wf_graph g_three /\ NoDup (nodes g_three) /\
  Z.of_nat (length (arcs g_three)) < 2 ^ 31 /\
  countArcs g_three = Z.of_nat (length (arcs g_three)) /\
  sum_over (countOutArcs g_three) (nodes g_three) = Ok (countArcs g_three) /\
  ((forall a, In a (arcs g_three) -> In (target g_three a) (nodes g_three)) ->
   sum_over (countInArcs g_three) (nodes g_three) = Ok (countArcs g_three)).
Proof.
  assert (Hnd : NoDup (nodes g_three)).
  { cbn. repeat constructor; cbn; intuition discriminate. }
  assert (Hlen : Z.of_nat (length (arcs g_three)) < 2 ^ 31) by (cbn; lia).
  split; [exact wf_g_three|]. split; [exact Hnd|]. split; [exact Hlen|].
  exact (degree_counts_add_up g_three wf_g_three Hnd Hlen).
Defined.
(** ** Linear search: [findArc] and [ConArcIt] *)

Lemma arc_after_split (e : Arc) (p q : list Arc) :
  ~ In e p -> arc_after e (p ++ e :: q) = hd INVALID q.
Proof.
  induction p as [|x p IH]; intros Hni.
  - cbn [app arc_after]. rewrite Z.eqb_refl. reflexivity.
  - cbn [app arc_after].
    assert (Hx : (x =? e) = false).
    { apply Z.eqb_neq. intros ->. apply Hni. left. reflexivity. }
    rewrite Hx. apply IH. intros F. apply Hni. right. exact F.
Qed.

Section FindArc.

Variable g : Digraph.
Hypothesis Hwf : wf_graph g.

Lemma nextOut_split (u : Node) (e : Arc) (p q : list Arc) :
  outArcs g u = p ++ e :: q ->
  nextOut g e = Ok (hd INVALID q).
Proof.
  intros E.
  assert (He : In e (outArcs g u)) by (rewrite E; apply in_or_app; right; left; reflexivity).
  apply outArcs_in in He. destruct He as [He Hs].
  assert (Hev : e <> INVALID) by (intros ->; exact (wf_arcs_valid g Hwf He)).
  unfold nextOut, g_source. rewrite (get_ok _ e Hev). cbn [bind].
  rewrite Hs, E. f_equal. apply arc_after_split.
  pose proof (outArcs_nodup g u (wf_arcs_nodup g Hwf)) as Hnd.
  rewrite E in Hnd. apply NoDup_remove_2 in Hnd.
  intros F. apply Hnd. apply in_or_app. left. exact F.
Qed.

(** The loop of [find] stops at the first arc with the target [v]. *)
Lemma findArc_loop_spec (u v : Node) :
  forall (q p : list Arc) (fuel : nat),
    outArcs g u = p ++ q ->
    (length q <= fuel)%nat ->
    findArc_loop fuel g v (hd INVALID q)
    = Ok (match find (fun a => target g a =? v) q with
          | Some a => a
          | None => INVALID
          end).
Proof.
  induction q as [|e q IH]; intros p fuel E Hfuel.
  - cbn [hd find]. destruct fuel; reflexivity.
  - assert (He : In e (outArcs g u))
      by (rewrite E; apply in_or_app; right; left; reflexivity).
    apply outArcs_in in He. destruct He as [He Hs].
    assert (Hev : e <> INVALID) by (intros ->; exact (wf_arcs_valid g Hwf He)).
    cbn [hd find].
    destruct fuel as [|f].
    + cbn [length] in Hfuel. lia.
    + cbn [findArc_loop]. rewrite (eqb_invalid_false e Hev).
      unfold g_target. rewrite (get_ok _ e Hev). cbn [bind].
      destruct (target g e =? v); cbn [negb]; [reflexivity|].
      rewrite (nextOut_split u e p q E). cbn [bind].
      apply (IH (p ++ [e])).
      * rewrite E, <- app_assoc. reflexivity.
      * cbn [length] in Hfuel. lia.
Qed.

Lemma findArc_first (u v : Node) :
  u <> INVALID ->
  findArc g u v INVALID
  = Ok (match find (fun a => target g a =? v) (outArcs g u) with
        | Some a => a
        | None => INVALID
        end).
Proof.
  intros Hu. unfold findArc, firstOut, out_arcs.
  assert (Ei : (INVALID =? INVALID) = true) by reflexivity.
  rewrite Ei, (eqb_invalid_false u Hu). cbn [bind].
  apply (findArc_loop_spec u v (outArcs g u) []); [reflexivity|].
  unfold fuel_of. pose proof (outArcs_length g u). lia.
Qed.

Lemma findArc_next (u v : Node) (e : Arc) (p q : list Arc) :
  outArcs g u = p ++ e :: q ->
  findArc g u v e
  = Ok (match find (fun a => target g a =? v) q with
        | Some a => a
        | None => INVALID
        end).
Proof.
  intros E.
  assert (He : In e (outArcs g u))
    by (rewrite E; apply in_or_app; right; left; reflexivity).
  apply outArcs_in in He. destruct He as [He Hs].
  assert (Hev : e <> INVALID) by (intros ->; exact (wf_arcs_valid g Hwf He)).
  unfold findArc. rewrite (eqb_invalid_false e Hev).
  rewrite (nextOut_split u e p q E). cbn [bind].
  apply (findArc_loop_spec u v q (p ++ [e])).
  - rewrite E, <- app_assoc. reflexivity.
  - pose proof (outArcs_length g u) as L. rewrite E, length_app in L.
    cbn [length] in L. unfold fuel_of. lia.
Qed.

Lemma con_run_from_spec (u v : Node) :
  forall (n : nat) (q p : list Arc) (fuel : nat) (e : Arc),
    (length q < n)%nat ->
    outArcs g u = p ++ e :: q ->
    target g e = v ->
    (length q < fuel)%nat ->
    ConArcIt.run_from fuel g e
    = Ok (e :: filter (fun a => target g a =? v) q).
Proof.
  induction n as [|n IH]; intros b p fuel e Hn E Ht Hfuel; [lia|].
  assert (He : In e (outArcs g u))
    by (rewrite E; apply in_or_app; right; left; reflexivity).
  apply outArcs_in in He. destruct He as [He Hs].
  assert (Hev : e <> INVALID) by (intros ->; exact (wf_arcs_valid g Hwf He)).
  destruct fuel as [|f]; [lia|].
  cbn [ConArcIt.run_from]. rewrite (eqb_invalid_false e Hev).
  unfold ConArcIt.incr, g_source, g_target.
  rewrite !(get_ok _ e Hev). cbn [bind]. rewrite Hs, Ht.
  rewrite (findArc_next u v e p b E). cbn [bind].
  destruct (find (fun a => target g a =? v) b) as [x|] eqn:Ef.
  - destruct (find_split _ _ _ Ef) as [p' [q' [E' [Hp' Hx]]]].
    apply Z.eqb_eq in Hx.
    rewrite (IH q' (p ++ e :: p') f x).
    + cbn [bind]. rewrite E', filter_app, Hp'. cbn [app filter].
      rewrite Hx, Z.eqb_refl. reflexivity.
    + rewrite E', length_app in Hn. cbn [length] in Hn. lia.
    + rewrite E, E', <- app_assoc. reflexivity.
    + exact Hx.
    + rewrite E', length_app in Hfuel. cbn [length] in Hfuel. lia.
  - rewrite (find_none_filter _ _ Ef).
    assert (Ei : (INVALID =? INVALID) = true) by reflexivity.
    destruct f; cbn [ConArcIt.run_from]; rewrite Ei; reflexivity.
Qed.

Lemma con_run_spec (u v : Node) :
  u <> INVALID ->
  ConArcIt.run g u v = Ok (filter (fun a => target g a =? v) (outArcs g u)).
Proof.
  intros Hu. unfold ConArcIt.run, ConArcIt.make.
  rewrite (findArc_first u v Hu). cbn [bind].
  destruct (find (fun a => target g a =? v) (outArcs g u)) as [x|] eqn:Ef.
  - destruct (find_split _ _ _ Ef) as [p [q [E [Hp Hx]]]].
    apply Z.eqb_eq in Hx.
    rewrite (con_run_from_spec u v (S (length q)) q p (fuel_of g) x (Nat.lt_succ_diag_r _) E Hx).
    + rewrite E, filter_app, Hp. cbn [app filter].
      rewrite Hx, Z.eqb_refl. reflexivity.
    + pose proof (outArcs_length g u) as L. rewrite E, length_app in L.
      cbn [length] in L. unfold fuel_of. lia.
  - rewrite (find_none_filter _ _ Ef).
    unfold fuel_of. cbn [ConArcIt.run_from]. reflexivity.
Qed.

End FindArc.

Lemma find_first_filter (f : Arc -> bool) (l : list Arc) :
  match find f l with Some x => x | None => INVALID end
  = hd INVALID (filter f l).
Proof.
  induction l as [|x l IH]; [reflexivity|].
  cbn [find filter]. destruct (f x); [reflexivity | exact IH].
Qed.

Lemma first_match_facts (g : Digraph) (u v : Node) (l : list Arc) (a : Arc) :
  wf_graph g ->
  (forall x, In x l -> In x (outArcs g u)) ->
  a = match find (fun x => target g x =? v) l with
      | Some x => x
      | None => INVALID
      end ->
  (a <> INVALID -> In a l /\ In a (arcs g) /\ source g a = u /\ target g a = v) /\
  (a = INVALID <-> filter (fun x => target g x =? v) l = []).
Proof.
  intros Hwf Hsub E.
  destruct (find (fun x => target g x =? v) l) as [x|] eqn:Ef.
  - subst a. pose proof (find_some _ _ Ef) as [Hin Ht].
    apply Z.eqb_eq in Ht.
    pose proof (Hsub x Hin) as Hout. apply outArcs_in in Hout.
    destruct Hout as [Hx Hs].
    split; [intros _; repeat split; assumption|].
    split; intros F.
    + exfalso. rewrite F in Hx. exact (wf_arcs_valid g Hwf Hx).
    + exfalso.
      assert (Hf : In x (filter (fun y => target g y =? v) l)).
      { apply filter_In. split; [exact Hin|]. rewrite Ht. apply Z.eqb_refl. }
      rewrite F in Hf. exact Hf.
  - subst a. split; [congruence|].
    split; intros _; [exact (find_none_filter _ _ Ef) | reflexivity].
Qed.

(** X10: [findArc(g,u,v)] returns the first arc with target [v] among
    the arcs leaving [u], in the order of the out-arc iterator, and
    [findArc(g,u,v,prev)] the first one among those that follow [prev];
    it returns INVALID when there is none.  So the arc returned runs
    from [u] to [v], and INVALID is returned exactly when no arc to [v]
    is left. *)
Theorem findArc_returns_next_match :
  forall (g : Digraph) (u v : Node),
    wf_graph g -> u <> INVALID ->
    (findArc g u v INVALID
     = Ok (hd INVALID (filter (fun x => target g x =? v) (outArcs g u))) /\
     exists a,
       findArc g u v INVALID = Ok a /\
       (a <> INVALID -> In a (arcs g) /\ source g a = u /\ target g a = v) /\
       (a = INVALID <-> arcs_between g u v = [])) /\
    (forall (prev : Arc) (p q : list Arc),
       outArcs g u = p ++ prev :: q ->
       findArc g u v prev
       = Ok (hd INVALID (filter (fun x => target g x =? v) q)) /\
       exists a,
         findArc g u v prev = Ok a /\
         (a <> INVALID ->
          In a q /\ In a (arcs g) /\ source g a = u /\ target g a = v) /\
         (a = INVALID <-> filter (fun x => target g x =? v) q = [])).
Proof.
  intros g u v Hwf Hu. split.
  - split.
    + rewrite (findArc_first g Hwf u v Hu). f_equal. apply find_first_filter.
    + eexists. split; [exact (findArc_first g Hwf u v Hu)|].
      destruct (first_match_facts g u v (outArcs g u) _ Hwf (fun x H => H) eq_refl)
        as [P1 P2].
      split; [intros Ha; apply (P1 Ha)|].
      unfold arcs_between. rewrite <- filter_twice. exact P2.
  - intros prev p q E. split.
    + rewrite (findArc_next g Hwf u v prev p q E). f_equal.
      apply find_first_filter.
    + eexists. split; [exact (findArc_next g Hwf u v prev p q E)|].
      apply (first_match_facts g u v q _ Hwf); [|reflexivity].
      intros x Hx. rewrite E. apply in_or_app. right. right. exact Hx.
Qed.

Lemma findArc_returns_next_match_witness :
  wf_graph g_parallel /\ 0 <> INVALID /\
  findArc g_parallel 0 1 10
  = Ok (hd INVALID (filter (fun x => target g_parallel x =? 1) [11; 12])) /\
  exists a,
    findArc g_parallel 0 1 10 = Ok a /\
    (a <> INVALID ->
     In a [11; 12] /\ In a (arcs g_parallel) /\
     source g_parallel a = 0 /\ target g_parallel a = 1) /\
    (a = INVALID <-> filter (fun x => target g_parallel x =? 1) [11; 12] = []).
Proof.
  assert (H0 : 0 <> INVALID) by discriminate.
  split; [exact wf_g_parallel|]. split; [exact H0|].
  exact (proj2 (findArc_returns_next_match g_parallel 0 1 wf_g_parallel H0)
               10 [] [11; 12] eq_refl).
Defined.

(** X11: the loop [for (ConArcIt it(g,u,v); it != INVALID; ++it)]
    returns and stands, one after the other, on the arcs of the graph
    from [u] to [v]: all of them, each once, in the order of the
    out-arc iterator. *)
Theorem con_arc_it_enumerates :
  forall (g : Digraph) (u v : Node),
    wf_graph g -> u <> INVALID ->
    exists l,
      ConArcIt.run g u v = Ok l /\
      l = filter (fun a => target g a =? v) (outArcs g u) /\
      l = arcs_between g u v /\
      NoDup l.
Proof.
  intros g u v Hwf Hu.
  eexists. split; [exact (con_run_spec g Hwf u v Hu)|].
  split; [reflexivity|].
  assert (E : filter (fun a => target g a =? v) (outArcs g u) = arcs_between g u v).
  { unfold arcs_between, outArcs. apply filter_twice. }
  split; [exact E|]. rewrite E.
  unfold arcs_between. apply NoDup_filter. exact (wf_arcs_nodup g Hwf).
Qed.

Lemma con_arc_it_enumerates_witness :
  wf_graph g_parallel /\ 0 <> INVALID /\
  exists l,
    ConArcIt.run g_parallel 0 1 = Ok l /\
    l = filter (fun a => target g_parallel a =? 1) (outArcs g_parallel 0) /\
    l = arcs_between g_parallel 0 1 /\
    NoDup l.
Proof.
  assert (H0 : 0 <> INVALID) by discriminate.
  split; [exact wf_g_parallel|]. split; [exact H0|].
  exact (con_arc_it_enumerates g_parallel 0 1 wf_g_parallel H0).
Defined.
(** ** DigraphCopy *)

Section CopyGraph.

Import DigraphCopy.

Variable new_node : Digraph -> Node.
Variable new_arc : Digraph -> Arc.
Hypothesis new_node_fresh :
  forall to, new_node to <> INVALID /\ ~ In (new_node to) (nodes to).
Hypothesis new_arc_fresh :
  forall to, new_arc to <> INVALID /\ ~ In (new_arc to) (arcs to).

Lemma copy_nodes_spec (ns : list Node) :
  forall (to : Digraph) (m : ItemMap),
    ~ In INVALID ns -> NoDup ns ->
    exists to' m',
      copy_nodes new_node ns to m = Ok (to', m') /\
      nodes to' = rev (map m' ns) ++ nodes to /\
      arcs to' = arcs to /\ source to' = source to /\
      target to' = target to /\ node_lt to' = node_lt to /\
      NoDup (map m' ns) /\
      (forall n, In n ns -> m' n <> INVALID /\ ~ In (m' n) (nodes to)) /\
      (forall k, ~ In k ns -> m' k = m k).
Proof.
  induction ns as [|it ns IH]; intros to m Hv Hnd.
  - exists to, m. cbn [copy_nodes map rev app].
    repeat (split; [reflexivity|]). split; [constructor|].
    split; [intros n []|]. intros k _. reflexivity.
  - apply NoDup_cons_iff in Hnd. destruct Hnd as [Hit Hnd].
    assert (Hitv : it <> INVALID) by (intros F; apply Hv; left; exact F).
    cbn [copy_nodes addNode]. rewrite (set_ok _ it _ Hitv). cbn [bind].
    set (n := new_node to).
    set (to1 := {| nodes := n :: nodes to; arcs := arcs to; source := source to;
                   target := target to; node_lt := node_lt to |}).
    destruct (IH to1 (upd m it n)) as [to' [m' [R [Hn [Ha [Hs [Ht [Hl [Hnd' [Hf Hk]]]]]]]]]].
    + intros F. apply Hv. right. exact F.
    + exact Hnd.
    + exists to', m'. split; [exact R|].
      assert (Eit : m' it = n) by (rewrite (Hk it Hit); apply upd_same).
      split.
      { rewrite Hn. cbn [map rev nodes to1]. rewrite Eit, <- app_assoc. reflexivity. }
      split; [rewrite Ha; reflexivity|].
      split; [rewrite Hs; reflexivity|].
      split; [rewrite Ht; reflexivity|].
      split; [rewrite Hl; reflexivity|].
      split.
      { cbn [map]. constructor; [|exact Hnd'].
        rewrite Eit. intros F. apply in_map_iff in F.
        destruct F as [k [Ek Hkin]]. destruct (Hf k Hkin) as [_ Hfk].
        apply Hfk. cbn [nodes to1]. left. symmetry. exact Ek. }
      split.
      { intros k [<-|Hkin].
        - rewrite Eit. exact (new_node_fresh to).
        - destruct (Hf k Hkin) as [H1 H2]. split; [exact H1|].
          intros F. apply H2. cbn [nodes to1]. right. exact F. }
      intros k Hkn. rewrite Hk by (intros F; apply Hkn; right; exact F).
      apply upd_other. intros ->. apply Hkn. left. reflexivity.
Qed.

Lemma copy_arcs_spec (from : Digraph) (nrm : ItemMap) (l : list Arc) :
  forall (to : Digraph) (m : ItemMap),
    ~ In INVALID l -> NoDup l ->
    (forall a, In a l -> source from a <> INVALID /\ target from a <> INVALID) ->
    exists to' m',
      copy_arcs new_arc from l to nrm m = Ok (to', m') /\
      arcs to' = rev (map m' l) ++ arcs to /\
      nodes to' = nodes to /\ node_lt to' = node_lt to /\
      NoDup (map m' l) /\
      (forall a, In a l -> m' a <> INVALID /\ ~ In (m' a) (arcs to)) /\
      (forall a, In a l ->
         source to' (m' a) = nrm (source from a) /\
         target to' (m' a) = nrm (target from a)) /\
      (forall b, In b (arcs to) ->
         source to' b = source to b /\ target to' b = target to b) /\
      (forall k, ~ In k l -> m' k = m k).
Proof.
  induction l as [|it l IH]; intros to m Hv Hnd Hends.
  - exists to, m. cbn [copy_arcs map rev app].
    repeat (split; [reflexivity|]). split; [constructor|].
    split; [intros a []|]. split; [intros a []|].
    split; [intros b _; split; reflexivity|]. intros k _. reflexivity.
  - apply NoDup_cons_iff in Hnd. destruct Hnd as [Hit Hnd].
    assert (Hitv : it <> INVALID) by (intros F; apply Hv; left; exact F).
    destruct (Hends it (or_introl eq_refl)) as [Hsv Htv].
    cbn [copy_arcs addArc]. unfold g_source, g_target.
    rewrite !(get_ok _ it Hitv). cbn [bind].
    rewrite (get_ok _ _ Hsv). cbn [bind].
    rewrite (get_ok _ _ Htv). cbn [bind].
    rewrite (set_ok _ it _ Hitv). cbn [bind].
    set (a := new_arc to).
    set (to1 := graph_add to a (nrm (source from it)) (nrm (target from it))).
    destruct (new_arc_fresh to) as [Hav Hafresh]. fold a in Hav, Hafresh.
    destruct (IH to1 (upd m it a))
      as [to' [m' [R [Ha [Hn [Hl [Hnd' [Hf [Hst [Hold Hk]]]]]]]]]].
    + intros F. apply Hv. right. exact F.
    + exact Hnd.
    + intros b Hb. apply Hends. right. exact Hb.
    + exists to', m'. split; [exact R|].
      assert (Eit : m' it = a) by (rewrite (Hk it Hit); apply upd_same).
      split.
      { rewrite Ha. cbn [map rev]. unfold to1. cbn [graph_add arcs].
        rewrite Eit, <- app_assoc. reflexivity. }
      split; [rewrite Hn; reflexivity|].
      split; [rewrite Hl; reflexivity|].
      split.
      { cbn [map]. constructor; [|exact Hnd'].
        rewrite Eit. intros F. apply in_map_iff in F.
        destruct F as [k [Ek Hkin]]. destruct (Hf k Hkin) as [_ Hfk].
        apply Hfk. unfold to1. cbn [graph_add arcs]. left. symmetry. exact Ek. }
      split.
      { intros k [<-|Hkin].
        - rewrite Eit. split; assumption.
        - destruct (Hf k Hkin) as [H1 H2]. split; [exact H1|].
          intros F. apply H2. unfold to1. cbn [graph_add arcs]. right. exact F. }
      split.
      { intros k [<-|Hkin].
        - rewrite Eit.
          destruct (Hold a) as [E1 E2].
          { unfold to1. cbn [graph_add arcs]. left. reflexivity. }
          rewrite E1, E2. unfold to1. cbn [graph_add source target].
          rewrite !upd_same. split; reflexivity.
        - exact (Hst k Hkin). }
      split.
      { intros b Hb. destruct (Hold b) as [E1 E2].
        { unfold to1. cbn [graph_add arcs]. right. exact Hb. }
        rewrite E1, E2. unfold to1. cbn [graph_add source target].
        assert (b <> a) by (intros ->; contradiction).
        rewrite !upd_other by assumption. split; reflexivity. }
      intros k Hkn. rewrite Hk by (intros F; apply Hkn; right; exact F).
      apply upd_other. intros ->. apply Hkn. left. reflexivity.
Qed.

Lemma copy_spec (from to : Digraph) (mem_n mem_a : ItemMap) :
  closed_graph from ->
  exists to' nrm arm,
    copy new_node new_arc from to mem_n mem_a = Ok (to', nrm, arm) /\
    nodes to' = rev (map nrm (nodes from)) ++ nodes to /\
    arcs to' = rev (map arm (arcs from)) ++ arcs to /\
    node_lt to' = node_lt to /\
    NoDup (map nrm (nodes from)) /\
    NoDup (map arm (arcs from)) /\
    (forall n, In n (nodes from) -> nrm n <> INVALID /\ ~ In (nrm n) (nodes to)) /\
    (forall a, In a (arcs from) -> arm a <> INVALID /\ ~ In (arm a) (arcs to)) /\
    (forall a, In a (arcs from) ->
       source to' (arm a) = nrm (source from a) /\
       target to' (arm a) = nrm (target from a)) /\
    (forall b, In b (arcs to) ->
       source to' b = source to b /\ target to' b = target to b).
Proof.
  intros [Hwf [Hndn Htgt]].
  destruct (copy_nodes_spec (nodes from) to mem_n (wf_nodes_valid from Hwf) Hndn)
    as [to1 [nrm [R1 [Hn1 [Ha1 [Hs1 [Ht1 [Hl1 [Hnd1 [Hf1 _]]]]]]]]]].
  destruct (copy_arcs_spec from nrm (arcs from) to1 mem_a
              (wf_arcs_valid from Hwf) (wf_arcs_nodup from Hwf))
    as [to2 [arm [R2 [Ha2 [Hn2 [Hl2 [Hnd2 [Hf2 [Hst [Hold _]]]]]]]]]].
  { intros a Ha. split; intros F.
    - apply (wf_nodes_valid from Hwf). rewrite <- F.
      exact (wf_source from Hwf a Ha).
    - apply (wf_nodes_valid from Hwf). rewrite <- F. exact (Htgt a Ha). }
  exists to2, nrm, arm. unfold copy. rewrite R1. cbn [bind]. rewrite R2. cbn [bind].
  split; [reflexivity|].
  split; [rewrite Hn2; exact Hn1|].
  split; [rewrite Ha2, Ha1; reflexivity|].
  split; [rewrite Hl2; exact Hl1|].
  split; [exact Hnd1|]. split; [exact Hnd2|].
  split; [exact Hf1|].
  split; [intros a Ha; rewrite <- Ha1; exact (Hf2 a Ha)|].
  split; [exact Hst|].
  intros b Hb. rewrite <- Ha1 in Hb. destruct (Hold b Hb) as [E1 E2].
  rewrite E1, E2, Hs1, Ht1. split; reflexivity.
Qed.

End CopyGraph.
Section CopyMembers.

Import DigraphCopy.

(** A loop that stores [val it] at [key it] of the caller's map [d], for
    every item met. *)
Lemma for_items_upd (d : nat) (key val : Z -> Z) (inv : user -> Prop)
  (body : user -> Z -> result user) (its : list Z) :
  (forall u m, inv u -> inv (set_map u d m)) ->
  (forall u it, In it its -> inv u ->
     body u it = Ok (set_map u d (upd (maps u d) (key it) (val it)))) ->
  forall u, inv u ->
    exists u',
      for_items body u its = Ok u' /\ inv u' /\
      items u' = items u /\
      (forall j, j <> d -> maps u' j = maps u j) /\
      (NoDup (map key its) ->
       forall it, In it its -> maps u' d (key it) = val it) /\
      (forall k, ~ In k (map key its) -> maps u' d k = maps u d k).
Proof.
  intros Hinv. induction its as [|x its IH]; intros Hbody u Hu.
  - exists u. cbn [for_items]. split; [reflexivity|]. split; [exact Hu|].
    split; [reflexivity|]. split; [intros; reflexivity|].
    split; [intros _ it []|intros; reflexivity].
  - cbn [for_items]. rewrite (Hbody u x (or_introl eq_refl) Hu). cbn [bind].
    set (u1 := set_map u d (upd (maps u d) (key x) (val x))).
    destruct (IH (fun u0 it H => Hbody u0 it (or_intror H)) u1 (Hinv _ _ Hu))
      as [u' [R [Hu' [Hi [Hj [Hin Hout]]]]]].
    assert (E1 : maps u1 d = upd (maps u d) (key x) (val x)).
    { unfold u1, set_map. cbn [maps]. rewrite Nat.eqb_refl. reflexivity. }
    exists u'. split; [exact R|]. split; [exact Hu'|].
    split; [rewrite Hi; reflexivity|].
    split.
    { intros j Hjd. rewrite (Hj j Hjd). unfold u1, set_map. cbn [maps].
      apply Nat.eqb_neq in Hjd. rewrite Hjd. reflexivity. }
    split.
    { intros Hnd it [<-|Hit].
      - cbn [map] in Hnd. apply NoDup_cons_iff in Hnd. destruct Hnd as [Hx _].
        rewrite (Hout (key x) Hx), E1. apply upd_same.
      - cbn [map] in Hnd. apply NoDup_cons_iff in Hnd. destruct Hnd as [_ Hnd].
        exact (Hin Hnd it Hit). }
    intros k Hk. rewrite Hout by (intros F; apply Hk; right; exact F).
    rewrite E1. apply upd_other. intros ->. apply Hk. left. reflexivity.
Qed.

Variable its : list Z.
Variable refMap : ItemMap.
Hypothesis Hits : ~ In INVALID its.

Lemma its_valid (it : Z) : In it its -> it <> INVALID.
Proof. intros H ->. exact (Hits H). Qed.

Lemma ref_copy_spec (d : nat) (u : user) :
  NoDup its ->
  exists u',
    copy_member its refMap u (RefCopy d) = Ok u' /\
    items u' = items u /\
    (forall j, j <> d -> maps u' j = maps u j) /\
    (forall it, In it its -> maps u' d it = refMap it).
Proof.
  intros Hnd.
  destruct (for_items_upd d (fun it => it) refMap (fun _ => True)
              (fun u it => r <- get refMap it ;;
                           m <- set (maps u d) it r ;;
                           Ok (set_map u d m)) its)
    with (u := u) as [u' [R [_ [Hi [Hj [Hin _]]]]]].
  - intros; exact I.
  - intros u0 it Hit _. pose proof (its_valid it Hit) as Hv.
    rewrite (get_ok _ it Hv). cbn [bind]. rewrite (set_ok _ it _ Hv). reflexivity.
  - exact I.
  - exists u'. split; [exact R|]. split; [exact Hi|]. split; [exact Hj|].
    apply Hin. rewrite map_id. exact Hnd.
Qed.

Lemma cross_ref_copy_spec (d : nat) (u : user) :
  NoDup (map refMap its) -> ~ In INVALID (map refMap its) ->
  exists u',
    copy_member its refMap u (CrossRefCopy d) = Ok u' /\
    items u' = items u /\
    (forall j, j <> d -> maps u' j = maps u j) /\
    (forall it, In it its -> maps u' d (refMap it) = it).
Proof.
  intros Hnd Hv.
  destruct (for_items_upd d refMap (fun it => it) (fun _ => True)
              (fun u it => r <- get refMap it ;;
                           m <- set (maps u d) r it ;;
                           Ok (set_map u d m)) its)
    with (u := u) as [u' [R [_ [Hi [Hj [Hin _]]]]]].
  - intros; exact I.
  - intros u0 it Hit _. pose proof (its_valid it Hit) as Hiv.
    rewrite (get_ok _ it Hiv). cbn [bind].
    rewrite set_ok; [reflexivity|].
    intros F. apply Hv. rewrite <- F. apply in_map. exact Hit.
  - exact I.
  - exists u'. split; [exact R|]. split; [exact Hi|]. split; [exact Hj|].
    exact (Hin Hnd).
Qed.

Lemma map_copy_spec (d s : nat) (u : user) :
  d <> s ->
  NoDup (map refMap its) -> ~ In INVALID (map refMap its) ->
  exists u',
    copy_member its refMap u (MapCopy d s) = Ok u' /\
    items u' = items u /\
    (forall j, j <> d -> maps u' j = maps u j) /\
    (forall it, In it its -> maps u' d (refMap it) = maps u s it).
Proof.
  intros Hds Hnd Hv.
  destruct (for_items_upd d refMap (maps u s) (fun u0 => maps u0 s = maps u s)
              (fun u it => r <- get refMap it ;;
                           v <- get (maps u s) it ;;
                           m <- set (maps u d) r v ;;
                           Ok (set_map u d m)) its)
    with (u := u) as [u' [R [_ [Hi [Hj [Hin _]]]]]].
  - intros u0 m H. unfold set_map. cbn [maps].
    assert (E : Nat.eqb s d = false) by (apply Nat.eqb_neq; congruence).
    rewrite E. exact H.
  - intros u0 it Hit Hu0. pose proof (its_valid it Hit) as Hiv.
    rewrite (get_ok _ it Hiv). cbn [bind].
    rewrite (get_ok _ it Hiv). cbn [bind].
    rewrite set_ok; [rewrite Hu0; reflexivity|].
    intros F. apply Hv. rewrite <- F. apply in_map. exact Hit.
  - reflexivity.
  - exists u'. split; [exact R|]. split; [exact Hi|]. split; [exact Hj|].
    exact (Hin Hnd).
Qed.

Lemma item_copy_spec (d : nat) (x : Z) (u : user) :
  In x its ->
  copy_member its refMap u (ItemCopy d x) = Ok (set_item u d (refMap x)).
Proof.
  intros Hx. cbn [copy_member]. rewrite (get_ok _ x (its_valid x Hx)).
  reflexivity.
Qed.

End CopyMembers.
Lemma next_id_above (l : list Z) : forall x, In x l -> x < next_id l.
Proof.
  unfold next_id. induction l as [|y l IH]; intros x Hx; [contradiction|].
  cbn [fold_right]. destruct Hx as [<-|Hx]; [lia|].
  specialize (IH x Hx). lia.
Qed.

Lemma next_id_fresh (l : list Z) : next_id l <> INVALID /\ ~ In (next_id l) l.
Proof.
  split.
  - unfold next_id, INVALID.
    assert (-1 <= fold_right Z.max (-1) l).
    { induction l as [|y l IH]; cbn [fold_right]; lia. }
    lia.
  - intros F. apply next_id_above in F. lia.
Qed.

(** X12: [DigraphCopy::run()] with the node members [nodeRef],
    [nodeCrossRef], [nodeMap], [node] and the arc members [arcRef],
    [arcCrossRef], on a target graph that hands out unused identifiers.
    The nodes and arcs of the source graph are added to the target one
    for one; the cross references are the inverses of the references;
    every copied arc runs between the copies of its end nodes; the
    copied map holds at the copy of a node what the source map holds
    at the node; the node handed to [node] is set to its copy; and the
    arcs the target had before keep their ends. *)
Theorem digraph_copy_run :
  forall (new_node : Digraph -> Node) (new_arc : Digraph -> Arc),
    (forall to, new_node to <> INVALID /\ ~ In (new_node to) (nodes to)) ->
    (forall to, new_arc to <> INVALID /\ ~ In (new_arc to) (arcs to)) ->
    forall (from to : Digraph) (u : DigraphCopy.user) (mem_n mem_a : ItemMap)
           (x : Node),
      closed_graph from -> In x (nodes from) ->
      exists to' u',
        DigraphCopy.run new_node new_arc from to
          [DigraphCopy.RefCopy 0; DigraphCopy.CrossRefCopy 1;
           DigraphCopy.MapCopy 2 3; DigraphCopy.ItemCopy 0 x]
          [DigraphCopy.RefCopy 4; DigraphCopy.CrossRefCopy 5]
          u mem_n mem_a = Ok (to', u') /\
        nodes to'
        = rev (map (DigraphCopy.maps u' 0) (nodes from)) ++ nodes to /\
        arcs to'
        = rev (map (DigraphCopy.maps u' 4) (arcs from)) ++ arcs to /\
        (forall n, In n (nodes from) ->
           ~ In (DigraphCopy.maps u' 0 n) (nodes to) /\
           DigraphCopy.maps u' 1 (DigraphCopy.maps u' 0 n) = n /\
           DigraphCopy.maps u' 2 (DigraphCopy.maps u' 0 n)
           = DigraphCopy.maps u 3 n) /\
        DigraphCopy.items u' 0 = DigraphCopy.maps u' 0 x /\
        (forall a, In a (arcs from) ->
           ~ In (DigraphCopy.maps u' 4 a) (arcs to) /\
           DigraphCopy.maps u' 5 (DigraphCopy.maps u' 4 a) = a /\
           source to' (DigraphCopy.maps u' 4 a)
           = DigraphCopy.maps u' 0 (source from a) /\
           target to' (DigraphCopy.maps u' 4 a)
           = DigraphCopy.maps u' 0 (target from a)) /\
        (forall b, In b (arcs to) ->
           source to' b = source to b /\ target to' b = target to b).
Proof.
  intros new_node new_arc Hfn Hfa from to u mem_n mem_a x Hcl Hx.
  destruct (copy_spec new_node new_arc Hfn Hfa from to mem_n mem_a Hcl)
    as [to' [nrm [arm [R [Hn [Ha [_ [Hndn [Hnda [Hfn' [Hfa' [Hst Hold]]]]]]]]]]]].
  destruct Hcl as [Hwf [Hndnodes Htgt]].
  pose proof (wf_nodes_valid from Hwf) as Hnv.
  pose proof (wf_arcs_valid from Hwf) as Hav.
  assert (Hvn : ~ In INVALID (map nrm (nodes from))).
  { intros F. apply in_map_iff in F. destruct F as [n [E Hin]].
    exact (proj1 (Hfn' n Hin) E). }
  assert (Hva : ~ In INVALID (map arm (arcs from))).
  { intros F. apply in_map_iff in F. destruct F as [a [E Hin]].
    exact (proj1 (Hfa' a Hin) E). }
  destruct (ref_copy_spec (nodes from) nrm Hnv 0%nat u Hndnodes)
    as [u1 [R1 [I1 [J1 K1]]]].
  destruct (cross_ref_copy_spec (nodes from) nrm Hnv 1%nat u1 Hndn Hvn)
    as [u2 [R2 [I2 [J2 K2]]]].
  destruct (map_copy_spec (nodes from) nrm Hnv 2%nat 3%nat u2) as [u3 [R3 [I3 [J3 K3]]]];
    [discriminate | exact Hndn | exact Hvn |].
  pose proof (item_copy_spec (nodes from) nrm Hnv 0%nat x u3 Hx) as R4.
  set (u4 := DigraphCopy.set_item u3 0 (nrm x)) in R4.
  destruct (ref_copy_spec (arcs from) arm Hav 4%nat u4 (wf_arcs_nodup from Hwf))
    as [u5 [R5 [I5 [J5 K5]]]].
  destruct (cross_ref_copy_spec (arcs from) arm Hav 5%nat u5 Hnda Hva)
    as [u6 [R6 [I6 [J6 K6]]]].
  exists to', u6. unfold DigraphCopy.run. rewrite R. cbn [bind].
  cbn [DigraphCopy.copy_members].
  rewrite R1. cbn [bind]. rewrite R2. cbn [bind]. rewrite R3. cbn [bind].
  rewrite R4. cbn [bind]. rewrite R5. cbn [bind]. rewrite R6. cbn [bind].
  split; [reflexivity|].
  assert (M0 : DigraphCopy.maps u6 0 = DigraphCopy.maps u1 0).
  { rewrite J6, J5 by discriminate. unfold u4. cbn [DigraphCopy.set_item DigraphCopy.maps].
    rewrite J3, J2 by discriminate. reflexivity. }
  assert (M1 : DigraphCopy.maps u6 1 = DigraphCopy.maps u2 1).
  { rewrite J6, J5 by discriminate. unfold u4. cbn [DigraphCopy.set_item DigraphCopy.maps].
    rewrite J3 by discriminate. reflexivity. }
  assert (M2 : DigraphCopy.maps u6 2 = DigraphCopy.maps u3 2).
  { rewrite J6, J5 by discriminate. reflexivity. }
  assert (M3 : DigraphCopy.maps u2 3 = DigraphCopy.maps u 3).
  { rewrite J2, J1 by discriminate. reflexivity. }
  assert (M4 : DigraphCopy.maps u6 4 = DigraphCopy.maps u5 4).
  { rewrite J6 by discriminate. reflexivity. }
  assert (Enr : forall n, In n (nodes from) -> DigraphCopy.maps u6 0 n = nrm n).
  { intros n Hin. rewrite M0. exact (K1 n Hin). }
  assert (Ear : forall a, In a (arcs from) -> DigraphCopy.maps u6 4 a = arm a).
  { intros a Hin. rewrite M4. exact (K5 a Hin). }
  split.
  { rewrite Hn. f_equal. f_equal. apply map_ext_in. intros n Hin.
    symmetry. exact (Enr n Hin). }
  split.
  { rewrite Ha. f_equal. f_equal. apply map_ext_in. intros a Hin.
    symmetry. exact (Ear a Hin). }
  split.
  { intros n Hin. rewrite (Enr n Hin). split; [exact (proj2 (Hfn' n Hin))|].
    split.
    - rewrite M1. exact (K2 n Hin).
    - rewrite M2, (K3 n Hin), M3. reflexivity. }
  split.
  { rewrite I6, I5. unfold u4. cbn [DigraphCopy.set_item DigraphCopy.items].
    rewrite (Enr x Hx). reflexivity. }
  split.
  { intros a Hin. rewrite (Ear a Hin). split; [exact (proj2 (Hfa' a Hin))|].
    split; [exact (K6 a Hin)|].
    destruct (Hst a Hin) as [E1 E2].
    rewrite E1, E2, (Enr _ (wf_source from Hwf a Hin)), (Enr _ (Htgt a Hin)).
    split; reflexivity. }
  exact Hold.
Qed.

Lemma closed_g_three : closed_graph g_three.
Proof.
  split; [exact wf_g_three|]. split.
  - cbn. repeat constructor; cbn; intuition discriminate.
  - intros a Ha. cbn in Ha.
    destruct Ha as [<-|[<-|[<-|[]]]]; vm_compute; tauto.
Qed.

Lemma digraph_copy_run_witness :
  let new_node := fun to : Digraph => next_id (nodes to) in
  let new_arc := fun to : Digraph => next_id (arcs to) in
  let u := {| DigraphCopy.maps := fun _ _ => 0; DigraphCopy.items := fun _ => 0 |} in
  (forall to, new_node to <> INVALID /\ ~ In (new_node to) (nodes to)) /\
  (forall to, new_arc to <> INVALID /\ ~ In (new_arc to) (arcs to)) /\
  closed_graph g_three /\ In 0 (nodes g_three) /\
  exists to' u',
    DigraphCopy.run new_node new_arc g_three g_one_arc
      [DigraphCopy.RefCopy 0; DigraphCopy.CrossRefCopy 1;
       DigraphCopy.MapCopy 2 3; DigraphCopy.ItemCopy 0 0]
      [DigraphCopy.RefCopy 4; DigraphCopy.CrossRefCopy 5]
      u (fun _ => INVALID) (fun _ => INVALID) = Ok (to', u') /\
    nodes to'
    = rev (map (DigraphCopy.maps u' 0) (nodes g_three)) ++ nodes g_one_arc /\
    arcs to'
    = rev (map (DigraphCopy.maps u' 4) (arcs g_three)) ++ arcs g_one_arc.
Proof.
  intros new_node new_arc u.
  assert (Hn : forall to, new_node to <> INVALID /\ ~ In (new_node to) (nodes to))
    by (intros to; apply next_id_fresh).
  assert (Ha : forall to, new_arc to <> INVALID /\ ~ In (new_arc to) (arcs to))
    by (intros to; apply next_id_fresh).
  assert (H0 : In 0 (nodes g_three)) by (cbn; tauto).
  split; [exact Hn|]. split; [exact Ha|]. split; [exact closed_g_three|].
  split; [exact H0|].
  destruct (digraph_copy_run new_node new_arc Hn Ha g_three g_one_arc u
              (fun _ => INVALID) (fun _ => INVALID) 0 closed_g_three H0)
    as [to' [u' [R [E1 [E2 _]]]]].
  exists to', u'. split; [exact R|]. split; [exact E1 | exact E2].
Defined.
(** ** The chain of the parallel-arc extension *)

Lemma succ_of_app_l (e : Arc) (l1 l2 : list Arc) (nx : Arc) :
  In e l1 -> succ_of e (l1 ++ l2) nx = succ_of e l1 (hd nx l2).
Proof.
  induction l1 as [|x l1 IH]; intros H; [contradiction|].
  cbn [app succ_of]. destruct (x =? e) eqn:E.
  - destruct l1; reflexivity.
  - apply IH. destruct H as [H|H]; [|exact H].
    apply Z.eqb_neq in E. congruence.
Qed.

Lemma succ_of_app_r (e : Arc) (l1 l2 : list Arc) (nx : Arc) :
  ~ In e l1 -> succ_of e (l1 ++ l2) nx = succ_of e l2 nx.
Proof.
  induction l1 as [|x l1 IH]; intros H; [reflexivity|].
  cbn [app succ_of].
  assert (E : (x =? e) = false).
  { apply Z.eqb_neq. intros ->. apply H. left. reflexivity. }
  rewrite E. apply IH. intros F. apply H. right. exact F.
Qed.

Lemma succ_of_split (e : Arc) (p q : list Arc) (nx : Arc) :
  ~ In e p -> succ_of e (p ++ e :: q) nx = hd nx q.
Proof.
  intros H. rewrite succ_of_app_r by exact H.
  cbn [succ_of]. rewrite Z.eqb_refl. reflexivity.
Qed.

Section AllChain.

Import AllArcLookUp.

Variable g : Digraph.

Lemma refreshNext_chain (T : tree) :
  forall (fuel : nat) (st : state) (x next : Arc),
    shape (ArcLookUp._left (base st)) (ArcLookUp._right (base st)) x T ->
    (depth T <= fuel)%nat ->
    NoDup (inorder T) ->
    exists st',
      refreshNext fuel g st x next = Ok (hd next (inorder T), st') /\
      base st' = base st /\
      (forall e, In e (inorder T) ->
         _next st' e = link g e (succ_of e (inorder T) next)) /\
      (forall k, ~ In k (inorder T) -> _next st' k = _next st k).
Proof.
  induction T as [|l IHl a r IHr]; intros fuel st x next HT Hd Hnd.
  - simpl in HT. subst x. exists st.
    split; [destruct fuel; reflexivity|].
    split; [reflexivity|]. split; [intros e []|intros; reflexivity].
  - simpl in HT. destruct HT as [-> [Ha [Hl Hr]]].
    destruct fuel as [|f]; [simpl in Hd; lia|].
    simpl in Hd. cbn [inorder] in Hnd.
    pose proof Hnd as Hnd0.
    apply NoDup_remove in Hnd0. destruct Hnd0 as [Hnd1 Hanot].
    assert (Hal : ~ In a (inorder l))
      by (intros F; apply Hanot; apply in_or_app; left; exact F).
    assert (Har : ~ In a (inorder r))
      by (intros F; apply Hanot; apply in_or_app; right; exact F).
    assert (Hndl : NoDup (inorder l)) by (apply NoDup_app_remove_r in Hnd1; exact Hnd1).
    assert (Hndr : NoDup (inorder r)) by (apply NoDup_app_remove_l in Hnd1; exact Hnd1).
    assert (Hdis : forall k, In k (inorder l) -> ~ In k (inorder r)).
    { intros k H1 H2. apply in_split in H1. destruct H1 as [u [w E]].
      rewrite E, <- app_assoc in Hnd1. cbn [app] in Hnd1.
      apply NoDup_remove_2 in Hnd1. apply Hnd1.
      apply in_or_app. right. apply in_or_app. right. exact H2. }
    cbn [refreshNext].
    rewrite (eqb_invalid_false a Ha).
    rewrite (get_ok _ a Ha). cbn [bind].
    destruct (IHr f st (ArcLookUp._right (base st) a) next Hr)
      as [st1 [R1 [B1 [C1 F1]]]]; [lia | exact Hndr |].
    rewrite R1. cbn [bind].
    set (nx1 := hd next (inorder r)).
    assert (Hv :
      (if negb (nx1 =? INVALID)
       then tn <- g_target g nx1 ;; th <- g_target g a ;;
            Ok (if tn =? th then nx1 else INVALID)
       else Ok INVALID) = Ok (link g a nx1)).
    { unfold link. destruct (Z.eqb_spec nx1 INVALID) as [E|E]; cbn [negb andb].
      - reflexivity.
      - unfold g_target. rewrite (get_ok _ nx1 E), (get_ok _ a Ha).
        cbn [bind]. reflexivity. }
    rewrite Hv. cbn [bind].
    unfold set_next. rewrite (set_ok _ a _ Ha). cbn [bind base].
    rewrite (get_ok _ a Ha). cbn [bind].
    match goal with |- context [refreshNext f g ?s _ _] => set (st2 := s) end.
    destruct (IHl f st2 (ArcLookUp._left (base st1) a) a)
      as [st3 [R2 [B2 [C2 F2]]]].
    + unfold st2. cbn [base]. rewrite B1. exact Hl.
    + lia.
    + exact Hndl.
    + exists st3. split.
      { rewrite R2. f_equal. f_equal. cbn [inorder].
        destruct (inorder l); reflexivity. }
      split; [rewrite B2; unfold st2; cbn [base]; exact B1|].
      split.
      * intros e He. cbn [inorder] in He |- *.
        apply in_app_or in He. destruct He as [He|[<-|He]].
        -- rewrite (C2 e He). f_equal.
           rewrite succ_of_app_l by exact He. reflexivity.
        -- rewrite (F2 a Hal). unfold st2. cbn [_next]. rewrite upd_same.
           f_equal. rewrite succ_of_split by exact Hal. reflexivity.
        -- assert (Hel : ~ In e (inorder l)) by (intros F; exact (Hdis e F He)).
           assert (Hea : e <> a) by (intros ->; contradiction).
           rewrite (F2 e Hel). unfold st2. cbn [_next].
           rewrite upd_other by exact Hea.
           rewrite (C1 e He). f_equal.
           rewrite succ_of_app_r by exact Hel.
           cbn [succ_of].
           assert (E : (a =? e) = false) by (apply Z.eqb_neq; congruence).
           rewrite E. reflexivity.
      * intros k Hk. cbn [inorder] in Hk.
        assert (Hkl : ~ In k (inorder l))
          by (intros F; apply Hk; apply in_or_app; left; exact F).
        assert (Hkr : ~ In k (inorder r))
          by (intros F; apply Hk; apply in_or_app; right; right; exact F).
        assert (Hka : k <> a)
          by (intros F; apply Hk; apply in_or_app; right; left; symmetry; exact F).
        rewrite (F2 k Hkl). unfold st2. cbn [_next].
        rewrite upd_other by exact Hka. exact (F1 k Hkr).
Qed.

Hypothesis Hwf : wf_graph g.

Lemma sorted_nodup (n : Node) : NoDup (std_sort (ArcLess g) (outArcs g n)).
Proof.
  apply (Permutation_NoDup (Permutation_sym (std_sort_perm _ _))).
  apply outArcs_nodup. exact (wf_arcs_nodup g Hwf).
Qed.

Lemma refreshNext_node (st : state) (n : Node) :
  static_good g (base st) n ->
  exists nx st',
    refreshNext (fuel_of g) g st (ArcLookUp._head (base st) n) INVALID
    = Ok (nx, st') /\
    base st' = base st /\
    chained g st' n /\
    (forall k, ~ In k (outArcs g n) -> _next st' k = _next st k).
Proof.
  intros [T [HT HI]].
  destruct (refreshNext_chain T (fuel_of g) st _ INVALID HT) as [st' [R [B [C F]]]].
  - eapply Nat.le_trans; [apply depth_le_length|]. rewrite HI.
    rewrite (Permutation_length (std_sort_perm _ _)).
    unfold fuel_of. pose proof (outArcs_length g n). lia.
  - rewrite HI. apply sorted_nodup.
  - eexists. exists st'. split; [exact R|]. split; [exact B|]. split.
    + intros e He. rewrite <- HI. apply C. rewrite HI.
      apply sorted_out_in. apply outArcs_in. exact He.
    + intros k Hk. apply F. rewrite HI. intros H.
      apply sorted_out_in in H. apply Hk. apply outArcs_in. exact H.
Qed.

Lemma chained_frame (st st' : state) (n : Node) :
  (forall k, source g k = n -> _next st' k = _next st k) ->
  chained g st n -> chained g st' n.
Proof.
  intros H C e He. rewrite H; [exact (C e He)|].
  apply outArcs_in in He. apply He.
Qed.

Lemma refreshNext_all_chain (ns : list Node) :
  forall st,
    ~ In INVALID ns ->
    (forall n, In n ns -> static_good g (base st) n) ->
    exists st',
      refreshNext_all g st ns = Ok st' /\ base st' = base st /\
      (forall n, In n ns -> chained g st' n) /\
      (forall n, ~ In n ns -> chained g st n -> chained g st' n).
Proof.
  induction ns as [|n ns IH]; intros st Hv Hg.
  - exists st. split; [reflexivity|]. split; [reflexivity|].
    split; [intros n []|auto].
  - assert (Hn : n <> INVALID) by (intros F; apply Hv; left; exact F).
    cbn [refreshNext_all]. rewrite (get_ok _ n Hn). cbn [bind].
    destruct (refreshNext_node st n (Hg n (or_introl eq_refl)))
      as [nx [st1 [R [B [C F]]]]].
    rewrite R. cbn [bind].
    destruct (IH st1) as [st2 [R2 [B2 [C2 F2]]]].
    + intros H. apply Hv. right. exact H.
    + intros n' Hn'. rewrite B. apply Hg. right. exact Hn'.
    + exists st2. split; [exact R2|]. split; [congruence|]. split.
      * intros m [<-|Hm].
        -- destruct (in_dec Z.eq_dec n ns) as [Hin|Hin];
             [exact (C2 n Hin) | exact (F2 n Hin C)].
        -- exact (C2 m Hm).
      * intros m Hm Cm. apply F2; [intros H; apply Hm; right; exact H|].
        apply (chained_frame st st1 m); [|exact Cm].
        intros k Hk. apply F. intros E. apply outArcs_in in E.
        apply Hm. left. destruct E as [_ E]. congruence.
Qed.

End AllChain.
Section AllEnumerate.

Import AllArcLookUp.

Variable g : Digraph.
Hypothesis Hwf : wf_graph g.
Hypothesis Hord : strict_total (node_lt g).

Lemma all_enumerate_from_spec (st : state) (s t n : Node) (v : list Arc) :
  sorted_out g n v -> chained_along g st v ->
  forall (q p : list Arc) (fuel : nat) (e : Arc),
    v = p ++ e :: q ->
    target g e = t ->
    (length q < fuel)%nat ->
    enumerate_from fuel g st s t e
    = Ok (e :: filter (fun a => target g a =? t) q).
Proof.
  intros [Hperm Hsort] Hch.
  assert (Hin : forall x, In x v -> In x (arcs g)).
  { intros x Hx. apply (Permutation_in x Hperm) in Hx.
    apply outArcs_in in Hx. apply Hx. }
  assert (Hndv : NoDup v).
  { apply (Permutation_NoDup (Permutation_sym Hperm)).
    apply outArcs_nodup. exact (wf_arcs_nodup g Hwf). }
  induction q as [|b q IH]; intros p fuel e E Ht Hfuel.
  - destruct fuel as [|f]; [cbn [length] in Hfuel; lia|].
    assert (He : In e v)
      by (rewrite E; apply in_or_app; right; left; reflexivity).
    assert (Hev : e <> INVALID)
      by (intros F; rewrite F in He; exact (wf_arcs_valid g Hwf (Hin _ He))).
    cbn [enumerate_from]. rewrite (eqb_invalid_false e Hev).
    unfold lookup_next. rewrite (eqb_invalid_false e Hev).
    rewrite (get_ok _ e Hev). cbn [bind].
    rewrite (Hch e He). rewrite E at 1. rewrite succ_of_split.
    + cbn [hd]. unfold link. cbn [Z.eqb INVALID Z.opp Pos.eqb negb andb filter].
      assert (Ei : (INVALID =? INVALID) = true) by reflexivity.
      destruct f; cbn [enumerate_from]; rewrite Ei; reflexivity.
    + pose proof Hndv as Hnd. rewrite E in Hnd.
      apply NoDup_remove_2 in Hnd. intros F. apply Hnd.
      apply in_or_app. left. exact F.
  - destruct fuel as [|f]; [cbn [length] in Hfuel; lia|].
    cbn [length] in Hfuel.
    assert (He : In e v)
      by (rewrite E; apply in_or_app; right; left; reflexivity).
    assert (Hev : e <> INVALID)
      by (intros F; rewrite F in He; exact (wf_arcs_valid g Hwf (Hin _ He))).
    assert (Hb : In b (arcs g)).
    { apply Hin. rewrite E. apply in_or_app. right. right. left. reflexivity. }
    assert (Hbv : b <> INVALID) by (intros F; rewrite F in Hb; exact (wf_arcs_valid g Hwf Hb)).
    cbn [enumerate_from]. rewrite (eqb_invalid_false e Hev).
    unfold lookup_next. rewrite (eqb_invalid_false e Hev).
    rewrite (get_ok _ e Hev). cbn [bind].
    rewrite (Hch e He). rewrite E at 1. rewrite succ_of_split.
    + cbn [hd]. unfold link. rewrite (eqb_invalid_false b Hbv). cbn [negb andb].
      rewrite Ht. cbn [filter].
      destruct (target g b =? t) eqn:Eb.
      * apply Z.eqb_eq in Eb.
        rewrite (IH (p ++ [e]) f b).
        -- reflexivity.
        -- rewrite E, <- app_assoc. reflexivity.
        -- exact Eb.
        -- lia.
      * apply Z.eqb_neq in Eb.
        assert (Hnone : filter (fun x => target g x =? t) q = []).
        { pose proof Hsort as HS.
          rewrite E in HS. apply sorted_app in HS. destruct HS as [_ [HS _]].
          apply sorted_cons_inv in HS. destruct HS as [HS Heb].
          apply sorted_cons_inv in HS. destruct HS as [_ Hbx].
          specialize (Heb b (or_introl eq_refl)). unfold tle in Heb.
          rewrite Ht in Heb.
          assert (Hall : forall x, In x q -> (target g x =? t) = false).
          { intros x Hx. apply Z.eqb_neq. intros F.
            specialize (Hbx x Hx). unfold tle in Hbx. rewrite F in Hbx.
            destruct (lt_total _ Hord (target g b) t Eb); congruence. }
          clear - Hall. induction q as [|x q IHq]; [reflexivity|].
          cbn [filter]. rewrite (Hall x (or_introl eq_refl)).
          apply IHq. intros y Hy. apply Hall. right. exact Hy. }
        rewrite Hnone.
        assert (Ei : (INVALID =? INVALID) = true) by reflexivity.
        destruct f; cbn [enumerate_from]; rewrite Ei; reflexivity.
    + pose proof Hndv as Hnd. rewrite E in Hnd.
      apply NoDup_remove_2 in Hnd. intros F. apply Hnd.
      apply in_or_app. left. exact F.
Qed.

Lemma all_enumerate_spec (st : state) (s t : Node) (T : tree) :
  In s (nodes g) ->
  shape (ArcLookUp._left (base st)) (ArcLookUp._right (base st))
        (ArcLookUp._head (base st) s) T ->
  sorted_out g s (inorder T) -> chained_along g st (inorder T) ->
  exists l pre,
    enumerate g st s t = Ok l /\
    filter (fun a => target g a =? t) (inorder T) = pre ++ l /\
    (l = [] <-> arcs_between g s t = []).
Proof.
  intros Hs HT Hso Hch.
  assert (Hok : static_ok g (base st) s) by (exists T; split; assumption).
  destruct (static_ok_lookup g Hwf Hord (base st) s t Hs Hok)
    as [a [R [P1 P2]]].
  unfold enumerate, lookup. rewrite R. cbn [bind].
  destruct (Z.eq_dec a INVALID) as [Ha|Ha].
  - subst a. exists [], (filter (fun a => target g a =? t) (inorder T)).
    split; [unfold fuel_of; reflexivity|].
    split; [rewrite app_nil_r; reflexivity|].
    split; intros _; [exact (proj1 P2 eq_refl) | reflexivity].
  - destruct (P1 Ha) as [Hin [Hsrc Htgt]].
    assert (Hv : In a (inorder T)).
    { apply (Permutation_in a (Permutation_sym (proj1 Hso))).
      apply outArcs_in. split; assumption. }
    apply in_split in Hv. destruct Hv as [p [q E]].
    exists (a :: filter (fun x => target g x =? t) q),
           (filter (fun x => target g x =? t) p).
    split.
    { apply (all_enumerate_from_spec st s t s (inorder T) Hso Hch
               q p (fuel_of g) a E Htgt).
      pose proof (Permutation_length (proj1 Hso)) as L.
      rewrite E, length_app in L. cbn [length] in L.
      pose proof (outArcs_length g s). unfold fuel_of. lia. }
    split.
    { rewrite E, filter_app. cbn [filter]. rewrite Htgt, Z.eqb_refl. reflexivity. }
    split; intros F; [discriminate F|]. exfalso.
    assert (Hb : In a (arcs_between g s t)).
    { unfold arcs_between. apply filter_In. split; [exact Hin|].
      rewrite Hsrc, Htgt, !Z.eqb_refl. reflexivity. }
    rewrite F in Hb. exact Hb.
Qed.

End AllEnumerate.

Lemma all_make_chained (g : Digraph) (mem : AllArcLookUp.state) :
  wf_graph g -> small_degrees g ->
  exists st,
    AllArcLookUp.make g mem = Ok st /\
    (forall n, In n (nodes g) -> static_good g (AllArcLookUp.base st) n) /\
    (forall n, In n (nodes g) -> chained g st n).
Proof.
  intros Hwf Hsm. unfold AllArcLookUp.make, ArcLookUp.make.
  destruct (static_refresh_good g Hwf (AllArcLookUp.base mem) Hsm) as [b [R G]].
  rewrite R. cbn [bind].
  destruct (refreshNext_all_chain g Hwf (nodes g)
              {| AllArcLookUp.base := b;
                 AllArcLookUp._next := AllArcLookUp._next mem |})
    as [st [R2 [B [C _]]]].
  - exact (wf_nodes_valid g Hwf).
  - exact G.
  - exists st. split; [exact R2|]. split; [|exact C].
    intros n Hn. rewrite B. exact (G n Hn).
Qed.

(** What a build leaves at a node, said without the order in which the
    sort left arcs of equal targets. *)
Lemma good_chained_along (g : Digraph) (st : AllArcLookUp.state) (n : Node) :
  strict_total (node_lt g) ->
  static_good g (AllArcLookUp.base st) n -> chained g st n ->
  exists T,
    shape (ArcLookUp._left (AllArcLookUp.base st))
          (ArcLookUp._right (AllArcLookUp.base st))
          (ArcLookUp._head (AllArcLookUp.base st) n) T /\
    sorted_out g n (inorder T) /\
    chained_along g st (inorder T).
Proof.
  intros Hord [T [HT HI]] C. exists T. split; [exact HT|]. split.
  - rewrite HI. split; [apply std_sort_perm | apply std_sort_sorted; exact Hord].
  - intros e He. rewrite HI in He |- *. apply sorted_out_in in He.
    apply C. apply outArcs_in. exact He.
Qed.

(** X13: the chain of the parallel-arc extension, on a graph whose
    nodes the comparison orders totally and which has at most 2^30 arcs
    leaving each node.  After the construction the tree of every node
    holds the arcs that leave it, from left to right in the order of
    their targets, and [_next] holds for each of them the arc that
    follows it in the tree when the two have the same target, and
    INVALID otherwise.  [refresh(n)] returns and leaves the node [n]
    like that; the roots of the other nodes and, for every arc that
    does not leave [n], its chain link and its two children stay as
    they were. *)
Theorem all_chain_links_sorted_neighbours :
  forall g : Digraph,
    wf_graph g -> strict_total (node_lt g) -> small_degrees g ->
    (forall mem,
       exists st,
         AllArcLookUp.make g mem = Ok st /\
         forall n, In n (nodes g) ->
           exists T,
             shape (ArcLookUp._left (AllArcLookUp.base st))
                   (ArcLookUp._right (AllArcLookUp.base st))
                   (ArcLookUp._head (AllArcLookUp.base st) n) T /\
             sorted_out g n (inorder T) /\
             chained_along g st (inorder T)) /\
    (forall st n, In n (nodes g) ->
       exists st',
         AllArcLookUp.refresh_node g st n = Ok st' /\
         (exists T,
            shape (ArcLookUp._left (AllArcLookUp.base st'))
                  (ArcLookUp._right (AllArcLookUp.base st'))
                  (ArcLookUp._head (AllArcLookUp.base st') n) T /\
            sorted_out g n (inorder T) /\
            chained_along g st' (inorder T)) /\
         (forall m, m <> n ->
            ArcLookUp._head (AllArcLookUp.base st') m
            = ArcLookUp._head (AllArcLookUp.base st) m) /\
         (forall k, ~ In k (outArcs g n) ->
            AllArcLookUp._next st' k = AllArcLookUp._next st k /\
            ArcLookUp._left (AllArcLookUp.base st') k
            = ArcLookUp._left (AllArcLookUp.base st) k /\
            ArcLookUp._right (AllArcLookUp.base st') k
            = ArcLookUp._right (AllArcLookUp.base st) k)).
Proof.
  intros g Hwf Hord Hsm. split.
  - intros mem. destruct (all_make_chained g mem Hwf Hsm) as [st [R [G C]]].
    exists st. split; [exact R|]. intros n Hn.
    exact (good_chained_along g st n Hord (G n Hn) (C n Hn)).
  - intros st n Hn.
    assert (Hnv : n <> INVALID) by (intros F; rewrite F in Hn; exact (wf_nodes_valid g Hwf Hn)).
    unfold AllArcLookUp.refresh_node.
    destruct (static_refresh_node_full g Hwf (AllArcLookUp.base st) n Hnv (Hsm n Hn))
      as [b [R [G [Hh Hfr]]]].
    rewrite R. cbn [bind]. rewrite (get_ok _ n Hnv). cbn [bind].
    destruct (refreshNext_node g Hwf
                {| AllArcLookUp.base := b;
                   AllArcLookUp._next := AllArcLookUp._next st |} n G)
      as [nx [st1 [R1 [B1 [C1 F1]]]]].
    cbn [AllArcLookUp.base] in R1. rewrite R1. cbn [bind].
    exists st1. split; [reflexivity|]. split.
    + apply good_chained_along; [exact Hord | rewrite B1; exact G | exact C1].
    + rewrite B1. cbn [AllArcLookUp.base]. split; [exact Hh|].
      intros k Hk. split; [|exact (Hfr k Hk)].
      rewrite (F1 k Hk). reflexivity.
Qed.

Lemma small_g_parallel : small_degrees g_parallel.
Proof. apply small_degrees_of_arcs. cbn. lia. Qed.

Lemma all_chain_links_sorted_neighbours_witness :
  wf_graph g_parallel /\ strict_total (node_lt g_parallel) /\
  small_degrees g_parallel /\
  exists st,
    AllArcLookUp.make g_parallel all_mem = Ok st /\
    forall n, In n (nodes g_parallel) ->
      exists T,
        shape (ArcLookUp._left (AllArcLookUp.base st))
              (ArcLookUp._right (AllArcLookUp.base st))
              (ArcLookUp._head (AllArcLookUp.base st) n) T /\
        sorted_out g_parallel n (inorder T) /\
        chained_along g_parallel st (inorder T).
Proof.
  split; [exact wf_g_parallel|]. split; [exact ltb_strict_total|].
  split; [exact small_g_parallel|].
  exact (proj1 (all_chain_links_sorted_neighbours g_parallel wf_g_parallel
                  ltb_strict_total small_g_parallel) all_mem).
Defined.

(** X14: what the enumeration [e=ae(s,t)], [e=ae(s,t,e)], ... of the
    parallel-arc extension yields after the construction, on a graph
    whose nodes the comparison orders totally and which has at most
    2^30 arcs leaving each node: it returns, and the arcs it meets are
    the last ones of the arcs from [s] to [t] in the order in which the
    tree of [s] holds them, from the arc the first query answered on.
    So every arc met runs from [s] to [t], none is met twice, and
    nothing is met only if the graph has no arc from [s] to [t]. *)
Theorem all_enumeration_is_a_tail :
  forall (g : Digraph) (mem : AllArcLookUp.state),
    wf_graph g -> strict_total (node_lt g) -> small_degrees g ->
    exists st,
      AllArcLookUp.make g mem = Ok st /\
      forall s t, In s (nodes g) ->
        exists T l pre,
          shape (ArcLookUp._left (AllArcLookUp.base st))
                (ArcLookUp._right (AllArcLookUp.base st))
                (ArcLookUp._head (AllArcLookUp.base st) s) T /\
          sorted_out g s (inorder T) /\
          AllArcLookUp.enumerate g st s t = Ok l /\
          filter (fun a => target g a =? t) (inorder T) = pre ++ l /\
          (l = [] <-> arcs_between g s t = []) /\
          NoDup l /\
          (forall a, In a l ->
             In a (arcs g) /\ source g a = s /\ target g a = t).
Proof.
  intros g mem Hwf Hord Hsm.
  destruct (all_make_chained g mem Hwf Hsm) as [st [R [G C]]].
  exists st. split; [exact R|]. intros s t Hs.
  destruct (good_chained_along g st s Hord (G s Hs) (C s Hs))
    as [T [HT [Hso Hch]]].
  destruct (all_enumerate_spec g Hwf Hord st s t T Hs HT Hso Hch)
    as [l [pre [Re [E Hnil]]]].
  exists T, l, pre. split; [exact HT|]. split; [exact Hso|].
  split; [exact Re|]. split; [exact E|]. split; [exact Hnil|].
  assert (Hnd : NoDup (pre ++ l)).
  { rewrite <- E. apply NoDup_filter.
    apply (Permutation_NoDup (Permutation_sym (proj1 Hso))).
    apply outArcs_nodup. exact (wf_arcs_nodup g Hwf). }
  split; [apply NoDup_app_remove_l in Hnd; exact Hnd|].
  intros a Ha.
  assert (Hf : In a (filter (fun a => target g a =? t) (inorder T))).
  { rewrite E. apply in_or_app. right. exact Ha. }
  apply filter_In in Hf. destruct Hf as [Hin Ht].
  apply (Permutation_in a (proj1 Hso)) in Hin.
  apply outArcs_in in Hin. apply Z.eqb_eq in Ht.
  destruct Hin as [H1 H2]. repeat split; assumption.
Qed.

Lemma all_enumeration_is_a_tail_witness :
  wf_graph g_parallel /\ strict_total (node_lt g_parallel) /\
  small_degrees g_parallel /\
  exists st,
    AllArcLookUp.make g_parallel all_mem = Ok st /\
    forall s t, In s (nodes g_parallel) ->
      exists T l pre,
        shape (ArcLookUp._left (AllArcLookUp.base st))
              (ArcLookUp._right (AllArcLookUp.base st))
              (ArcLookUp._head (AllArcLookUp.base st) s) T /\
        sorted_out g_parallel s (inorder T) /\
        AllArcLookUp.enumerate g_parallel st s t = Ok l /\
        filter (fun a => target g_parallel a =? t) (inorder T) = pre ++ l /\
        (l = [] <-> arcs_between g_parallel s t = []) /\
        NoDup l /\
        (forall a, In a l ->
           In a (arcs g_parallel) /\ source g_parallel a = s /\
           target g_parallel a = t).
Proof.
  split; [exact wf_g_parallel|]. split; [exact ltb_strict_total|].
  split; [exact small_g_parallel|].
  exact (all_enumeration_is_a_tail g_parallel all_mem wf_g_parallel
           ltb_strict_total small_g_parallel).
Defined.
(** ** [refresh(n)] after a change at the node [n] *)

Lemma static_ok_transfer (g g' : Digraph) (st : ArcLookUp.state) (m : Node) :
  outArcs g' m = outArcs g m ->
  (forall a, In a (outArcs g m) -> target g' a = target g a) ->
  node_lt g' = node_lt g ->
  static_ok g st m -> static_ok g' st m.
Proof.
  intros Eo Et El [T [HT [HP HS]]]. exists T. split; [exact HT|]. split.
  - rewrite Eo. exact HP.
  - apply (sorted_ext (tle g) (tle g')); [|exact HS].
    intros a b Ha Hb H. unfold tle in *.
    rewrite El, (Et a (Permutation_in a HP Ha)), (Et b (Permutation_in b HP Hb)).
    exact H.
Qed.

Lemma wf_graph_erase (g : Digraph) (a : Arc) :
  wf_graph g -> wf_graph (graph_erase g a).
Proof.
  intros Hwf. constructor; cbn [graph_erase arcs nodes source].
  - apply NoDup_filter. exact (wf_arcs_nodup g Hwf).
  - intros F. apply filter_In in F. exact (wf_arcs_valid g Hwf (proj1 F)).
  - exact (wf_nodes_valid g Hwf).
  - intros b Hb. apply filter_In in Hb. exact (wf_source g Hwf b (proj1 Hb)).
Qed.

Lemma outArcs_graph_erase (g : Digraph) (a : Arc) (m : Node) :
  source g a <> m -> outArcs (graph_erase g a) m = outArcs g m.
Proof.
  intros H. unfold outArcs, graph_erase. cbn [arcs source].
  induction (arcs g) as [|x l IH]; [reflexivity|].
  cbn [filter]. destruct (x =? a) eqn:E; cbn [negb filter].
  - apply Z.eqb_eq in E. subst x.
    assert (Em : (source g a =? m) = false) by (apply Z.eqb_neq; exact H).
    rewrite Em. exact IH.
  - destruct (source g x =? m); rewrite IH; reflexivity.
Qed.

Section StaticLocal.

Import ArcLookUp.

Lemma refresh_node_restores (g g' : Digraph) (st : state) (n : Node) :
  wf_graph g' -> strict_total (node_lt g') -> In n (nodes g') ->
  Z.of_nat (length (outArcs g' n)) <= 2 ^ 30 ->
  (forall m, In m (nodes g') -> m <> n -> static_ok g st m) ->
  (forall m, m <> n -> outArcs g' m = outArcs g m) ->
  (forall m a, m <> n -> In a (outArcs g m) -> target g' a = target g a) ->
  node_lt g' = node_lt g ->
  exists st',
    refresh_node g' st n = Ok st' /\
    forall s t, In s (nodes g') ->
      exists a,
        lookup g' st' s t = Ok a /\
        (a <> INVALID -> In a (arcs g') /\ source g' a = s /\ target g' a = t) /\
        (a = INVALID <-> arcs_between g' s t = []).
Proof.
  intros Hwf Hord Hn Hb Hgood Eo Et El.
  destruct (static_refresh_node_ok g' Hwf st n Hord Hn Hb) as [st' [R [G _]]].
  - intros m Hm Hne. apply (static_ok_transfer g g' st m).
    + exact (Eo m Hne).
    + intros a Ha. exact (Et m a Hne Ha).
    + exact El.
    + exact (Hgood m Hm Hne).
  - exists st'. split; [exact R|]. intros s t Hs.
    exact (static_ok_lookup g' Hwf Hord st' s t Hs (G s Hs)).
Qed.

End StaticLocal.

(** X15: [refresh(n)] is enough after a change of the arcs leaving the
    single node [n].  Let the tree of every node of a graph hold the
    arcs that leave the node, from left to right in the order of their
    targets, as a build leaves them.  When an arc leaving [n] is then
    added, or an arc leaving [n] is erased, and the changed graph has
    at most 2^30 arcs leaving each node, [refresh(n)] alone makes every
    query of the index right for the changed graph. *)
Theorem static_refresh_node_is_enough :
  forall (g : Digraph) (st : ArcLookUp.state),
    wf_graph g -> strict_total (node_lt g) ->
    (forall m, In m (nodes g) -> static_ok g st m) ->
    (forall arc n t,
       arc <> INVALID -> ~ In arc (arcs g) -> In n (nodes g) ->
       let g' := graph_add g arc n t in
       small_degrees g' ->
       exists st',
         ArcLookUp.refresh_node g' st n = Ok st' /\
         forall s v, In s (nodes g') ->
           exists a,
             ArcLookUp.lookup g' st' s v = Ok a /\
             (a <> INVALID ->
              In a (arcs g') /\ source g' a = s /\ target g' a = v) /\
             (a = INVALID <-> arcs_between g' s v = [])) /\
    (forall arc,
       In arc (arcs g) ->
       let g' := graph_erase g arc in
       small_degrees g' ->
       exists st',
         ArcLookUp.refresh_node g' st (source g arc) = Ok st' /\
         forall s v, In s (nodes g') ->
           exists a,
             ArcLookUp.lookup g' st' s v = Ok a /\
             (a <> INVALID ->
              In a (arcs g') /\ source g' a = s /\ target g' a = v) /\
             (a = INVALID <-> arcs_between g' s v = [])).
Proof.
  intros g st Hwf Hord Hgood. split.
  - intros arc n t Harc Hfresh Hn g' Hsm.
    apply (refresh_node_restores g g' st n).
    + apply wf_graph_add; assumption.
    + exact Hord.
    + exact Hn.
    + exact (Hsm n Hn).
    + intros m Hm _. exact (Hgood m Hm).
    + intros m Hm. unfold g'. rewrite outArcs_graph_add by exact Hfresh.
      assert (E : (n =? m) = false) by (apply Z.eqb_neq; congruence).
      rewrite E. reflexivity.
    + intros m a Hm Ha. unfold g'. cbn [graph_add target].
      apply upd_other. intros ->. apply outArcs_in in Ha. apply Hfresh. apply Ha.
    + reflexivity.
  - intros arc Harc g' Hsm.
    apply (refresh_node_restores g g' st (source g arc)).
    + apply wf_graph_erase. exact Hwf.
    + exact Hord.
    + exact (wf_source g Hwf arc Harc).
    + exact (Hsm (source g arc) (wf_source g Hwf arc Harc)).
    + intros m Hm _. exact (Hgood m Hm).
    + intros m Hm. apply outArcs_graph_erase. congruence.
    + intros m a _ _. reflexivity.
    + reflexivity.
Qed.

Lemma static_refresh_node_is_enough_witness :
  holds_after (ArcLookUp.refresh g_three static_mem)
    (fun st =>
       wf_graph g_three /\ strict_total (node_lt g_three) /\
       (forall m, In m (nodes g_three) -> static_ok g_three st m) /\
       small_degrees (graph_add g_three 13 0 4) /\
       exists st',
         ArcLookUp.refresh_node (graph_add g_three 13 0 4) st 0 = Ok st' /\
         forall s v, In s (nodes (graph_add g_three 13 0 4)) ->
           exists a,
             ArcLookUp.lookup (graph_add g_three 13 0 4) st' s v = Ok a /\
             (a <> INVALID ->
              In a (arcs (graph_add g_three 13 0 4)) /\
              source (graph_add g_three 13 0 4) a = s /\
              target (graph_add g_three 13 0 4) a = v) /\
             (a = INVALID <-> arcs_between (graph_add g_three 13 0 4) s v = [])).
Proof.
  destruct (static_refresh_good g_three wf_g_three static_mem small_g_three)
    as [st [R G]].
  rewrite R. cbn [holds_after].
  assert (G' : forall m, In m (nodes g_three) -> static_ok g_three st m).
  { intros m Hm.
    exact (static_good_ok g_three st m ltb_strict_total (G m Hm)). }
  assert (Hsm : small_degrees (graph_add g_three 13 0 4)).
  { apply small_degrees_of_arcs. cbn. lia. }
  split; [exact wf_g_three|]. split; [exact ltb_strict_total|].
  split; [exact G'|]. split; [exact Hsm|].
  apply (proj1 (static_refresh_node_is_enough g_three st wf_g_three
                  ltb_strict_total G') 13 0 4).
  - discriminate.
  - cbn. intuition discriminate.
  - cbn. tauto.
  - exact Hsm.
Defined.
(** ** The depth of the trees the median split builds *)

Section StaticMedian.

Import ArcLookUp.

Lemma static_refreshRec_median :
  forall (fuel : nat) (mid pre post : list Arc) (st : state),
    mid <> [] -> (length mid <= fuel)%nat ->
    ~ In INVALID mid -> NoDup mid ->
    Z.of_nat (length pre + length mid) <= 2 ^ 30 ->
    exists T st',
      refreshRec fuel st (pre ++ mid ++ post)
                 (Z.of_nat (length pre))
                 (Z.of_nat (length pre + length mid) - 1) = Ok (root T, st') /\
      inorder T = mid /\ median_shaped T /\
      shape (_left st') (_right st') (root T) T /\
      _head st' = _head st /\
      (forall k, ~ In k mid ->
                 _left st' k = _left st k /\ _right st' k = _right st k).
Proof.
  induction fuel as [|f IH]; intros mid pre post st Hne Hlen Hval Hnd Hb.
  - destruct mid; [congruence | simpl in Hlen; lia].
  - assert (Hsub : forall l pre' post' st0,
      (length l <= f)%nat -> ~ In INVALID l -> NoDup l ->
      Z.of_nat (length pre' + length l) <= 2 ^ 30 ->
      exists T st',
        (if 0 <? Z.of_nat (length l)
         then refreshRec f st0 (pre' ++ l ++ post') (Z.of_nat (length pre'))
                         (Z.of_nat (length pre' + length l) - 1)
         else Ok (INVALID, st0)) = Ok (root T, st') /\
        inorder T = l /\ median_shaped T /\
        shape (_left st') (_right st') (root T) T /\
        _head st' = _head st0 /\
        (forall k, ~ In k l ->
                   _left st' k = _left st0 k /\ _right st' k = _right st0 k)).
    { intros l pre' post' st0 Hl Hv Hn Hb'. destruct l as [|x l].
      - exists Leaf, st0. simpl. repeat split; reflexivity.
      - replace (0 <? Z.of_nat (length (x :: l))) with true
          by (symmetry; apply Z.ltb_lt; simpl length; lia).
        apply IH; [discriminate | exact Hl | exact Hv | exact Hn | exact Hb']. }
    destruct (median_split mid Hne) as [l1 [me [l2 [E Hk]]]]. subst mid.
    rewrite length_app in Hlen, Hk, Hb. simpl length in Hlen, Hk, Hb.
    assert (Hme : me <> INVALID).
    { intros F. apply Hval. apply in_or_app. right. left. exact F. }
    apply NoDup_remove in Hnd. destruct Hnd as [Hnd Hnme].
    assert (Hnd1 : NoDup l1) by (apply NoDup_app_remove_r in Hnd; exact Hnd).
    assert (Hnd2 : NoDup l2) by (apply NoDup_app_remove_l in Hnd; exact Hnd).
    assert (Hdis : forall k, In k l1 -> In k l2 -> False).
    { intros k H1 H2. apply in_split in H1. destruct H1 as [u [w ->]].
      rewrite <- app_assoc in Hnd. simpl in Hnd.
      apply NoDup_remove_2 in Hnd. apply Hnd.
      apply in_or_app. right. apply in_or_app. right. exact H2. }
    remember (pre ++ (l1 ++ me :: l2) ++ post) as v eqn:Ev.
    assert (Ev0 : v = (pre ++ l1) ++ me :: (l2 ++ post))
      by (rewrite Ev; repeat rewrite <- app_assoc; reflexivity).
    assert (Ev1 : v = pre ++ l1 ++ (me :: l2 ++ post))
      by (rewrite Ev; repeat rewrite <- app_assoc; reflexivity).
    assert (Ev2 : v = (pre ++ l1 ++ [me]) ++ l2 ++ post)
      by (rewrite Ev; repeat rewrite <- app_assoc; reflexivity).
    cbn [refreshRec].
    set (a := Z.of_nat (length pre)).
    rewrite int_wrap_small
      by (rewrite length_app; simpl length; unfold a; lia).
    assert (Em : Z.quot (a + (Z.of_nat (length pre + length (l1 ++ me :: l2)) - 1)) 2
                 = a + Z.of_nat (length l1)).
    { rewrite length_app. simpl length.
      rewrite <- (median_index a (Z.of_nat (length l1 + S (length l2)))
                    (Z.of_nat (length l1)));
        [f_equal; lia | unfold a; lia | lia | exact Hk]. }
    rewrite Em.
    assert (Hv : vec_at v (a + Z.of_nat (length l1)) = Ok me).
    { rewrite Ev0. apply vec_at_middle. rewrite length_app. unfold a. lia. }
    rewrite Hv. cbn [bind].
    (* the left half *)
    destruct (Hsub l1 pre (me :: l2 ++ post) st) as [T1 [st1 [R1 [I1 [M1 [S1 [H1 F1]]]]]]];
      [lia | intros F; apply Hval; apply in_or_app; left; exact F | exact Hnd1
      | lia |].
    rewrite <- Ev1 in R1.
    replace (a <? a + Z.of_nat (length l1)) with (0 <? Z.of_nat (length l1))
      by (destruct (Z.ltb_spec 0 (Z.of_nat (length l1)));
          destruct (Z.ltb_spec a (a + Z.of_nat (length l1))); lia || reflexivity).
    replace (a + Z.of_nat (length l1) - 1)
      with (Z.of_nat (length pre + length l1) - 1) by (unfold a; lia).
    fold a in R1. rewrite R1. cbn [bind].
    unfold set_left at 1. rewrite (set_ok _ me _ Hme). cbn [bind].
    (* the right half *)
    match goal with |- context [refreshRec f ?s _ _ _] => set (st2 := s) end.
    destruct (Hsub l2 (pre ++ l1 ++ [me]) post st2) as [T2 [st3 [R2 [I2 [M2 [S2 [H2 F2]]]]]]];
      [lia | intros F; apply Hval; apply in_or_app; right; right; exact F | exact Hnd2
      | repeat rewrite length_app; simpl length; lia |].
    rewrite <- Ev2 in R2.
    replace (a + Z.of_nat (length l1) <?
             Z.of_nat (length pre + length (l1 ++ me :: l2)) - 1)
      with (0 <? Z.of_nat (length l2)).
    2:{ rewrite length_app. simpl length.
        destruct (Z.ltb_spec 0 (Z.of_nat (length l2)));
        destruct (Z.ltb_spec (a + Z.of_nat (length l1))
                    (Z.of_nat (length pre + (length l1 + S (length l2))) - 1));
        unfold a in *; lia || reflexivity. }
    replace (a + Z.of_nat (length l1) + 1)
      with (Z.of_nat (length (pre ++ l1 ++ [me])))
      by (repeat rewrite length_app; simpl length; unfold a; lia).
    replace (Z.of_nat (length pre + length (l1 ++ me :: l2)) - 1)
      with (Z.of_nat (length (pre ++ l1 ++ [me]) + length l2) - 1)
      by (repeat rewrite length_app; simpl length; lia).
    rewrite R2. cbn [bind].
    unfold set_right at 1. rewrite (set_ok _ me _ Hme). cbn [bind].
    exists (Tr T1 me T2). eexists. split; [reflexivity|].
    split; [simpl; rewrite I1, I2; reflexivity|].
    split.
    { cbn [median_shaped]. rewrite I1, I2. split; [|split; assumption].
      rewrite Z.quot_div_nonneg in Hk by lia.
      apply Nat2Z.inj. rewrite Hk, Nat2Z.inj_div. f_equal. lia. }
    assert (Hme1 : ~ In me l1)
      by (intros F; apply Hnme; apply in_or_app; left; exact F).
    assert (Hme2 : ~ In me l2)
      by (intros F; apply Hnme; apply in_or_app; right; exact F).
    destruct (F2 me Hme2) as [F2l F2r].
    split; [|split].
    + cbn [shape root _left _right]. split; [reflexivity|]. split; [exact Hme|].
      rewrite upd_same. split.
      * rewrite F2l. unfold st2. cbn [_left]. rewrite upd_same.
        apply shape_frame with (lft := _left st1) (rgt := _right st1); [|exact S1].
        intros k Hk1. rewrite I1 in Hk1.
        assert (k <> me) by (intros ->; contradiction).
        rewrite upd_other by assumption.
        destruct (F2 k) as [A B]; [intros F; exact (Hdis k Hk1 F)|].
        rewrite A, B. unfold st2. cbn [_left _right].
        rewrite upd_other by assumption. split; reflexivity.
      * apply shape_frame with (lft := _left st3) (rgt := _right st3); [|exact S2].
        intros k Hk2. rewrite I2 in Hk2.
        assert (k <> me) by (intros ->; contradiction).
        rewrite upd_other by assumption. split; reflexivity.
    + cbn [_head]. rewrite H2. unfold st2. cbn [_head]. exact H1.
    + intros k Hk0. cbn [_left _right].
      assert (Hk1 : ~ In k l1) by (intros F; apply Hk0; apply in_or_app; left; exact F).
      assert (Hk2 : ~ In k l2)
        by (intros F; apply Hk0; apply in_or_app; right; right; exact F).
      assert (Hkm : k <> me)
        by (intros F; apply Hk0; apply in_or_app; right; left; symmetry; exact F).
      rewrite upd_other by exact Hkm.
      destruct (F2 k Hk2) as [A B]. rewrite A, B. unfold st2. cbn [_left _right].
      rewrite upd_other by exact Hkm.
      apply F1. exact Hk1.
Qed.

End StaticMedian.
Lemma app_eq_same_length {A : Type} (x1 y1 x2 y2 : list A) :
  length x1 = length y1 -> x1 ++ x2 = y1 ++ y2 -> x1 = y1 /\ x2 = y2.
Proof.
  revert y1. induction x1 as [|a x1 IH]; intros y1 L E.
  - destruct y1; [split; [reflexivity | exact E] | discriminate L].
  - destruct y1 as [|b y1]; [discriminate L|].
    cbn [app] in E. injection E as -> E. cbn [length] in L.
    destruct (IH y1 (eq_add_S _ _ L) E) as [-> ->]. split; reflexivity.
Qed.



Lemma median_unique (T : tree) :
  forall T', median_shaped T -> median_shaped T' ->
             inorder T = inorder T' -> T = T'.
Proof.
  induction T as [|l IHl a r IHr]; intros T' HM HM' E.
  - destruct T' as [|l' a' r']; [reflexivity|].
    cbn [inorder] in E. destruct (inorder l'); discriminate E.
  - destruct T' as [|l' a' r'].
    + cbn [inorder] in E. destruct (inorder l); discriminate E.
    + cbn [median_shaped] in HM, HM'.
      destruct HM as [Hk [Ml Mr]]. destruct HM' as [Hk' [Ml' Mr']].
      cbn [inorder] in E.
      assert (Hlen : length (inorder l) = length (inorder l')).
      { pose proof (f_equal (@length Arc) E) as L.
        rewrite !length_app in L. cbn [length] in L.
        assert (S : (length (inorder l) + length (inorder r)
                     = length (inorder l') + length (inorder r'))%nat) by lia.
        rewrite Hk, Hk', S. reflexivity. }
      apply (app_eq_same_length _ _ _ _ Hlen) in E. destruct E as [E1 E2].
      injection E2 as -> E3.
      rewrite (IHl l' Ml Ml' E1), (IHr r' Mr Mr' E3). reflexivity.
Qed.
Section StaticBalanced.

Import ArcLookUp.

Variable g : Digraph.
Hypothesis Hwf : wf_graph g.

Lemma static_refresh_node_balanced (st : state) (n : Node) :
  n <> INVALID ->
  Z.of_nat (length (outArcs g n)) <= 2 ^ 30 ->
  exists st',
    refresh_node g st n = Ok st' /\
    static_balanced g st' n /\
    (forall n', static_balanced g st n' -> static_balanced g st' n').
Proof.
  intros Hn Hb. unfold refresh_node, out_arcs.
  rewrite (eqb_invalid_false n Hn). cbn [bind].
  set (v := std_sort (ArcLess g) (outArcs g n)).
  assert (Hlen : length v = length (outArcs g n))
    by (apply Permutation_length; apply std_sort_perm).
  assert (Hgood : forall st',
    static_balanced g st' n ->
    _head st' = upd (_head st) n (_head st' n) ->
    (forall k, ~ In k v -> _left st' k = _left st k /\ _right st' k = _right st k) ->
    forall n', static_balanced g st n' -> static_balanced g st' n').
  { intros st' Hg Hh Hfr n' [T [HT [HI HM]]].
    destruct (Z.eq_dec n' n) as [->|Hne]; [exact Hg|].
    exists T. split; [|split; [exact HI | exact HM]].
    rewrite Hh. rewrite upd_other by exact Hne.
    apply shape_frame with (lft := _left st) (rgt := _right st); [|exact HT].
    intros a Ha. apply Hfr. intros F.
    rewrite HI in Ha. apply sorted_out_in in Ha. apply sorted_out_in in F.
    destruct Ha as [_ Ha]. destruct F as [_ F]. congruence. }
  destruct (Z.ltb_spec 0 (Z.of_nat (length (outArcs g n)))) as [Hpos|Hzero].
  - destruct (static_refreshRec_median (length v) v [] [] st)
      as [T [st1 [R [I [M [S [H F]]]]]]].
    + intros E. rewrite E in Hlen. simpl in Hlen. lia.
    + lia.
    + intros F. apply sorted_out_in in F. destruct F as [F _].
      exact (wf_arcs_valid g Hwf F).
    + eapply Permutation_NoDup;
        [apply Permutation_sym; apply std_sort_perm |].
      apply outArcs_nodup. exact (wf_arcs_nodup g Hwf).
    + cbn [length Nat.add]. rewrite Hlen. exact Hb.
    + simpl in R. rewrite app_nil_r in R. fold v. rewrite R. cbn [bind].
      unfold set_head. rewrite (set_ok _ n _ Hn). cbn [bind].
      eexists. split; [reflexivity|].
      assert (Hg : static_balanced g
        {| _head := upd (_head st1) n (root T);
           _left := _left st1; _right := _right st1 |} n).
      { exists T. cbn [_head _left _right]. rewrite upd_same.
        split; [exact S|]. split; [exact I | exact M]. }
      split; [exact Hg|].
      apply Hgood; [exact Hg | | exact F].
      cbn [_head]. rewrite upd_same. rewrite H. reflexivity.
  - unfold set_head. rewrite (set_ok _ n _ Hn). cbn [bind].
    eexists. split; [reflexivity|].
    assert (Hv : v = []).
    { destruct v; [reflexivity | simpl in Hlen; lia]. }
    assert (Hg : static_balanced g
      {| _head := upd (_head st) n INVALID;
         _left := _left st; _right := _right st |} n).
    { exists Leaf. cbn [_head _left _right]. rewrite upd_same.
      split; [reflexivity|]. fold v. rewrite Hv. split; [reflexivity | exact I]. }
    split; [exact Hg|].
    apply Hgood; [exact Hg | | ].
    + cbn [_head]. rewrite upd_same. reflexivity.
    + intros k _. split; reflexivity.
Qed.

Lemma static_for_nodes_balanced (ns : list Node) :
  forall st,
  ~ In INVALID ns ->
  (forall n, In n ns -> Z.of_nat (length (outArcs g n)) <= 2 ^ 30) ->
  exists st',
    for_nodes (refresh_node g) st ns = Ok st' /\
    (forall n, In n ns -> static_balanced g st' n) /\
    (forall n, static_balanced g st n -> static_balanced g st' n).
Proof.
  induction ns as [|n ns IH]; intros st Hv Hsm.
  - exists st. simpl. split; [reflexivity|]. split; [intros n []|auto].
  - destruct (static_refresh_node_balanced st n) as [st1 [R [G P]]].
    + intros F. apply Hv. left. exact F.
    + apply Hsm. left. reflexivity.
    + destruct (IH st1) as [st2 [R2 [G2 P2]]].
      * intros F. apply Hv. right. exact F.
      * intros m Hm. apply Hsm. right. exact Hm.
      * exists st2. simpl. rewrite R. cbn [bind]. split; [exact R2|]. split.
        -- intros n' [E|Hn']; [subst n'; apply P2; exact G | apply G2; exact Hn'].
        -- intros n' Hn'. apply P2. apply P. exact Hn'.
Qed.

Lemma static_refresh_balanced (st : state) :
  small_degrees g ->
  exists st',
    refresh g st = Ok st' /\
    forall n, In n (nodes g) -> static_balanced g st' n.
Proof.
  intros Hsm.
  destruct (static_for_nodes_balanced (nodes g) st (wf_nodes_valid g Hwf) Hsm)
    as [st' [R [G _]]].
  exists st'. split; [exact R | exact G].
Qed.

(** The loop of [operator()] reads the cells of the tree only. *)
Lemma lookup_loop_shape (st st' : state) (t : Node) (T : tree) :
  forall (fuel : nat) (x : Arc),
    shape (_left st) (_right st) x T ->
    shape (_left st') (_right st') x T ->
    lookup_loop fuel g st t x = lookup_loop fuel g st' t x.
Proof.
  induction T as [|l IHl a r IHr]; intros fuel x H H'.
  - cbn [shape] in H. subst x. destruct fuel; reflexivity.
  - cbn [shape] in H, H'.
    destruct H as [-> [Ha [Hl Hr]]]. destruct H' as [_ [_ [Hl' Hr']]].
    assert (El : _left st' a = _left st a).
    { rewrite (shape_root _ _ _ _ Hl), (shape_root _ _ _ _ Hl'). reflexivity. }
    assert (Er : _right st' a = _right st a).
    { rewrite (shape_root _ _ _ _ Hr), (shape_root _ _ _ _ Hr'). reflexivity. }
    destruct fuel as [|f]; cbn [lookup_loop]; rewrite (eqb_invalid_false a Ha);
      unfold g_target; rewrite (get_ok _ a Ha); cbn [bind]; [reflexivity|].
    destruct (target g a =? t); [reflexivity|].
    rewrite !(get_ok _ a Ha).
    destruct (node_lt g t (target g a)); cbn [bind].
    + rewrite El in *. apply IHl; assumption.
    + rewrite Er in *. apply IHr; assumption.
Qed.



Lemma balanced_lookup_same (st st' : state) (s t : Node) :
  s <> INVALID -> static_balanced g st s -> static_balanced g st' s ->
  lookup g st s t = lookup g st' s t.
Proof.
  intros Hs [T [HT [HI HM]]] [T' [HT' [HI' HM']]].
  assert (T' = T) by (apply median_unique; [assumption | assumption | congruence]).
  subst T'.
  unfold lookup. rewrite !(get_ok _ s Hs). cbn [bind].
  rewrite (shape_root _ _ _ _ HT') in HT' |- *.
  rewrite (shape_root _ _ _ _ HT) in HT |- *.
  apply (lookup_loop_shape st st' t T); assumption.
Qed.

End StaticBalanced.


(** X17: [refresh()] of the static index reads nothing of what the maps
    held before.  On a graph whose nodes the comparison orders totally
    and which has at most 2^30 arcs leaving each node, it returns from
    any two contents of the maps, and the two indices answer every
    query from a node of the graph alike; in particular a second
    [refresh()] changes no answer. *)
Theorem static_refresh_forgets :
  forall (g : Digraph) (st1 st2 : ArcLookUp.state),
    wf_graph g -> strict_total (node_lt g) -> small_degrees g ->
    exists r1 r2 r11,
      ArcLookUp.refresh g st1 = Ok r1 /\
      ArcLookUp.refresh g st2 = Ok r2 /\
      ArcLookUp.refresh g r1 = Ok r11 /\
      forall s t, In s (nodes g) ->
        ArcLookUp.lookup g r1 s t = ArcLookUp.lookup g r2 s t /\
        ArcLookUp.lookup g r11 s t = ArcLookUp.lookup g r1 s t.
Proof.
  intros g st1 st2 Hwf _ Hsm.
  destruct (static_refresh_balanced g Hwf st1 Hsm) as [r1 [R1 G1]].
  destruct (static_refresh_balanced g Hwf st2 Hsm) as [r2 [R2 G2]].
  destruct (static_refresh_balanced g Hwf r1 Hsm) as [r11 [R11 G11]].
  exists r1, r2, r11. repeat (split; [assumption|]).
  intros s t Hs.
  assert (Hsv : s <> INVALID) by (intros ->; exact (wf_nodes_valid g Hwf Hs)).
  split; apply balanced_lookup_same; auto.
Qed.


Lemma static_refresh_forgets_witness :
  let junk := {| ArcLookUp._head := fun _ => 10;
                 ArcLookUp._left := fun _ => 11;
                 ArcLookUp._right := fun _ => 12 |} in
  wf_graph g_three /\ strict_total (node_lt g_three) /\
  small_degrees g_three /\
  exists r1 r2 r11,
    ArcLookUp.refresh g_three static_mem = Ok r1 /\
    ArcLookUp.refresh g_three junk = Ok r2 /\
    ArcLookUp.refresh g_three r1 = Ok r11 /\
    forall s t, In s (nodes g_three) ->
      ArcLookUp.lookup g_three r1 s t = ArcLookUp.lookup g_three r2 s t /\
      ArcLookUp.lookup g_three r11 s t = ArcLookUp.lookup g_three r1 s t.
Proof.
  intros junk. split; [exact wf_g_three|].
  split; [exact ltb_strict_total|]. split; [exact small_g_three|].
  exact (static_refresh_forgets g_three static_mem junk wf_g_three
           ltb_strict_total small_g_three).
Defined.
(** ** Erasing an arc with at most one child *)

Section DynSplice.

Import DynArcLookUp.

Lemma zip_up (st : state) (c : ctx) :
  forall (x : Arc) (t : tree),
    cshape st c x -> repr st (cparent c) x t ->
    repr st INVALID (ctx_top c x) (plug c t).
Proof.
  induction c as [|[a r|l a] c IH]; intros x t Hc Hr.
  - exact Hr.
  - cbn [cshape] in Hc. destruct Hc as [Ha [Hl [Hp [Hrr Hc]]]].
    cbn [ctx_top plug]. apply IH; [exact Hc|].
    cbn [repr]. cbn [cparent] in Hr. rewrite Hl.
    split; [reflexivity|]. split; [exact Ha|]. split; [exact Hp|].
    split; assumption.
  - cbn [cshape] in Hc. destruct Hc as [Ha [Hl [Hp [Hrr Hc]]]].
    cbn [ctx_top plug]. apply IH; [exact Hc|].
    cbn [repr]. cbn [cparent] in Hr. rewrite Hl.
    split; [reflexivity|]. split; [exact Ha|]. split; [exact Hp|].
    split; assumption.
Qed.

Lemma ctx_top_nonempty (c : ctx) (x y : Arc) :
  c <> [] -> ctx_top c x = ctx_top c y.
Proof.
  destruct c as [|[a r|l a] c]; intros H; [congruence| |]; reflexivity.
Qed.

Lemma locate_plug (st : state) (a : Arc) (T : tree) :
  forall (c0 : ctx) (x : Arc),
    cshape st c0 x ->
    repr st (cparent c0) x T ->
    In a (inorder T) ->
    exists c l r,
      cshape st c a /\
      repr st (cparent c) a (Tr l a r) /\
      plug c (Tr l a r) = plug c0 T.
Proof.
  induction T as [|l IHl e r IHr]; intros c0 x Hc Hr Ha.
  - contradiction.
  - pose proof Hr as Hr0. cbn [repr] in Hr0.
    destruct Hr0 as [-> [He [Hpe [Hl Hrr]]]].
    cbn [inorder] in Ha. apply in_app_or in Ha. destruct Ha as [Ha|[Ha|Ha]].
    + destruct (IHl (FL e r :: c0) (_left st e)) as [c [l' [r' [H1 [H2 H3]]]]].
      * cbn [cshape]. repeat split; assumption.
      * exact Hl.
      * exact Ha.
      * exists c, l', r'. split; [exact H1|]. split; [exact H2|].
        rewrite H3. reflexivity.
    + subst a. exists c0, l, r. split; [exact Hc|]. split; [exact Hr|]. reflexivity.
    + destruct (IHr (FR l e :: c0) (_right st e)) as [c [l' [r' [H1 [H2 H3]]]]].
      * cbn [cshape]. repeat split; assumption.
      * exact Hrr.
      * exact Ha.
      * exists c, l', r'. split; [exact H1|]. split; [exact H2|].
        rewrite H3. reflexivity.
Qed.

Variable g : Digraph.

(** [remove(arc)] when [arc] has no left child: the right subtree takes
    the place of [arc]. *)
Lemma remove_no_left (st : state) (c : ctx) (arc : Arc) (r : tree) :
  source g arc <> INVALID ->
  cshape st c arc ->
  repr st (cparent c) arc (Tr Leaf arc r) ->
  NoDup (cbefore c ++ inorder (Tr Leaf arc r) ++ cafter c) ->
  exists st',
    remove g st arc = Ok st' /\
    cshape st' c (root r) /\
    repr st' (cparent c) (root r) r /\
    _head st' = (if match c with [] => true | _ => false end
                 then upd (_head st) (source g arc) (root r)
                 else _head st) /\
    agree_off (cbefore c ++ inorder (Tr Leaf arc r) ++ cafter c) st st'.
Proof.
  intros Hs Hc Hr Hnd.
  cbn [repr] in Hr.
  destruct Hr as [_ [Ha [Hpa [Hla Hra]]]].
  destruct c as [|[p rp|lp p] c']; cbn [cshape] in Hc; cbn [cparent] in *;
    destruct r as [|r1 b r2]; cbn [repr] in Hra;
    cbn [cbefore cafter inorder] in Hnd; nd_split; cbn [root].
  - unfold remove, replace_in_parent, parent_of, right_of, left_of, g_source,
      set_parent, set_left, set_right, set_head.
    ev. cbn. ev. eexists. split; [reflexivity|].
    split; [exact I|]. split; [reflexivity|]. split; [reflexivity|]. off_tac.
  - destruct Hra as [Hrb [Hb [Hpb [Hr1 Hr2]]]].
    unfold remove, replace_in_parent, parent_of, right_of, left_of, g_source,
      set_parent, set_left, set_right, set_head.
    ev. cbn. rewrite (eqb_invalid_false b Hb). ev. cbn. ev.
    eexists. split; [reflexivity|].
    split; [exact I|]. split; [repr_tac st|]. split; [reflexivity|]. off_tac.
  - destruct Hc as [Hp [Hlp [Hpp [Hrp Hc']]]].
    unfold remove, replace_in_parent, parent_of, right_of, left_of, g_source,
      set_parent, set_left, set_right, set_head.
    ev. cbn. rewrite (eqb_invalid_false p Hp). ev.
    eexists. split; [reflexivity|].
    split; [repr_tac st|]. split; [reflexivity|]. split; [reflexivity|]. off_tac.
  - destruct Hc as [Hp [Hlp [Hpp [Hrp Hc']]]].
    destruct Hra as [Hrb [Hb [Hpb [Hr1 Hr2]]]].
    unfold remove, replace_in_parent, parent_of, right_of, left_of, g_source,
      set_parent, set_left, set_right, set_head.
    ev. cbn. rewrite (eqb_invalid_false b Hb). ev.
    rewrite (eqb_invalid_false p Hp). ev.
    eexists. split; [reflexivity|].
    split; [repr_tac st|]. split; [repr_tac st|]. split; [reflexivity|]. off_tac.
  - destruct Hc as [Hp [Hrp [Hpp [Hlp' Hc']]]].
    assert (Hlne : (_left st p =? arc) = false).
    { apply Z.eqb_neq. apply (repr_root_neq st p _ arc lp Hlp' Ha).
      intros a Hain. nd_neq. }
    unfold remove, replace_in_parent, parent_of, right_of, left_of, g_source,
      set_parent, set_left, set_right, set_head.
    ev. cbn. rewrite (eqb_invalid_false p Hp). ev.
    eexists. split; [reflexivity|].
    split; [repr_tac st|]. split; [reflexivity|]. split; [reflexivity|]. off_tac.
  - destruct Hc as [Hp [Hrp [Hpp [Hlp' Hc']]]].
    destruct Hra as [Hrb [Hb [Hpb [Hr1 Hr2]]]].
    assert (Hlne : (_left st p =? arc) = false).
    { apply Z.eqb_neq. apply (repr_root_neq st p _ arc lp Hlp' Ha).
      intros a Hain. nd_neq. }
    unfold remove, replace_in_parent, parent_of, right_of, left_of, g_source,
      set_parent, set_left, set_right, set_head.
    ev. cbn. rewrite (eqb_invalid_false b Hb). ev.
    rewrite (eqb_invalid_false p Hp). ev.
    eexists. split; [reflexivity|].
    split; [repr_tac st|]. split; [repr_tac st|]. split; [reflexivity|]. off_tac.
Qed.

(** [remove(arc)] when [arc] has a left child and no right child: the
    left subtree takes the place of [arc]. *)
Lemma remove_no_right (st : state) (c : ctx) (arc : Arc) (l1 : tree) (b : Arc)
  (l2 : tree) :
  source g arc <> INVALID ->
  cshape st c arc ->
  repr st (cparent c) arc (Tr (Tr l1 b l2) arc Leaf) ->
  NoDup (cbefore c ++ inorder (Tr (Tr l1 b l2) arc Leaf) ++ cafter c) ->
  exists st',
    remove g st arc = Ok st' /\
    cshape st' c b /\
    repr st' (cparent c) b (Tr l1 b l2) /\
    _head st' = (if match c with [] => true | _ => false end
                 then upd (_head st) (source g arc) b
                 else _head st) /\
    agree_off (cbefore c ++ inorder (Tr (Tr l1 b l2) arc Leaf) ++ cafter c) st st'.
Proof.
  intros Hs Hc Hr Hnd.
  cbn [repr] in Hr.
  destruct Hr as [_ [Ha [Hpa [[Hlb [Hb [Hpb [Hl1 Hl2]]]] Hra]]]].
  destruct c as [|[p rp|lp p] c']; cbn [cshape] in Hc; cbn [cparent] in *;
    cbn [cbefore cafter inorder] in Hnd; nd_split.
  - unfold remove, replace_in_parent, parent_of, right_of, left_of, g_source,
      set_parent, set_left, set_right, set_head.
    ev. rewrite (eqb_invalid_false b Hb). ev. cbn. ev.
    eexists. split; [reflexivity|].
    split; [exact I|]. split; [repr_tac st|]. split; [reflexivity|]. off_tac.
  - destruct Hc as [Hp [Hlp [Hpp [Hrp Hc']]]].
    unfold remove, replace_in_parent, parent_of, right_of, left_of, g_source,
      set_parent, set_left, set_right, set_head.
    ev. rewrite (eqb_invalid_false b Hb). ev. cbn.
    rewrite (eqb_invalid_false p Hp). ev.
    eexists. split; [reflexivity|].
    split; [repr_tac st|]. split; [repr_tac st|]. split; [reflexivity|]. off_tac.
  - destruct Hc as [Hp [Hrp [Hpp [Hlp' Hc']]]].
    assert (Hlne : (_left st p =? arc) = false).
    { apply Z.eqb_neq. apply (repr_root_neq st p _ arc lp Hlp' Ha).
      intros a Hain. nd_neq. }
    unfold remove, replace_in_parent, parent_of, right_of, left_of, g_source,
      set_parent, set_left, set_right, set_head.
    ev. rewrite (eqb_invalid_false b Hb). ev. cbn.
    rewrite (eqb_invalid_false p Hp). ev.
    eexists. split; [reflexivity|].
    split; [repr_tac st|]. split; [repr_tac st|]. split; [reflexivity|]. off_tac.
Qed.

End DynSplice.
Lemma filter_all {A : Type} (f : A -> bool) (l : list A) :
  (forall x, In x l -> f x = true) -> filter f l = l.
Proof.
  induction l as [|x l IH]; intros H; [reflexivity|].
  cbn [filter]. rewrite (H x (or_introl eq_refl)). f_equal.
  apply IH. intros y Hy. apply H. right. exact Hy.
Qed.

Lemma outArcs_erase_filter (g : Digraph) (arc : Arc) (n : Node) :
  outArcs (graph_erase g arc) n
  = filter (fun x => negb (x =? arc)) (outArcs g n).
Proof.
  unfold outArcs, graph_erase. cbn [arcs source].
  induction (arcs g) as [|x l IH]; [reflexivity|].
  cbn [filter]. destruct (x =? arc) eqn:E; cbn [negb filter];
    destruct (source g x =? n); cbn [filter]; rewrite ?E; cbn [negb];
    rewrite IH; reflexivity.
Qed.

Lemma erase_from_sequence (g : Digraph) (arc : Arc) (n : Node) (P Q : list Arc) :
  Permutation (P ++ arc :: Q) (outArcs g n) ->
  NoDup (P ++ arc :: Q) ->
  Permutation (P ++ Q) (outArcs (graph_erase g arc) n).
Proof.
  intros HP Hnd. rewrite outArcs_erase_filter.
  apply (perm_filter (fun x => negb (x =? arc))) in HP.
  rewrite filter_app in HP. cbn [filter] in HP.
  rewrite Z.eqb_refl in HP. cbn [negb] in HP.
  pose proof (NoDup_remove_2 _ _ _ Hnd) as Hni.
  rewrite (filter_all _ P), (filter_all _ Q) in HP; [exact HP| |].
  - intros x Hx. apply negb_true_iff, Z.eqb_neq. intros ->.
    apply Hni. apply in_or_app. right. exact Hx.
  - intros x Hx. apply negb_true_iff, Z.eqb_neq. intros ->.
    apply Hni. apply in_or_app. left. exact Hx.
Qed.

Lemma sorted_remove (R : Arc -> Arc -> Prop) (P Q : list Arc) (a : Arc) :
  StronglySorted R (P ++ a :: Q) -> StronglySorted R (P ++ Q).
Proof.
  intros H. apply sorted_app in H. destruct H as [HP [HQ HPQ]].
  apply sorted_cons_inv in HQ. destruct HQ as [HQ _].
  apply sorted_app. split; [exact HP|]. split; [exact HQ|].
  intros x y Hx Hy. apply HPQ; [exact Hx | right; exact Hy].
Qed.

Section DynEraseSplice.

Import DynArcLookUp.

Variable g : Digraph.
Hypothesis Hwf : wf_graph g.

(** The state after a tree of [n] was rearranged into a tree without
    the arc [arc]. *)
Lemma wf_after_removal (st st' : state) (arc : Arc) (T T' : tree)
  (P Q : list Arc) :
  dyn_wf g st ->
  In arc (arcs g) ->
  repr st INVALID (_head st (source g arc)) T ->
  inorder T = P ++ arc :: Q ->
  repr st' INVALID (_head st' (source g arc)) T' ->
  inorder T' = P ++ Q ->
  (forall m, m <> source g arc -> _head st' m = _head st m) ->
  agree_off (inorder T) st st' ->
  dyn_wf (graph_erase g arc) st'.
Proof.
  intros Hst Harc HT E HT' E' Hh Hoff m Hm.
  cbn [graph_erase nodes] in Hm.
  set (n := source g arc) in *.
  assert (Hn : In n (nodes g)) by (apply (wf_source g Hwf); exact Harc).
  destruct (Hst n Hn) as [T0 [HT0 [HP HS]]].
  assert (T0 = T).
  { apply (shape_unique (_left st) (_right st) T0 (_head st n) T);
      apply repr_shape with INVALID; assumption. }
  subst T0.
  destruct (tree_of_node_facts g Hwf st n T HP) as [Hnd _].
  destruct (Z.eq_dec m n) as [->|Hne].
  - exists T'. split; [exact HT'|]. rewrite E'. split.
    + apply erase_from_sequence; rewrite <- E; assumption.
    + apply sorted_remove with arc. rewrite <- E. exact HS.
  - destruct (Hst m Hm) as [Tm [HTm [HPm HSm]]].
    exists Tm. split; [|split].
    + rewrite (Hh m Hne). apply repr_frame with st; [|exact HTm].
      intros a Ha. apply Hoff. intros F.
      apply (Permutation_in _ HPm) in Ha. apply (Permutation_in _ HP) in F.
      apply outArcs_in in Ha. apply outArcs_in in F.
      destruct Ha as [_ Ha]. destruct F as [_ F]. congruence.
    + rewrite outArcs_graph_erase by (fold n; congruence). exact HPm.
    + exact HSm.
Qed.

Lemma erase_one_child (st : state) (arc : Arc) :
  dyn_wf g st -> In arc (arcs g) ->
  _left st arc = INVALID \/ _right st arc = INVALID ->
  exists st',
    erase g st arc = Ok st' /\ dyn_wf (graph_erase g arc) st'.
Proof.
  intros Hst Harc Hchild.
  set (n := source g arc).
  assert (Hn : In n (nodes g)) by (apply (wf_source g Hwf); exact Harc).
  assert (Hnv : n <> INVALID)
    by (intros F; rewrite F in Hn; exact (wf_nodes_valid g Hwf Hn)).
  destruct (Hst n Hn) as [T [HT [HP HS]]].
  destruct (tree_of_node_facts g Hwf st n T HP) as [Hnd [Hlen Hsrc]].
  assert (HaT : In arc (inorder T)).
  { apply (Permutation_in _ (Permutation_sym HP)). apply outArcs_in.
    split; [exact Harc | reflexivity]. }
  destruct (locate_plug st arc T [] (_head st n) I HT HaT) as [c [l [r [Hc [Hr E]]]]].
  cbn [plug] in E.
  assert (Ei : cbefore c ++ inorder (Tr l arc r) ++ cafter c = inorder T).
  { rewrite <- E. symmetry. apply inorder_plug. }
  assert (Htop : c <> [] -> _head st n = ctx_top c arc).
  { intros _. pose proof (zip_up st c arc (Tr l arc r) Hc Hr) as Hz.
    rewrite E in Hz.
    rewrite (repr_root _ _ _ _ HT), (repr_root _ _ _ _ Hz). reflexivity. }
  pose proof Hr as Hr0. cbn [repr] in Hr0.
  destruct Hr0 as [_ [Hav [_ [Hl0 Hr00]]]].
  assert (Hfinish : forall st' (t' : tree) (P Q : list Arc),
    cshape st' c (root t') ->
    repr st' (cparent c) (root t') t' ->
    _head st' = (if match c with [] => true | _ => false end
                 then upd (_head st) n (root t') else _head st) ->
    agree_off (inorder T) st st' ->
    inorder T = P ++ arc :: Q ->
    cbefore c ++ inorder t' ++ cafter c = P ++ Q ->
    dyn_wf (graph_erase g arc) st').
  { intros st' t' P Q Hc' Hr' Hh Hoff EPQ E'.
    apply (wf_after_removal st st' arc T (plug c t') P Q); try assumption.
    - fold n. pose proof (zip_up st' c (root t') t' Hc' Hr') as Hz.
      destruct c as [|f c0].
      + cbn [ctx_top plug] in Hz |- *. rewrite Hh, upd_same. exact Hz.
      + rewrite Hh, (Htop ltac:(discriminate)).
        rewrite (ctx_top_nonempty (f :: c0) arc (root t')) by discriminate.
        exact Hz.
    - rewrite inorder_plug. exact E'.
    - fold n. intros m Hm. rewrite Hh. destruct c; [apply upd_other; exact Hm|].
      reflexivity. }
  unfold erase.
  destruct l as [|l1 b l2].
  - (* no left child *)
    destruct (remove_no_left g st c arc r) as [st' [R [Hc' [Hr' [Hh Hoff]]]]].
    + exact Hnv.
    + exact Hc.
    + exact Hr.
    + rewrite Ei. exact Hnd.
    + exists st'. split; [exact R|].
      apply (Hfinish st' r (cbefore c) (inorder r ++ cafter c)); try assumption.
      * rewrite <- Ei. exact Hoff.
      * rewrite <- Ei. reflexivity.
      * reflexivity.
  - (* a left child, so no right child *)
    assert (r = Leaf).
    { destruct Hchild as [F|F].
      - cbn [repr] in Hl0. destruct Hl0 as [Eb [Hb _]]. congruence.
      - destruct r as [|r1 x r2]; [reflexivity|].
        cbn [repr] in Hr00. destruct Hr00 as [Ex [Hx _]]. congruence. }
    subst r.
    destruct (remove_no_right g st c arc l1 b l2) as [st' [R [Hc' [Hr' [Hh Hoff]]]]].
    + exact Hnv.
    + exact Hc.
    + exact Hr.
    + rewrite Ei. exact Hnd.
    + exists st'. split; [exact R|].
      apply (Hfinish st' (Tr l1 b l2) (cbefore c ++ inorder (Tr l1 b l2)) (cafter c));
        try assumption.
      * rewrite <- Ei. exact Hoff.
      * rewrite <- Ei. cbn [inorder]. list_eq.
      * rewrite <- app_assoc. reflexivity.
Qed.

End DynEraseSplice.

(** X18: the notification [erase(arc)] for an arc that has no left
    child or no right child in its tree, in a well-formed state of the
    dynamic index; [g] is the graph before the arc is unlinked.  The
    call returns, and the state is well-formed for the graph without
    the arc: every tree holds exactly the outgoing arcs that are left,
    and the parent map agrees with the child maps. *)
Theorem dyn_erase_with_one_child :
  forall (g : Digraph) (st : DynArcLookUp.state) (arc : Arc),
    wf_graph g -> dyn_wf g st -> In arc (arcs g) ->
    DynArcLookUp._left st arc = INVALID \/
    DynArcLookUp._right st arc = INVALID ->
    exists st',
      DynArcLookUp.erase g st arc = Ok st' /\
      dyn_wf (graph_erase g arc) st' /\
      (forall n, In n (nodes g) -> tree_is_out_arcs (graph_erase g arc) st' n) /\
      parent_child_consistent (graph_erase g arc) st'.
Proof.
  intros g st arc Hwf Hst Harc Hchild.
  destruct (erase_one_child g Hwf st arc Hst Harc Hchild) as [st' [R Hst']].
  exists st'. split; [exact R|]. split; [exact Hst'|].
  destruct (wf_tree_is_out_arcs_all (graph_erase g arc) st'
              (wf_graph_erase g arc Hwf) Hst') as [H1 [H2 _]].
  split; [exact H1 | exact H2].
Qed.

Lemma dyn_erase_with_one_child_witness :
  holds_after (DynArcLookUp.make g_three dyn_mem)
    (fun st =>
       wf_graph g_three /\ dyn_wf g_three st /\ In 10 (arcs g_three) /\
       (DynArcLookUp._left st 10 = INVALID \/
        DynArcLookUp._right st 10 = INVALID) /\
       exists st',
         DynArcLookUp.erase g_three st 10 = Ok st' /\
         dyn_wf (graph_erase g_three 10) st' /\
         (forall n, In n (nodes g_three) ->
            tree_is_out_arcs (graph_erase g_three 10) st' n) /\
         parent_child_consistent (graph_erase g_three 10) st').
Proof.
  destruct (DynArcLookUp.make g_three dyn_mem) as [st|e] eqn:E.
  - cbn [holds_after].
    assert (W : dyn_wf g_three st).
    { apply (dyn_reach_wf g_three st).
      exact (reach_make g_three dyn_mem st wf_g_three ltb_strict_total E). }
    assert (H10 : In 10 (arcs g_three)) by (cbn; tauto).
    assert (Hc : DynArcLookUp._left st 10 = INVALID \/
                 DynArcLookUp._right st 10 = INVALID).
    { vm_compute in E. injection E as <-. left. reflexivity. }
    split; [exact wf_g_three|]. split; [exact W|]. split; [exact H10|].
    split; [exact Hc|].
    exact (dyn_erase_with_one_child g_three st 10 wf_g_three W H10 Hc).
  - vm_compute in E. discriminate E.
Defined.
(** ** Erasing an arc with two children *)

Lemma maxof_in (t : tree) (d : Arc) : t <> Leaf -> In (maxof t d) (inorder t).
Proof.
  revert d. induction t as [|l _ a r IHr]; intros d H; [congruence|].
  cbn [maxof inorder]. apply in_or_app. right.
  destruct r as [|rl x rr]; [left; reflexivity|].
  right. apply IHr. discriminate.
Qed.

Lemma inorder_delmax (t : tree) (d : Arc) :
  t <> Leaf ->
  inorder t = inorder (delmax t) ++ maxof t d :: nil.
Proof.
  revert d. induction t as [|l _ a r IHr]; intros d H; [congruence|].
  cbn [maxof delmax inorder].
  destruct r as [|rl x rr].
  - reflexivity.
  - cbn [inorder]. rewrite <- app_assoc. cbn [app]. f_equal. f_equal.
    apply (IHr a). discriminate.
Qed.

Lemma max_left_sub (t : tree) (k : Arc) :
  In k (inorder (max_left t)) -> In k (inorder (delmax t)).
Proof.
  induction t as [|l _ a r IHr]; intros H; [exact H|].
  cbn [max_left delmax] in *. destruct r as [|rl x rr]; [exact H|].
  cbn [inorder]. apply in_or_app. right. right. apply IHr. exact H.
Qed.

Lemma max_parent_in (t : tree) (p : Arc) :
  max_parent t p = p \/ In (max_parent t p) (inorder (delmax t)).
Proof.
  revert p. induction t as [|l _ a r IHr]; intros p; [left; reflexivity|].
  cbn [max_parent delmax]. destruct r as [|rl x rr]; [left; reflexivity|].
  right. cbn [inorder]. apply in_or_app. right.
  destruct (IHr a) as [E|H]; [left; symmetry; exact E | right; exact H].
Qed.

(** Membership goals with memberships among the hypotheses. *)
Ltac in_hyps :=
  repeat match goal with
  | M : In _ (_ ++ _) |- _ => rewrite in_app_iff in M
  | M : In _ (_ :: _) |- _ => cbn [In] in M
  | M : In _ (inorder (Tr _ _ _)) |- _ => cbn [inorder] in M
  end.

Ltac nd_contra e :=
  exfalso; in_hyps;
  match goal with
  | H : ~ In e ?l |- _ => solve [apply H; in_solve]
  | H : forall a, In a ?l1 -> ~ In a ?l2 |- _ =>
    solve [apply (H e); in_solve]
  end.

Section DynCutMax.

Import DynArcLookUp.

Lemma rightmost_spec :
  forall (t : tree) (fuel : nat) (st : state) (x d : Arc),
    shape (_left st) (_right st) x t -> t <> Leaf ->
    (depth t <= S fuel)%nat ->
    rightmost fuel st x = Ok (maxof t d).
Proof.
  induction t as [|l _ a r IHr]; intros fuel st x d Hsh Hne Hd; [congruence|].
  cbn [shape] in Hsh. destruct Hsh as [-> [Ha [Hl Hr]]].
  cbn [maxof].
  assert (Hstep : forall f, rightmost f st a =
            (if negb (_right st a =? INVALID)
             then match f with O => Err OutOfFuel | S f' => rightmost f' st (_right st a) end
             else Ok a)).
  { intros f. destruct f; cbn [rightmost]; unfold right_of;
      rewrite (get_ok _ a Ha); reflexivity. }
  rewrite Hstep.
  destruct r as [|rl x rr].
  - cbn [shape] in Hr. rewrite Hr. reflexivity.
  - pose proof Hr as Hr0. cbn [shape] in Hr0. destruct Hr0 as [Ex [Hx _]].
    rewrite Ex, (eqb_invalid_false x Hx). cbn [negb].
    cbn [depth] in Hd.
    destruct fuel as [|f]; [lia|].
    rewrite Ex in Hr. apply IHr; [exact Hr | discriminate |].
    cbn [depth]. lia.
Qed.

(** The cells of a subtree after its rightmost arc was cut out. *)
Lemma delmax_repr :
  forall (ar al : tree) (a p p' : Arc) (st st1 : state),
    ar <> Leaf ->
    repr st p a (Tr al a ar) ->
    NoDup (inorder (Tr al a ar)) ->
    (forall k, In k (inorder (Tr al a ar)) -> k <> maxof ar a ->
       _left st1 k = _left st k) ->
    (forall k, In k (inorder (Tr al a ar)) -> k <> maxof ar a ->
       k <> max_parent ar a -> _right st1 k = _right st k) ->
    _right st1 (max_parent ar a) = root (max_left ar) ->
    (forall k, In k (inorder (Tr al a ar)) -> k <> maxof ar a ->
       k <> a -> k <> root (max_left ar) -> _parent st1 k = _parent st k) ->
    (max_left ar <> Leaf -> _parent st1 (root (max_left ar)) = max_parent ar a) ->
    _parent st1 a = p' ->
    repr st1 p' a (Tr al a (delmax ar)).
Proof.
  induction ar as [|arl _ x arr IHr];
    intros al a p p' st st1 Hne Hr Hnd HL HR Hs HP Hle Hpa; [congruence|].
  pose proof Hr as Hr0. cbn [repr] in Hr0.
  destruct Hr0 as [_ [Ha [_ [Hal [Hrx [Hx [Hpx [Harl Harr]]]]]]]].
  cbn [inorder] in Hnd.
  assert (HndK : id (NoDup (inorder arl ++ x :: inorder arr))).
  { unfold id. apply NoDup_app_remove_l in Hnd. apply NoDup_cons_iff in Hnd.
    apply Hnd. }
  nd_split.
  assert (Hal1 : repr st1 a (_left st1 a) al).
  { rewrite (HL a); [| in_solve |].
    - apply repr_frame with st; [|exact Hal].
      intros k Hk.
      assert (Hke : k <> maxof (Tr arl x arr) a).
      { intros F. pose proof (maxof_in (Tr arl x arr) a ltac:(discriminate)) as M.
        rewrite <- F in M. cbn [inorder] in M. nd_contra k. }
      rewrite (HL k) by (try in_solve; exact Hke).
      rewrite (HR k); [| in_solve | exact Hke |].
      + rewrite (HP k); [auto | in_solve | exact Hke | nd_neq |].
        intros F.
        destruct (max_left (Tr arl x arr)) as [|ml mx mr] eqn:EM.
        * cbn [root] in F. apply (repr_valid _ _ _ _ Hal k Hk). exact F.
        * assert (M : In mx (inorder (delmax (Tr arl x arr)))).
          { apply max_left_sub. rewrite EM. in_solve. }
          cbn [root] in F. rewrite <- F in M.
          pose proof (inorder_delmax (Tr arl x arr) a ltac:(discriminate)) as ED.
          cbn [inorder] in ED.
          assert (In k (inorder arl ++ x :: inorder arr)).
          { rewrite ED. apply in_or_app. left. exact M. }
          nd_contra k.
      + intros F.
        destruct (max_parent_in (Tr arl x arr) a) as [E|M].
        * rewrite E in F. rewrite F in Hk. nd_contra a.
        * rewrite <- F in M.
          pose proof (inorder_delmax (Tr arl x arr) a ltac:(discriminate)) as ED.
          cbn [inorder] in ED.
          assert (In k (inorder arl ++ x :: inorder arr)).
          { rewrite ED. apply in_or_app. left. exact M. }
          nd_contra k.
    - intros F. pose proof (maxof_in (Tr arl x arr) a ltac:(discriminate)) as M.
      rewrite <- F in M. cbn [inorder] in M. nd_contra a. }
  cbn [repr]. split; [reflexivity|]. split; [exact Ha|]. split; [exact Hpa|].
  split; [exact Hal1|].
  destruct arr as [|rl y rr].
  - (* [x] is the rightmost arc *)
    cbn [maxof max_parent max_left delmax] in *.
    rewrite Hs.
    apply repr_reparent with (st := st) (p := x).
    + rewrite <- (repr_root _ _ _ _ Harl). exact Harl.
    + intros k Hk.
      assert (Hkx : k <> x) by nd_neq.
      assert (Hka : k <> a) by nd_neq.
      split; [apply HL; [in_solve | exact Hkx]|].
      split; [apply HR; [in_solve | exact Hkx | exact Hka]|].
      intros Hkr. apply HP; [in_solve | exact Hkx | exact Hka | exact Hkr].
    + assumption.
    + intros Hv. apply Hle. intros F. rewrite F in Hv. cbn [root] in Hv.
      congruence.
  - (* the rightmost arc is deeper *)
    assert (Hxe : x <> maxof (Tr rl y rr) x).
    { intros F. pose proof (maxof_in (Tr rl y rr) x ltac:(discriminate)) as M.
      rewrite <- F in M. nd_contra x. }
    assert (Hae : a <> maxof (Tr rl y rr) x).
    { intros F. pose proof (maxof_in (Tr rl y rr) x ltac:(discriminate)) as M.
      rewrite <- F in M. nd_contra a. }
    assert (Has : a <> max_parent (Tr rl y rr) x).
    { intros F.
      destruct (max_parent_in (Tr rl y rr) x) as [E|M].
      - rewrite E in F. apply Hni. rewrite F. in_solve.
      - rewrite <- F in M.
        pose proof (inorder_delmax (Tr rl y rr) x ltac:(discriminate)) as ED.
        assert (In a (inorder (Tr rl y rr))).
        { rewrite ED. apply in_or_app. left. exact M. }
        nd_contra a. }
    change (maxof (Tr arl x (Tr rl y rr)) a) with (maxof (Tr rl y rr) x) in *.
    change (max_parent (Tr arl x (Tr rl y rr)) a)
      with (max_parent (Tr rl y rr) x) in *.
    change (max_left (Tr arl x (Tr rl y rr))) with (max_left (Tr rl y rr)) in *.
    change (delmax (Tr arl x (Tr rl y rr)))
      with (Tr arl x (delmax (Tr rl y rr))).
    rewrite (HR a); [| in_solve | exact Hae | exact Has].
    rewrite Hrx.
    apply (IHr arl x a a st st1).
    + discriminate.
    + cbn [repr]. split; [reflexivity|]. split; [exact Hx|]. split; [exact Hpx|].
      split; assumption.
    + exact HndK.
    + intros k Hk Hke. apply HL; [|exact Hke].
      cbn [inorder]. apply in_or_app. right. right. exact Hk.
    + intros k Hk Hke Hks. apply HR; [|exact Hke|exact Hks].
      cbn [inorder]. apply in_or_app. right. right. exact Hk.
    + exact Hs.
    + intros k Hk Hke Hkx Hkr. apply HP; [|exact Hke| |exact Hkr].
      * cbn [inorder]. apply in_or_app. right. right. exact Hk.
      * intros ->. apply Hni. cbn [inorder]. exact Hk.
    + exact Hle.
    + rewrite (HP x); [exact Hpx | in_solve | exact Hxe | nd_neq |].
      intros F.
      destruct (max_left (Tr rl y rr)) as [|ml mx mr] eqn:EM.
      * cbn [root] in F. congruence.
      * assert (M : In mx (inorder (delmax (Tr rl y rr)))).
        { apply max_left_sub. rewrite EM. in_solve. }
        cbn [root] in F. rewrite <- F in M.
        pose proof (inorder_delmax (Tr rl y rr) x ltac:(discriminate)) as ED.
        assert (In x (inorder (Tr rl y rr))).
        { rewrite ED. apply in_or_app. left. exact M. }
        nd_contra x.
Qed.

End DynCutMax.
Section DynCutMaxCells.

Import DynArcLookUp.

(** The cells of the rightmost arc of a subtree. *)
Lemma max_cells (st : state) :
  forall (t : tree) (d x : Arc),
    repr st d x t -> t <> Leaf ->
    maxof t d <> INVALID /\
    _parent st (maxof t d) = max_parent t d /\
    _left st (maxof t d) = root (max_left t) /\
    _right st (maxof t d) = INVALID /\
    repr st (maxof t d) (root (max_left t)) (max_left t).
Proof.
  induction t as [|l _ a r IHr]; intros d x Hr Hne; [congruence|].
  cbn [repr] in Hr. destruct Hr as [_ [Ha [Hp [Hl Hrr]]]].
  cbn [maxof max_parent max_left].
  destruct r as [|rl y rr].
  - cbn [repr] in Hrr. cbn [maxof].
    split; [exact Ha|]. split; [exact Hp|].
    split; [exact (repr_root _ _ _ _ Hl)|]. split; [exact Hrr|].
    rewrite <- (repr_root _ _ _ _ Hl). exact Hl.
  - apply (IHr a (_right st a)); [exact Hrr | discriminate].
Qed.

Lemma max_parent_valid (st : state) (t : tree) (d x : Arc) :
  repr st d x t -> d <> INVALID -> max_parent t d <> INVALID.
Proof.
  intros Hr Hd. destruct (max_parent_in t d) as [E|H].
  - rewrite E. exact Hd.
  - apply (repr_valid st t d x Hr).
    destruct t as [|l a r]; [contradiction|].
    rewrite (inorder_delmax (Tr l a r) d) by discriminate.
    apply in_or_app. left. exact H.
Qed.

End DynCutMaxCells.
Section DynCutMaxRun.

Import DynArcLookUp.

Variable g : Digraph.

(** [remove(arc)] for an arc with two children whose left child has a
    right child, up to the closing [splay(s)]: the cells written. *)
Lemma remove_cut_max_run (st : state) (arc la ra e s le p : Arc) :
  arc <> INVALID -> la <> INVALID -> ra <> INVALID -> e <> INVALID ->
  s <> INVALID ->
  _left st arc = la -> _right st arc = ra -> _parent st arc = p ->
  _right st la <> INVALID ->
  rightmost (fuel_of g) st (_right st la) = Ok e ->
  _parent st e = s -> _left st e = le ->
  arc <> e -> arc <> s -> arc <> la -> arc <> ra -> arc <> le -> p <> e ->
  remove g st arc =
    (let P := upd (upd (upd (if le =? INVALID then _parent st
                             else upd (_parent st) le s) la e) ra e) e p in
     let L := upd (_left st) e la in
     let R := upd (upd (_right st) s le) e ra in
     if p =? INVALID then
       splay g {| _head := _head st; _parent := P; _left := L; _right := R |} s
     else if _left st p =? arc then
       splay g {| _head := _head st; _parent := P;
                  _left := upd L p e; _right := R |} s
     else
       splay g {| _head := _head st; _parent := P;
                  _left := L; _right := upd R p e |} s).
Proof.
  intros Harc Hla Hra He Hs El Er Ep Hre Hmax Eps Ele
    Hae Has Hal Har Hale Hpe.
  unfold remove, left_of, right_of, parent_of.
  rewrite (get_ok _ arc Harc), El. cbn [bind].
  rewrite (eqb_invalid_false la Hla).
  rewrite (get_ok _ arc Harc), Er. cbn [bind].
  rewrite (eqb_invalid_false ra Hra).
  rewrite (get_ok _ la Hla). cbn [bind].
  rewrite (eqb_invalid_false _ Hre). cbn [negb].
  rewrite Hmax. cbn [bind].
  rewrite (get_ok _ e He), Eps. cbn [bind].
  rewrite (get_ok _ e He), Ele. cbn [bind].
  unfold set_right at 1. rewrite (set_ok _ s _ Hs). cbn [bind].
  destruct (le =? INVALID) eqn:Ele0; cbn [negb bind].
  - unfold replace_in_parent, set_parent, set_left, set_right, parent_of, left_of.
    ev. destruct (p =? INVALID) eqn:Ep0; cbn [negb].
    + reflexivity.
    + apply Z.eqb_neq in Ep0. ev.
      destruct (_left st p =? arc); ev; reflexivity.
  - apply Z.eqb_neq in Ele0.
    unfold replace_in_parent, set_parent, set_left, set_right, parent_of, left_of.
    ev. destruct (p =? INVALID) eqn:Ep0; cbn [negb].
    + reflexivity.
    + apply Z.eqb_neq in Ep0. ev.
      destruct (_left st p =? arc); ev; reflexivity.
Qed.

End DynCutMaxRun.
Lemma max_left_root_in (t : tree) :
  root (max_left t) <> INVALID ->
  In (root (max_left t)) (inorder (delmax t)).
Proof.
  intros H. apply max_left_sub.
  destruct (max_left t) as [|ml mx mr]; [cbn [root] in H; congruence|].
  cbn [root inorder]. in_solve.
Qed.

Lemma repr_node (st : DynArcLookUp.state) (p a : Arc) (l r : tree) :
  a <> INVALID -> DynArcLookUp._parent st a = p ->
  repr st a (DynArcLookUp._left st a) l ->
  repr st a (DynArcLookUp._right st a) r ->
  repr st p a (Tr l a r).
Proof.
  intros Ha Hp Hl Hr. cbn [repr].
  split; [reflexivity|]. split; [exact Ha|]. split; [exact Hp|].
  split; assumption.
Qed.

(** Membership by walking to the place. *)
Ltac in_walk :=
  first [ assumption | reflexivity | (left; in_walk) | (right; in_walk) ].

Ltac in_fast :=
  repeat first [rewrite in_app_iff
               | progress (cbn [In inorder cbefore cafter])];
  in_walk.

Section DynCutMaxState.

Import DynArcLookUp.

Variable g : Digraph.

(** [remove(arc)] for an arc with two children whose left child has a
    right child: before the closing [splay(s)], the rightmost arc [e] of
    the left subtree was cut out and stands where [arc] stood. *)
Lemma remove_cut_max (st : state) (c : ctx) (arc la : Arc) (l1 r1 R : tree) :
  r1 <> Leaf -> R <> Leaf ->
  (length (cbefore c ++ inorder (Tr (Tr l1 la r1) arc R) ++ cafter c)
     <= length (arcs g))%nat ->
  cshape st c arc ->
  repr st (cparent c) arc (Tr (Tr l1 la r1) arc R) ->
  NoDup (cbefore c ++ inorder (Tr (Tr l1 la r1) arc R) ++ cafter c) ->
  exists st1,
    remove g st arc = splay g st1 (max_parent r1 la) /\
    cshape st1 c (maxof r1 la) /\
    repr st1 (cparent c) (maxof r1 la)
      (Tr (Tr l1 la (delmax r1)) (maxof r1 la) R) /\
    _head st1 = _head st /\
    agree_off (cbefore c ++ inorder (Tr (Tr l1 la r1) arc R) ++ cafter c) st st1.
Proof.
  intros Hr1 HR Hlen Hc Hr Hnd.
  pose proof Hr as Hr0. cbn [repr] in Hr0.
  destruct Hr0 as [_ [Harc [Hparc [HLT HRT]]]].
  pose proof HLT as HLT0. cbn [repr] in HLT0.
  destruct HLT0 as [Ela [Hla [Hpla [Hl1 Hrr1]]]].
  destruct R as [|R1 ra R2]; [congruence|].
  pose proof HRT as HRT0. cbn [repr] in HRT0.
  destruct HRT0 as [Era [Hra [Hpra [HR1 HR2]]]].
  set (LT := Tr l1 la r1) in *.
  set (RT := Tr R1 ra R2) in *.
  set (e := maxof r1 la). set (s := max_parent r1 la).
  set (le := root (max_left r1)). set (p := cparent c) in *.
  destruct (max_cells st r1 la (_right st la) Hrr1 Hr1)
    as [He [Epe [Ele [Ere Hml]]]].
  fold e in He, Epe, Ele, Ere, Hml. fold s in Epe. fold le in Ele, Hml.
  assert (Hs : s <> INVALID)
    by exact (max_parent_valid st r1 la _ Hrr1 Hla).
  (* where the arcs are *)
  assert (Ie : In e (inorder LT)).
  { unfold LT. cbn [inorder]. apply in_or_app. right. right.
    apply maxof_in. exact Hr1. }
  assert (Ila : In la (inorder LT)) by (unfold LT; in_solve).
  assert (Is : In s (inorder LT)).
  { unfold LT. cbn [inorder]. apply in_or_app. right.
    destruct (max_parent_in r1 la) as [E|H].
    - left. symmetry. exact E.
    - right. rewrite (inorder_delmax r1 la Hr1). apply in_or_app. left. exact H. }
  assert (Ile : le <> INVALID -> In le (inorder LT)).
  { intros Hv. unfold LT. cbn [inorder]. apply in_or_app. right. right.
    rewrite (inorder_delmax r1 la Hr1). apply in_or_app. left.
    exact (max_left_root_in r1 Hv). }
  assert (Ira : In ra (inorder RT)) by (unfold RT; in_solve).
  assert (Ip : c <> [] -> In p (cbefore c ++ cafter c))
    by exact (cparent_in c).
  assert (Hpv : c <> [] -> p <> INVALID)
    by exact (cparent_valid st c arc Hc).
  (* the three parts share no arc *)
  assert (Hnd0 : id (NoDup (cbefore c ++ inorder (Tr LT arc RT) ++ cafter c)))
    by exact Hnd.
  change (inorder (Tr LT arc RT)) with (inorder LT ++ arc :: inorder RT) in Hnd.
  assert (HndLT : NoDup (inorder LT)).
  { apply NoDup_app_remove_l in Hnd. apply NoDup_app_remove_r in Hnd.
    apply NoDup_app_remove_r in Hnd. exact Hnd. }
  nd_split.
  assert (SA : forall x, In x (inorder LT) -> x <> arc)
    by (intros x Hx; nd_neq).
  assert (SR : forall x y, In x (inorder LT) -> In y (inorder RT) -> x <> y).
  { intros x y Hx Hy E. rewrite <- E in Hy. nd_false x. }
  assert (SAR : forall y, In y (inorder RT) -> arc <> y)
    by (intros y Hy; nd_neq).
  assert (SC : forall x y,
            In x (inorder LT ++ arc :: inorder RT) ->
            In y (cbefore c ++ cafter c) -> x <> y).
  { intros x y Hx Hy E. rewrite <- E in Hy.
    rewrite in_app_iff in Hy. destruct Hy as [Hy|Hy]; nd_contra x. }
  (* inside the left subtree *)
  pose proof HndLT as HndD. unfold LT in HndD. cbn [inorder] in HndD.
  rewrite (inorder_delmax r1 la Hr1) in HndD. fold e in HndD.
  assert (Hes : e <> s).
  { intros E. pose proof (max_parent_in r1 la) as MP. fold s in MP.
    destruct MP as [E'|H].
    - rewrite E' in E. nd_split. apply Hni0. rewrite <- E. in_solve.
    - rewrite <- E in H. nd_split. apply (Hdj3 e H). in_solve. }
  assert (Hela : e <> la).
  { intros E. nd_split. apply Hni0. rewrite <- E. in_solve. }
  assert (Hele : le <> INVALID -> e <> le /\ la <> le).
  { intros Hv.
    assert (M : In le (inorder (delmax r1)))
      by exact (max_left_root_in r1 Hv).
    nd_split. split; intros E; rewrite <- E in M.
    - apply (Hdj3 e M). in_solve.
    - apply Hni0. in_solve. }
  (* the run *)
  assert (Hfuel : rightmost (fuel_of g) st (_right st la) = Ok e).
  { apply (rightmost_spec r1 (fuel_of g) st (_right st la) la).
    - exact (repr_shape st r1 la _ Hrr1).
    - exact Hr1.
    - pose proof (depth_le_length r1) as D.
      rewrite !length_app in Hlen. cbn [inorder length] in Hlen.
      unfold LT in Hlen. cbn [inorder] in Hlen.
      rewrite !length_app in Hlen. cbn [length] in Hlen.
      unfold fuel_of. lia. }
  assert (Hrv : _right st la <> INVALID).
  { destruct r1 as [|ra1 x rb1]; [congruence|].
    cbn [repr] in Hrr1. destruct Hrr1 as [-> [Hx _]]. exact Hx. }
  assert (Hrun := remove_cut_max_run g st arc la ra e s le p
            Harc Hla Hra He Hs Ela Era Hparc Hrv Hfuel
            Epe Ele).
  cbv zeta in Hrun.
  set (P1 := if le =? INVALID then _parent st else upd (_parent st) le s) in *.
  set (P := upd (upd (upd P1 la e) ra e) e p) in *.
  set (L := upd (_left st) e la) in *.
  set (Rm := upd (upd (_right st) s le) e ra) in *.
  set (L1 := match c with FL q _ :: _ => upd L q e | _ => L end).
  set (R1' := match c with FR _ q :: _ => upd Rm q e | _ => Rm end).
  exists {| _head := _head st; _parent := P; _left := L1; _right := R1' |}.
  assert (HP1 : forall k, (le <> INVALID -> k <> le) -> P1 k = _parent st k).
  { intros k Hk. unfold P1. destruct (le =? INVALID) eqn:E; [reflexivity|].
    apply Z.eqb_neq in E. apply upd_other. exact (Hk E). }
  assert (HL1 : forall k, (c <> [] -> k <> p) -> L1 k = L k).
  { intros k Hk. unfold L1. destruct c as [|[q rq|lq q] c']; try reflexivity.
    apply upd_other. apply Hk. discriminate. }
  assert (HR1' : forall k, (c <> [] -> k <> p) -> R1' k = Rm k).
  { intros k Hk. unfold R1'. destruct c as [|[q rq|lq q] c']; try reflexivity.
    apply upd_other. apply Hk. discriminate. }
  assert (Hnp : forall k, In k (inorder LT ++ arc :: inorder RT) ->
                  c <> [] -> k <> p).
  { intros k Hk Hcn. apply SC; [exact Hk | exact (Ip Hcn)]. }
  assert (Hout : forall a,
            a <> e -> a <> s -> a <> la ->
            (le <> INVALID -> a <> le) ->
            (a <> ra -> P a = _parent st a) /\
            L a = _left st a /\ Rm a = _right st a).
  { intros a A1 A2 A3 A5. split; [|split].
    - intros A4. unfold P. rewrite !upd_other by assumption.
      apply HP1. exact A5.
    - unfold L. apply upd_other. exact A1.
    - unfold Rm. rewrite !upd_other by assumption. reflexivity. }
  split; [|split; [|split; [|split]]].
  - (* the run *)
    rewrite Hrun.
    + unfold L1, R1'. destruct c as [|[q rq|lq q] c'].
      * cbn [cparent] in p. unfold p. rewrite Z.eqb_refl. reflexivity.
      * cbn [cshape] in Hc. destruct Hc as [Hq [Hlq _]].
        cbn [cparent] in p. unfold p.
        rewrite (eqb_invalid_false q Hq), Hlq, Z.eqb_refl. reflexivity.
      * cbn [cshape] in Hc. destruct Hc as [Hq [Hrq [_ [Hlq _]]]].
        cbn [cparent] in p. unfold p.
        rewrite (eqb_invalid_false q Hq).
        assert (Hlne : (_left st q =? arc) = false).
        { apply Z.eqb_neq. apply (repr_root_neq st q _ arc lq Hlq Harc).
          intros a Hain. apply not_eq_sym.
          apply (SC arc a); [in_fast|].
          cbn [cbefore cafter]. in_fast. }
        rewrite Hlne. reflexivity.
    + apply not_eq_sym. exact (SA e Ie).
    + apply not_eq_sym. exact (SA s Is).
    + apply not_eq_sym. exact (SA la Ila).
    + exact (SAR ra Ira).
    + intros E. destruct (Z.eq_dec le INVALID) as [F|F]; [congruence|].
      exact (SA le (Ile F) (eq_sym E)).
    + intros E. destruct c as [|f c0].
      * cbn [cparent] in p. unfold p in E. congruence.
      * apply (SC e p); [in_fast | apply Ip; discriminate | congruence].
  - (* the path above *)
    apply (cshape_rehole st _ c arc e Hc).
    + unfold id in Hnd0. apply NoDup_app_parts in Hnd0.
      destruct Hnd0 as [A [B C]]. apply NoDup_app_remove_l in B.
      apply NoDup_app; [exact A | exact B |].
      intros a Ha Hb. apply (C a Ha). apply in_or_app. right. exact Hb.
    + intros a Ha. cbn [_parent _left _right].
      destruct (Hout a) as [A [B C]]; try (apply not_eq_sym; apply SC; [|exact Ha]).
      * in_fast.
      * in_fast.
      * in_fast.
      * intros Hv. apply not_eq_sym. apply SC; [|exact Ha].
        apply in_or_app. left. exact (Ile Hv).
      * split; [apply A; apply not_eq_sym; apply SC; [in_fast | exact Ha]|].
        intros Hap. rewrite HL1, HR1' by (intros _; exact Hap). split; assumption.
    + intros a r c' ->. cbn [_left _right]. unfold L1, R1'.
      rewrite upd_same. split; [reflexivity|].
      apply (Hout a); try (apply not_eq_sym; apply SC; [|cbn [cbefore cafter]]);
        try in_fast.
      intros Hv. apply not_eq_sym. apply SC; [|cbn [cbefore cafter]; in_fast].
      apply in_or_app. left. exact (Ile Hv).
    + intros l a c' ->. cbn [_left _right]. unfold L1, R1'.
      rewrite upd_same. split; [reflexivity|].
      apply (Hout a); try (apply not_eq_sym; apply SC; [|cbn [cbefore cafter]]);
        try in_fast.
      intros Hv. apply not_eq_sym. apply SC; [|cbn [cbefore cafter]; in_fast].
      apply in_or_app. left. exact (Ile Hv).
  - (* the tree below *)
    assert (HLe : L1 e = la).
    { rewrite HL1 by (apply Hnp; in_fast). unfold L. apply upd_same. }
    assert (HRe : R1' e = ra).
    { rewrite HR1' by (apply Hnp; in_fast). unfold Rm. apply upd_same. }
    apply repr_node; cbn [_parent _left _right]; [exact He | | |].
    { unfold P. apply upd_same. }
    all: rewrite ?HLe, ?HRe.
    { rewrite Ela in HLT.
      apply (delmax_repr r1 l1 la arc e st
               {| _head := _head st; _parent := P; _left := L1; _right := R1' |}
               Hr1 HLT HndLT); cbn [_parent _left _right]; fold e s le.
      * intros k Hk Hke. rewrite HL1 by (apply Hnp; in_fast).
        unfold L. apply upd_other. exact Hke.
      * intros k Hk Hke Hks. rewrite HR1' by (apply Hnp; in_fast).
        unfold Rm. rewrite upd_other by exact Hke. apply upd_other. exact Hks.
      * rewrite HR1' by (apply Hnp; in_fast).
        unfold Rm. rewrite upd_other by (apply not_eq_sym; exact Hes).
        apply upd_same.
      * intros k Hk Hke Hkla Hkle. unfold P.
        rewrite upd_other by exact Hke.
        rewrite upd_other by (apply SR; [exact Hk | exact Ira]).
        rewrite upd_other by exact Hkla.
        apply HP1. intros _. exact Hkle.
      * intros Hml0.
        assert (Hv : le <> INVALID).
        { unfold le. destruct (max_left r1) as [|ml mx mr]; [congruence|].
          cbn [repr] in Hml. cbn [root]. apply Hml. }
        destruct (Hele Hv) as [A B]. unfold P.
        rewrite upd_other by (apply not_eq_sym; exact A).
        rewrite upd_other by (apply SR; [exact (Ile Hv) | exact Ira]).
        rewrite upd_other by (apply not_eq_sym; exact B).
        unfold P1. rewrite (eqb_invalid_false le Hv). apply upd_same.
      * unfold P. rewrite upd_other by (apply not_eq_sym; exact Hela).
        rewrite upd_other by (apply SR; [exact Ila | exact Ira]).
        apply upd_same. }
    { rewrite Era in HRT.
      apply (repr_reparent st _ RT arc e ra HRT); cbn [_parent _left _right].
      * intros a Ha.
        destruct (Hout a) as [A [B C]];
          try (apply not_eq_sym; apply SR; [|exact Ha]); try assumption.
        -- intros Hv. apply not_eq_sym. apply SR; [exact (Ile Hv) | exact Ha].
        -- rewrite HL1, HR1' by (apply Hnp; in_fast).
           split; [exact B|]. split; [exact C|]. exact A.
      * exact Hnd.
      * intros _. unfold P.
        rewrite upd_other by (apply not_eq_sym; apply SR; [exact Ie | exact Ira]).
        apply upd_same. }
  - reflexivity.
  - intros a Ha. cbn [_parent _left _right].
    assert (Hin : forall x, In x (inorder LT ++ arc :: inorder RT) -> a <> x).
    { intros x Hx E. apply Ha. rewrite E.
      apply in_or_app. right. apply in_or_app. left. exact Hx. }
    destruct (Hout a) as [A [B C]].
    + apply Hin. in_fast.
    + apply Hin. in_fast.
    + apply Hin. in_fast.
    + intros Hv. apply Hin. apply in_or_app. left. exact (Ile Hv).
    + assert (Hap : c <> [] -> a <> p).
      { intros Hcn E. apply Ha. rewrite E.
        pose proof (Ip Hcn) as M. rewrite in_app_iff in M.
        rewrite !in_app_iff.
        destruct M as [M|M]; [left; exact M | right; right; exact M]. }
      rewrite HL1, HR1' by exact Hap.
      split; [|split; assumption].
      apply A. apply Hin. in_fast.
Qed.

End DynCutMaxState.
Section DynEraseCutMax.

Import DynArcLookUp.

Variable g : Digraph.
Hypothesis Hwf : wf_graph g.

Lemma erase_two_children (st : state) (arc : Arc) :
  dyn_wf g st -> In arc (arcs g) ->
  _left st arc <> INVALID -> _right st arc <> INVALID ->
  _right st (_left st arc) <> INVALID ->
  exists (c : ctx) (l1 : tree) (la : Arc) (r1 R : tree) (st1 st' : state),
    repr st INVALID (_head st (source g arc))
         (plug c (Tr (Tr l1 la r1) arc R)) /\
    cshape st c arc /\
    repr st (cparent c) arc (Tr (Tr l1 la r1) arc R) /\
    r1 <> Leaf /\
    rightmost (fuel_of g) st (_right st (_left st arc)) = Ok (maxof r1 la) /\
    _parent st (maxof r1 la) = max_parent r1 la /\
    erase g st arc = splay g st1 (max_parent r1 la) /\
    cshape st1 c (maxof r1 la) /\
    repr st1 (cparent c) (maxof r1 la)
         (Tr (Tr l1 la (delmax r1)) (maxof r1 la) R) /\
    erase g st arc = Ok st' /\
    _head st' (source g arc) = max_parent r1 la /\
    _parent st' (max_parent r1 la) = INVALID /\
    dyn_wf (graph_erase g arc) st'.
Proof.
  intros Hst Harc Hlv Hrv Hlrv.
  set (n := source g arc).
  assert (Hn : In n (nodes g)) by (apply (wf_source g Hwf); exact Harc).
  assert (Hnv : n <> INVALID)
    by (intros F; rewrite F in Hn; exact (wf_nodes_valid g Hwf Hn)).
  destruct (Hst n Hn) as [T [HT [HP HS]]].
  destruct (tree_of_node_facts g Hwf st n T HP) as [Hnd [Hlen Hsrc]].
  assert (HaT : In arc (inorder T)).
  { apply (Permutation_in _ (Permutation_sym HP)). apply outArcs_in.
    split; [exact Harc | reflexivity]. }
  destruct (locate_plug st arc T [] (_head st n) I HT HaT) as [c [l [r [Hc [Hr E]]]]].
  cbn [plug] in E.
  pose proof Hr as Hr0. cbn [repr] in Hr0.
  destruct Hr0 as [_ [Hav [_ [Hl0 Hr00]]]].
  destruct l as [|l1 la r1]; [cbn [repr] in Hl0; congruence|].
  destruct r as [|R1 ra R2]; [cbn [repr] in Hr00; congruence|].
  pose proof Hl0 as Hl1. cbn [repr] in Hl1.
  destruct Hl1 as [Ela [Hla [_ [_ Hr1]]]].
  assert (Hr1n : r1 <> Leaf).
  { intros ->. cbn [repr] in Hr1. rewrite Ela in Hlrv. congruence. }
  set (RT := Tr R1 ra R2) in *.
  assert (Ei : cbefore c ++ inorder (Tr (Tr l1 la r1) arc RT) ++ cafter c
               = inorder T).
  { rewrite <- E. symmetry. apply inorder_plug. }
  assert (Hmax : rightmost (fuel_of g) st (_right st (_left st arc))
                 = Ok (maxof r1 la)).
  { rewrite Ela.
    apply (rightmost_spec r1 (fuel_of g) st (_right st la) la).
    - exact (repr_shape st r1 la _ Hr1).
    - exact Hr1n.
    - pose proof (depth_le_length r1) as D.
      rewrite <- Ei in Hlen. cbn [inorder] in Hlen.
      repeat (rewrite length_app in Hlen; cbn [length] in Hlen).
      unfold fuel_of. lia. }
  assert (Hpmax : _parent st (maxof r1 la) = max_parent r1 la).
  { destruct (max_cells st r1 la (_right st la) Hr1 Hr1n) as [_ [Epe _]].
    exact Epe. }
  destruct (remove_cut_max g st c arc la l1 r1 RT)
    as [st1 [R [Hc1 [Hrep1 [Hh1 Hoff1]]]]].
  - exact Hr1n.
  - discriminate.
  - rewrite Ei. exact Hlen.
  - exact Hc.
  - exact Hr.
  - rewrite Ei. exact Hnd.
  - set (e := maxof r1 la) in *. set (s := max_parent r1 la) in *.
    set (Tn := Tr (Tr l1 la (delmax r1)) e RT) in *.
    set (P := cbefore c ++ inorder l1 ++ la :: inorder (delmax r1) ++ [e]).
    set (Q := inorder RT ++ cafter c).
    assert (EPQ : inorder T = P ++ arc :: Q).
    { rewrite <- Ei. unfold P, Q. cbn [inorder].
      rewrite (inorder_delmax r1 la Hr1n). fold e. list_eq. }
    assert (EPQ' : inorder (plug c Tn) = P ++ Q).
    { rewrite inorder_plug. unfold P, Q, Tn. cbn [inorder]. list_eq. }
    assert (Hnd' : NoDup (P ++ Q)).
    { rewrite EPQ in Hnd. exact (NoDup_remove_1 _ _ _ Hnd). }
    assert (Hsub : forall a, In a (P ++ Q) -> In a (inorder T)).
    { intros a Ha. rewrite EPQ. rewrite in_app_iff in Ha |- *.
      destruct Ha as [Ha|Ha]; [left; exact Ha | right; right; exact Ha]. }
    assert (Hsin : In s (inorder Tn)).
    { unfold Tn. cbn [inorder]. apply in_or_app. left.
      apply in_or_app. right.
      destruct (max_parent_in r1 la) as [F|F]; fold s in F.
      - left. symmetry. exact F.
      - right. exact F. }
    destruct (locate_plug st1 s Tn c e Hc1 Hrep1 Hsin)
      as [c2 [l2 [r2 [Hc2 [Hr2 E2]]]]].
    assert (Ei2 : cbefore c2 ++ inorder (Tr l2 s r2) ++ cafter c2 = P ++ Q).
    { rewrite <- EPQ', <- E2. symmetry. apply inorder_plug. }
    assert (HsT : In s (inorder T)).
    { apply Hsub. rewrite <- Ei2. apply in_or_app. right.
      apply in_or_app. left. cbn [inorder]. apply in_or_app. right. left.
      reflexivity. }
    assert (Hss : source g s = n) by exact (Hsrc s HsT).
    destruct (splay_spec g st1 c2 (Tr l2 s r2) s)
      as [st' [t' [Rs [Hrep' [Ein' [Hh' Hoff']]]]]].
    + rewrite Ei2. rewrite EPQ in Hlen.
      rewrite !length_app in Hlen |- *. cbn [length] in Hlen. lia.
    + rewrite Hss. exact Hnv.
    + discriminate.
    + exact Hc2.
    + exact Hr2.
    + rewrite Ei2. exact Hnd'.
    + rewrite Ei2 in Ein', Hoff'.
      assert (Hhead : _head st' n = s).
      { rewrite Hh', Hss. apply upd_same. }
      assert (Hoff : agree_off (inorder T) st st').
      { intros a Ha.
        destruct (Hoff1 a) as [A1 [A2 A3]]; [rewrite Ei; exact Ha|].
        destruct (Hoff' a) as [B1 [B2 B3]].
        { intros F. apply Ha. apply Hsub. exact F. }
        split; [congruence|]. split; congruence. }
      assert (Hroot : _parent st' s = INVALID).
      { destruct t' as [|A x B].
        - cbn [inorder] in Ein'. symmetry in Ein'.
          apply app_eq_nil in Ein'. destruct Ein' as [EP _].
          unfold P in EP. apply app_eq_nil in EP. destruct EP as [_ EP].
          apply app_eq_nil in EP. destruct EP as [_ EP]. discriminate EP.
        - cbn [repr] in Hrep'. destruct Hrep' as [Ex [_ [Hp _]]].
          rewrite Ex. exact Hp. }
      exists c, l1, la, r1, RT, st1, st'.
      split; [fold n; rewrite E; exact HT|].
      split; [exact Hc|]. split; [exact Hr|]. split; [exact Hr1n|].
      split; [exact Hmax|]. split; [exact Hpmax|].
      split; [unfold erase; exact R|].
      split; [exact Hc1|]. split; [exact Hrep1|].
      split; [unfold erase; rewrite R; exact Rs|].
      split; [exact Hhead|]. split; [exact Hroot|].
      apply (wf_after_removal g Hwf st st' arc T t' P Q); try assumption.
      * fold n. rewrite Hhead. exact Hrep'.
      * fold n. intros m Hm. rewrite Hh', Hss, Hh1. apply upd_other. exact Hm.
Qed.

End DynEraseCutMax.

(** X19: the notification [erase(arc)] for an arc with two children
    whose left child has a right child, in a well-formed state of the
    dynamic index; [g] is the graph before the arc is unlinked.  The
    arc stands somewhere in the tree of its source node, above a left
    subtree [l1 - la - r1] with [r1] not empty.  The arc [e] that the
    walk down the right children from [_right[_left[arc]]] ends at is
    the rightmost arc of [r1], and [s] is its parent.  Before the
    closing [splay(s)], [e] stands where [arc] stood, above the left
    subtree without [e] and the right subtree as it was.  The call
    returns with [s] at the root of the tree of the node, and the state
    is well-formed for the graph without the arc: every tree holds
    exactly the outgoing arcs that are left, and the parent map agrees
    with the child maps. *)
Theorem dyn_erase_with_deep_predecessor :
  forall (g : Digraph) (st : DynArcLookUp.state) (arc : Arc),
    wf_graph g -> dyn_wf g st -> In arc (arcs g) ->
    DynArcLookUp._left st arc <> INVALID ->
    DynArcLookUp._right st arc <> INVALID ->
    DynArcLookUp._right st (DynArcLookUp._left st arc) <> INVALID ->
    exists (c : ctx) (l1 : tree) (la : Arc) (r1 R : tree)
           (st1 st' : DynArcLookUp.state),
      repr st INVALID (DynArcLookUp._head st (source g arc))
           (plug c (Tr (Tr l1 la r1) arc R)) /\
      cshape st c arc /\
      repr st (cparent c) arc (Tr (Tr l1 la r1) arc R) /\
      r1 <> Leaf /\
      DynArcLookUp.rightmost (fuel_of g) st
        (DynArcLookUp._right st (DynArcLookUp._left st arc))
      = Ok (maxof r1 la) /\
      DynArcLookUp._parent st (maxof r1 la) = max_parent r1 la /\
      DynArcLookUp.erase g st arc
      = DynArcLookUp.splay g st1 (max_parent r1 la) /\
      cshape st1 c (maxof r1 la) /\
      repr st1 (cparent c) (maxof r1 la)
           (Tr (Tr l1 la (delmax r1)) (maxof r1 la) R) /\
      DynArcLookUp.erase g st arc = Ok st' /\
      DynArcLookUp._head st' (source g arc) = max_parent r1 la /\
      DynArcLookUp._parent st' (max_parent r1 la) = INVALID /\
      dyn_wf (graph_erase g arc) st' /\
      (forall n, In n (nodes g) -> tree_is_out_arcs (graph_erase g arc) st' n) /\
      parent_child_consistent (graph_erase g arc) st'.
Proof.
  intros g st arc Hwf Hst Harc Hl Hr Hlr.
  destruct (erase_two_children g Hwf st arc Hst Harc Hl Hr Hlr)
    as [c [l1 [la [r1 [R [st1 [st' [H1 [H2 [H3 [H4 [H5 [H6 [H7 [H8 [H9
         [H10 [H11 [H12 Hst']]]]]]]]]]]]]]]]]]].
  exists c, l1, la, r1, R, st1, st'.
  repeat (split; [assumption|]).
  destruct (wf_tree_is_out_arcs_all (graph_erase g arc) st'
              (wf_graph_erase g arc Hwf) Hst') as [G1 [G2 _]].
  split; [exact G1 | exact G2].
Qed.

Lemma dyn_erase_with_deep_predecessor_witness :
  holds_after (DynArcLookUp.make g_six dyn_mem)
    (fun st =>
       wf_graph g_six /\ dyn_wf g_six st /\ In 12 (arcs g_six) /\
       DynArcLookUp._left st 12 <> INVALID /\
       DynArcLookUp._right st 12 <> INVALID /\
       DynArcLookUp._right st (DynArcLookUp._left st 12) <> INVALID /\
       exists (c : ctx) (l1 : tree) (la : Arc) (r1 R : tree)
              (st1 st' : DynArcLookUp.state),
         repr st INVALID (DynArcLookUp._head st (source g_six 12))
              (plug c (Tr (Tr l1 la r1) 12 R)) /\
         cshape st c 12 /\
         repr st (cparent c) 12 (Tr (Tr l1 la r1) 12 R) /\
         r1 <> Leaf /\
         DynArcLookUp.rightmost (fuel_of g_six) st
           (DynArcLookUp._right st (DynArcLookUp._left st 12))
         = Ok (maxof r1 la) /\
         DynArcLookUp._parent st (maxof r1 la) = max_parent r1 la /\
         DynArcLookUp.erase g_six st 12
         = DynArcLookUp.splay g_six st1 (max_parent r1 la) /\
         cshape st1 c (maxof r1 la) /\
         repr st1 (cparent c) (maxof r1 la)
              (Tr (Tr l1 la (delmax r1)) (maxof r1 la) R) /\
         DynArcLookUp.erase g_six st 12 = Ok st' /\
         DynArcLookUp._head st' (source g_six 12) = max_parent r1 la /\
         DynArcLookUp._parent st' (max_parent r1 la) = INVALID /\
         dyn_wf (graph_erase g_six 12) st' /\
         (forall n, In n (nodes g_six) ->
            tree_is_out_arcs (graph_erase g_six 12) st' n) /\
         parent_child_consistent (graph_erase g_six 12) st').
Proof.
  assert (W6 : wf_graph g_six).
  { constructor.
    - cbn. repeat constructor; cbn; intuition discriminate.
    - cbn. intuition discriminate.
    - cbn. intuition discriminate.
    - intros a Ha. cbn in Ha.
      destruct Ha as [<-|[<-|[<-|[<-|[<-|[<-|[]]]]]]]; vm_compute; tauto. }
  destruct (DynArcLookUp.make g_six dyn_mem) as [st|e] eqn:E.
  - cbn [holds_after].
    assert (W : dyn_wf g_six st).
    { apply (dyn_reach_wf g_six st).
      exact (reach_make g_six dyn_mem st W6 ltb_strict_total E). }
    assert (H12 : In 12 (arcs g_six)) by (cbn; tauto).
    assert (Hc : DynArcLookUp._left st 12 <> INVALID /\
                 DynArcLookUp._right st 12 <> INVALID /\
                 DynArcLookUp._right st (DynArcLookUp._left st 12) <> INVALID).
    { vm_compute in E. injection E as <-. vm_compute.
      repeat split; discriminate. }
    destruct Hc as [Hl [Hr Hlr]].
    split; [exact W6|]. split; [exact W|]. split; [exact H12|].
    split; [exact Hl|]. split; [exact Hr|]. split; [exact Hlr|].
    exact (dyn_erase_with_deep_predecessor g_six st 12 W6 W H12 Hl Hr Hlr).
  - vm_compute in E. discriminate E.
Defined.

(** ** Undirected graphs: [findEdge] and [ConEdgeIt] *)

Lemma inc_after_split (e : Edge) (b : bool) (p q : list (Edge * bool)) :
  ~ In (e, b) p -> inc_after e b (p ++ (e, b) :: q) = hd (INVALID, true) q.
Proof.
  induction p as [|[x d] p IH]; intros Hni.
  - cbn [app inc_after]. rewrite Z.eqb_refl, Bool.eqb_reflx. reflexivity.
  - cbn [app inc_after].
    assert (Hx : (x =? e) && Bool.eqb d b = false).
    { destruct (x =? e) eqn:E1; [|reflexivity].
      destruct (Bool.eqb d b) eqn:E2; [|reflexivity].
      exfalso. apply Hni. left.
      apply Z.eqb_eq in E1. apply Bool.eqb_prop in E2. congruence. }
    rewrite Hx. apply IH. intros F. apply Hni. right. exact F.
Qed.

Lemma hd_map_fst {A B : Type} (d : A) (d' : B) (l : list (A * B)) :
  fst (hd (d, d') l) = hd d (map fst l).
Proof. destruct l; reflexivity. Qed.

Lemma find_hd_filter {A : Type} (f : A -> bool) (d : A) (l : list A) :
  match find f l with Some x => x | None => d end = hd d (filter f l).
Proof.
  induction l as [|x l IH]; [reflexivity|].
  cbn [find filter]. destruct (f x); [reflexivity | exact IH].
Qed.

Section FindEdge.

Variable g : Graph.
Hypothesis Hwf : wf_ugraph g.

Lemma inc_edge_valid (n : Node) (e : Edge) (b : bool) :
  In (e, b) (inc g n) -> e <> INVALID.
Proof.
  intros H. apply (wfu_inc g Hwf) in H. destruct H as [H _].
  intros ->. exact (wfu_edges_valid g Hwf H).
Qed.

Lemma inc_length (n : Node) :
  (length (inc g n) <= 2 * length (edges g))%nat.
Proof.
  assert (H : incl (inc g n) (list_prod (edges g) [true; false])).
  { intros [e b] Hin. apply in_prod.
    - apply (wfu_inc g Hwf) in Hin. apply Hin.
    - destruct b; cbn; tauto. }
  pose proof (NoDup_incl_length (wfu_inc_nodup g Hwf n) H) as L.
  rewrite length_prod in L. cbn [length] in L. lia.
Qed.

Lemma nextInc_split (n : Node) (e : Edge) (b : bool)
  (p q : list (Edge * bool)) :
  inc g n = p ++ (e, b) :: q ->
  nextInc g e b = Ok (hd (INVALID, true) q).
Proof.
  intros E.
  assert (He : In (e, b) (inc g n))
    by (rewrite E; apply in_or_app; right; left; reflexivity).
  pose proof (inc_edge_valid n e b He) as Hev.
  apply (wfu_inc g Hwf) in He. destruct He as [He Hn].
  unfold nextInc, g_u, g_v.
  assert (R : (if b then get (edge_u g) e else get (edge_v g) e) = Ok n).
  { destruct b; rewrite (get_ok _ e Hev), Hn; reflexivity. }
  rewrite R. cbn [bind]. rewrite E. f_equal. apply inc_after_split.
  pose proof (wfu_inc_nodup g Hwf n) as Hnd.
  rewrite E in Hnd. apply NoDup_remove_2 in Hnd.
  intros F. apply Hnd. apply in_or_app. left. exact F.
Qed.

(** The loop for [u != v] stops at the first end that leads to [v]. *)
Lemma findEdge_loop_spec (u v : Node) :
  (u =? v) = false ->
  forall (q p : list (Edge * bool)) (fuel : nat) (e : Edge) (b : bool),
    inc g u = p ++ q ->
    (length q <= fuel)%nat ->
    hd (INVALID, true) q = (e, b) ->
    findEdge_loop fuel g v e b
    = Ok (hd INVALID (map fst (filter (leads_to g u v) q))).
Proof.
  intros Huv.
  induction q as [|[e0 b0] q IH]; intros p fuel e b E Hfuel Hhd.
  - cbn [hd] in Hhd. injection Hhd as <- <-.
    cbn [filter map hd]. destruct fuel; reflexivity.
  - cbn [hd] in Hhd. injection Hhd as -> ->.
    assert (He : In (e, b) (inc g u))
      by (rewrite E; apply in_or_app; right; left; reflexivity).
    pose proof (inc_edge_valid u e b He) as Hev.
    cbn [hd fst snd filter].
    unfold leads_to at 1. rewrite Huv. cbn [negb fst snd].
    destruct fuel as [|f]; [cbn [length] in Hfuel; lia|].
    cbn [findEdge_loop]. rewrite (eqb_invalid_false e Hev).
    unfold g_u, g_v.
    assert (R : (if b then get (edge_v g) e else get (edge_u g) e)
                = Ok (if b then edge_v g e else edge_u g e)).
    { destruct b; rewrite (get_ok _ e Hev); reflexivity. }
    rewrite R. cbn [bind].
    destruct ((if b then edge_v g e else edge_u g e) =? v); cbn [negb].
    + reflexivity.
    + rewrite (nextInc_split u e b p q E). cbn [bind].
      destruct (hd (INVALID, true) q) as [e' b'] eqn:Ehd.
      apply (IH (p ++ [(e, b)])).
      * rewrite E, <- app_assoc. reflexivity.
      * cbn [length] in Hfuel. lia.
      * reflexivity.
Qed.

(** The loop for [u == v] stops at the first [u] end of a loop. *)
Lemma findLoop_loop_spec (u : Node) :
  forall (q p : list (Edge * bool)) (fuel : nat) (e : Edge) (b : bool),
    inc g u = p ++ q ->
    (length q <= fuel)%nat ->
    hd (INVALID, true) q = (e, b) ->
    findLoop_loop fuel g u e b
    = Ok (hd INVALID (map fst (filter (leads_to g u u) q))).
Proof.
  induction q as [|[e0 b0] q IH]; intros p fuel e b E Hfuel Hhd.
  - cbn [hd] in Hhd. injection Hhd as <- <-.
    cbn [filter map hd]. destruct fuel; reflexivity.
  - cbn [hd] in Hhd. injection Hhd as -> ->.
    assert (He : In (e, b) (inc g u))
      by (rewrite E; apply in_or_app; right; left; reflexivity).
    pose proof (inc_edge_valid u e b He) as Hev.
    cbn [hd fst snd filter].
    unfold leads_to at 1. rewrite Z.eqb_refl. cbn [negb fst snd].
    destruct fuel as [|f]; [cbn [length] in Hfuel; lia|].
    cbn [findLoop_loop]. rewrite (eqb_invalid_false e Hev).
    unfold g_v.
    assert (Hnext : forall r,
              r = Ok (hd INVALID (map fst (filter (leads_to g u u) q))) ->
              ('(e', b') <- nextInc g e b ;; findLoop_loop f g u e' b') = r).
    { intros r ->. rewrite (nextInc_split u e b p q E). cbn [bind].
      destruct (hd (INVALID, true) q) as [e' b'] eqn:Ehd.
      apply (IH (p ++ [(e, b)])).
      - rewrite E, <- app_assoc. reflexivity.
      - cbn [length] in Hfuel. lia.
      - reflexivity. }
    destruct b; cbn [negb andb bind].
    + rewrite (get_ok _ e Hev). cbn [bind].
      destruct (edge_v g e =? u); cbn [negb].
      * reflexivity.
      * apply Hnext. reflexivity.
    + apply Hnext. reflexivity.
Qed.

Lemma findEdge_first (u v : Node) :
  u <> INVALID ->
  findEdge g u v INVALID = Ok (hd INVALID (edges_between g u v)).
Proof.
  intros Hu. unfold findEdge, firstInc, edges_between.
  assert (Ei : (INVALID =? INVALID) = true) by reflexivity.
  rewrite Ei, (eqb_invalid_false u Hu).
  assert (Hf : (length (inc g u) <= fuel_of_edges g)%nat).
  { pose proof (inc_length u). unfold fuel_of_edges. lia. }
  destruct (u =? v) eqn:Huv; cbn [negb bind].
  - apply Z.eqb_eq in Huv. subst v.
    destruct (hd (INVALID, true) (inc g u)) as [e b] eqn:Ehd.
    exact (findLoop_loop_spec u (inc g u) [] _ e b eq_refl Hf Ehd).
  - destruct (hd (INVALID, true) (inc g u)) as [e b] eqn:Ehd.
    exact (findEdge_loop_spec u v Huv (inc g u) [] _ e b eq_refl Hf Ehd).
Qed.

(** The end at which the search goes on after [prev]. *)
Lemma findEdge_after (u v : Node) (prev : Edge) (b : bool)
  (p q : list (Edge * bool)) :
  inc g u = p ++ (prev, b) :: q ->
  leads_to g u v (prev, b) = true ->
  findEdge g u v prev
  = Ok (hd INVALID (map fst (filter (leads_to g u v) q))).
Proof.
  intros E Hl.
  assert (He : In (prev, b) (inc g u))
    by (rewrite E; apply in_or_app; right; left; reflexivity).
  pose proof (inc_edge_valid u prev b He) as Hev.
  pose proof (proj1 (wfu_inc g Hwf u prev b) He) as [Hin Hend].
  assert (Hf : (length q <= fuel_of_edges g)%nat).
  { pose proof (inc_length u) as L. rewrite E, length_app in L.
    cbn [length] in L. unfold fuel_of_edges. lia. }
  unfold findEdge. rewrite (eqb_invalid_false prev Hev).
  unfold leads_to in Hl. cbn [fst snd] in Hl.
  destruct (u =? v) eqn:Huv; cbn [negb] in Hl |- *.
  - apply Z.eqb_eq in Huv. subst v.
    apply andb_prop in Hl. destruct Hl as [Hb _]. subst b.
    rewrite (nextInc_split u prev true p q E). cbn [bind].
    destruct (hd (INVALID, true) q) as [e' b'] eqn:Ehd.
    apply (findLoop_loop_spec u q (p ++ [(prev, true)])); [|exact Hf|exact Ehd].
    rewrite E, <- app_assoc. reflexivity.
  - unfold g_u. rewrite (get_ok _ prev Hev). cbn [bind].
    assert (Hb : (edge_u g prev =? u) = b).
    { destruct b.
      - rewrite Hend. apply Z.eqb_refl.
      - apply Z.eqb_neq. intros F. apply Z.eqb_eq in Hl.
        apply Z.eqb_neq in Huv. congruence. }
    rewrite Hb, (nextInc_split u prev b p q E). cbn [bind].
    destruct (hd (INVALID, true) q) as [e' b'] eqn:Ehd.
    apply (findEdge_loop_spec u v Huv q (p ++ [(prev, b)])); [|exact Hf|exact Ehd].
    rewrite E, <- app_assoc. reflexivity.
Qed.

(** An edge is taken at one end only. *)
Lemma leads_to_one_end (u v : Node) (e : Edge) (b b' : bool) :
  In (e, b) (inc g u) -> In (e, b') (inc g u) ->
  leads_to g u v (e, b) = true -> leads_to g u v (e, b') = true ->
  b = b'.
Proof.
  intros H1 H2 L1 L2.
  apply (wfu_inc g Hwf) in H1. apply (wfu_inc g Hwf) in H2.
  destruct H1 as [_ H1]. destruct H2 as [_ H2].
  unfold leads_to in L1, L2. cbn [fst snd] in L1, L2.
  destruct (u =? v) eqn:Huv; cbn [negb] in L1, L2.
  - apply andb_prop in L1. apply andb_prop in L2.
    destruct L1 as [-> _]. destruct L2 as [-> _]. reflexivity.
  - apply Z.eqb_neq in Huv. apply Z.eqb_eq in L1. apply Z.eqb_eq in L2.
    destruct b, b'; try reflexivity; exfalso; congruence.
Qed.

Lemma edges_between_nodup (u v : Node) : NoDup (edges_between g u v).
Proof.
  unfold edges_between.
  assert (Hsub : forall x, In x (filter (leads_to g u v) (inc g u)) ->
                   In x (inc g u) /\ leads_to g u v x = true)
    by (intros x Hx; apply filter_In; exact Hx).
  pose proof (NoDup_filter (leads_to g u v) (wfu_inc_nodup g Hwf u)) as Hnd.
  induction (filter (leads_to g u v) (inc g u)) as [|[e b] l IH].
  - constructor.
  - cbn [map fst]. apply NoDup_cons_iff in Hnd. destruct Hnd as [Hni Hnd].
    constructor.
    + intros F. apply in_map_iff in F. destruct F as [[e' b'] [E F]].
      cbn [fst] in E. subst e'.
      destruct (Hsub (e, b) (or_introl eq_refl)) as [A1 A2].
      destruct (Hsub (e, b') (or_intror F)) as [B1 B2].
      rewrite (leads_to_one_end u v e b b' A1 B1 A2 B2) in Hni.
      exact (Hni F).
    + apply IH; [|exact Hnd]. intros x Hx. apply Hsub. right. exact Hx.
Qed.

Lemma edges_between_in (u v : Node) (e : Edge) :
  In e (edges_between g u v) <->
  In e (edges g) /\
  ((edge_u g e = u /\ edge_v g e = v) \/ (edge_u g e = v /\ edge_v g e = u)).
Proof.
  unfold edges_between. rewrite in_map_iff. split.
  - intros [[e' b] [E H]]. cbn [fst] in E. subst e'.
    apply filter_In in H. destruct H as [H L].
    apply (wfu_inc g Hwf) in H. destruct H as [He Hn].
    split; [exact He|].
    unfold leads_to in L. cbn [fst snd] in L.
    destruct (u =? v) eqn:Huv; cbn [negb] in L.
    + apply andb_prop in L. destruct L as [-> L]. apply Z.eqb_eq in L.
      left. split; assumption.
    + apply Z.eqb_eq in L. destruct b; [left | right]; split; assumption.
  - intros [He [[Hu Hv]|[Hu Hv]]].
    + exists (e, true). split; [reflexivity|]. apply filter_In. split.
      * apply (wfu_inc g Hwf). split; assumption.
      * unfold leads_to. cbn [fst snd]. rewrite Hv, Z.eqb_refl.
        destruct (negb (u =? v)); reflexivity.
    + destruct (u =? v) eqn:Huv.
      * apply Z.eqb_eq in Huv. rewrite <- Huv in Hu |- *.
        exists (e, true). split; [reflexivity|]. apply filter_In. split.
        -- apply (wfu_inc g Hwf). split; assumption.
        -- unfold leads_to. cbn [fst snd].
           rewrite Hv, !Z.eqb_refl. reflexivity.
      * exists (e, false). split; [reflexivity|]. apply filter_In. split.
        -- apply (wfu_inc g Hwf). split; assumption.
        -- unfold leads_to. cbn [fst snd]. rewrite Huv. cbn [negb].
           rewrite Hu. apply Z.eqb_refl.
Qed.

Lemma findEdge_next (u v : Node) (prev : Edge) :
  In prev (edges_between g u v) ->
  findEdge g u v prev = Ok (succ_of prev (edges_between g u v) INVALID).
Proof.
  intros Hin. pose proof (edges_between_nodup u v) as Hnd.
  unfold edges_between in Hin, Hnd |- *.
  apply in_map_iff in Hin. destruct Hin as [[e b] [E H]].
  cbn [fst] in E. subst e.
  pose proof H as H0. apply filter_In in H0. destruct H0 as [Hi Hl].
  apply in_split in Hi. destruct Hi as [p [q Ei]].
  rewrite (findEdge_after u v prev b p q Ei Hl).
  rewrite Ei, filter_app in Hnd |- *. cbn [filter] in Hnd |- *.
  rewrite Hl in Hnd |- *. rewrite map_app in Hnd |- *.
  cbn [map fst] in Hnd |- *.
  rewrite succ_of_split; [reflexivity|].
  apply NoDup_remove_2 in Hnd. intros F. apply Hnd.
  apply in_or_app. left. exact F.
Qed.

End FindEdge.

Section ConEdge.

Variable g : Graph.
Hypothesis Hwf : wf_ugraph g.

Lemma edges_between_length (u v : Node) :
  (length (edges_between g u v) <= 2 * length (edges g))%nat.
Proof.
  unfold edges_between. rewrite length_map.
  pose proof (filter_length_le (leads_to g u v) (inc g u)).
  pose proof (inc_length g Hwf u). lia.
Qed.

(** [operator++] steps to the edge that follows in the list of [u]. *)
Lemma con_edge_incr (u v : Node) (it : Edge) :
  (forall e, In e (edges_between g u v) -> edge_u g e = u) \/
  edges_between g v u = edges_between g u v ->
  In it (edges_between g u v) ->
  ConEdgeIt.incr g it = Ok (succ_of it (edges_between g u v) INVALID).
Proof.
  intros Hor Hin.
  pose proof (proj1 (edges_between_in g Hwf u v it) Hin) as [He Hends].
  assert (Hev : it <> INVALID) by (intros ->; exact (wfu_edges_valid g Hwf He)).
  unfold ConEdgeIt.incr, g_u, g_v. rewrite !(get_ok _ it Hev). cbn [bind].
  assert (Hfw : edge_u g it = u -> edge_v g it = v ->
                findEdge g (edge_u g it) (edge_v g it) it
                = Ok (succ_of it (edges_between g u v) INVALID)).
  { intros -> ->. apply (findEdge_next g Hwf). exact Hin. }
  destruct Hends as [[Hu Hv]|[Hu Hv]]; [exact (Hfw Hu Hv)|].
  destruct Hor as [Hor|Hor].
  - pose proof (Hor it Hin) as Hu'.
    apply Hfw; congruence.
  - rewrite Hu, Hv, <- Hor. apply (findEdge_next g Hwf).
    rewrite Hor. exact Hin.
Qed.

Lemma con_edge_run_from (u v : Node) :
  (forall e, In e (edges_between g u v) -> edge_u g e = u) \/
  edges_between g v u = edges_between g u v ->
  forall (q p : list Edge) (fuel : nat) (e : Edge),
    edges_between g u v = p ++ e :: q ->
    (length q < fuel)%nat ->
    ConEdgeIt.run_from fuel g e = Ok (e :: q).
Proof.
  intros Hor.
  induction q as [|x q IH]; intros p fuel e E Hfuel.
  - assert (Hin : In e (edges_between g u v))
      by (rewrite E; apply in_or_app; right; left; reflexivity).
    pose proof (proj1 (edges_between_in g Hwf u v e) Hin) as [He _].
    assert (Hev : e <> INVALID) by (intros ->; exact (wfu_edges_valid g Hwf He)).
    destruct fuel as [|f]; [cbn [length] in Hfuel; lia|].
    cbn [ConEdgeIt.run_from]. rewrite (eqb_invalid_false e Hev).
    rewrite (con_edge_incr u v e Hor Hin). cbn [bind].
    rewrite E, succ_of_split.
    + cbn [hd].
      assert (Ei : (INVALID =? INVALID) = true) by reflexivity.
      destruct f; cbn [ConEdgeIt.run_from]; rewrite Ei; reflexivity.
    + pose proof (edges_between_nodup g Hwf u v) as Hnd. rewrite E in Hnd.
      apply NoDup_remove_2 in Hnd. intros F. apply Hnd.
      apply in_or_app. left. exact F.
  - assert (Hin : In e (edges_between g u v))
      by (rewrite E; apply in_or_app; right; left; reflexivity).
    pose proof (proj1 (edges_between_in g Hwf u v e) Hin) as [He _].
    assert (Hev : e <> INVALID) by (intros ->; exact (wfu_edges_valid g Hwf He)).
    destruct fuel as [|f]; [cbn [length] in Hfuel; lia|].
    cbn [ConEdgeIt.run_from]. rewrite (eqb_invalid_false e Hev).
    rewrite (con_edge_incr u v e Hor Hin). cbn [bind].
    rewrite E, succ_of_split.
    + cbn [hd]. rewrite (IH (p ++ [e]) f x).
      * reflexivity.
      * rewrite E, <- app_assoc. reflexivity.
      * cbn [length] in Hfuel. lia.
    + pose proof (edges_between_nodup g Hwf u v) as Hnd. rewrite E in Hnd.
      apply NoDup_remove_2 in Hnd. intros F. apply Hnd.
      apply in_or_app. left. exact F.
Qed.

Lemma con_edge_run (u v : Node) :
  u <> INVALID ->
  (forall e, In e (edges_between g u v) -> edge_u g e = u) \/
  edges_between g v u = edges_between g u v ->
  ConEdgeIt.run g u v = Ok (edges_between g u v).
Proof.
  intros Hu Hor. unfold ConEdgeIt.run, ConEdgeIt.make.
  rewrite (findEdge_first g Hwf u v Hu). cbn [bind].
  destruct (edges_between g u v) as [|e q] eqn:E.
  - cbn [hd]. unfold fuel_of_edges. reflexivity.
  - cbn [hd]. rewrite <- E in Hor.
    apply (con_edge_run_from u v Hor q [] (fuel_of_edges g) e E).
    pose proof (edges_between_length u v) as L. rewrite E in L.
    cbn [length] in L. unfold fuel_of_edges. lia.
Qed.

End ConEdge.

(** ** Counting the ends of edges *)

Lemma nodup_tagged (b : bool) (l : list Edge) :
  NoDup l -> NoDup (map (fun e => (e, b)) l).
Proof.
  induction 1 as [|x l Hni _ IH]; [constructor|].
  cbn [map]. constructor; [|exact IH].
  intros F. apply in_map_iff in F. destruct F as [y [E Hy]].
  injection E as ->. exact (Hni Hy).
Qed.

Lemma fold_add_split (a b : Node -> nat) (ns : list Node) :
  fold_right (fun n acc => Nat.add (Nat.add (a n) (b n)) acc) 0%nat ns
  = Nat.add (fold_right (fun n acc => Nat.add (a n) acc) 0%nat ns)
            (fold_right (fun n acc => Nat.add (b n) acc) 0%nat ns).
Proof.
  induction ns as [|n ns IH]; [reflexivity|].
  cbn [fold_right]. rewrite IH. lia.
Qed.

Lemma fold_add_ext (a b : Node -> nat) (ns : list Node) :
  (forall n, In n ns -> a n = b n) ->
  fold_right (fun n acc => Nat.add (a n) acc) 0%nat ns
  = fold_right (fun n acc => Nat.add (b n) acc) 0%nat ns.
Proof.
  induction ns as [|n ns IH]; intros H; [reflexivity|].
  cbn [fold_right]. rewrite (H n (or_introl eq_refl)), IH; [reflexivity|].
  intros m Hm. apply H. right. exact Hm.
Qed.

Lemma inc_by_ends (g : Graph) (n : Node) :
  wf_ugraph g ->
  length (inc g n)
  = Nat.add (length (filter (fun e => edge_u g e =? n) (edges g)))
            (length (filter (fun e => edge_v g e =? n) (edges g))).
Proof.
  intros Hwf.
  rewrite <- (length_map (fun e => (e, true))
                (filter (fun e => edge_u g e =? n) (edges g))).
  rewrite <- (length_map (fun e => (e, false))
                (filter (fun e => edge_v g e =? n) (edges g))).
  rewrite <- length_app. apply Permutation_length.
  apply NoDup_Permutation.
  - exact (wfu_inc_nodup g Hwf n).
  - apply NoDup_app.
    + apply nodup_tagged, NoDup_filter. exact (wfu_edges_nodup g Hwf).
    + apply nodup_tagged, NoDup_filter. exact (wfu_edges_nodup g Hwf).
    + intros [e b] H1 H2.
      apply in_map_iff in H1. destruct H1 as [x [E1 _]].
      apply in_map_iff in H2. destruct H2 as [y [E2 _]].
      congruence.
  - intros [e b]. rewrite (wfu_inc g Hwf), in_app_iff, !in_map_iff. split.
    + intros [He Hn]. destruct b; [left | right]; exists e;
        (split; [reflexivity|]); apply filter_In; (split; [exact He|]);
        apply Z.eqb_eq; exact Hn.
    + intros [[x [E H]]|[x [E H]]]; injection E as -> <-;
        apply filter_In in H; destruct H as [He Hn]; apply Z.eqb_eq in Hn;
        split; assumption.
Qed.

Lemma wf_ug_sample : wf_ugraph ug_sample.
Proof.
  constructor.
  - cbn. repeat constructor; cbn; intuition discriminate.
  - cbn. intuition discriminate.
  - cbn. intuition discriminate.
  - intros e He. cbn in He.
    destruct He as [<-|[<-|[<-|[<-|[]]]]]; vm_compute; tauto.
  - intros n. unfold ug_sample, mkGraph, inc. cbn [flat_map fst snd app].
    destruct (0 =? n) eqn:E0; destruct (1 =? n) eqn:E1;
      destruct (2 =? n) eqn:E2;
      try (apply Z.eqb_eq in E0; apply Z.eqb_eq in E1; lia);
      try (apply Z.eqb_eq in E0; apply Z.eqb_eq in E2; lia);
      try (apply Z.eqb_eq in E1; apply Z.eqb_eq in E2; lia);
      cbn [app]; repeat constructor; cbn [In];
      intuition discriminate.
  - intros n e b. unfold ug_sample, mkGraph, inc, edges, edge_u, edge_v.
    cbn [flat_map fst snd app map fold_right].
    split.
    + intros H.
      destruct (0 =? n) eqn:E0; destruct (1 =? n) eqn:E1;
        destruct (2 =? n) eqn:E2;
        try (apply Z.eqb_eq in E0; apply Z.eqb_eq in E1; lia);
        try (apply Z.eqb_eq in E0; apply Z.eqb_eq in E2; lia);
        try (apply Z.eqb_eq in E1; apply Z.eqb_eq in E2; lia);
        cbn [app In] in H;
        repeat match goal with
               | H : _ \/ _ |- _ => destruct H as [H|H]
               | H : False |- _ => destruct H
               | H : (_, _) = (_, _) |- _ => injection H as <- <-
               end;
        try (apply Z.eqb_eq in E0); try (apply Z.eqb_eq in E1);
        try (apply Z.eqb_eq in E2); subst n;
        (split; [cbn [In]; tauto | reflexivity]).
    + intros [He Hn]. cbn [In] in He.
      destruct He as [<-|[<-|[<-|[<-|[]]]]]; destruct b;
        cbv [upd Z.eqb Pos.eqb] in Hn; subst n;
        cbn [Z.eqb Pos.eqb app In]; tauto.
Qed.

(** X20: for [u] a node, [findEdge(g,u,v)] returns the first edge
    between [u] and [v] in the order in which [u] meets its edges, and
    [findEdge(g,u,v,prev)], for [prev] such an edge, the one that
    follows [prev] among them (INVALID when there is none); these edges
    are the edges of the graph with the ends [u] and [v], whichever
    way round they are stored, each of them once, a loop too. *)
Theorem findEdge_follows_incidence_order :
  forall (g : Graph) (u v : Node),
    wf_ugraph g -> u <> INVALID ->
    findEdge g u v INVALID = Ok (hd INVALID (edges_between g u v)) /\
    (forall prev, In prev (edges_between g u v) ->
       findEdge g u v prev
       = Ok (succ_of prev (edges_between g u v) INVALID)) /\
    NoDup (edges_between g u v) /\
    (forall e, In e (edges_between g u v) <->
       In e (edges g) /\
       ((edge_u g e = u /\ edge_v g e = v) \/
        (edge_u g e = v /\ edge_v g e = u))).
Proof.
  intros g u v Hwf Hu.
  split; [exact (findEdge_first g Hwf u v Hu)|].
  split; [exact (findEdge_next g Hwf u v)|].
  split; [exact (edges_between_nodup g Hwf u v)|].
  exact (edges_between_in g Hwf u v).
Qed.

Lemma findEdge_follows_incidence_order_witness :
  wf_ugraph ug_sample /\ 0 <> INVALID /\
  findEdge ug_sample 0 1 INVALID
  = Ok (hd INVALID (edges_between ug_sample 0 1)) /\
  (forall prev, In prev (edges_between ug_sample 0 1) ->
     findEdge ug_sample 0 1 prev
     = Ok (succ_of prev (edges_between ug_sample 0 1) INVALID)) /\
  NoDup (edges_between ug_sample 0 1) /\
  (forall e, In e (edges_between ug_sample 0 1) <->
     In e (edges ug_sample) /\
     ((edge_u ug_sample e = 0 /\ edge_v ug_sample e = 1) \/
      (edge_u ug_sample e = 1 /\ edge_v ug_sample e = 0))).
Proof.
  assert (H0 : 0 <> INVALID) by discriminate.
  split; [exact wf_ug_sample|]. split; [exact H0|].
  exact (findEdge_follows_incidence_order ug_sample 0 1 wf_ug_sample H0).
Defined.

(** X21: the loop [for (ConEdgeIt it(g,u,v); it != INVALID; ++it)]
    returns and stands, one after the other, on the edges between [u]
    and [v], all of them, each once, when every such edge is stored
    with [u] as its [u] end, or when [v] meets these edges in the same
    order as [u] does ([operator++] goes on from the ends of the edge
    it stands on, not from the nodes the iterator was made with); for
    [u = v] this holds of itself. *)
Theorem con_edge_it_enumerates :
  forall (g : Graph) (u v : Node),
    wf_ugraph g -> u <> INVALID ->
    (forall e, In e (edges_between g u v) -> edge_u g e = u) \/
    edges_between g v u = edges_between g u v ->
    ConEdgeIt.run g u v = Ok (edges_between g u v) /\
    NoDup (edges_between g u v) /\
    (forall e, In e (edges_between g u v) <->
       In e (edges g) /\
       ((edge_u g e = u /\ edge_v g e = v) \/
        (edge_u g e = v /\ edge_v g e = u))).
Proof.
  intros g u v Hwf Hu Hor.
  split; [exact (con_edge_run g Hwf u v Hu Hor)|].
  split; [exact (edges_between_nodup g Hwf u v)|].
  exact (edges_between_in g Hwf u v).
Qed.

Lemma con_edge_it_enumerates_witness :
  wf_ugraph ug_sample /\ 0 <> INVALID /\
  ((forall e, In e (edges_between ug_sample 0 1) -> edge_u ug_sample e = 0) \/
   edges_between ug_sample 1 0 = edges_between ug_sample 0 1) /\
  ConEdgeIt.run ug_sample 0 1 = Ok (edges_between ug_sample 0 1) /\
  NoDup (edges_between ug_sample 0 1) /\
  (forall e, In e (edges_between ug_sample 0 1) <->
     In e (edges ug_sample) /\
     ((edge_u ug_sample e = 0 /\ edge_v ug_sample e = 1) \/
      (edge_u ug_sample e = 1 /\ edge_v ug_sample e = 0))).
Proof.
  assert (H0 : 0 <> INVALID) by discriminate.
  assert (Hor : (forall e, In e (edges_between ug_sample 0 1) ->
                   edge_u ug_sample e = 0) \/
                edges_between ug_sample 1 0 = edges_between ug_sample 0 1)
    by (right; reflexivity).
  split; [exact wf_ug_sample|]. split; [exact H0|]. split; [exact Hor|].
  exact (con_edge_it_enumerates ug_sample 0 1 wf_ug_sample H0 Hor).
Defined.

(** X22: on a graph with fewer than 2^30 edges and no repeated node,
    [countEdges] returns the number of edges and the values
    [countIncEdges(g,n)] of all nodes add up to twice that number: a
    loop counts twice at its node. *)
Theorem inc_edge_counts_add_up :
  forall g : Graph,
    wf_ugraph g -> NoDup (gnodes g) ->
    2 * Z.of_nat (length (edges g)) < 2 ^ 31 ->
    countEdges g = Z.of_nat (length (edges g)) /\
    sum_over (countIncEdges g) (gnodes g) = Ok (2 * countEdges g).
Proof.
  intros g Hwf Hnd Hlen.
  assert (Hc : countEdges g = Z.of_nat (length (edges g))).
  { unfold countEdges. rewrite countItems_wrap. apply int_wrap_small. lia. }
  split; [exact Hc|].
  rewrite (sum_over_lengths (countIncEdges g) (fun n => length (inc g n))).
  - rewrite (fold_add_ext _ _ (gnodes g) (fun n _ => inc_by_ends g n Hwf)).
    rewrite fold_add_split.
    rewrite <- (length_by_key (edge_u g) (gnodes g) (edges g) Hnd).
    + rewrite <- (length_by_key (edge_v g) (gnodes g) (edges g) Hnd).
      * rewrite Hc. f_equal. lia.
      * intros e He. apply (wfu_ends g Hwf e He).
    + intros e He. apply (wfu_ends g Hwf e He).
  - intros n Hn.
    assert (Hv : n <> INVALID)
      by (intros ->; exact (wfu_nodes_valid g Hwf Hn)).
    unfold countIncEdges. rewrite (eqb_invalid_false n Hv).
    rewrite countNodeDegree_wrap, length_map, int_wrap_small; [reflexivity|].
    pose proof (inc_length g Hwf n). lia.
Qed.

Lemma inc_edge_counts_add_up_witness :
  wf_ugraph ug_sample /\ NoDup (gnodes ug_sample) /\
  2 * Z.of_nat (length (edges ug_sample)) < 2 ^ 31 /\
  countEdges ug_sample = Z.of_nat (length (edges ug_sample)) /\
  sum_over (countIncEdges ug_sample) (gnodes ug_sample)
  = Ok (2 * countEdges ug_sample).
Proof.
  assert (Hnd : NoDup (gnodes ug_sample)).
  { cbn. repeat constructor; cbn; intuition discriminate. }
  assert (Hlen : 2 * Z.of_nat (length (edges ug_sample)) < 2 ^ 31)
    by (cbn; lia).
  split; [exact wf_ug_sample|]. split; [exact Hnd|]. split; [exact Hlen|].
  exact (inc_edge_counts_add_up ug_sample wf_ug_sample Hnd Hlen).
Defined.
